(** * onyx_font: a shallow embedding of the text core

    The development follows the layering of the library, leaf to root:
    UTF-8 decoding ([utf8.cc]), raster targets ([raster_target.hh]), the
    font source ([font_source.cc]), the atlas surface and the glyph cache
    ([atlas_surface.hh], [glyph_cache.hh]) and the text renderer
    ([text_renderer.hh]).

    Conventions.
    - [int], [uint8_t], [uint32_t] and [char32_t] values are integers of [Z];
      where the source relies on a bound (a byte, a channel) the bound is a
      hypothesis of the statement or is carried by the type ([byte]).
    - [std::string_view] is a [list byte].
    - [float] values are rationals of [Q]: every finite float is a rational,
      and the embedding takes float arithmetic as exact. The statements
      about such values are inequalities and equalities of positions and
      widths in that exact arithmetic. Where rounded sums decide how many
      times a loop turns ([draw_wrapped]) the sum is a function of which
      nothing is assumed.
    - A C++ exception is the [Throw] result of the [except] type. A call
      that does not return at all is a [Throw] of [aborted]: a failed
      [ENFORCE] inside a [noexcept] function ends the program, and an
      unchecked read past the end of a vector has no defined behaviour;
      the embedding treats both as a failure of their own kind.
    - A quotient whose divisor is zero is 0 in [Q] where the float is
      infinite or not a number; no statement depends on the value of such
      a quotient. *)

From Stdlib Require Import ZArith QArith Qround Lia Lqa List Bool.
From Stdlib Require Import Strings.Byte Strings.String.
From stdpp Require Import base option list gmap.

Open Scope Z_scope.

(** ** Exceptions *)

Inductive exception : Type :=
| out_of_range (what : string)
| aborted (what : string).

Inductive except (A : Type) : Type :=
| Ok (a : A)
| Throw (e : exception).
Arguments Ok {A} a.
Arguments Throw {A} e.

Definition is_out_of_range {A} (r : except A) : Prop :=
  match r with
  | Throw (out_of_range _) => True
  | _ => False
  end.

Definition is_aborted {A} (r : except A) : Prop :=
  match r with
  | Throw (aborted _) => True
  | _ => False
  end.

(** ** Bytes *)

Definition byte_val (b : byte) : Z := Z.of_N (Byte.to_N b).

(** ** utf8.cc *)

Module Utf8.

Record utf8_decode_result := mk_result {
  codepoint : Z;
  bytes_consumed : Z
}.

Definition REPLACEMENT_CHAR : Z := 0xFFFD.

Definition is_continuation (c : Z) : bool := Z.land c 0xC0 =? 0x80.

(** [data[i]] of the source; every access is guarded by a length test. *)
Definition data (str : list byte) (i : nat) : Z :=
  byte_val (nth i str Byte.x00).

Definition len (str : list byte) : Z := Z.of_nat (length str).

Definition utf8_decode_one (str : list byte) : utf8_decode_result :=
  match str with
  | [] => mk_result REPLACEMENT_CHAR 0
  | _ :: _ =>
    let first := data str 0 in
    if first <? 0x80 then mk_result first 1
    else if Z.land first 0xC0 =? 0x80 then mk_result REPLACEMENT_CHAR 1
    else if 0xF8 <=? first then mk_result REPLACEMENT_CHAR 1
    else if Z.land first 0xE0 =? 0xC0 then
      if (len str <? 2) || negb (is_continuation (data str 1))
      then mk_result REPLACEMENT_CHAR 1
      else
        let cp := Z.lor (Z.shiftl (Z.land first 0x1F) 6)
                        (Z.land (data str 1) 0x3F) in
        if cp <? 0x80 then mk_result REPLACEMENT_CHAR 2
        else mk_result cp 2
    else if Z.land first 0xF0 =? 0xE0 then
      if (len str <? 3) || negb (is_continuation (data str 1))
         || negb (is_continuation (data str 2))
      then mk_result REPLACEMENT_CHAR 1
      else
        let cp := Z.lor (Z.lor (Z.shiftl (Z.land first 0x0F) 12)
                               (Z.shiftl (Z.land (data str 1) 0x3F) 6))
                        (Z.land (data str 2) 0x3F) in
        if cp <? 0x800 then mk_result REPLACEMENT_CHAR 3
        else if (0xD800 <=? cp) && (cp <=? 0xDFFF)
             then mk_result REPLACEMENT_CHAR 3
             else mk_result cp 3
    else if Z.land first 0xF8 =? 0xF0 then
      if (len str <? 4) || negb (is_continuation (data str 1))
         || negb (is_continuation (data str 2))
         || negb (is_continuation (data str 3))
      then mk_result REPLACEMENT_CHAR 1
      else
        let cp := Z.lor (Z.lor (Z.lor (Z.shiftl (Z.land first 0x07) 18)
                                      (Z.shiftl (Z.land (data str 1) 0x3F) 12))
                               (Z.shiftl (Z.land (data str 2) 0x3F) 6))
                        (Z.land (data str 3) 0x3F) in
        if cp <? 0x10000 then mk_result REPLACEMENT_CHAR 4
        else if 0x10FFFF <? cp then mk_result REPLACEMENT_CHAR 4
        else mk_result cp 4
    else mk_result REPLACEMENT_CHAR 1
  end.

(** *** utf8_iterator and utf8_view *)

Record utf8_iterator := mk_iterator {
  m_remaining : list byte;
  m_current : Z;
  m_at_end : bool
}.

(** The default constructor: the end position. *)
Definition utf8_iterator_end : utf8_iterator := mk_iterator [] 0 true.

(** [utf8_iterator(str)] decodes the first codepoint. *)
Definition utf8_iterator_new (str : list byte) : utf8_iterator :=
  match str with
  | [] => mk_iterator str 0 true
  | _ :: _ =>
    let r := utf8_decode_one str in
    mk_iterator (if 0 <? bytes_consumed r
                 then drop (Z.to_nat (bytes_consumed r)) str else str)
                (codepoint r) false
  end.

(** [decode_next], the body of [operator++]. *)
Definition decode_next (it : utf8_iterator) : utf8_iterator :=
  match m_remaining it with
  | [] => mk_iterator (m_remaining it) 0 true
  | _ :: _ =>
    let r := utf8_decode_one (m_remaining it) in
    if 0 <? bytes_consumed r
    then mk_iterator (drop (Z.to_nat (bytes_consumed r)) (m_remaining it))
                     (codepoint r) (m_at_end it)
    else mk_iterator (m_remaining it) (codepoint r) true
  end.

(** [operator==]; positions are offsets into one string, so two positions
    not at the end are equal when as many bytes remain. *)
Definition utf8_iterator_eq (a b : utf8_iterator) : bool :=
  if m_at_end a && m_at_end b then true
  else if negb (eqb (m_at_end a) (m_at_end b)) then false
  else (length (m_remaining a) =? length (m_remaining b))%nat.

(** The codepoints a range-for loop over [utf8_view] sees:
    [for (it = begin(); it != end(); ++it) yield *it]. The recursion is on a
    budget of iterations; [utf8_view] gives one more than the bytes of the
    string, which suffices since every [++] consumes a byte. *)
Fixpoint utf8_collect (fuel : nat) (it : utf8_iterator) : list Z :=
  match fuel with
  | O => []
  | S fuel' =>
    if utf8_iterator_eq it utf8_iterator_end then []
    else m_current it :: utf8_collect fuel' (decode_next it)
  end.

Definition utf8_view (str : list byte) : list Z :=
  utf8_collect (length str + 1) (utf8_iterator_new str).

(** *** The vocabulary of the UTF-8 standard, by byte ranges *)

Definition is_trail (b : Z) : bool := (0x80 <=? b) && (b <=? 0xBF).

(** The sequence length a lead byte announces; [0] for a byte that cannot
    lead a sequence (a continuation byte, or [0xF8] and above). *)
Definition announced_length (first : Z) : Z :=
  if first <? 0x80 then 1
  else if first <? 0xC0 then 0
  else if first <? 0xE0 then 2
  else if first <? 0xF0 then 3
  else if first <? 0xF8 then 4
  else 0.

(** Are the [n] bytes after the lead present, each a continuation byte? *)
Fixpoint trails_ok (n : nat) (rest : list byte) : bool :=
  match n with
  | O => true
  | S n' =>
    match rest with
    | [] => false
    | b :: rest' => is_trail (byte_val b) && trails_ok n' rest'
    end
  end.

Definition structurally_valid (str : list byte) : bool :=
  match str with
  | [] => false
  | b :: rest =>
    let n := announced_length (byte_val b) in
    (0 <? n) && trails_ok (Z.to_nat (n - 1)) rest
  end.

Definition structurally_invalid (str : list byte) : bool :=
  match str with
  | [] => false
  | _ :: _ => negb (structurally_valid str)
  end.

(** The payload of a structurally valid sequence, by place value. *)
Definition payload (str : list byte) : Z :=
  let first := data str 0 in
  match announced_length first with
  | 2 => (first mod 32) * 64 + (data str 1) mod 64
  | 3 => (first mod 16) * 4096 + ((data str 1) mod 64) * 64 + (data str 2) mod 64
  | 4 => (first mod 8) * 262144 + ((data str 1) mod 64) * 4096
         + ((data str 2) mod 64) * 64 + (data str 3) mod 64
  | _ => first
  end.

(** The least codepoint that needs a sequence of the given length. *)
Definition least_for_length (n : Z) : Z :=
  match n with
  | 2 => 0x80
  | 3 => 0x800
  | 4 => 0x10000
  | _ => 0
  end.

Definition overlong (str : list byte) : bool :=
  structurally_valid str
  && (payload str <? least_for_length (announced_length (data str 0))).

Definition surrogate_encoded (str : list byte) : bool :=
  structurally_valid str
  && (announced_length (data str 0) =? 3)
  && (0xD800 <=? payload str) && (payload str <=? 0xDFFF).

(** The offsets of a byte sequence at which repeated decoding arrives. *)
Inductive boundary : list byte -> nat -> Prop :=
| boundary_here str : boundary str 0
| boundary_next str n k :
    str <> [] ->
    n = Z.to_nat (bytes_consumed (utf8_decode_one str)) ->
    boundary (drop n str) k ->
    boundary str (n + k).

End Utf8.

(** ** raster_target.hh *)

Module RasterTarget.

(** [std::memcpy(dst + d, src + s, n)]: the block [src[s .. s+n)] replaces
    [dst[d .. d+n)]. The source requires both blocks to lie inside their
    buffers; the statements below carry that requirement. *)
Definition memcpy (dst : list Z) (d : nat) (src : list Z) (s n : nat) : list Z :=
  take d dst ++ take n (drop s src) ++ drop (d + n) dst.

(** *** grayscale_target *)

Record grayscale_target := mk_grayscale {
  m_buffer : list Z;
  m_width : Z;
  m_height : Z;
  m_stride : Z
}.

(** The constructor: [stride > 0 ? stride : width]. *)
Definition grayscale_target_new (buffer : list Z) (width height stride : Z)
  : grayscale_target :=
  mk_grayscale buffer width height (if 0 <? stride then stride else width).

Definition with_buffer (t : grayscale_target) (buffer : list Z) : grayscale_target :=
  mk_grayscale buffer (m_width t) (m_height t) (m_stride t).

Definition put_pixel (t : grayscale_target) (x y alpha : Z) : grayscale_target :=
  if (0 <=? x) && (x <? m_width t) && (0 <=? y) && (y <? m_height t)
  then with_buffer t (<[Z.to_nat (y * m_stride t + x) := alpha]> (m_buffer t))
  else t.

Definition put_span (t : grayscale_target) (x y : Z) (alphas : list Z) (count : Z)
  : grayscale_target :=
  if (y <? 0) || (m_height t <=? y) then t
  else
    let x0 := Z.max 0 x in
    let x1 := Z.min (m_width t) (x + count) in
    if x0 <? x1
    then with_buffer t
           (memcpy (m_buffer t) (Z.to_nat (y * m_stride t + x0))
                   alphas (Z.to_nat (x0 - x)) (Z.to_nat (x1 - x0)))
    else t.

(** The per-pixel path: [for (i = 0; i < count; ++i) put_pixel(x + i, y, alphas[i])]. *)
Definition put_pixel_loop (t : grayscale_target) (x y : Z) (alphas : list Z) (count : Z)
  : grayscale_target :=
  foldl (fun t i => put_pixel t (x + Z.of_nat i) y (nth i alphas 0))
        t (seq 0 (Z.to_nat count)).

(** The constructor's contract on the buffer ("must be at least
    stride * height bytes"), with rows that do not overlap. *)
Definition buffer_covers (t : grayscale_target) : Prop :=
  m_width t <= m_stride t
  /\ m_stride t * m_height t <= Z.of_nat (length (m_buffer t)).

(** *** rgba_blend_target *)

Definition u8 (z : Z) : Z := z mod 2 ^ 8.
Definition u32 (z : Z) : Z := z mod 2 ^ 32.

Record rgba_blend_target := mk_rgba {
  rgba_buffer : list Z;
  rgba_width : Z;
  rgba_height : Z;
  m_color_r : Z;
  m_color_g : Z;
  m_color_b : Z
}.

Definition rgba_blend_target_new (buffer : list Z) (width height color : Z)
  : rgba_blend_target :=
  mk_rgba buffer width height
          (u8 (Z.land (Z.shiftr color 16) 0xFF))
          (u8 (Z.land (Z.shiftr color 8) 0xFF))
          (u8 (Z.land color 0xFF)).

Definition pack (a r g b : Z) : Z :=
  Z.lor (Z.lor (Z.lor (u32 (Z.shiftl a 24)) (u32 (Z.shiftl r 16)))
               (u32 (Z.shiftl g 8)))
        b.

Definition chan_a (p : Z) : Z := u8 (Z.land (Z.shiftr p 24) 0xFF).
Definition chan_r (p : Z) : Z := u8 (Z.land (Z.shiftr p 16) 0xFF).
Definition chan_g (p : Z) : Z := u8 (Z.land (Z.shiftr p 8) 0xFF).
Definition chan_b (p : Z) : Z := u8 (Z.land p 0xFF).

(** The pixel stored at [m_buffer[y * m_width + x]]. *)
Definition pixel_at (t : rgba_blend_target) (x y : Z) : Z :=
  nth (Z.to_nat (y * rgba_width t + x)) (rgba_buffer t) 0.

Definition blend (t : rgba_blend_target) (dst alpha : Z) : Z :=
  if alpha =? 255
  then pack 255 (m_color_r t) (m_color_g t) (m_color_b t)
  else
    let dst_a := chan_a dst in
    let dst_r := chan_r dst in
    let dst_g := chan_g dst in
    let dst_b := chan_b dst in
    let inv_alpha := u32 (255 - alpha) in
    let out_a := u32 (alpha + u32 (dst_a * inv_alpha + 127) / 255) in
    let out_r := u32 (m_color_r t * alpha + dst_r * inv_alpha + 127) / 255 in
    let out_g := u32 (m_color_g t * alpha + dst_g * inv_alpha + 127) / 255 in
    let out_b := u32 (m_color_b t * alpha + dst_b * inv_alpha + 127) / 255 in
    pack out_a out_r out_g out_b.

Definition rgba_put_pixel (t : rgba_blend_target) (x y alpha : Z)
  : rgba_blend_target :=
  if (0 <=? x) && (x <? rgba_width t) && (0 <=? y) && (y <? rgba_height t)
     && (0 <? alpha)
  then
    let i := Z.to_nat (y * rgba_width t + x) in
    mk_rgba (<[i := blend t (pixel_at t x y) alpha]> (rgba_buffer t))
            (rgba_width t) (rgba_height t)
            (m_color_r t) (m_color_g t) (m_color_b t)
  else t.

End RasterTarget.

(** ** types.hh *)

Record glyph_rect := mk_rect {
  rect_x : Z;
  rect_y : Z;
  rect_w : Z;
  rect_h : Z
}.

Record glyph_metrics := mk_glyph_metrics {
  advance_x : Q;
  bearing_x : Q;
  bearing_y : Q;
  width : Q;
  height : Q
}.

(** A value-initialised [glyph_metrics]: every field is zero. *)
Definition zero_metrics : glyph_metrics := mk_glyph_metrics 0 0 0 0 0.

(** ** font_source.cc, with the font assets it reads *)

Module FontSource.

Definition float_of_int (z : Z) : Q := inject_Z z.

(** *** bitmap_font *)

Record glyph_spacing := mk_spacing {
  a_space : option Z;
  b_space : option Z;
  c_space : option Z
}.

Record bitmap_view := mk_view {
  view_width : Z;
  view_height : Z;
  view_pixel : Z -> Z -> bool
}.

Record font_metrics := mk_font_metrics {
  fm_ascent : Z;
  fm_pixel_height : Z;
  fm_external_leading : Z
}.

Record bitmap_font := mk_bitmap_font {
  bf_name : string;
  bf_first_char : byte;
  bf_last_char : byte;
  bf_default_char : byte;
  bf_metrics : font_metrics;
  bf_spacing : list glyph_spacing;
  bf_storage : list bitmap_view
}.

Definition bf_out_of_font (font : bitmap_font) (ch : Z) : bool :=
  (ch <? byte_val (bf_first_char font)) || (byte_val (bf_last_char font) <? ch).

(** [bitmap_font::bitmap_font()]: no glyphs, and every member zero. *)
Definition bitmap_font_new : bitmap_font :=
  mk_bitmap_font "" Byte.x00 Byte.x00 Byte.x00 (mk_font_metrics 0 0 0) [] [].

(** [bitmap_font::get_spacing] and [bitmap_font::get_glyph] throw on a
    character outside [first_char, last_char]. Inside the range
    [get_spacing] reads [m_spacing[ch - m_first_char]] unchecked, and
    [get_glyph] calls [bitmap_storage::view], whose
    [ENFORCE(glyph_index < m_glyphs.size())] stands in a [noexcept]
    function: on a table shorter than the range neither returns. *)
Definition get_spacing (font : bitmap_font) (ch : Z) : except glyph_spacing :=
  if bf_out_of_font font ch
  then Throw (out_of_range "Character is out of range for font")
  else
    match bf_spacing font !! Z.to_nat (ch - byte_val (bf_first_char font)) with
    | Some spacing => Ok spacing
    | None => Throw (aborted "m_spacing read past its end")
    end.

Definition get_glyph (font : bitmap_font) (ch : Z) : except bitmap_view :=
  if bf_out_of_font font ch
  then Throw (out_of_range "Character is out of range for font")
  else
    match bf_storage font !! Z.to_nat (ch - byte_val (bf_first_char font)) with
    | Some glyph => Ok glyph
    | None => Throw (aborted "ENFORCE(glyph_index < m_glyphs.size())")
    end.

(** The tables of a font hold an entry for every character of its range,
    as those of a font a loader has filled do. The tables of a
    default-constructed font do not: its range is the character 0 and its
    tables are empty. *)
Definition tables_cover (font : bitmap_font) : Prop :=
  byte_val (bf_last_char font) - byte_val (bf_first_char font)
  < Z.of_nat (length (bf_spacing font))
  /\ byte_val (bf_last_char font) - byte_val (bf_first_char font)
     < Z.of_nat (length (bf_storage font)).

(** *** vector_font *)

Inductive stroke_type := MOVE_TO | LINE_TO | END.

Record stroke_command := mk_stroke {
  cmd_type : stroke_type;
  cmd_dx : Z;
  cmd_dy : Z
}.

Record vector_glyph := mk_vector_glyph {
  vg_width : Z;
  vg_strokes : list stroke_command
}.

Record vector_font_metrics := mk_vector_metrics {
  vm_pixel_height : Z;
  vm_ascent : Z;
  vm_descent : Z
}.

Record vector_font := mk_vector_font {
  vf_first_char : byte;
  vf_last_char : byte;
  vf_default_char : byte;
  vf_metrics : vector_font_metrics;
  vf_glyphs : list vector_glyph
}.

Definition vf_has_glyph (font : vector_font) (ch : Z) : bool :=
  (byte_val (vf_first_char font) <=? ch) && (ch <=? byte_val (vf_last_char font)).

(** [vector_font::get_glyph]: a null pointer is [None]. Inside the range
    it returns [&m_glyphs[ch - m_first_char]] unchecked: on a table shorter
    than the range the pointer is past the end. *)
Definition vf_get_glyph (font : vector_font) (ch : Z)
  : except (option vector_glyph) :=
  if negb (vf_has_glyph font ch) then Ok None
  else
    match vf_glyphs font !! Z.to_nat (ch - byte_val (vf_first_char font)) with
    | Some glyph => Ok (Some glyph)
    | None => Throw (aborted "m_glyphs read past its end")
    end.

(** [vector_font::vector_font()]: no glyphs, and every member zero. *)
Definition vector_font_new : vector_font :=
  mk_vector_font Byte.x00 Byte.x00 Byte.x00 (mk_vector_metrics 0 0 0) [].

(** The glyph table of a stroke font holds an entry for every character of
    its range. *)
Definition glyphs_cover (font : vector_font) : Prop :=
  byte_val (vf_last_char font) - byte_val (vf_first_char font)
  < Z.of_nat (length (vf_glyphs font)).

(** *** ttf_font, over the outline parser it wraps *)

Record ttf_font := mk_ttf_font {
  ttf_is_valid : bool;
  stbtt_FindGlyphIndex : Z -> Z;
  stbtt_GetGlyphBox : Z -> Z * Z * Z * Z;
  stbtt_GetGlyphHMetrics : Z -> Z * Z;
  stbtt_GetCodepointKernAdvance : Z -> Z -> Z;
  ttf_get_scale : Q -> Q
}.

Record ttf_glyph_metrics := mk_ttf_glyph_metrics {
  ttf_advance_x : Q;
  ttf_bearing_x : Q;
  ttf_bearing_y : Q;
  ttf_width : Q;
  ttf_height : Q
}.

Definition ttf_get_glyph_metrics (font : ttf_font) (codepoint : Z) (pixel_height : Q)
  : option ttf_glyph_metrics :=
  if negb (ttf_is_valid font) then None
  else
    let glyph_index := stbtt_FindGlyphIndex font codepoint in
    if (glyph_index =? 0) && negb (codepoint =? 0) then None
    else
      let scale := ttf_get_scale font pixel_height in
      let '(ix0, iy0, ix1, iy1) := stbtt_GetGlyphBox font glyph_index in
      let x0 := (float_of_int ix0 * scale)%Q in
      let y0 := (float_of_int iy0 * scale)%Q in
      let x1 := (float_of_int ix1 * scale)%Q in
      let y1 := (float_of_int iy1 * scale)%Q in
      let '(advance_width, left_bearing) := stbtt_GetGlyphHMetrics font glyph_index in
      Some (mk_ttf_glyph_metrics (float_of_int advance_width * scale)%Q
                                 (float_of_int left_bearing * scale)%Q
                                 y1 (x1 - x0)%Q (y1 - y0)%Q).

Definition ttf_has_glyph (font : ttf_font) (codepoint : Z) : bool :=
  if negb (ttf_is_valid font) then false
  else negb (stbtt_FindGlyphIndex font codepoint =? 0) || (codepoint =? 0).

Definition ttf_get_kerning (font : ttf_font) (first second : Z) (pixel_height : Q) : Q :=
  if negb (ttf_is_valid font) then 0%Q
  else (float_of_int (stbtt_GetCodepointKernAdvance font first second)
        * ttf_get_scale font pixel_height)%Q.

(** *** font_source *)

Inductive font_source :=
| bitmap_ref (font : bitmap_font)
| vector_ref (font : vector_font)
| ttf_ref (font : ttf_font).

Inductive font_source_type := bitmap | vector | outline.

Definition type (fs : font_source) : font_source_type :=
  match fs with
  | bitmap_ref _ => bitmap
  | vector_ref _ => vector
  | ttf_ref _ => outline
  end.

(** [static_cast<uint8_t>(codepoint)] *)
Definition to_uint8 (codepoint : Z) : Z := codepoint mod 256.

Definition has_glyph (fs : font_source) (codepoint : Z) : bool :=
  match fs with
  | bitmap_ref font =>
    if 255 <? codepoint then false
    else
      let ch := to_uint8 codepoint in
      (byte_val (bf_first_char font) <=? ch) && (ch <=? byte_val (bf_last_char font))
  | vector_ref font =>
    if 255 <? codepoint then false
    else vf_has_glyph font (to_uint8 codepoint)
  | ttf_ref font => ttf_has_glyph font codepoint
  end.

Definition default_char (fs : font_source) : Z :=
  match fs with
  | bitmap_ref font => byte_val (bf_default_char font)
  | vector_ref font => byte_val (vf_default_char font)
  | ttf_ref _ => 63 (* '?' *)
  end.

Definition bind {A B} (r : except A) (k : A -> except B) : except B :=
  match r with
  | Ok a => k a
  | Throw e => Throw e
  end.

(** The bitmap branch once the character is settled. *)
Definition bitmap_glyph_metrics (font : bitmap_font) (ch : Z) : except glyph_metrics :=
  bind (get_spacing font ch) (fun spacing =>
  bind (get_glyph font ch) (fun glyph =>
    let advance := 0%Q in
    let advance :=
      match a_space spacing with
      | Some a => (advance + float_of_int a)%Q
      | None => advance
      end in
    let advance :=
      match b_space spacing with
      | Some b => (advance + float_of_int b)%Q
      | None => (advance + float_of_int (view_width glyph))%Q
      end in
    let advance :=
      match c_space spacing with
      | Some c => (advance + float_of_int c)%Q
      | None => advance
      end in
    Ok (mk_glyph_metrics
          advance
          (match a_space spacing with
           | Some a => float_of_int a
           | None => 0%Q
           end)
          (float_of_int (fm_ascent (bf_metrics font)))
          (float_of_int (view_width glyph))
          (float_of_int (view_height glyph))))).

(** The bounding box the stroke branch accumulates:
    [(pen_x, pen_y, min_x, min_y, max_x, max_y)]. *)
Definition stroke_box_step (st : Z * Z * Z * Z * Z * Z) (cmd : stroke_command)
  : Z * Z * Z * Z * Z * Z :=
  let '(pen_x, pen_y, min_x, min_y, max_x, max_y) := st in
  match cmd_type cmd with
  | END => st
  | _ =>
    let pen_x := pen_x + cmd_dx cmd in
    let pen_y := pen_y + cmd_dy cmd in
    (pen_x, pen_y, Z.min min_x pen_x, Z.min min_y pen_y,
     Z.max max_x pen_x, Z.max max_y pen_y)
  end.

(** The metrics of the stroke branch of [get_glyph_metrics]: the box of
    [stroke_box_step], in whole font units, times [scale]. The products
    and the quotient [size / pixel_height] are exact here and rounded in
    the code. *)
Definition vector_glyph_metrics (font : vector_font) (glyph : vector_glyph) (size : Q)
  : glyph_metrics :=
  let scale := (size / float_of_int (vm_pixel_height (vf_metrics font)))%Q in
  let '(_, _, min_x, min_y, max_x, max_y) :=
    foldl stroke_box_step (0, 0, 0, 0, 0, 0) (vg_strokes glyph) in
  mk_glyph_metrics
    (float_of_int (vg_width glyph) * scale)%Q
    0%Q
    (float_of_int (- min_y) * scale)%Q
    (float_of_int (max_x - min_x + 1) * scale)%Q
    (float_of_int (max_y - min_y + 1) * scale)%Q.

Definition get_glyph_metrics (fs : font_source) (codepoint : Z) (size : Q)
  : except glyph_metrics :=
  let result := zero_metrics in
  match fs with
  | bitmap_ref font =>
    if 255 <? codepoint then Ok result
    else
      let ch := to_uint8 codepoint in
      if bf_out_of_font font ch
      then
        let ch := byte_val (bf_default_char font) in
        if bf_out_of_font font ch
        then Ok result
        else bitmap_glyph_metrics font ch
      else bitmap_glyph_metrics font ch
  | vector_ref font =>
    if 255 <? codepoint then Ok result
    else
      let ch := to_uint8 codepoint in
      bind (vf_get_glyph font ch) (fun glyph =>
      match glyph with
      | Some glyph => Ok (vector_glyph_metrics font glyph size)
      | None =>
        bind (vf_get_glyph font (byte_val (vf_default_char font))) (fun glyph =>
        match glyph with
        | Some glyph => Ok (vector_glyph_metrics font glyph size)
        | None => Ok result
        end)
      end)
  | ttf_ref font =>
    match ttf_get_glyph_metrics font codepoint size with
    | Some m =>
      Ok (mk_glyph_metrics (ttf_advance_x m) (ttf_bearing_x m) (ttf_bearing_y m)
                           (ttf_width m) (ttf_height m))
    | None => Ok result
    end
  end.

Definition get_kerning (fs : font_source) (first second : Z) (size : Q) : Q :=
  match fs with
  | ttf_ref font => ttf_get_kerning font first second size
  | _ => 0%Q
  end.

(** The asset a font source borrows holds an entry for every character of
    its range. The outline asset has no table of its own. *)
Definition source_covers (fs : font_source) : Prop :=
  match fs with
  | bitmap_ref font => tables_cover font
  | vector_ref font => glyphs_cover font
  | ttf_ref _ => True
  end.

End FontSource.

(** ** Sample assets *)

Module Samples.
Import FontSource.

(** A two-glyph bitmap font, 'A' and 'B', 6 pixels high, whose default
    character is 'A'. *)
Definition font_AB : bitmap_font :=
  mk_bitmap_font "AB" "A"%byte "B"%byte "A"%byte
    (mk_font_metrics 5 6 0)
    [mk_spacing None None None; mk_spacing None None None]
    [mk_view 7 6 (fun _ _ => true); mk_view 7 6 (fun _ _ => true)].

End Samples.

(** ** atlas_surface.hh *)

Module AtlasSurface.

Record memory_atlas := mk_atlas {
  atlas_width : Z;
  atlas_height : Z;
  atlas_data : list Z
}.

Definition memory_atlas_new (width height : Z) : memory_atlas :=
  mk_atlas width height (replicate (Z.to_nat width * Z.to_nat height) 0).

(** One row of [write_alpha]: clip the row to the atlas and copy it. *)
Definition write_alpha_row (a : memory_atlas) (x y w : Z) (pixels : list Z)
    (stride : Z) (row : Z) : memory_atlas :=
  let dst_y := y + row in
  if (dst_y <? 0) || (atlas_height a <=? dst_y) then a
  else
    let src_offset := row * stride in
    let copy_start := if x <? 0 then - x else 0 in
    let copy_end := if atlas_width a <? x + w then atlas_width a - x else w in
    if copy_start <? copy_end
    then
      let dst_offset := dst_y * atlas_width a + (x + copy_start) in
      mk_atlas (atlas_width a) (atlas_height a)
               (RasterTarget.memcpy (atlas_data a) (Z.to_nat dst_offset)
                                    pixels (Z.to_nat (src_offset + copy_start))
                                    (Z.to_nat (copy_end - copy_start)))
    else a.

Definition write_alpha (a : memory_atlas) (x y w h : Z) (pixels : list Z)
    (stride : Z) : memory_atlas :=
  if (w <=? 0) || (h <=? 0) then a
  else foldl (fun a row => write_alpha_row a x y w pixels stride (Z.of_nat row))
             a (seq 0 (Z.to_nat h)).

End AtlasSurface.

(** ** text_rasterizer.hh: what the cache and the renderer use of it *)

Module TextRasterizer.

Record scaled_metrics := mk_scaled_metrics {
  ascent : Q;
  descent : Q;
  line_gap : Q;
  line_height : Q
}.

(** The rasterizer as the glyph cache sees it: glyph measurement, kerning
    and glyph rasterization onto a grayscale target at a pen position. *)
Record text_rasterizer := mk_rasterizer {
  measure_glyph : Z -> glyph_metrics;
  get_kerning : Z -> Z -> Q;
  get_metrics : scaled_metrics;
  rasterize_glyph : Z -> RasterTarget.grayscale_target -> Z -> Z
                    -> RasterTarget.grayscale_target
}.

(** The pixel loops of [rasterize_bitmap_glyph] once the character is
    settled, after the two accessors of the font. *)
Definition blit_bitmap_glyph (font : FontSource.bitmap_font) (ch : Z)
    (target : RasterTarget.grayscale_target) (x y : Z)
  : except RasterTarget.grayscale_target :=
  FontSource.bind (FontSource.get_spacing font ch) (fun spacing =>
  FontSource.bind (FontSource.get_glyph font ch) (fun glyph =>
    let glyph_x := match FontSource.a_space spacing with
                   | Some a => x + a
                   | None => x
                   end in
    let glyph_y := y - FontSource.fm_ascent (FontSource.bf_metrics font) in
    Ok (foldl (fun t gy =>
                 foldl (fun t gx =>
                          if FontSource.view_pixel glyph (Z.of_nat gx) (Z.of_nat gy)
                          then RasterTarget.put_pixel t (glyph_x + Z.of_nat gx)
                                                      (glyph_y + Z.of_nat gy) 255
                          else t)
                       t (seq 0 (Z.to_nat (FontSource.view_width glyph))))
              target (seq 0 (Z.to_nat (FontSource.view_height glyph)))))).

(** [font_source::rasterize_bitmap_glyph], writing through [put_pixel]. *)
Definition rasterize_bitmap_glyph (font : FontSource.bitmap_font) (codepoint : Z)
    (target : RasterTarget.grayscale_target) (x y : Z)
  : except RasterTarget.grayscale_target :=
  if 255 <? codepoint then Ok target
  else
    let ch := FontSource.to_uint8 codepoint in
    if FontSource.bf_out_of_font font ch
    then
      let ch := byte_val (FontSource.bf_default_char font) in
      if FontSource.bf_out_of_font font ch
      then Ok target
      else blit_bitmap_glyph font ch target x y
    else blit_bitmap_glyph font ch target x y.

(** The rasterizer over a bitmap font source, for a font whose tables
    cover its range ([FontSource.tables_cover]): over such a font
    [measure_glyph] and [rasterize_glyph] are the results of
    [get_glyph_metrics] and [rasterize_bitmap_glyph] (lemma
    [bitmap_rasterizer_calls]) and the two [Throw] cases below are dead.
    Over another font the calls may not return, which the record has no
    place for: every statement about this rasterizer is about a font whose
    tables cover its range. *)
Definition bitmap_rasterizer (font : FontSource.bitmap_font) (size : Q)
  : text_rasterizer :=
  let source := FontSource.bitmap_ref font in
  let m := FontSource.bf_metrics font in
  mk_rasterizer
    (fun cp => match FontSource.get_glyph_metrics source cp size with
               | Ok gm => gm
               | Throw _ => zero_metrics
               end)
    (fun a b => FontSource.get_kerning source a b size)
    (mk_scaled_metrics
       (inject_Z (FontSource.fm_ascent m))
       (inject_Z (FontSource.fm_pixel_height m - FontSource.fm_ascent m))
       (inject_Z (FontSource.fm_external_leading m))
       (inject_Z (FontSource.fm_pixel_height m + FontSource.fm_external_leading m)))
    (fun cp target x y =>
       match rasterize_bitmap_glyph font cp target x y with
       | Ok target => target
       | Throw _ => target
       end).

(** The pen travel of [measure_text]: kerning with the previous codepoint
    (none after codepoint 0), then the glyph's advance. *)
Definition pen_step (r : text_rasterizer) (st : Q * Z) (cp : Z) : Q * Z :=
  let '(pen_x, prev_codepoint) := st in
  let pen_x := if negb (prev_codepoint =? 0)
               then (pen_x + get_kerning r prev_codepoint cp)%Q else pen_x in
  ((pen_x + advance_x (measure_glyph r cp))%Q, cp).

Definition pen_travel (r : text_rasterizer) (start : Q) (cps : list Z) : Q :=
  fst (foldl (pen_step r) (start, 0) cps).

(** [measure_text(text).width] *)
Definition measure_text_width (r : text_rasterizer) (text : list byte) : Q :=
  match text with
  | [] => 0%Q
  | _ => pen_travel r 0%Q (Utf8.utf8_view text)
  end.

End TextRasterizer.

(** ** glyph_cache.hh *)

Module GlyphCache.
Import AtlasSurface TextRasterizer.

Record cached_glyph := mk_cached_glyph {
  atlas_index : Z;
  rect : glyph_rect;
  cg_bearing_x : Q;
  cg_bearing_y : Q;
  cg_advance_x : Q
}.

Record glyph_cache_config := mk_config {
  atlas_size : Z;
  padding : Z;
  pre_cache_ascii : bool
}.

Definition default_config : glyph_cache_config := mk_config 512 1 true.

Record glyph_cache := mk_cache {
  m_rasterizer : text_rasterizer;
  m_config : glyph_cache_config;
  m_atlases : list memory_atlas;
  m_cache : gmap Z cached_glyph;
  m_pack_x : Z;
  m_pack_y : Z;
  m_row_height : Z
}.

(** [static_cast<int>(std::ceil(v))] *)
Definition ceil_int (v : Q) : Z := Qceiling v.

(** [std::clamp(v, lo, hi)] *)
Definition clamp (v lo hi : Z) : Z :=
  if v <? lo then lo else if hi <? v then hi else v.

Definition add_atlas (c : glyph_cache) : glyph_cache :=
  mk_cache (m_rasterizer c) (m_config c)
           (m_atlases c ++ [memory_atlas_new (atlas_size (m_config c))
                                             (atlas_size (m_config c))])
           (m_cache c)
           (padding (m_config c)) (padding (m_config c)) 0.

(** [m_cache.emplace(codepoint, glyph).first->second]: an entry already
    stored under the key is kept and is the one referred to. *)
Definition emplace (c : glyph_cache) (codepoint : Z) (glyph : cached_glyph)
  : cached_glyph * glyph_cache :=
  match m_cache c !! codepoint with
  | Some stored => (stored, c)
  | None =>
    (glyph, mk_cache (m_rasterizer c) (m_config c) (m_atlases c)
                     (<[codepoint := glyph]> (m_cache c))
                     (m_pack_x c) (m_pack_y c) (m_row_height c))
  end.

Definition next_row (c : glyph_cache) : glyph_cache :=
  mk_cache (m_rasterizer c) (m_config c) (m_atlases c) (m_cache c)
           (padding (m_config c))
           (m_pack_y c + (m_row_height c + padding (m_config c)))
           0.

Definition cache_glyph (c : glyph_cache) (codepoint : Z)
  : cached_glyph * glyph_cache :=
  let metrics := measure_glyph (m_rasterizer c) codepoint in
  let glyph_w := ceil_int (width metrics) in
  let glyph_h := ceil_int (height metrics) in
  let glyph_w := clamp glyph_w 0 (atlas_size (m_config c)) in
  let glyph_h := clamp glyph_h 0 (atlas_size (m_config c)) in
  if (glyph_w <=? 0) || (glyph_h <=? 0)
  then
    emplace c codepoint
            (mk_cached_glyph 0 (mk_rect 0 0 0 0) (bearing_x metrics)
                             (bearing_y metrics) (advance_x metrics))
  else
    let padded_w := glyph_w + padding (m_config c) in
    let padded_h := glyph_h + padding (m_config c) in
    let c := if atlas_size (m_config c) <? m_pack_x c + padded_w
             then next_row c else c in
    let c := if atlas_size (m_config c) <? m_pack_y c + padded_h
             then add_atlas c else c in
    let atlas_index := Z.of_nat (length (m_atlases c)) - 1 in
    let glyph_x := m_pack_x c in
    let glyph_y := m_pack_y c in
    let buffer := replicate (Z.to_nat glyph_w * Z.to_nat glyph_h) 0 in
    let target := RasterTarget.grayscale_target_new buffer glyph_w glyph_h 0 in
    let baseline_y := ceil_int (bearing_y metrics) in
    let target := rasterize_glyph (m_rasterizer c) codepoint target 0 baseline_y in
    let atlases :=
      alter (fun a => write_alpha a glyph_x glyph_y glyph_w glyph_h
                                  (RasterTarget.m_buffer target) glyph_w)
            (Z.to_nat atlas_index) (m_atlases c) in
    let c := mk_cache (m_rasterizer c) (m_config c) atlases (m_cache c)
                      (m_pack_x c + padded_w) (m_pack_y c)
                      (Z.max (m_row_height c) padded_h) in
    emplace c codepoint
            (mk_cached_glyph atlas_index (mk_rect glyph_x glyph_y glyph_w glyph_h)
                             (bearing_x metrics) (bearing_y metrics)
                             (advance_x metrics)).

Definition get (c : glyph_cache) (codepoint : Z) : cached_glyph * glyph_cache :=
  match m_cache c !! codepoint with
  | Some stored => (stored, c)
  | None => cache_glyph c codepoint
  end.

Definition is_cached (c : glyph_cache) (codepoint : Z) : bool :=
  bool_decide (is_Some (m_cache c !! codepoint)).

Definition cache_if_missing (c : glyph_cache) (cp : Z) : glyph_cache :=
  if negb (is_cached c cp) then snd (cache_glyph c cp) else c.

(** [for (cp = first; cp <= last; ++cp)] *)
Definition cache_range (c : glyph_cache) (first last : Z) : glyph_cache :=
  foldl cache_if_missing c (seqZ first (last - first + 1)).

Definition cache_string (c : glyph_cache) (utf8_text : list byte) : glyph_cache :=
  foldl cache_if_missing c (Utf8.utf8_view utf8_text).

(** The constructor. *)
Definition glyph_cache_new (rasterizer : text_rasterizer)
    (config : glyph_cache_config) : glyph_cache :=
  let c := add_atlas (mk_cache rasterizer config [] ∅ 0 0 0) in
  if pre_cache_ascii config then cache_range c 32 126 else c.

Definition atlas_count (c : glyph_cache) : Z := Z.of_nat (length (m_atlases c)).

(** [atlas(index)], with the cache after the call. *)
Definition atlas (c : glyph_cache) (index : Z) : except memory_atlas * glyph_cache :=
  if (index <? 0) || (Z.of_nat (length (m_atlases c)) <=? index)
  then (Throw (out_of_range "atlas index out of range"), c)
  else (Ok (nth (Z.to_nat index) (m_atlases c) (memory_atlas_new 0 0)), c).

(** The operations a client can apply to a cache. *)
Inductive operation :=
| op_get (codepoint : Z)
| op_cache_range (first last : Z)
| op_cache_string (utf8_text : list byte).

Definition apply_operation (c : glyph_cache) (op : operation) : glyph_cache :=
  match op with
  | op_get cp => snd (get c cp)
  | op_cache_range first last => cache_range c first last
  | op_cache_string text => cache_string c text
  end.

(** The bound the atlas-safety property asks of a cached glyph. *)
Definition rect_inside_page (c : glyph_cache) (g : cached_glyph) : Prop :=
  match m_atlases c !! Z.to_nat (atlas_index g) with
  | Some page =>
    rect_x (rect g) + rect_w (rect g) <= atlas_width page
    /\ rect_y (rect g) + rect_h (rect g) <= atlas_height page
  | None => False
  end.

(** What every cache built by the constructor and the operations satisfies:
    there is a page, every stored glyph names an existing page and carries
    the advance the rasterizer measures for its codepoint. *)
Definition well_formed (c : glyph_cache) : Prop :=
  (0 < length (m_atlases c))%nat
  /\ forall cp g, m_cache c !! cp = Some g ->
       0 <= atlas_index g < Z.of_nat (length (m_atlases c))
       /\ cg_advance_x g = advance_x (measure_glyph (m_rasterizer c) cp).

Inductive reachable : glyph_cache -> Prop :=
| reachable_new rasterizer config :
    reachable (glyph_cache_new rasterizer config)
| reachable_operation c op :
    reachable c -> reachable (apply_operation c op).

(** Every glyph the rasterizer measures leaves room for the padding on a
    page, and the padding is not negative. *)
Definition glyphs_fit_pages (c : glyph_cache) : Prop :=
  0 <= padding (m_config c)
  /\ forall cp,
       clamp (ceil_int (width (measure_glyph (m_rasterizer c) cp))) 0
             (atlas_size (m_config c))
       + padding (m_config c) <= atlas_size (m_config c)
       /\ clamp (ceil_int (height (measure_glyph (m_rasterizer c) cp))) 0
                (atlas_size (m_config c))
          + padding (m_config c) <= atlas_size (m_config c).

(** Pages are squares of [atlas_size] and every glyph with pixels lies on
    an existing page, inside it. *)
Definition packed (c : glyph_cache) : Prop :=
  Forall (fun page => atlas_width page = atlas_size (m_config c)
                      /\ atlas_height page = atlas_size (m_config c))
         (m_atlases c)
  /\ (0 < length (m_atlases c))%nat
  /\ forall cp g, m_cache c !! cp = Some g -> 0 < rect_w (rect g) ->
       0 <= atlas_index g < Z.of_nat (length (m_atlases c))
       /\ rect_x (rect g) + rect_w (rect g) <= atlas_size (m_config c)
       /\ rect_y (rect g) + rect_h (rect g) <= atlas_size (m_config c).

End GlyphCache.

(** ** Sample caches *)

Module CacheSamples.
Import FontSource.

(** A bitmap font with the single glyph 'W', 40 pixels wide and 16 high. *)
Definition font_W : bitmap_font :=
  mk_bitmap_font "W" "W"%byte "W"%byte "W"%byte
    (mk_font_metrics 12 16 0)
    [mk_spacing None None None]
    [mk_view 40 16 (fun _ _ => true)].

(** A cache over it with 32x32 pages, one pixel of padding and no eager
    ASCII caching. *)
Definition cache_W : GlyphCache.glyph_cache :=
  GlyphCache.glyph_cache_new (TextRasterizer.bitmap_rasterizer font_W 16)
                             (GlyphCache.mk_config 32 1 false).

(** A bitmap font with a space that has no pixels (zero width and height,
    an advance of 3) and a 2x6 exclamation mark. *)
Definition font_bang : bitmap_font :=
  mk_bitmap_font "bang" " "%byte "!"%byte "!"%byte
    (mk_font_metrics 5 6 0)
    [mk_spacing None (Some 3) None; mk_spacing None None None]
    [mk_view 0 0 (fun _ _ => false); mk_view 2 6 (fun _ _ => true)].

Definition cache_bang : GlyphCache.glyph_cache :=
  GlyphCache.glyph_cache_new (TextRasterizer.bitmap_rasterizer font_bang 6)
                             (GlyphCache.mk_config 64 1 false).

End CacheSamples.

(** ** text_renderer.hh *)

Module TextRenderer.
Import AtlasSurface TextRasterizer GlyphCache.

(** One invocation of the blit callback. *)
Record blit_call := mk_blit {
  blit_atlas : memory_atlas;
  blit_rect : glyph_rect;
  blit_dst_x : Q;
  blit_dst_y : Q
}.

Record draw_state := mk_draw_state {
  ds_cache : glyph_cache;
  ds_pen_x : Q;
  ds_prev_codepoint : Z;
  ds_blits : list blit_call
}.

(** The body of the loop of [draw_baseline] for one codepoint. *)
Definition draw_step (y : Q) (st : draw_state) (codepoint : Z) : except draw_state :=
  let r := m_rasterizer (ds_cache st) in
  let pen_x :=
    if negb (ds_prev_codepoint st =? 0)
    then (ds_pen_x st + get_kerning r (ds_prev_codepoint st) codepoint)%Q
    else ds_pen_x st in
  let '(glyph, c) := get (ds_cache st) codepoint in
  let blitted :=
    if (0 <? rect_w (rect glyph)) && (0 <? rect_h (rect glyph))
    then
      let dst_x := (pen_x + cg_bearing_x glyph)%Q in
      let dst_y := (y - cg_bearing_y glyph)%Q in
      match atlas c (atlas_index glyph) with
      | (Ok page, c) => Ok (c, ds_blits st ++ [mk_blit page (rect glyph) dst_x dst_y])
      | (Throw e, _) => Throw e
      end
    else Ok (c, ds_blits st) in
  match blitted with
  | Ok (c, blits) =>
    Ok (mk_draw_state c (pen_x + cg_advance_x glyph)%Q codepoint blits)
  | Throw e => Throw e
  end.

Fixpoint draw_loop (y : Q) (st : draw_state) (codepoints : list Z) : except draw_state :=
  match codepoints with
  | [] => Ok st
  | cp :: rest =>
    match draw_step y st cp with
    | Ok st => draw_loop y st rest
    | Throw e => Throw e
    end
  end.

(** [draw_baseline] returns the width drawn; the model adds the blit calls
    made and the cache after the call. *)
Definition draw_baseline (c : glyph_cache) (text : list byte) (x y : Q)
  : except (Q * list blit_call * glyph_cache) :=
  match text with
  | [] => Ok (0%Q, [], c)
  | _ =>
    match draw_loop y (mk_draw_state c x 0 []) (Utf8.utf8_view text) with
    | Ok st => Ok ((ds_pen_x st - x)%Q, ds_blits st, ds_cache st)
    | Throw e => Throw e
    end
  end.

Definition draw (c : glyph_cache) (text : list byte) (x y : Q)
  : except (Q * list blit_call * glyph_cache) :=
  match text with
  | [] => Ok (0%Q, [], c)
  | _ => draw_baseline c text x (y + ascent (get_metrics (m_rasterizer c)))%Q
  end.

(** *** wrap_lines *)

Definition Qgtb (a b : Q) : bool := negb (Qle_bool a b).

Definition is_space (b : byte) : bool := Byte.eqb b " "%byte.

(** [std::string_view(start, n)] into the text. *)
Definition substring (text : list byte) (start n : nat) : list byte :=
  take n (drop start text).

(** The trimming loop of [flush_line]:
    [while (line_end > line_start && *(line_end - 1) == ' ') --line_end]. *)
Fixpoint trim_trailing (text : list byte) (line_start line_end : nat) : nat :=
  match line_end with
  | O => O
  | S e =>
    if (line_start <? line_end)%nat && is_space (nth e text Byte.x00)
    then trim_trailing text line_start e
    else line_end
  end.

Record wrap_state := mk_wrap_state {
  lines : list (list byte);
  line_start : nat;
  word_start : nat;
  current : nat;
  line_width : Q;
  word_width : Q
}.

(** The lambda [flush_line], with the value of [current] it captures. *)
Definition flush_line (text : list byte) (st : wrap_state) (current : nat)
  : list (list byte) :=
  if (line_start st <? current)%nat
  then
    let line_end := trim_trailing text (line_start st) current in
    if (line_start st <? line_end)%nat
    then lines st ++ [substring text (line_start st) (line_end - line_start st)]
    else lines st
  else lines st.

(** One iteration of the loop of [wrap_lines]; [None] is [break]. *)
Definition wrap_step (r : text_rasterizer) (text : list byte) (max_width : Q)
    (st : wrap_state) : option wrap_state :=
  let d := Utf8.utf8_decode_one (drop (current st) text) in
  let cp := Utf8.codepoint d in
  let bytes := Z.to_nat (Utf8.bytes_consumed d) in
  if Utf8.bytes_consumed d =? 0 then None
  else if cp =? 10 then
    let current := (current st + bytes)%nat in
    Some (mk_wrap_state (flush_line text st current) current current current 0 0)
  else
    let advance := advance_x (measure_glyph r cp) in
    let '(word_start, word_width) :=
      if cp =? 32 then ((current st + bytes)%nat, 0%Q)
      else (word_start st, word_width st) in
    let '(lines, line_start, line_width) :=
      if Qgtb (line_width st + advance) max_width && Qgtb (line_width st) 0
      then
        if (line_start st <? word_start)%nat && (word_start <=? current st)%nat
        then (flush_line text st word_start, word_start, word_width)
        else (flush_line text st (current st), current st, 0%Q)
      else (lines st, line_start st, line_width st) in
    Some (mk_wrap_state lines line_start word_start (current st + bytes)%nat
                        (line_width + advance)%Q (word_width + advance)%Q).

(** The loop, with a budget of iterations; [None] when the budget runs out
    before the loop ends. *)
Fixpoint wrap_loop (fuel : nat) (r : text_rasterizer) (text : list byte)
    (max_width : Q) (st : wrap_state) : option wrap_state :=
  match fuel with
  | O => None
  | S fuel =>
    if (current st <? length text)%nat
    then
      match wrap_step r text max_width st with
      | Some st => wrap_loop fuel r text max_width st
      | None => Some st
      end
    else Some st
  end.

Definition wrap_finish (text : list byte) (st : wrap_state) : list (list byte) :=
  if (line_start st <? current st)%nat
  then lines st ++ [substring text (line_start st) (current st - line_start st)]
  else lines st.

(** [wrap_lines]; every iteration consumes a byte, so one iteration per
    byte and one more to leave the loop suffice (theorem below). *)
Definition wrap_lines (r : text_rasterizer) (text : list byte) (max_width : Q)
  : option (list (list byte)) :=
  match text with
  | [] => Some []
  | _ =>
    if Qle_bool max_width 0 then Some []
    else
      match wrap_loop (S (length text)) r text max_width
                      (mk_wrap_state [] 0 0 0 0 0) with
      | Some st => Some (wrap_finish text st)
      | None => None
      end
  end.

(** The words of a line are its maximal runs of non-space bytes.
    [word_count_from inside l] counts the words of [l], [inside] telling
    whether the byte before [l] belongs to a word. The examples of lines
    wider than the wrap width give their number of words; a line without
    a space is one word (lemma [no_space_one_word]). *)
Fixpoint word_count_from (inside : bool) (l : list byte) : nat :=
  match l with
  | [] => O
  | b :: rest =>
    if is_space b then word_count_from false rest
    else if inside then word_count_from true rest
         else S (word_count_from true rest)
  end.

Definition word_count (l : list byte) : nat := word_count_from false l.

Definition ends_with_newline (l : list byte) : bool :=
  match last l with
  | Some b => Byte.eqb b Byte.x0a
  | None => false
  end.

(** A blit call whose source rectangle has pixels. *)
Definition blit_nonzero (b : blit_call) : Prop :=
  0 < rect_w (blit_rect b) /\ 0 < rect_h (blit_rect b).

(** The width [draw] and [draw_baseline] return for a text drawn from [x]:
    the travel of the pen of [measure_text] started at [x]. *)
Definition drawn_width (r : text_rasterizer) (text : list byte) (x : Q) : Q :=
  match text with
  | [] => 0%Q
  | _ => (pen_travel r x (Utf8.utf8_view text) - x)%Q
  end.

(** *** Vocabulary for the word-wrap property *)

(** The sum of the advances of a sequence of codepoints. *)
Definition advance_sum (r : text_rasterizer) (cps : list Z) : Q :=
  foldr (fun cp acc => (advance_x (measure_glyph r cp) + acc)%Q) 0%Q cps.

(** The sum of the advances of a run of bytes: its width but for kerning. *)
Definition text_width (r : text_rasterizer) (bs : list byte) : Q :=
  advance_sum r (Utf8.utf8_view bs).

(** The bytes [text[a .. b)]. *)
Definition segment (text : list byte) (a b : nat) : list byte :=
  substring text a (b - a).

Definition no_space (l : list byte) : Prop :=
  Forall (fun b => is_space b = false) l.

(** What the wrap promises of a line: it ends in a line feed, or its
    measured width is within the wrap width, or it is a single word, bytes
    without a space among them, whose own measured width exceeds the wrap
    width. *)
Definition line_fits (r : text_rasterizer) (max_width : Q) (line : list byte)
  : Prop :=
  ends_with_newline line = true
  \/ (measure_text_width r line <= max_width)%Q
  \/ (line <> [] /\ no_space line
      /\ (max_width < measure_text_width r line)%Q).

(** The loop invariant of [wrap_lines]. *)
Definition wrap_invariant (r : text_rasterizer) (text : list byte)
    (max_width : Q) (st : wrap_state) : Prop :=
  Utf8.boundary text (line_start st)
  /\ Utf8.boundary text (word_start st)
  /\ Utf8.boundary text (current st)
  /\ (line_start st <= current st)%nat
  /\ (word_start st <= current st)%nat
  /\ (current st <= length text)%nat
  /\ (text_width r (segment text (line_start st) (current st)) <= line_width st)%Q
  /\ ((text_width r (segment text (line_start st) (current st)) <= max_width)%Q
      \/ no_space (segment text (line_start st) (current st)))
  /\ no_space (segment text (word_start st) (current st))
  /\ (text_width r (segment text (word_start st) (current st)) <= word_width st)%Q
  /\ Forall (line_fits r max_width) (lines st).

End TextRenderer.

(** ** Sample rasterizers for the word wrap *)

Module WrapSamples.
Import TextRasterizer.

(** Every glyph is one pixel wide and advances the pen by one. *)
Definition unit_metrics : glyph_metrics := mk_glyph_metrics 1 0 0 1 1.

(** A monospaced font without kerning, as every bitmap and stroke source is. *)
Definition plain_rasterizer : text_rasterizer :=
  mk_rasterizer (fun _ => unit_metrics) (fun _ _ => 0%Q)
                (mk_scaled_metrics 1 0 0 1) (fun _ target _ _ => target).

(** The same glyphs with one kerning pair, as an outline source may have:
    one pixel more between 'a' and a following 'b'. *)
Definition kerned_rasterizer : text_rasterizer :=
  mk_rasterizer (fun _ => unit_metrics)
                (fun first second =>
                   if (first =? 97) && (second =? 98) then 1%Q else 0%Q)
                (mk_scaled_metrics 1 0 0 1) (fun _ target _ _ => target).

(** A font without kerning in which only 'X' advances the pen, by two. *)
Definition only_X_advances : text_rasterizer :=
  mk_rasterizer (fun cp => if cp =? 88 then mk_glyph_metrics 2 0 0 2 1
                           else zero_metrics)
                (fun _ _ => 0%Q)
                (mk_scaled_metrics 1 0 0 1) (fun _ target _ _ => target).

(** A font without kerning whose space advances the pen by two. *)
Definition wide_space : text_rasterizer :=
  mk_rasterizer (fun cp => if cp =? 32 then mk_glyph_metrics 2 0 0 2 1
                           else unit_metrics)
                (fun _ _ => 0%Q)
                (mk_scaled_metrics 1 0 0 1) (fun _ target _ _ => target).

(** A font without kerning in which 'y' moves the pen back by two and 'X'
    advances it by three. *)
Definition backward_y : text_rasterizer :=
  mk_rasterizer (fun cp => if cp =? 121 then mk_glyph_metrics (-2) 0 0 1 1
                           else if cp =? 88 then mk_glyph_metrics 3 0 0 3 1
                           else unit_metrics)
                (fun _ _ => 0%Q)
                (mk_scaled_metrics 1 0 0 1) (fun _ target _ _ => target).

(** A cache over the monospaced sample, with 64x64 pages and the printable
    ASCII range cached by the constructor. *)
Definition cache_plain : GlyphCache.glyph_cache :=
  GlyphCache.glyph_cache_new plain_rasterizer (GlyphCache.mk_config 64 1 true).

End WrapSamples.

(** ** utf8.cc: utf8_length, and the table of utf8.hh *)

Module Utf8Length.
Import Utf8.

(** The loop of [utf8_length], on a budget of iterations; [None] when the
    budget runs out before the string is empty. *)
Fixpoint utf8_length_loop (fuel : nat) (str : list byte) (count : Z) : option Z :=
  match fuel with
  | O => None
  | S fuel' =>
    match str with
    | [] => Some count
    | _ :: _ =>
      let r := utf8_decode_one str in
      if bytes_consumed r =? 0 then Some count
      else utf8_length_loop fuel' (drop (Z.to_nat (bytes_consumed r)) str)
                            (count + 1)
    end
  end.

Definition utf8_length (str : list byte) : option Z :=
  utf8_length_loop (length str + 1) str 0.

(** A Unicode scalar value: a codepoint up to U+10FFFF that is no
    surrogate. *)
Definition unicode_scalar (cp : Z) : Prop :=
  0 <= cp <= 0x10FFFF /\ ~ (0xD800 <= cp <= 0xDFFF).

(** The table of [utf8.hh]: the bytes a codepoint takes by its range. *)
Definition sequence_length (cp : Z) : Z :=
  if cp <? 0x80 then 1
  else if cp <? 0x800 then 2
  else if cp <? 0x10000 then 3
  else 4.

(** May a string start with this byte without joining the sequence that
    ends the string before it? *)
Definition starts_sequence (str : list byte) : Prop :=
  match str with
  | [] => True
  | b :: _ => is_trail (byte_val b) = false
  end.

End Utf8Length.

(** ** raster_target.hh: the other targets and emit_span *)

(** *** grayscale_max_target *)

Module GrayscaleMaxTarget.

Record grayscale_max_target := mk_max_target {
  m_buffer : list Z;
  m_width : Z;
  m_height : Z;
  m_stride : Z
}.

Definition grayscale_max_target_new (buffer : list Z) (width height stride : Z)
  : grayscale_max_target :=
  mk_max_target buffer width height (if 0 <? stride then stride else width).

(** [dst = std::max(dst, alpha)] at [m_buffer[y * m_stride + x]]. *)
Definition put_pixel (t : grayscale_max_target) (x y alpha : Z)
  : grayscale_max_target :=
  if (0 <=? x) && (x <? m_width t) && (0 <=? y) && (y <? m_height t)
  then
    let i := Z.to_nat (y * m_stride t + x) in
    mk_max_target (<[i := Z.max (nth i (m_buffer t) 0) alpha]> (m_buffer t))
                  (m_width t) (m_height t) (m_stride t)
  else t.

(** A pixel write, [(x, y, alpha)], and a sequence of them in order. *)
Definition put_pixels (t : grayscale_max_target) (writes : list (Z * Z * Z))
  : grayscale_max_target :=
  foldl (fun t w => let '(x, y, alpha) := w in put_pixel t x y alpha) t writes.

(** Is the byte at index [j] of the buffer the pixel of one of the first
    [n] elements of a span at [(x, y)], inside the target? *)
Definition span_hits (t : grayscale_max_target) (x y n : Z) (j : nat) : bool :=
  let k := Z.of_nat j - (y * m_stride t + x) in
  (0 <=? y) && (y <? m_height t) && (0 <=? k) && (k <? n)
  && (0 <=? x + k) && (x + k <? m_width t).

(** The constructor's contract on the buffer, with bytes in it. *)
Definition buffer_covers (t : grayscale_max_target) : Prop :=
  m_width t <= m_stride t
  /\ m_stride t * m_height t <= Z.of_nat (length (m_buffer t))
  /\ Forall (fun v => 0 <= v < 256) (m_buffer t).

End GrayscaleMaxTarget.

(** *** emit_span *)

Module EmitSpan.

(** [emit_span]: [put_span] when the target has one ([if constexpr]), else
    [put_pixel] for every alpha above zero. *)
Definition emit_span {T : Type} (put_pixel : T -> Z -> Z -> Z -> T)
    (put_span : option (T -> Z -> Z -> list Z -> Z -> T))
    (target : T) (x y : Z) (alphas : list Z) (count : Z) : T :=
  match put_span with
  | Some put_span => put_span target x y alphas count
  | None =>
    foldl (fun t i =>
             if 0 <? nth i alphas 0
             then put_pixel t (x + Z.of_nat i) y (nth i alphas 0)
             else t)
          target (seq 0 (Z.to_nat count))
  end.

End EmitSpan.

(** *** owned_grayscale_target *)

Module OwnedGrayscaleTarget.

Record owned_grayscale_target := mk_owned {
  m_buffer : list Z;
  m_width : Z;
  m_height : Z
}.

Definition owned_grayscale_target_new (width height : Z) : owned_grayscale_target :=
  mk_owned (replicate (Z.to_nat width * Z.to_nat height) 0) width height.

Definition in_bounds (t : owned_grayscale_target) (x y : Z) : bool :=
  (0 <=? x) && (x <? m_width t) && (0 <=? y) && (y <? m_height t).

(** [static_cast<size_t>(y) * static_cast<size_t>(m_width) + static_cast<size_t>(x)] *)
Definition offset (t : owned_grayscale_target) (x y : Z) : nat :=
  (Z.to_nat y * Z.to_nat (m_width t) + Z.to_nat x)%nat.

Definition put_pixel (t : owned_grayscale_target) (x y alpha : Z)
  : owned_grayscale_target :=
  if in_bounds t x y
  then mk_owned (<[offset t x y := alpha]> (m_buffer t)) (m_width t) (m_height t)
  else t.

Definition put_span (t : owned_grayscale_target) (x y : Z) (alphas : list Z)
    (count : Z) : owned_grayscale_target :=
  if (y <? 0) || (m_height t <=? y) then t
  else
    let x0 := Z.max 0 x in
    let x1 := Z.min (m_width t) (x + count) in
    if x0 <? x1
    then mk_owned (RasterTarget.memcpy (m_buffer t) (offset t x0 y)
                                       alphas (Z.to_nat (x0 - x)) (Z.to_nat (x1 - x0)))
                  (m_width t) (m_height t)
    else t.

Definition clear (t : owned_grayscale_target) : owned_grayscale_target :=
  mk_owned (replicate (length (m_buffer t)) 0) (m_width t) (m_height t).

Definition pixel (t : owned_grayscale_target) (x y : Z) : Z :=
  if in_bounds t x y then nth (offset t x y) (m_buffer t) 0 else 0.

(** What the constructor establishes: a buffer of [width * height] bytes. *)
Definition sized (t : owned_grayscale_target) : Prop :=
  0 <= m_width t /\ 0 <= m_height t
  /\ length (m_buffer t) = (Z.to_nat (m_width t) * Z.to_nat (m_height t))%nat.

End OwnedGrayscaleTarget.

(** *** rgba_blend_target: set_color *)

Module RgbaColor.
Import RasterTarget.

Definition set_color (t : rgba_blend_target) (color : Z) : rgba_blend_target :=
  mk_rgba (rgba_buffer t) (rgba_width t) (rgba_height t)
          (u8 (Z.land (Z.shiftr color 16) 0xFF))
          (u8 (Z.land (Z.shiftr color 8) 0xFF))
          (u8 (Z.land color 0xFF)).

(** The colour fields hold bytes, as their type [uint8_t] says, and the
    buffer covers the target. *)
Definition rgba_covers (t : rgba_blend_target) : Prop :=
  0 <= m_color_r t < 256 /\ 0 <= m_color_g t < 256 /\ 0 <= m_color_b t < 256
  /\ rgba_width t * rgba_height t <= Z.of_nat (length (rgba_buffer t)).

End RgbaColor.

(** ** atlas_surface.hh: reading the atlas *)

Module MemoryAtlas.
Import AtlasSurface.

Definition in_atlas (a : memory_atlas) (x y : Z) : bool :=
  (0 <=? x) && (x <? atlas_width a) && (0 <=? y) && (y <? atlas_height a).

(** [memory_atlas::pixel] *)
Definition pixel (a : memory_atlas) (x y : Z) : Z :=
  if in_atlas a x y
  then nth (Z.to_nat (y * atlas_width a + x)) (atlas_data a) 0
  else 0.

(** [memory_atlas::clear] *)
Definition clear (a : memory_atlas) : memory_atlas :=
  mk_atlas (atlas_width a) (atlas_height a) (replicate (length (atlas_data a)) 0).

(** What the constructor establishes: [width * height] bytes of data. *)
Definition atlas_sized (a : memory_atlas) : Prop :=
  0 <= atlas_width a /\ 0 <= atlas_height a
  /\ Z.of_nat (length (atlas_data a)) = atlas_width a * atlas_height a.

(** The source block of [write_alpha] lies inside the pixel array: rows of
    [w] bytes, [stride] apart. *)
Definition source_covers (pixels : list Z) (w h stride : Z) : Prop :=
  0 <= stride /\ (h - 1) * stride + w <= Z.of_nat (length pixels).

(** Is [(px, py)] a pixel of the rectangle at [(x, y)] of size [w] by [h]? *)
Definition in_rect (x y w h px py : Z) : bool :=
  (x <=? px) && (px <? x + w) && (y <=? py) && (py <? y + h).

End MemoryAtlas.

(** ** glyph_cache.hh: the steps of cache_glyph, and what the cache keeps *)

Module GlyphPacking.
Import AtlasSurface TextRasterizer GlyphCache.

(** The size [cache_glyph] gives the glyph of a codepoint: the ceiling of
    the measured size, clamped to the page. *)
Definition glyph_w (c : glyph_cache) (codepoint : Z) : Z :=
  clamp (ceil_int (width (measure_glyph (m_rasterizer c) codepoint))) 0
        (atlas_size (m_config c)).

Definition glyph_h (c : glyph_cache) (codepoint : Z) : Z :=
  clamp (ceil_int (height (measure_glyph (m_rasterizer c) codepoint))) 0
        (atlas_size (m_config c)).

(** The record stored for a glyph without pixels. *)
Definition empty_glyph (c : glyph_cache) (codepoint : Z) : cached_glyph :=
  let metrics := measure_glyph (m_rasterizer c) codepoint in
  mk_cached_glyph 0 (mk_rect 0 0 0 0) (bearing_x metrics) (bearing_y metrics)
                  (advance_x metrics).

(** The cache once [cache_glyph] has chosen the place of a [w] by [h]
    glyph: a new row when the row is full, a new page when the page is. *)
Definition place (c : glyph_cache) (w h : Z) : glyph_cache :=
  let c := if atlas_size (m_config c) <? m_pack_x c + (w + padding (m_config c))
           then next_row c else c in
  if atlas_size (m_config c) <? m_pack_y c + (h + padding (m_config c))
  then add_atlas c else c.

(** The bytes [cache_glyph] rasterizes for a codepoint: a zeroed buffer of
    [glyph_w * glyph_h] bytes, drawn on at the baseline. *)
Definition glyph_image (c : glyph_cache) (codepoint : Z) : list Z :=
  let w := glyph_w c codepoint in
  let h := glyph_h c codepoint in
  let buffer := replicate (Z.to_nat w * Z.to_nat h) 0 in
  let target := RasterTarget.grayscale_target_new buffer w h 0 in
  let baseline_y :=
    ceil_int (bearing_y (measure_glyph (m_rasterizer c) codepoint)) in
  RasterTarget.m_buffer
    (rasterize_glyph (m_rasterizer c) codepoint target 0 baseline_y).

(** The record stored for a glyph with pixels, placed at the cursor. *)
Definition placed_glyph (c : glyph_cache) (codepoint : Z) : cached_glyph :=
  let metrics := measure_glyph (m_rasterizer c) codepoint in
  mk_cached_glyph (Z.of_nat (length (m_atlases c)) - 1)
                  (mk_rect (m_pack_x c) (m_pack_y c)
                           (glyph_w c codepoint) (glyph_h c codepoint))
                  (bearing_x metrics) (bearing_y metrics) (advance_x metrics).

(** The cache once the glyph is written to the last page and the cursor
    has moved past it. *)
Definition written (c : glyph_cache) (codepoint : Z) : glyph_cache :=
  let w := glyph_w c codepoint in
  let h := glyph_h c codepoint in
  mk_cache (m_rasterizer c) (m_config c)
           (alter (fun a => write_alpha a (m_pack_x c) (m_pack_y c) w h
                                        (glyph_image c codepoint) w)
                  (Z.to_nat (Z.of_nat (length (m_atlases c)) - 1)) (m_atlases c))
           (m_cache c)
           (m_pack_x c + (w + padding (m_config c))) (m_pack_y c)
           (Z.max (m_row_height c) (h + padding (m_config c))).

(** A later cache extends an earlier one: every entry is kept as it is,
    no page is dropped, every page but the last is kept as it is, and the
    configuration and rasterizer are the same. *)
Definition extends (c c' : glyph_cache) : Prop :=
  (forall cp g, m_cache c !! cp = Some g -> m_cache c' !! cp = Some g)
  /\ (length (m_atlases c) <= length (m_atlases c'))%nat
  /\ (forall i, (i + 1 < length (m_atlases c))%nat ->
                m_atlases c' !! i = m_atlases c !! i)
  /\ m_config c' = m_config c
  /\ m_rasterizer c' = m_rasterizer c.

Definition has_pixels (g : cached_glyph) : Prop :=
  0 < rect_w (rect g) /\ 0 < rect_h (rect g).

(** Two rectangles at least [gap] pixels apart, side by side or one above
    the other. *)
Definition separated (gap : Z) (g1 g2 : cached_glyph) : Prop :=
  rect_x (rect g1) + rect_w (rect g1) + gap <= rect_x (rect g2)
  \/ rect_x (rect g2) + rect_w (rect g2) + gap <= rect_x (rect g1)
  \/ rect_y (rect g1) + rect_h (rect g1) + gap <= rect_y (rect g2)
  \/ rect_y (rect g2) + rect_h (rect g2) + gap <= rect_y (rect g1).

(** The shelf invariant of the packer: on the last page every glyph lies
    in a finished row above the cursor or in the current row left of it,
    and glyphs of one page are apart. *)
Definition shelved (c : glyph_cache) : Prop :=
  0 <= m_row_height c
  /\ (0 < length (m_atlases c))%nat
  /\ (forall cp g,
        m_cache c !! cp = Some g -> has_pixels g ->
        0 <= atlas_index g < Z.of_nat (length (m_atlases c))
        /\ (atlas_index g = Z.of_nat (length (m_atlases c)) - 1 ->
            rect_y (rect g) + rect_h (rect g) + padding (m_config c) <= m_pack_y c
            \/ (rect_y (rect g) = m_pack_y c
                /\ rect_x (rect g) + rect_w (rect g) + padding (m_config c)
                   <= m_pack_x c
                /\ rect_h (rect g) + padding (m_config c) <= m_row_height c)))
  /\ (forall cp1 g1 cp2 g2,
        cp1 <> cp2 ->
        m_cache c !! cp1 = Some g1 -> m_cache c !! cp2 = Some g2 ->
        has_pixels g1 -> has_pixels g2 ->
        atlas_index g1 = atlas_index g2 ->
        separated (padding (m_config c)) g1 g2).

(** The record of a codepoint says what the rasterizer measures. *)
Definition describes (c : glyph_cache) (cp : Z) (g : cached_glyph) : Prop :=
  let metrics := measure_glyph (m_rasterizer c) cp in
  cg_bearing_x g = bearing_x metrics
  /\ cg_bearing_y g = bearing_y metrics
  /\ cg_advance_x g = advance_x metrics
  /\ (if (glyph_w c cp <=? 0) || (glyph_h c cp <=? 0)
      then rect g = mk_rect 0 0 0 0 /\ atlas_index g = 0
      else rect_w (rect g) = glyph_w c cp /\ rect_h (rect g) = glyph_h c cp).

End GlyphPacking.

(** A cache over the two-glyph sample font, with 32x32 pages, after
    caching the text "AB". *)
Module PackingSamples.

Definition cache_AB : GlyphCache.glyph_cache :=
  GlyphCache.apply_operation
    (GlyphCache.glyph_cache_new (TextRasterizer.bitmap_rasterizer Samples.font_AB 6)
                                (GlyphCache.mk_config 32 1 false))
    (GlyphCache.op_cache_string (list_byte_of_string "AB")).

End PackingSamples.

(** ** glyph_cache.hh: the pixels of a cached glyph *)

Module GlyphImages.
Import AtlasSurface TextRasterizer GlyphCache GlyphPacking MemoryAtlas.

(** A rasterizer that draws through [put_pixel] leaves the buffer of its
    target as long as it was. *)
Definition keeps_size (r : text_rasterizer) : Prop :=
  forall cp t x y,
    length (RasterTarget.m_buffer (rasterize_glyph r cp t x y))
    = length (RasterTarget.m_buffer t).

(** The rectangle of a glyph lies on its page and the page holds, in the
    rectangle, the bytes rasterized for the codepoint, row by row. *)
Definition holds_image (c : glyph_cache) (cp : Z) (g : cached_glyph) : Prop :=
  0 <= rect_x (rect g) /\ 0 <= rect_y (rect g)
  /\ rect_x (rect g) + rect_w (rect g) <= atlas_size (m_config c)
  /\ rect_y (rect g) + rect_h (rect g) <= atlas_size (m_config c)
  /\ exists page,
       m_atlases c !! Z.to_nat (atlas_index g) = Some page
       /\ forall gx gy,
            0 <= gx < rect_w (rect g) -> 0 <= gy < rect_h (rect g) ->
            pixel page (rect_x (rect g) + gx) (rect_y (rect g) + gy)
            = nth (Z.to_nat (gy * rect_w (rect g) + gx)) (glyph_image c cp) 0.

Definition page_sized (c : glyph_cache) (page : memory_atlas) : Prop :=
  atlas_width page = atlas_size (m_config c)
  /\ atlas_height page = atlas_size (m_config c)
  /\ atlas_sized page.

(** The cursor is on the page, pages have their size, and every glyph with
    pixels has its image on its page. *)
Definition imaged (c : glyph_cache) : Prop :=
  0 <= m_pack_x c /\ 0 <= m_pack_y c
  /\ Forall (page_sized c) (m_atlases c)
  /\ forall cp g, m_cache c !! cp = Some g -> has_pixels g -> holds_image c cp g.

End GlyphImages.

(** ** font_source.cc: the pixels of a bitmap glyph *)

Module BitmapRaster.
Import FontSource.

(** The character [get_glyph_metrics] and [rasterize_bitmap_glyph] settle
    on for a codepoint: the codepoint, the default character, or none. *)
Definition settled_char (font : bitmap_font) (codepoint : Z) : option Z :=
  if 255 <? codepoint then None
  else
    let ch := to_uint8 codepoint in
    if bf_out_of_font font ch
    then
      let ch := byte_val (bf_default_char font) in
      if bf_out_of_font font ch then None else Some ch
    else Some ch.

(** Is pixel [(gx, gy)] of the glyph of a character set? Outside the glyph
    no pixel is. *)
Definition glyph_bit (font : bitmap_font) (ch gx gy : Z) : bool :=
  match get_glyph font ch with
  | Ok glyph =>
    (0 <=? gx) && (gx <? view_width glyph)
    && (0 <=? gy) && (gy <? view_height glyph)
    && view_pixel glyph gx gy
  | Throw _ => false
  end.

(** The left side bearing of a character, 0 when the font gives none. *)
Definition left_bearing (font : bitmap_font) (ch : Z) : Z :=
  match get_spacing font ch with
  | Ok spacing =>
    match a_space spacing with
    | Some a => a
    | None => 0
    end
  | Throw _ => 0
  end.

(** Is [(px, py)] a pixel the glyph of the codepoint covers when it is
    drawn with the pen at [(x, y)] on the baseline? *)
Definition lit (font : bitmap_font) (codepoint x y px py : Z) : bool :=
  match settled_char font codepoint with
  | Some ch =>
    glyph_bit font ch (px - (x + left_bearing font ch))
              (py - (y - fm_ascent (bf_metrics font)))
  | None => false
  end.

(** [put_pixel(px, py, 255)] for a list of pixels, in order. *)
Definition paint (t : RasterTarget.grayscale_target) (pixels : list (Z * Z))
  : RasterTarget.grayscale_target :=
  foldl (fun t p => RasterTarget.put_pixel t (fst p) (snd p) 255) t pixels.

End BitmapRaster.

(** ** bitmap_glyphs_storage.cc: packed 1-bit glyph bitmaps

    A byte of the blob is an integer of [0, 256).  A failed [ENFORCE] is
    the [None] result.  The [uint16_t] and [size_t] parameters are integers
    of [Z]; that they are not negative is a hypothesis of the statements. *)

Module BitmapStorage.

Inductive bit_order := msb_first | lsb_first.

Definition u16 (z : Z) : Z := z mod 2 ^ 16.

Record glyph_internal := mk_glyph_internal {
  gi_offset : Z;
  gi_width : Z;
  gi_height : Z;
  gi_stride : Z
}.

Record bitmap_view := mk_bitmap_view {
  m_data : list Z;
  m_width : Z;
  m_height : Z;
  m_stride : Z;
  m_order : bit_order
}.

Record bitmap_storage := mk_bitmap_storage {
  s_order : bit_order;
  s_blob : list Z;
  s_glyphs : list glyph_internal
}.

(** The bit of its byte that holds column [x]. *)
Definition bit_of (order : bit_order) (x : Z) : Z :=
  match order with
  | msb_first => RasterTarget.u8 (7 - Z.land x 7)
  | lsb_first => RasterTarget.u8 (Z.land x 7)
  end.

(** [bitmap_view::row]. *)
Definition row (v : bitmap_view) (y : Z) : option (list Z) :=
  if y <? m_height v
  then Some (take (Z.to_nat (m_stride v))
                  (drop (Z.to_nat (y * m_stride v)) (m_data v)))
  else None.

(** [bitmap_view::pixel]. *)
Definition pixel (v : bitmap_view) (x y : Z) : option bool :=
  if (x <? m_width v) && (y <? m_height v)
  then
    let b := nth (Z.to_nat (y * m_stride v + Z.shiftr x 3)) (m_data v) 0 in
    let bit := bit_of (m_order v) x in
    Some (negb (Z.land (Z.shiftr b bit) 1 =? 0))
  else None.

Definition glyph_count (s : bitmap_storage) : Z :=
  Z.of_nat (length (s_glyphs s)).

(** [bitmap_storage::dimensions]. *)
Definition dimensions (s : bitmap_storage) (glyph_index : Z) : option (Z * Z) :=
  if glyph_index <? glyph_count s
  then
    match s_glyphs s !! Z.to_nat glyph_index with
    | Some g => Some (gi_width g, gi_height g)
    | None => None
    end
  else None.

(** [bitmap_storage::view]. *)
Definition view (s : bitmap_storage) (glyph_index : Z) : option bitmap_view :=
  if glyph_index <? glyph_count s
  then
    match s_glyphs s !! Z.to_nat glyph_index with
    | Some g =>
      let bytes := gi_stride g * gi_height g in
      if gi_offset g + bytes <=? Z.of_nat (length (s_blob s))
      then Some (mk_bitmap_view
                   (take (Z.to_nat bytes) (drop (Z.to_nat (gi_offset g)) (s_blob s)))
                   (gi_width g) (gi_height g) (gi_stride g) (s_order s))
      else None
    | None => None
    end
  else None.

(** [storage.view(glyph_index).pixel(x, y)]. *)
Definition view_pixel (s : bitmap_storage) (glyph_index x y : Z) : option bool :=
  match view s glyph_index with
  | Some v => pixel v x y
  | None => None
  end.

(** [storage.view(glyph_index).row(y)]. *)
Definition view_row (s : bitmap_storage) (glyph_index y : Z) : option (list Z) :=
  match view s glyph_index with
  | Some v => row v y
  | None => None
  end.

(** *** bitmap_builder

    A [glyph_writer] points into the blob of its builder: its methods are
    functions of the builder's state. *)

Record bitmap_builder := mk_builder {
  b_order : bit_order;
  b_blob : list Z;
  b_glyphs : list glyph_internal
}.

Record glyph_writer := mk_writer {
  w_glyph_index : Z;
  w_offset : Z;
  w_width : Z;
  w_height : Z;
  w_stride : Z;
  w_order : bit_order
}.

Definition bitmap_builder_new (order : bit_order) : bitmap_builder :=
  mk_builder order [] [].

Definition packed_stride (width : Z) : Z := u16 ((width + 7) / 8).

(** [glyph_writer::set_bit]. *)
Definition set_bit (b : bitmap_builder) (w : glyph_writer) (x y : Z) (on : bool)
  : bitmap_builder :=
  let idx := Z.to_nat (w_offset w + y * w_stride w + Z.shiftr x 3) in
  let bit := bit_of (w_order w) x in
  let old := nth idx (b_blob b) 0 in
  let mask := RasterTarget.u8 (Z.shiftl 1 bit) in
  let new := RasterTarget.u8 (if on then Z.lor old mask
                              else Z.land old (Z.lnot mask)) in
  mk_builder (b_order b) (<[idx := new]> (b_blob b)) (b_glyphs b).

(** [glyph_writer::set_pixel]. *)
Definition set_pixel (b : bitmap_builder) (w : glyph_writer) (x y : Z) (on : bool)
  : option bitmap_builder :=
  if (x <? w_width w) && (y <? w_height w)
  then Some (set_bit b w x y on)
  else None.

(** [glyph_writer::clear_pixel]. *)
Definition clear_pixel (b : bitmap_builder) (w : glyph_writer) (x y : Z)
  : option bitmap_builder :=
  set_pixel b w x y false.

(** [glyph_writer::set_row_packed]. *)
Definition set_row_packed (b : bitmap_builder) (w : glyph_writer) (y : Z)
    (packed : list Z) : option bitmap_builder :=
  if y <? w_height w
  then
    if Z.of_nat (length packed) =? w_stride w
    then Some (mk_builder (b_order b)
                 (RasterTarget.memcpy (b_blob b)
                    (Z.to_nat (w_offset w + y * w_stride w))
                    packed 0 (length packed))
                 (b_glyphs b))
    else None
  else None.

(** [bitmap_builder::reserve_glyph]: the builder afterwards and the writer
    it returns. *)
Definition reserve_glyph (b : bitmap_builder) (width height : Z)
  : bitmap_builder * glyph_writer :=
  let stride := packed_stride width in
  let bytes := height * stride in
  let offset := Z.of_nat (length (b_blob b)) in
  let gi := mk_glyph_internal offset width height stride in
  let glyphs := b_glyphs b ++ [gi] in
  let glyph_index := Z.of_nat (length glyphs) - 1 in
  (mk_builder (b_order b) (b_blob b ++ replicate (Z.to_nat bytes) 0) glyphs,
   mk_writer glyph_index offset width height stride (b_order b)).

(** [rows.subspan(offset, count)]. *)
Definition subspan (rows : list Z) (offset count : Z) : list Z :=
  take (Z.to_nat count) (drop (Z.to_nat offset) rows).

(** [bitmap_builder::add_glyph_packed]. *)
Definition add_glyph_packed (b : bitmap_builder) (width height : Z) (rows : list Z)
  : option (bitmap_builder * Z) :=
  let stride := packed_stride width in
  let expected := height * stride in
  if Z.of_nat (length rows) =? expected
  then
    let '(b1, w) := reserve_glyph b width height in
    match foldl (fun ob y =>
                   match ob with
                   | Some b => set_row_packed b w (Z.of_nat y)
                                 (subspan rows (Z.of_nat y * stride) stride)
                   | None => None
                   end)
                (Some b1) (seq 0 (Z.to_nat height)) with
    | Some b2 => Some (b2, w_glyph_index w)
    | None => None
    end
  else None.

(** [bitmap_builder::add_glyph_from_fn]. *)
Definition add_glyph_from_fn (b : bitmap_builder) (width height : Z)
    (pixel_on : Z -> Z -> bool) : option (bitmap_builder * Z) :=
  let '(b1, w) := reserve_glyph b width height in
  match foldl (fun ob y =>
                 foldl (fun ob x =>
                          match ob with
                          | Some b =>
                            if pixel_on (Z.of_nat x) (Z.of_nat y)
                            then set_pixel b w (Z.of_nat x) (Z.of_nat y) true
                            else Some b
                          | None => None
                          end)
                       ob (seq 0 (Z.to_nat width)))
              (Some b1) (seq 0 (Z.to_nat height)) with
  | Some b2 => Some (b2, w_glyph_index w)
  | None => None
  end.

(** [bitmap_builder::build]. *)
Definition build (b : bitmap_builder) : bitmap_storage :=
  mk_bitmap_storage (b_order b) (b_blob b) (b_glyphs b).

(** The values the callers can pass: a [uint16_t], a [std::byte]. *)
Definition is_u16 (z : Z) : Prop := 0 <= z < 2 ^ 16.
Definition is_byte (z : Z) : Prop := 0 <= z < 2 ^ 8.

(** A writer of a builder: [reserve_glyph] of this builder returned it,
    now or earlier. *)
Definition writer_of (b : bitmap_builder) (w : glyph_writer) : Prop :=
  0 <= w_glyph_index w
  /\ b_glyphs b !! Z.to_nat (w_glyph_index w)
     = Some (mk_glyph_internal (w_offset w) (w_width w) (w_height w) (w_stride w))
  /\ w_order w = b_order b.

(** The builders a program can make: a new one, then [reserve_glyph] and
    the writes of its writers. *)
Inductive made : bitmap_builder -> Prop :=
| made_new order : made (bitmap_builder_new order)
| made_reserve b width height :
    made b -> is_u16 width -> is_u16 height ->
    made (fst (reserve_glyph b width height))
| made_set_pixel b w x y on b' :
    made b -> writer_of b w -> 0 <= x -> 0 <= y ->
    set_pixel b w x y on = Some b' -> made b'
| made_set_row_packed b w y packed b' :
    made b -> writer_of b w -> 0 <= y -> Forall is_byte packed ->
    set_row_packed b w y packed = Some b' -> made b'.

(** The glyphs of a builder tile its blob: each glyph has the stride of its
    width and lies inside the blob, a later glyph starts where the earlier
    ones have ended, and the blob holds bytes. *)
Definition tiled (b : bitmap_builder) : Prop :=
  (forall i g, b_glyphs b !! i = Some g ->
     is_u16 (gi_width g) /\ is_u16 (gi_height g)
     /\ gi_stride g = packed_stride (gi_width g)
     /\ 0 <= gi_offset g
     /\ gi_offset g + gi_stride g * gi_height g <= Z.of_nat (length (b_blob b)))
  /\ (forall i j g1 g2, (i < j)%nat ->
       b_glyphs b !! i = Some g1 -> b_glyphs b !! j = Some g2 ->
       gi_offset g1 + gi_stride g1 * gi_height g1 <= gi_offset g2)
  /\ Forall is_byte (b_blob b).

(** Has [add_glyph_from_fn] set pixel [(x, y)] once its loops have done the
    rows before [n] and the columns before [m] of row [n]? *)
Definition filled (pixel_on : Z -> Z -> bool) (n m x y : Z) : bool :=
  ((y <? n) || ((y =? n) && (x <? m))) && pixel_on x y.

(** The state of [add_glyph_from_fn] between two turns of its loops, [b1]
    being the builder after [reserve_glyph]: no [ENFORCE] has failed and
    the pixels set so far are the [filled] ones. *)
Definition from_fn_state (b1 : bitmap_builder) (w : glyph_writer)
    (pixel_on : Z -> Z -> bool) (n m : Z) (ob : option bitmap_builder) : Prop :=
  exists b2,
    ob = Some b2 /\ made b2 /\ writer_of b2 w
    /\ b_glyphs b2 = b_glyphs b1
    /\ forall j x y, 0 <= j -> 0 <= x -> 0 <= y ->
         view_pixel (build b2) j x y
         = if decide (j = w_glyph_index w /\ x < w_width w /\ y < w_height w
                      /\ filled pixel_on n m x y = true)
           then Some true
           else view_pixel (build b1) j x y.

End BitmapStorage.

Module StorageSamples.
Import BitmapStorage.

(** A 10x2 glyph after a 3x1 glyph, least significant bit first. *)
Definition two_glyphs : bitmap_builder :=
  fst (reserve_glyph (fst (reserve_glyph (bitmap_builder_new lsb_first) 3 1)) 10 2).

Definition second_writer : glyph_writer :=
  snd (reserve_glyph (fst (reserve_glyph (bitmap_builder_new lsb_first) 3 1)) 10 2).

Definition chequer (x y : Z) : bool := Z.even (x + y).

End StorageSamples.

(** ** What the word wrap keeps of the text *)

Module WrapContent.
Import TextRasterizer TextRenderer.

Definition all_spaces (l : list byte) : Prop :=
  Forall (fun b => is_space b = true) l.

(** [cut text lines]: the lines are pieces of the text, none of them empty
    and in the order of the text, and the bytes of the text before the
    first line, between two lines and after the last one are spaces. *)
Inductive cut : list byte -> list (list byte) -> Prop :=
| cut_end (spaces : list byte) :
    all_spaces spaces -> cut spaces []
| cut_line (spaces line rest : list byte) (lines : list (list byte)) :
    all_spaces spaces -> line <> [] -> cut rest lines ->
    cut (spaces ++ line ++ rest) (line :: lines).

(** Between two turns of the loop of [wrap_lines] the lines flushed so far
    are cut from the text before [line_start]. *)
Definition wrap_keeps (text : list byte) (st : wrap_state) : Prop :=
  (line_start st <= current st)%nat
  /\ (current st <= length text)%nat
  /\ cut (take (line_start st) text) (lines st).

End WrapContent.

(** ** Drawing a text again *)

Module Redraw.
Import AtlasSurface TextRasterizer GlyphCache TextRenderer.

(** Where a blit call puts which rectangle: the call without the page. *)
Definition blit_place (b : blit_call) : glyph_rect * Q * Q :=
  (blit_rect b, blit_dst_x b, blit_dst_y b).

(** The pen before the glyph of [codepoint] is placed: the kerning with the
    previous codepoint applied. *)
Definition kerned_pen (st : draw_state) (codepoint : Z) : Q :=
  if negb (ds_prev_codepoint st =? 0)
  then (ds_pen_x st
        + get_kerning (m_rasterizer (ds_cache st)) (ds_prev_codepoint st) codepoint)%Q
  else ds_pen_x st.

(** The places [draw_baseline] blits a cached glyph to: one when it has
    pixels, none otherwise. *)
Definition glyph_places (y : Q) (pen_x : Q) (g : cached_glyph)
  : list (glyph_rect * Q * Q) :=
  if (0 <? rect_w (rect g)) && (0 <? rect_h (rect g))
  then [(rect g, (pen_x + cg_bearing_x g)%Q, (y - cg_bearing_y g)%Q)]
  else [].

End Redraw.

(** ** text_rasterizer.cc: measure_wrapped *)

Module MeasureWrapped.
Import TextRasterizer TextRenderer.

Record text_extents := mk_text_extents {
  te_width : Q;
  te_height : Q;
  te_ascent : Q;
  te_descent : Q
}.

(** [std::max(a, b)] on floats: [b] when [a < b], else [a]. *)
Definition std_max (a b : Q) : Q := if Qgtb b a then b else a.

(** The locals of the loop of [measure_wrapped]. *)
Record wrapped_measure := mk_wrapped_measure {
  wm_line_width : Q;
  wm_max_line_width : Q;
  wm_line_count : Z;
  wm_prev_codepoint : Z
}.

(** The body of the loop for one codepoint. *)
Definition measure_wrapped_step (r : text_rasterizer) (max_width : Q)
    (st : wrapped_measure) (codepoint : Z) : wrapped_measure :=
  if codepoint =? 10
  then mk_wrapped_measure 0 (std_max (wm_max_line_width st) (wm_line_width st))
                          (wm_line_count st + 1) 0
  else
    let kern := if negb (wm_prev_codepoint st =? 0)
                then get_kerning r (wm_prev_codepoint st) codepoint
                else 0%Q in
    let glyph := measure_glyph r codepoint in
    let advance := (kern + advance_x glyph)%Q in
    if Qgtb max_width 0 && Qgtb (wm_line_width st + advance) max_width
       && Qgtb (wm_line_width st) 0
    then mk_wrapped_measure (advance_x glyph)
                            (std_max (wm_max_line_width st) (wm_line_width st))
                            (wm_line_count st + 1) 0
    else mk_wrapped_measure (wm_line_width st + advance) (wm_max_line_width st)
                            (wm_line_count st) codepoint.

Definition measure_wrapped_loop (r : text_rasterizer) (text : list byte)
    (max_width : Q) : wrapped_measure :=
  foldl (measure_wrapped_step r max_width) (mk_wrapped_measure 0 0 1 0)
        (Utf8.utf8_view text).

(** [text_rasterizer::measure_wrapped]. *)
Definition measure_wrapped (r : text_rasterizer) (text : list byte) (max_width : Q)
  : text_extents :=
  match text with
  | [] => mk_text_extents 0 0 0 0
  | _ =>
    let metrics := get_metrics r in
    let st := measure_wrapped_loop r text max_width in
    mk_text_extents
      (std_max (wm_max_line_width st) (wm_line_width st))
      (line_height metrics * inject_Z (wm_line_count st))%Q
      (ascent metrics) (descent metrics)
  end.

(** The number of lines [measure_wrapped] counts. *)
Definition wrapped_line_count (r : text_rasterizer) (text : list byte)
    (max_width : Q) : Z :=
  wm_line_count (measure_wrapped_loop r text max_width).

End MeasureWrapped.

(** ** text_renderer.hh: draw_aligned and draw_wrapped *)

Module DrawWrapped.
Import AtlasSurface TextRasterizer GlyphCache TextRenderer.

Inductive text_align := align_left | align_center | align_right.

Record text_box := mk_text_box {
  box_x : Q;
  box_y : Q;
  box_w : Q;
  box_h : Q
}.

(** [draw_aligned]: the blit calls made and the cache after the call. *)
Definition draw_aligned (c : glyph_cache) (text : list byte) (x y width : Q)
    (align : text_align) : except (list blit_call * glyph_cache) :=
  match text with
  | [] => Ok ([], c)
  | _ =>
    let text_width := measure_text_width (m_rasterizer c) text in
    let offset_x :=
      match align with
      | align_left => 0%Q
      | align_center => ((width - text_width) / 2)%Q
      | align_right => (width - text_width)%Q
      end in
    match draw c text (x + offset_x)%Q y with
    | Ok (_, blits, c) => Ok (blits, c)
    | Throw e => Throw e
    end
  end.

Section FloatSums.

(** The sum of two floats as the machine rounds it. The sums of
    [draw_wrapped] decide how many lines are drawn, and a rounded sum can
    decide otherwise than the exact one: they are taken with [float_add],
    of which nothing is assumed. *)
Variable float_add : Q -> Q -> Q.

(** The test [current_y + line_h > box.y + box.h] that ends the loop. *)
Definition below_box (box : text_box) (line_h current_y : Q) : bool :=
  Qgtb (float_add current_y line_h) (float_add (box_y box) (box_h box)).

(** The loop of [draw_wrapped] over the lines left. *)
Fixpoint draw_wrapped_loop (c : glyph_cache) (wrapped : list (list byte))
    (box : text_box) (align : text_align) (line_h current_y : Q)
    (lines_drawn : Z) (blits : list blit_call)
  : except (Z * list blit_call * glyph_cache) :=
  match wrapped with
  | [] => Ok (lines_drawn, blits, c)
  | line :: rest =>
    if below_box box line_h current_y
    then Ok (lines_drawn, blits, c)
    else
      match draw_aligned c line (box_x box) current_y (box_w box) align with
      | Ok (line_blits, c) =>
        draw_wrapped_loop c rest box align line_h (float_add current_y line_h)
                          (lines_drawn + 1) (blits ++ line_blits)
      | Throw e => Throw e
      end
  end.

(** [draw_wrapped]: the number of lines drawn, with the blit calls made and
    the cache after the call; [None] should [wrap_lines] not end. *)
Definition draw_wrapped (c : glyph_cache) (text : list byte) (box : text_box)
    (align : text_align) : option (except (Z * list blit_call * glyph_cache)) :=
  match text with
  | [] => Some (Ok (0, [], c))
  | _ =>
    match wrap_lines (m_rasterizer c) text (box_w box) with
    | Some wrapped =>
      Some (draw_wrapped_loop c wrapped box align
              (line_height (get_metrics (m_rasterizer c))) (box_y box) 0 [])
    | None => None
    end
  end.

(** The value of [current_y] when the line of index [i] is reached:
    [line_h] added [i] times to [top]. *)
Definition line_top (line_h top : Q) (i : nat) : Q :=
  Nat.iter i (fun y => float_add y line_h) top.

End FloatSums.

(** The blit calls [blits] are those of drawing [line] on the cache [c],
    which holds its glyphs already: [draw_aligned] makes calls for the same
    rectangles at the same places and leaves the cache as it is. *)
Definition drawn_on (c : glyph_cache) (box : text_box) (align : text_align)
    (y : Q) (line : list byte) (blits : list blit_call) : Prop :=
  exists blits',
    draw_aligned c line (box_x box) y (box_w box) align = Ok (blits', c)
    /\ map Redraw.blit_place blits' = map Redraw.blit_place blits.

End DrawWrapped.

(** ** The strokes a vector glyph is measured from *)

Module StrokeBox.
Import FontSource.

(** The pen positions the strokes of a glyph visit, from a start position
    on: an [END] command leaves the pen where it is. *)
Fixpoint pen_path (pen : Z * Z) (strokes : list stroke_command) : list (Z * Z) :=
  match strokes with
  | [] => [pen]
  | cmd :: rest =>
    pen :: pen_path (match cmd_type cmd with
                     | END => pen
                     | _ => (fst pen + cmd_dx cmd, snd pen + cmd_dy cmd)
                     end) rest
  end.

End StrokeBox.

(** ** text_rasterizer.hh: rasterize_text *)

Module RasterizeText.
Import FontSource TextRasterizer BitmapRaster.








End RasterizeText.

(** * Theorems *)

Lemma byte_val_range b : 0 <= byte_val b < 256.
Proof.
  unfold byte_val. pose proof (Byte.to_N_bounded b) as H. lia.
Qed.

(** [Z.lor] of a shifted value and a value below the shift is a sum. *)
Lemma lor_shiftl_add (n a c : Z) :
  0 <= n -> 0 <= c < 2 ^ n ->
  Z.lor (Z.shiftl a n) c = a * 2 ^ n + c.
Proof.
  intros Hn Hc.
  assert (Hland : Z.land (Z.shiftl a n) c = 0).
  { apply Z.bits_inj'. intros i Hi.
    rewrite Z.land_spec, Z.bits_0.
    destruct (Z.lt_ge_cases i n) as [Hlt | Hge].
    - rewrite Z.shiftl_spec_low by lia. reflexivity.
    - rewrite <- (Z.mod_small c (2 ^ n)) by lia.
      rewrite Z.mod_pow2_bits_high by lia. apply andb_false_r. }
  rewrite <- Z.lxor_lor by exact Hland.
  rewrite <- Z.add_nocarry_lxor by exact Hland.
  rewrite Z.shiftl_mul_pow2 by lia. reflexivity.
Qed.

Module Utf8Facts.
Import Utf8.

Lemma data_0 b rest : data (b :: rest) 0 = byte_val b.
Proof. reflexivity. Qed.

Lemma data_S b rest i : data (b :: rest) (S i) = data rest i.
Proof. reflexivity. Qed.

Lemma len_cons b rest : len (b :: rest) = 1 + len rest.
Proof. unfold len. cbn [length]. lia. Qed.

Lemma len_nonneg str : 0 <= len str.
Proof. unfold len. lia. Qed.

Lemma continuation_is_trail b :
  is_continuation (byte_val b) = is_trail (byte_val b).
Proof. destruct b; reflexivity. Qed.

(** What the decoder's mask tests answer on a lead byte, by the length the
    byte announces. *)
Lemma lead_tests b :
  let f := byte_val b in
  match announced_length f with
  | 1 => (f <? 0x80) = true
  | 2 => (f <? 0x80) = false /\ (Z.land f 0xC0 =? 0x80) = false
         /\ (0xF8 <=? f) = false /\ (Z.land f 0xE0 =? 0xC0) = true
  | 3 => (f <? 0x80) = false /\ (Z.land f 0xC0 =? 0x80) = false
         /\ (0xF8 <=? f) = false /\ (Z.land f 0xE0 =? 0xC0) = false
         /\ (Z.land f 0xF0 =? 0xE0) = true
  | 4 => (f <? 0x80) = false /\ (Z.land f 0xC0 =? 0x80) = false
         /\ (0xF8 <=? f) = false /\ (Z.land f 0xE0 =? 0xC0) = false
         /\ (Z.land f 0xF0 =? 0xE0) = false /\ (Z.land f 0xF8 =? 0xF0) = true
  | _ => (f <? 0x80) = false
         /\ ((Z.land f 0xC0 =? 0x80) || (0xF8 <=? f)) = true
  end.
Proof. destruct b; vm_compute; auto 10. Qed.

Lemma announced_cases f :
  announced_length f = 0 \/ announced_length f = 1 \/ announced_length f = 2
  \/ announced_length f = 3 \/ announced_length f = 4.
Proof. unfold announced_length. repeat case_match; auto. Qed.

Lemma guard2 b rest :
  (len (b :: rest) <? 2) || negb (is_continuation (data (b :: rest) 1))
  = negb (trails_ok 1 rest).
Proof.
  destruct rest as [|b1 rest]; [reflexivity|].
  rewrite !len_cons, !data_S, !data_0. cbn [trails_ok].
  rewrite continuation_is_trail, andb_true_r.
  pose proof (len_nonneg rest).
  replace (1 + (1 + len rest) <? 2) with false by (symmetry; apply Z.ltb_ge; lia).
  reflexivity.
Qed.

Lemma guard3 b rest :
  (len (b :: rest) <? 3) || negb (is_continuation (data (b :: rest) 1))
  || negb (is_continuation (data (b :: rest) 2))
  = negb (trails_ok 2 rest).
Proof.
  destruct rest as [|b1 [|b2 rest]]; [reflexivity| |].
  - cbn [trails_ok]. rewrite andb_false_r. reflexivity.
  - rewrite !len_cons, !data_S, !data_0. cbn [trails_ok].
    rewrite !continuation_is_trail, andb_true_r.
    pose proof (len_nonneg rest).
    replace (1 + (1 + (1 + len rest)) <? 3) with false
      by (symmetry; apply Z.ltb_ge; lia).
    cbn [orb]. rewrite negb_andb. reflexivity.
Qed.

Lemma guard4 b rest :
  (len (b :: rest) <? 4) || negb (is_continuation (data (b :: rest) 1))
  || negb (is_continuation (data (b :: rest) 2))
  || negb (is_continuation (data (b :: rest) 3))
  = negb (trails_ok 3 rest).
Proof.
  destruct rest as [|b1 [|b2 [|b3 rest]]]; [reflexivity| | |].
  - cbn [trails_ok]. rewrite andb_false_r. reflexivity.
  - cbn [trails_ok]. rewrite !andb_false_r. reflexivity.
  - rewrite !len_cons, !data_S, !data_0. cbn [trails_ok].
    rewrite !continuation_is_trail, andb_true_r.
    pose proof (len_nonneg rest).
    replace (1 + (1 + (1 + (1 + len rest))) <? 4) with false
      by (symmetry; apply Z.ltb_ge; lia).
    cbn [orb]. rewrite !negb_andb, orb_assoc. reflexivity.
Qed.

Lemma cp2_place_value f d1 :
  Z.lor (Z.shiftl (Z.land f 0x1F) 6) (Z.land d1 0x3F)
  = (f mod 32) * 64 + d1 mod 64.
Proof.
  change 0x1F with (Z.ones 5). change 0x3F with (Z.ones 6).
  rewrite !Z.land_ones by lia.
  rewrite lor_shiftl_add; [reflexivity | lia |].
  apply Z.mod_pos_bound. lia.
Qed.

Lemma cp3_place_value f d1 d2 :
  Z.lor (Z.lor (Z.shiftl (Z.land f 0x0F) 12) (Z.shiftl (Z.land d1 0x3F) 6))
        (Z.land d2 0x3F)
  = (f mod 16) * 4096 + (d1 mod 64) * 64 + d2 mod 64.
Proof.
  change 0x0F with (Z.ones 4). change 0x3F with (Z.ones 6).
  rewrite !Z.land_ones by lia.
  replace 12 with (6 + 6) by reflexivity.
  rewrite <- Z.shiftl_shiftl by lia.
  rewrite <- Z.shiftl_lor.
  pose proof (Z.mod_pos_bound d1 (2 ^ 6) ltac:(lia)).
  pose proof (Z.mod_pos_bound d2 (2 ^ 6) ltac:(lia)).
  rewrite (lor_shiftl_add 6 (f mod 2 ^ 4)) by lia.
  rewrite lor_shiftl_add by lia.
  change (2 ^ 6) with 64. change (2 ^ 4) with 16. lia.
Qed.

Lemma cp4_place_value f d1 d2 d3 :
  Z.lor (Z.lor (Z.lor (Z.shiftl (Z.land f 0x07) 18)
                      (Z.shiftl (Z.land d1 0x3F) 12))
               (Z.shiftl (Z.land d2 0x3F) 6))
        (Z.land d3 0x3F)
  = (f mod 8) * 262144 + (d1 mod 64) * 4096 + (d2 mod 64) * 64 + d3 mod 64.
Proof.
  change 0x07 with (Z.ones 3). change 0x3F with (Z.ones 6).
  rewrite !Z.land_ones by lia.
  replace 18 with (6 + 6 + 6) by reflexivity.
  replace 12 with (6 + 6) by reflexivity.
  rewrite <- !Z.shiftl_shiftl by lia.
  rewrite <- !Z.shiftl_lor.
  pose proof (Z.mod_pos_bound d1 (2 ^ 6) ltac:(lia)).
  pose proof (Z.mod_pos_bound d2 (2 ^ 6) ltac:(lia)).
  pose proof (Z.mod_pos_bound d3 (2 ^ 6) ltac:(lia)).
  rewrite (lor_shiftl_add 6 (f mod 2 ^ 3)) by lia.
  rewrite (lor_shiftl_add 6 (f mod 2 ^ 3 * 2 ^ 6 + d1 mod 2 ^ 6)) by lia.
  rewrite lor_shiftl_add by lia.
  change (2 ^ 6) with 64. change (2 ^ 3) with 8. lia.
Qed.

(** C4. On a non-empty byte sequence [utf8_decode_one] consumes at least one
    byte; on the empty sequence it returns U+FFFD with zero bytes consumed. *)
Theorem decode_one_progress :
  (forall (b : byte) (rest : list byte),
     1 <= bytes_consumed (utf8_decode_one (b :: rest)))
  /\ utf8_decode_one [] = mk_result 0xFFFD 0.
Proof.
  split; [|reflexivity].
  intros b rest. unfold utf8_decode_one. cbv zeta.
  repeat case_match; cbn [bytes_consumed]; lia.
Qed.

(** C3, counterexample. The overlong encoding [C0 AF] of '/' decodes to
    U+FFFD, and two bytes are consumed, not one. *)
Lemma overlong_consumes_whole_sequence :
  let str := [Byte.xc0; Byte.xaf] in
  overlong str = true
  /\ utf8_decode_one str = mk_result REPLACEMENT_CHAR 2
  /\ utf8_decode_one str <> mk_result REPLACEMENT_CHAR 1.
Proof. cbv zeta. split; [reflexivity|]. split; [reflexivity|]. discriminate. Qed.

(** The same for a surrogate: [ED A0 80] (U+D800) consumes three bytes. *)
Example surrogate_consumes_whole_sequence :
  surrogate_encoded [Byte.xed; Byte.xa0; Byte.x80] = true
  /\ utf8_decode_one [Byte.xed; Byte.xa0; Byte.x80]
     = mk_result REPLACEMENT_CHAR 3.
Proof. split; reflexivity. Qed.

(** C3, amended. A structurally invalid sequence (a lead byte that cannot
    start a sequence, or an announced continuation byte missing or not a
    continuation byte) decodes to U+FFFD and consumes one byte; an overlong
    or surrogate-encoded sequence decodes to U+FFFD and consumes the whole
    sequence, that is as many bytes as its lead byte announces. *)
Theorem malformed_decoding (str : list byte) :
  (structurally_invalid str = true ->
   utf8_decode_one str = mk_result REPLACEMENT_CHAR 1)
  /\ (overlong str = true \/ surrogate_encoded str = true ->
      utf8_decode_one str
      = mk_result REPLACEMENT_CHAR (announced_length (data str 0))).
Proof.
  destruct str as [|b rest].
  { split; [discriminate|]. intros [H|H]; discriminate. }
  pose proof (lead_tests b) as Ht. cbv zeta in Ht.
  pose proof (byte_val_range b) as Hb.
  unfold structurally_invalid, overlong, surrogate_encoded, payload,
    structurally_valid.
  rewrite !data_0.
  unfold utf8_decode_one. cbv zeta. rewrite !data_0.
  destruct (announced_cases (byte_val b)) as [E|[E|[E|[E|E]]]];
    rewrite E in *; cbn [Z.ltb Z.compare negb andb Z.eqb Pos.eqb least_for_length].
  - (* the byte cannot lead a sequence *)
    destruct Ht as [H1 H2]. rewrite H1.
    split; [|intros [H|H]; discriminate].
    intros _. apply orb_true_iff in H2 as [H2|H2]; rewrite H2; [reflexivity|].
    destruct (Z.land (byte_val b) 192 =? 128); reflexivity.
  - (* ASCII *)
    split; [discriminate|].
    intros [H|H]; [|discriminate].
    apply Z.ltb_lt in H. lia.
  - (* two bytes *)
    destruct Ht as (H1 & H2 & H3 & H4). rewrite H1, H2, H3, H4.
    rewrite guard2. change (Z.to_nat (2 - 1)) with 1%nat.
    rewrite cp2_place_value.
    split.
    + intros H. rewrite H. reflexivity.
    + intros [H|H]; [|rewrite andb_false_r in H; discriminate].
      apply andb_true_iff in H as [Hv Hp]. rewrite Hv, Hp. reflexivity.
  - (* three bytes *)
    destruct Ht as (H1 & H2 & H3 & H4 & H5). rewrite H1, H2, H3, H4, H5.
    rewrite guard3. change (Z.to_nat (3 - 1)) with 2%nat.
    rewrite cp3_place_value.
    split.
    + intros H. rewrite H. reflexivity.
    + intros [H|H].
      * apply andb_true_iff in H as [Hv Hp]. rewrite Hv, Hp. reflexivity.
      * rewrite !andb_true_r in H.
        apply andb_true_iff in H as [H Hhi].
        apply andb_true_iff in H as [Hv Hlo]. rewrite Hv, Hlo, Hhi.
        cbn [negb andb]. case_match; reflexivity.
  - (* four bytes *)
    destruct Ht as (H1 & H2 & H3 & H4 & H5 & H6).
    rewrite H1, H2, H3, H4, H5, H6.
    rewrite guard4. change (Z.to_nat (4 - 1)) with 3%nat.
    rewrite cp4_place_value.
    split.
    + intros H. rewrite H. reflexivity.
    + intros [H|H]; [|rewrite andb_false_r in H; discriminate].
      apply andb_true_iff in H as [Hv Hp]. rewrite Hv, Hp. reflexivity.
Qed.

(** The amended statement at a truncated sequence and at an overlong one. *)
Lemma malformed_decoding_witness :
  utf8_decode_one [Byte.xe4; Byte.xb8] = mk_result REPLACEMENT_CHAR 1
  /\ utf8_decode_one [Byte.xc0; Byte.xaf] = mk_result REPLACEMENT_CHAR 2.
Proof.
  split.
  - apply (proj1 (malformed_decoding [Byte.xe4; Byte.xb8])). reflexivity.
  - apply (proj2 (malformed_decoding [Byte.xc0; Byte.xaf])). left. reflexivity.
Defined.

(** *** The decoder by the class of the lead byte *)

Lemma decode_by_class b rest :
  utf8_decode_one (b :: rest)
  = match announced_length (byte_val b) with
    | 1 => mk_result (byte_val b) 1
    | 2 =>
      if trails_ok 1 rest then
        let cp := payload (b :: rest) in
        if cp <? 0x80 then mk_result REPLACEMENT_CHAR 2 else mk_result cp 2
      else mk_result REPLACEMENT_CHAR 1
    | 3 =>
      if trails_ok 2 rest then
        let cp := payload (b :: rest) in
        if cp <? 0x800 then mk_result REPLACEMENT_CHAR 3
        else if (0xD800 <=? cp) && (cp <=? 0xDFFF)
             then mk_result REPLACEMENT_CHAR 3
             else mk_result cp 3
      else mk_result REPLACEMENT_CHAR 1
    | 4 =>
      if trails_ok 3 rest then
        let cp := payload (b :: rest) in
        if cp <? 0x10000 then mk_result REPLACEMENT_CHAR 4
        else if 0x10FFFF <? cp then mk_result REPLACEMENT_CHAR 4
             else mk_result cp 4
      else mk_result REPLACEMENT_CHAR 1
    | _ => mk_result REPLACEMENT_CHAR 1
    end.
Proof.
  pose proof (lead_tests b) as Ht. cbv zeta in Ht.
  unfold payload. rewrite !data_0.
  unfold utf8_decode_one. cbv zeta. rewrite !data_0.
  destruct (announced_cases (byte_val b)) as [E|[E|[E|[E|E]]]];
    rewrite E in *.
  - destruct Ht as [H1 H2]. rewrite H1.
    apply orb_true_iff in H2 as [H2|H2]; rewrite H2; [reflexivity|].
    destruct (Z.land (byte_val b) 192 =? 128); reflexivity.
  - rewrite Ht. reflexivity.
  - destruct Ht as (H1 & H2 & H3 & H4). rewrite H1, H2, H3, H4.
    rewrite guard2, cp2_place_value. destruct (trails_ok 1 rest); reflexivity.
  - destruct Ht as (H1 & H2 & H3 & H4 & H5). rewrite H1, H2, H3, H4, H5.
    rewrite guard3, cp3_place_value. destruct (trails_ok 2 rest); reflexivity.
  - destruct Ht as (H1 & H2 & H3 & H4 & H5 & H6).
    rewrite H1, H2, H3, H4, H5, H6.
    rewrite guard4, cp4_place_value. destruct (trails_ok 3 rest); reflexivity.
Qed.

(** *** Facts about one decoding step *)

Lemma trails_ok_length k rest :
  trails_ok k rest = true -> (k <= length rest)%nat.
Proof.
  revert rest. induction k as [|k IH]; intros rest H; [lia|].
  destruct rest as [|b rest]; [discriminate|].
  cbn [trails_ok] in H.
  apply andb_true_iff in H as [_ H]. apply IH in H. cbn [length]. lia.
Qed.

Lemma trails_ok_nth k rest i :
  trails_ok k rest = true -> (i < k)%nat ->
  is_trail (byte_val (nth i rest Byte.x00)) = true.
Proof.
  revert rest i. induction k as [|k IH]; intros rest i H Hi; [lia|].
  destruct rest as [|b rest]; [discriminate|].
  cbn [trails_ok] in H.
  apply andb_true_iff in H as [Hb H].
  destruct i as [|i]; [exact Hb|]. cbn [nth]. apply IH; [exact H | lia].
Qed.

Lemma trails_ok_take k rest j :
  (trails_ok k rest = true -> (k <= j)%nat) ->
  trails_ok k (take j rest) = trails_ok k rest.
Proof.
  revert rest j. induction k as [|k IH]; intros rest j H; [reflexivity|].
  destruct rest as [|b rest]; [destruct j; reflexivity|].
  destruct j as [|j].
  - destruct (trails_ok (S k) (b :: rest)) eqn:E; [|reflexivity].
    specialize (H eq_refl). lia.
  - cbn [take trails_ok] in *. destruct (is_trail (byte_val b)); [|reflexivity].
    cbn [andb] in *. apply IH. intros Hk. specialize (H Hk). lia.
Qed.

Lemma announced_length_range f :
  (announced_length f = 1 -> f < 0x80)
  /\ (announced_length f = 0 -> 0x80 <= f)
  /\ (2 <= announced_length f -> 0xC0 <= f).
Proof.
  unfold announced_length.
  destruct (Z.ltb_spec f 0x80), (Z.ltb_spec f 0xC0), (Z.ltb_spec f 0xE0),
    (Z.ltb_spec f 0xF0), (Z.ltb_spec f 0xF8); lia.
Qed.

(** One decoding step either consumes one byte, yielding that byte when it
    is ASCII and U+FFFD otherwise, or consumes a lead byte with all the
    continuation bytes it announces and yields a codepoint from U+0080 on. *)
Lemma decode_cases b rest :
  let d := utf8_decode_one (b :: rest) in
  let n := announced_length (byte_val b) in
  (bytes_consumed d = 1
   /\ (codepoint d = byte_val b /\ byte_val b < 0x80
       \/ codepoint d = REPLACEMENT_CHAR /\ 0x80 <= byte_val b)
   /\ (2 <= n -> trails_ok (Z.to_nat (n - 1)) rest = false))
  \/ (2 <= n <= 4 /\ bytes_consumed d = n
      /\ trails_ok (Z.to_nat (n - 1)) rest = true
      /\ 0x80 <= codepoint d /\ 0xC0 <= byte_val b).
Proof.
  cbv zeta. rewrite decode_by_class.
  pose proof (announced_length_range (byte_val b)) as (R1 & R0 & R2).
  destruct (announced_cases (byte_val b)) as [E|[E|[E|[E|E]]]];
    rewrite E in *; cbv zeta.
  - left. cbn. split; [reflexivity|]. split; [right; split; [reflexivity|lia] | lia].
  - left. cbn. split; [reflexivity|]. split; [left; split; [reflexivity|lia] | lia].
  - change (Z.to_nat (2 - 1)) with 1%nat.
    destruct (trails_ok 1 rest).
    + right. repeat case_match; cbn [bytes_consumed codepoint];
        unfold REPLACEMENT_CHAR; repeat split; try lia.
      all: try match goal with H : (_ <? _) = false |- _ => apply Z.ltb_ge in H; lia end.
    + left. cbn. split; [reflexivity|]. split; [right; split; [reflexivity|lia] | reflexivity].
  - change (Z.to_nat (3 - 1)) with 2%nat.
    destruct (trails_ok 2 rest).
    + right. repeat case_match; cbn [bytes_consumed codepoint];
        unfold REPLACEMENT_CHAR; repeat split; try lia.
      all: try match goal with H : (_ <? 2048) = false |- _ => apply Z.ltb_ge in H; lia end.
    + left. cbn. split; [reflexivity|]. split; [right; split; [reflexivity|lia] | reflexivity].
  - change (Z.to_nat (4 - 1)) with 3%nat.
    destruct (trails_ok 3 rest).
    + right. repeat case_match; cbn [bytes_consumed codepoint];
        unfold REPLACEMENT_CHAR; repeat split; try lia.
      all: try match goal with H : (_ <? 65536) = false |- _ => apply Z.ltb_ge in H; lia end.
    + left. cbn. split; [reflexivity|]. split; [right; split; [reflexivity|lia] | reflexivity].
Qed.

Lemma decode_consumed_range str :
  str <> [] ->
  1 <= bytes_consumed (utf8_decode_one str) <= Z.of_nat (length str).
Proof.
  destruct str as [|b rest]; [congruence|]. intros _.
  destruct (decode_cases b rest) as [(Hn & _) | (Hn & Hc & Ht & _)];
    cbv zeta in *; cbn [length].
  - rewrite Hn. lia.
  - apply trails_ok_length in Ht. lia.
Qed.

(** A codepoint below U+0080 comes from the single byte of that value. *)
Lemma decode_ascii b rest :
  codepoint (utf8_decode_one (b :: rest)) < 0x80 ->
  bytes_consumed (utf8_decode_one (b :: rest)) = 1
  /\ byte_val b = codepoint (utf8_decode_one (b :: rest)).
Proof.
  intros Hcp.
  destruct (decode_cases b rest) as [(Hn & Hc & _) | (_ & _ & _ & Hc & _)];
    cbv zeta in *; [|lia].
  split; [exact Hn|].
  destruct Hc as [[Hc _] | [Hc _]]; [congruence|].
  rewrite Hc in Hcp. unfold REPLACEMENT_CHAR in Hcp. lia.
Qed.

(** An ASCII byte decodes to itself. *)
Lemma decode_ascii_byte b rest :
  byte_val b < 0x80 ->
  utf8_decode_one (b :: rest) = mk_result (byte_val b) 1.
Proof.
  intros Hb. rewrite decode_by_class. unfold announced_length.
  replace (byte_val b <? 128) with true by (symmetry; apply Z.ltb_lt; lia).
  reflexivity.
Qed.

(** The bytes a step consumes after the first are continuation bytes. *)
Lemma decode_trailing_bytes str i :
  str <> [] -> (0 < i)%nat ->
  Z.of_nat i < bytes_consumed (utf8_decode_one str) ->
  is_trail (data str i) = true.
Proof.
  destruct str as [|b rest]; [congruence|]. intros _ Hi Hn.
  destruct (decode_cases b rest) as [(Hc & _) | (Hr & Hc & Ht & _)];
    cbv zeta in *; [lia|].
  destruct i as [|i]; [lia|]. rewrite data_S. unfold data.
  apply (trails_ok_nth _ _ _ Ht). lia.
Qed.

(** *** Decoding a prefix *)

Lemma nth_take_lt {A} (l : list A) (i j : nat) (d : A) :
  (i < j)%nat -> nth i (take j l) d = nth i l d.
Proof.
  revert i j. induction l as [|a l IH]; intros i j Hij.
  - destruct j; destruct i; reflexivity.
  - destruct j as [|j]; [lia|]. destruct i as [|i]; [reflexivity|].
    cbn [take nth]. apply IH. lia.
Qed.

Lemma data_take str i j :
  (i < j)%nat -> data (take j str) i = data str i.
Proof. intros H. unfold data. rewrite nth_take_lt by exact H. reflexivity. Qed.

Lemma payload_take b rest j :
  (Z.to_nat (announced_length (byte_val b) - 1) <= j)%nat ->
  payload (b :: take j rest) = payload (b :: rest).
Proof.
  intros Hj. unfold payload. rewrite !data_0.
  change (b :: take j rest) with (take (S j) (b :: rest)).
  destruct (announced_cases (byte_val b)) as [E|[E|[E|[E|E]]]];
    rewrite E in *; try reflexivity;
    rewrite !data_take by lia; reflexivity.
Qed.

(** Decoding sees no more than the bytes it consumes: a prefix that holds
    them decodes alike. *)
Lemma decode_take str m :
  bytes_consumed (utf8_decode_one str) <= Z.of_nat m ->
  utf8_decode_one (take m str) = utf8_decode_one str.
Proof.
  destruct str as [|b rest]; [destruct m; reflexivity|].
  intros Hm.
  destruct m as [|j].
  { pose proof (decode_consumed_range (b :: rest) ltac:(congruence)). lia. }
  cbn [take].
  pose proof (decode_cases b rest) as Hcases. cbv zeta in Hcases.
  rewrite !decode_by_class.
  assert (Htr : forall k, 2 <= announced_length (byte_val b) ->
                  k = Z.to_nat (announced_length (byte_val b) - 1) ->
                  trails_ok k (take j rest) = trails_ok k rest
                  /\ (trails_ok k rest = true ->
                      payload (b :: take j rest) = payload (b :: rest))).
  { intros k Hk ->.
    assert (Hle : trails_ok (Z.to_nat (announced_length (byte_val b) - 1)) rest = true ->
                  (Z.to_nat (announced_length (byte_val b) - 1) <= j)%nat).
    { intros Ht. destruct Hcases as [(_ & _ & Hf) | (_ & Hc & _)].
      - rewrite Hf in Ht by exact Hk. discriminate.
      - lia. }
    split; [apply trails_ok_take; exact Hle|].
    intros Ht. apply payload_take. auto. }
  destruct (announced_cases (byte_val b)) as [E|[E|[E|[E|E]]]];
    rewrite E in *; try reflexivity.
  - destruct (Htr 1%nat ltac:(lia) eq_refl) as [-> Hp].
    destruct (trails_ok 1 rest); [rewrite Hp by reflexivity|]; reflexivity.
  - destruct (Htr 2%nat ltac:(lia) eq_refl) as [-> Hp].
    destruct (trails_ok 2 rest); [rewrite Hp by reflexivity|]; reflexivity.
  - destruct (Htr 3%nat ltac:(lia) eq_refl) as [-> Hp].
    destruct (trails_ok 3 rest); [rewrite Hp by reflexivity|]; reflexivity.
Qed.

(** *** The sequence of codepoints *)

Lemma utf8_view_nil : utf8_view [] = [].
Proof. reflexivity. Qed.

Lemma utf8_iterator_not_at_end remaining cp :
  utf8_iterator_eq (mk_iterator remaining cp false) utf8_iterator_end = false.
Proof. reflexivity. Qed.

(** From a position not at the end, the loop yields the current codepoint
    and then the codepoints of the remaining bytes. *)
Lemma utf8_collect_from fuel remaining cp :
  (length remaining < fuel)%nat ->
  utf8_collect fuel (mk_iterator remaining cp false) = cp :: utf8_view remaining.
Proof.
  revert fuel cp.
  induction remaining as [remaining IH] using (induction_ltof1 _ (@length byte)).
  unfold ltof in IH. intros fuel cp Hfuel.
  destruct fuel as [|fuel]; [lia|].
  cbn [utf8_collect]. rewrite utf8_iterator_not_at_end. f_equal.
  destruct remaining as [|b rest].
  - destruct fuel; reflexivity.
  - pose proof (decode_consumed_range (b :: rest) ltac:(congruence)) as Hn.
    assert (Hdrop : (length (drop (Z.to_nat (bytes_consumed (utf8_decode_one (b :: rest))))
                                  (b :: rest)) < length (b :: rest))%nat)
      by (rewrite length_drop; cbn [length] in *; lia).
    unfold utf8_view, utf8_iterator_new, decode_next.
    cbn [m_remaining m_at_end]. cbv zeta.
    replace (0 <? bytes_consumed (utf8_decode_one (b :: rest))) with true
      by (symmetry; apply Z.ltb_lt; lia).
    rewrite !IH by (cbn [length] in *; lia). reflexivity.
Qed.

Lemma utf8_view_step str :
  str <> [] ->
  utf8_view str
  = codepoint (utf8_decode_one str)
    :: utf8_view (drop (Z.to_nat (bytes_consumed (utf8_decode_one str))) str).
Proof.
  intros Hne. destruct str as [|b rest]; [congruence|].
  pose proof (decode_consumed_range (b :: rest) Hne) as Hn.
  unfold utf8_view at 1. unfold utf8_iterator_new. cbv zeta.
  replace (0 <? bytes_consumed (utf8_decode_one (b :: rest))) with true
    by (symmetry; apply Z.ltb_lt; lia).
  apply utf8_collect_from. rewrite length_drop. cbn [length] in *. lia.
Qed.

(** *** Boundaries *)

Lemma boundary_le str k : boundary str k -> (k <= length str)%nat.
Proof.
  induction 1 as [str | str n k Hne Hn _ IH]; [lia|].
  pose proof (decode_consumed_range str Hne).
  rewrite length_drop in IH. lia.
Qed.

Lemma boundary_take str k m :
  boundary str k -> (k <= m)%nat -> boundary (take m str) k.
Proof.
  intros Hb. revert m.
  induction Hb as [str | str n k Hne Hn Hb IH]; intros m Hm; [constructor|].
  pose proof (decode_consumed_range str Hne) as Hrange.
  assert (Hdec : utf8_decode_one (take m str) = utf8_decode_one str)
    by (apply decode_take; lia).
  apply boundary_next.
  - destruct str; [congruence|]. destruct m; [lia|]. discriminate.
  - rewrite Hdec. exact Hn.
  - replace (drop n (take m str)) with (take (m - n) (drop n str)).
    + apply IH. lia.
    + rewrite take_drop_commute.
      replace (n + (m - n))%nat with m by lia. reflexivity.
Qed.

(** From a boundary, one more decoding step arrives at a boundary. *)
Lemma boundary_step str k :
  boundary str k -> (k < length str)%nat ->
  boundary str (k + Z.to_nat (bytes_consumed (utf8_decode_one (drop k str)))).
Proof.
  intros Hb. induction Hb as [str | str n k Hne Hn Hb IH]; intros Hk.
  - rewrite drop_0, Nat.add_0_l.
    replace (Z.to_nat (bytes_consumed (utf8_decode_one str)))
      with (Z.to_nat (bytes_consumed (utf8_decode_one str)) + 0)%nat by lia.
    apply boundary_next; [destruct str; [cbn in Hk; lia | discriminate]
                         | reflexivity | constructor].
  - rewrite <- Nat.add_assoc. apply boundary_next; [exact Hne | exact Hn |].
    rewrite <- drop_drop. apply IH. rewrite length_drop. lia.
Qed.

(** Between two boundaries the later is a boundary of what follows the earlier. *)
Lemma boundary_between str a b :
  boundary str a -> boundary str b -> (a <= b)%nat ->
  boundary (drop a str) (b - a).
Proof.
  intros Ha. revert b.
  induction Ha as [str | str n k Hne Hn Ha IH]; intros b Hb Hab.
  - rewrite Nat.sub_0_r. exact Hb.
  - pose proof (decode_consumed_range str Hne) as Hrange.
    inversion Hb as [str' | str' n' k' Hne' Hn' Hb' E1 E2]; subst.
    + lia.
    + rewrite <- drop_drop.
      replace (Z.to_nat (bytes_consumed (utf8_decode_one str)) + k'
               - (Z.to_nat (bytes_consumed (utf8_decode_one str)) + k))%nat
        with (k' - k)%nat by lia.
      apply IH; [exact Hb' | lia].
Qed.

(** The codepoints of a sequence split at any of its boundaries. *)
Lemma utf8_view_split str k :
  boundary str k ->
  utf8_view str = utf8_view (take k str) ++ utf8_view (drop k str).
Proof.
  induction 1 as [str | str n k Hne Hn Hb IH].
  - rewrite take_0, drop_0. reflexivity.
  - pose proof (decode_consumed_range str Hne) as Hrange.
    pose proof (boundary_le _ _ Hb) as Hk. rewrite length_drop in Hk.
    assert (Hdec : utf8_decode_one (take (n + k) str) = utf8_decode_one str)
      by (apply decode_take; lia).
    rewrite (utf8_view_step str Hne), <- Hn.
    rewrite (utf8_view_step (take (n + k) str)).
    2:{ destruct str; [congruence|]. destruct n; [lia|]. discriminate. }
    rewrite Hdec, <- Hn. cbn [app]. f_equal.
    rewrite IH. rewrite drop_drop. f_equal. f_equal.
    rewrite take_drop_commute. reflexivity.
Qed.

(** *** Bytes that cannot be inside a multi-byte sequence *)

Lemma nth_drop {A} (l : list A) (n i : nat) (d : A) :
  nth i (drop n l) d = nth (n + i) l d.
Proof.
  revert n. induction l as [|a l IH]; intros n.
  - rewrite drop_nil. destruct i, n; reflexivity.
  - destruct n as [|n]; [reflexivity|]. cbn [drop Nat.add nth]. apply IH.
Qed.

(** An offset whose byte is not a continuation byte, and the end of the
    sequence, are boundaries. *)
Lemma nontrail_boundary str p :
  (p <= length str)%nat ->
  ((p < length str)%nat -> is_trail (data str p) = false) ->
  boundary str p.
Proof.
  revert str. induction p as [p IH] using lt_wf_ind. intros str Hle Hnt.
  destruct p as [|p']; [constructor|].
  assert (Hne : str <> []) by (destruct str; [cbn in Hle; lia | discriminate]).
  pose proof (decode_consumed_range str Hne) as Hrange.
  set (n := Z.to_nat (bytes_consumed (utf8_decode_one str))).
  destruct (Nat.le_gt_cases n (S p')) as [Hn | Hn].
  - replace (S p') with (n + (S p' - n))%nat by lia.
    apply boundary_next; [exact Hne | reflexivity |].
    apply IH; [lia | rewrite length_drop; lia |].
    rewrite length_drop. intros Hlt. unfold data. rewrite nth_drop.
    replace (n + (S p' - n))%nat with (S p') by lia.
    apply Hnt. lia.
  - assert (Htrail : is_trail (data str (S p')) = true)
      by (apply decode_trailing_bytes; [exact Hne | lia | lia]).
    rewrite Hnt in Htrail by lia. discriminate.
Qed.

End Utf8Facts.

Module RasterTargetFacts.
Import RasterTarget.

(** *** rgba_blend_target *)

Lemma u8_chan_range z : 0 <= u8 z < 256.
Proof. unfold u8. apply Z.mod_pos_bound. reflexivity. Qed.

Lemma pack_place_value a r g b :
  0 <= a < 256 -> 0 <= r < 256 -> 0 <= g < 256 -> 0 <= b < 256 ->
  pack a r g b = a * 16777216 + r * 65536 + g * 256 + b.
Proof.
  intros Ha Hr Hg Hb. unfold pack, u32.
  rewrite !Z.shiftl_mul_pow2 by lia.
  rewrite !Z.mod_small by lia.
  rewrite <- !Z.shiftl_mul_pow2 by lia.
  replace 24 with (8 + 8 + 8) by reflexivity.
  replace 16 with (8 + 8) by reflexivity.
  rewrite <- !Z.shiftl_shiftl by lia.
  rewrite <- !Z.shiftl_lor.
  rewrite (lor_shiftl_add 8 a r) by lia.
  rewrite (lor_shiftl_add 8 (a * 2 ^ 8 + r) g) by lia.
  rewrite lor_shiftl_add by lia.
  lia.
Qed.

Lemma channels_of_place_value a r g b :
  0 <= a < 256 -> 0 <= r < 256 -> 0 <= g < 256 -> 0 <= b < 256 ->
  let p := a * 16777216 + r * 65536 + g * 256 + b in
  chan_a p = a /\ chan_r p = r /\ chan_g p = g /\ chan_b p = b.
Proof.
  intros Ha Hr Hg Hb p. unfold chan_a, chan_r, chan_g, chan_b, u8.
  change 0xFF with (Z.ones 8).
  rewrite !Z.land_ones, !Z.shiftr_div_pow2 by lia.
  rewrite !Z.mod_mod by lia.
  change (2 ^ 8) with 256. change (2 ^ 16) with 65536.
  change (2 ^ 24) with 16777216.
  subst p. repeat split; Z.to_euclidean_division_equations; lia.
Qed.

Lemma channels_of_pack a r g b :
  0 <= a < 256 -> 0 <= r < 256 -> 0 <= g < 256 -> 0 <= b < 256 ->
  chan_a (pack a r g b) = a /\ chan_r (pack a r g b) = r
  /\ chan_g (pack a r g b) = g /\ chan_b (pack a r g b) = b.
Proof.
  intros. rewrite pack_place_value by assumption.
  apply channels_of_place_value; assumption.
Qed.

(** The rounded blend of two bytes is a byte. *)
Lemma over_range src dst alpha :
  0 <= src < 256 -> 0 <= dst < 256 -> 0 <= alpha <= 255 ->
  0 <= (src * alpha + dst * (255 - alpha) + 127) / 255 < 256.
Proof.
  intros Hs Hd Ha.
  assert (0 <= src * alpha + dst * (255 - alpha) + 127 < 255 * 256) by nia.
  Z.to_euclidean_division_equations. lia.
Qed.

Lemma pixel_at_written buffer w h r g b x y v :
  0 <= x < w -> 0 <= y < h -> w * h <= Z.of_nat (length buffer) ->
  pixel_at (mk_rgba (<[Z.to_nat (y * w + x) := v]> buffer) w h r g b) x y = v.
Proof.
  intros Hx Hy Hlen. unfold pixel_at. cbn [rgba_buffer rgba_width].
  rewrite nth_lookup, list_lookup_insert_eq; [reflexivity|]. nia.
Qed.

(** C9. [rgba_blend_target::put_pixel] at in-bounds coordinates: alpha 0
    leaves the target as it is; alpha 255 stores the text colour with alpha
    255, whatever the destination held; for an alpha strictly between, every
    channel of the stored pixel is
    [(src * alpha + dst * (255 - alpha) + 127) / 255] in integer arithmetic,
    the source channel being the text colour for red, green and blue and 255
    (opaque) for the alpha channel. *)
Theorem rgba_put_pixel_over (buffer : list Z) (width height color x y alpha : Z) :
  0 <= x < width -> 0 <= y < height ->
  width * height <= Z.of_nat (length buffer) ->
  0 <= alpha <= 255 ->
  let t := rgba_blend_target_new buffer width height color in
  let dst := pixel_at t x y in
  let p := pixel_at (rgba_put_pixel t x y alpha) x y in
  let over src d := (src * alpha + d * (255 - alpha) + 127) / 255 in
  (alpha = 0 -> rgba_put_pixel t x y alpha = t)
  /\ (alpha = 255 ->
      p = pack 255 (m_color_r t) (m_color_g t) (m_color_b t)
      /\ chan_a p = 255 /\ chan_r p = m_color_r t
      /\ chan_g p = m_color_g t /\ chan_b p = m_color_b t)
  /\ (0 < alpha < 255 ->
      chan_a p = over 255 (chan_a dst)
      /\ chan_r p = over (m_color_r t) (chan_r dst)
      /\ chan_g p = over (m_color_g t) (chan_g dst)
      /\ chan_b p = over (m_color_b t) (chan_b dst)).
Proof.
  intros Hx Hy Hlen Ha t dst p over.
  assert (Hr : 0 <= m_color_r t < 256) by apply u8_chan_range.
  assert (Hg : 0 <= m_color_g t < 256) by apply u8_chan_range.
  assert (Hb : 0 <= m_color_b t < 256) by apply u8_chan_range.
  assert (Hbounds : (0 <=? x) && (x <? rgba_width t) && (0 <=? y)
                    && (y <? rgba_height t) = true).
  { cbn [t rgba_blend_target_new rgba_width rgba_height].
    rewrite !andb_true_iff, !Z.leb_le, !Z.ltb_lt. lia. }
  split; [|split].
  - intros ->. unfold rgba_put_pixel. rewrite Hbounds. reflexivity.
  - intros ->.
    assert (Hp : p = pack 255 (m_color_r t) (m_color_g t) (m_color_b t)).
    { subst p. unfold rgba_put_pixel. rewrite Hbounds. cbn [andb Z.ltb Z.compare].
      cbv zeta. cbn [t rgba_blend_target_new rgba_width rgba_height rgba_buffer
                       m_color_r m_color_g m_color_b].
      rewrite pixel_at_written by assumption. reflexivity. }
    split; [exact Hp|]. rewrite Hp.
    apply channels_of_pack; [lia|assumption..].
  - intros Hmid.
    pose proof (u8_chan_range (Z.land (Z.shiftr dst 24) 255)) as Hda.
    pose proof (u8_chan_range (Z.land (Z.shiftr dst 16) 255)) as Hdr.
    pose proof (u8_chan_range (Z.land (Z.shiftr dst 8) 255)) as Hdg.
    pose proof (u8_chan_range (Z.land dst 255)) as Hdb.
    fold (chan_a dst) in Hda. fold (chan_r dst) in Hdr.
    fold (chan_g dst) in Hdg. fold (chan_b dst) in Hdb.
    assert (Hp : p = pack (over 255 (chan_a dst)) (over (m_color_r t) (chan_r dst))
                          (over (m_color_g t) (chan_g dst))
                          (over (m_color_b t) (chan_b dst))).
    { subst p. unfold rgba_put_pixel. rewrite Hbounds.
      replace (0 <? alpha) with true by (symmetry; apply Z.ltb_lt; lia).
      cbn [andb]. cbv zeta.
      cbn [t rgba_blend_target_new rgba_width rgba_height rgba_buffer].
      rewrite pixel_at_written by assumption.
      fold t. fold dst. unfold blend.
      replace (alpha =? 255) with false by (symmetry; apply Z.eqb_neq; lia).
      cbv zeta. subst over. cbv beta.
      assert (Hinv : u32 (255 - alpha) = 255 - alpha)
        by (apply Z.mod_small; lia).
      rewrite Hinv.
      assert (Hnum : forall s d, 0 <= s < 256 -> 0 <= d < 256 ->
                u32 (s * alpha + d * (255 - alpha) + 127)
                = s * alpha + d * (255 - alpha) + 127).
      { intros s d Hs Hd. apply Z.mod_small. change (2 ^ 32) with 4294967296. nia. }
      rewrite !Hnum by assumption.
      assert (Hnum0 : u32 (chan_a dst * (255 - alpha) + 127)
                      = chan_a dst * (255 - alpha) + 127).
      { apply Z.mod_small. change (2 ^ 32) with 4294967296. nia. }
      rewrite Hnum0.
      assert (Hsum : alpha + (chan_a dst * (255 - alpha) + 127) / 255
                     = (255 * alpha + chan_a dst * (255 - alpha) + 127) / 255).
      { replace (255 * alpha + chan_a dst * (255 - alpha) + 127)
          with (chan_a dst * (255 - alpha) + 127 + alpha * 255) by lia.
        rewrite Z.div_add by lia. lia. }
      rewrite Hsum.
      pose proof (over_range 255 (chan_a dst) alpha ltac:(lia) Hda Ha) as Hoa.
      unfold u32 at 1. rewrite Z.mod_small by lia. reflexivity. }
    rewrite Hp. subst over. cbv beta.
    apply channels_of_pack; apply over_range; (assumption || lia).
Qed.

(** The statement at a one-pixel target: half-transparent white over
    opaque black. *)
Lemma rgba_put_pixel_over_witness :
  RasterTarget.chan_r
    (RasterTarget.pixel_at
       (RasterTarget.rgba_put_pixel
          (RasterTarget.rgba_blend_target_new [0xFF000000] 1 1 0xFFFFFF) 0 0 128)
       0 0)
  = (255 * 128 + 0 * (255 - 128) + 127) / 255.
Proof.
  pose proof (rgba_put_pixel_over [0xFF000000] 1 1 0xFFFFFF 0 0 128
                ltac:(lia) ltac:(lia) ltac:(cbn; lia) ltac:(lia)) as H.
  cbv zeta in H. destruct H as (_ & _ & H).
  destruct (H ltac:(lia)) as (_ & Hr & _). exact Hr.
Defined.

(** *** grayscale_target: the span path against the per-pixel path *)

Lemma put_pixel_dims t x y a :
  m_width (put_pixel t x y a) = m_width t
  /\ m_height (put_pixel t x y a) = m_height t
  /\ m_stride (put_pixel t x y a) = m_stride t
  /\ length (m_buffer (put_pixel t x y a)) = length (m_buffer t).
Proof.
  unfold put_pixel. case_match; cbn; rewrite ?length_insert; auto.
Qed.

Lemma put_pixel_covers t x y a :
  buffer_covers t -> buffer_covers (put_pixel t x y a).
Proof.
  unfold buffer_covers.
  destruct (put_pixel_dims t x y a) as (-> & -> & -> & ->). auto.
Qed.

Lemma put_pixel_loop_cons t x y a rest :
  put_pixel_loop t x y (a :: rest) (Z.of_nat (S (length rest)))
  = put_pixel_loop (put_pixel t x y a) (x + 1) y rest (Z.of_nat (length rest)).
Proof.
  unfold put_pixel_loop. rewrite !Nat2Z.id.
  cbn [seq foldl nth]. rewrite Z.add_0_r.
  rewrite <- fmap_S_seq, foldl_fmap.
  generalize (put_pixel t x y a) as t0. generalize (seq 0 (length rest)) as l.
  induction l as [|i l IH]; intros t0; [reflexivity|].
  cbn [foldl nth]. rewrite <- IH. do 2 f_equal. lia.
Qed.

Lemma put_span_row_out t x y alphas count :
  ~ (0 <= y < m_height t) -> put_span t x y alphas count = t.
Proof.
  intros Hy. unfold put_span.
  destruct (Z.ltb_spec y 0); [reflexivity|].
  destruct (Z.leb_spec (m_height t) y); [reflexivity|]. lia.
Qed.

Lemma put_pixel_row_out t x y a :
  ~ (0 <= y < m_height t) -> put_pixel t x y a = t.
Proof.
  intros Hy. unfold put_pixel.
  destruct (Z.leb_spec 0 x), (Z.ltb_spec x (m_width t)), (Z.leb_spec 0 y),
    (Z.ltb_spec y (m_height t)); cbn [andb]; try reflexivity. lia.
Qed.

(** One step of the pixel loop followed by the span over the remaining
    alphas is the span over all of them. *)
Lemma put_span_cons t x y a rest :
  buffer_covers t -> 0 <= y < m_height t ->
  put_span (put_pixel t x y a) (x + 1) y rest (Z.of_nat (length rest))
  = put_span t x y (a :: rest) (Z.of_nat (S (length rest))).
Proof.
  intros [Hws Hlen] Hy.
  set (n := Z.of_nat (length rest)).
  replace (Z.of_nat (S (length rest))) with (1 + n) by lia.
  assert (Hn : 0 <= n) by lia.
  unfold put_span.
  destruct (put_pixel_dims t x y a) as (Hw & Hh & Hs & _).
  rewrite Hw, Hh, Hs.
  replace (y <? 0) with false by (symmetry; apply Z.ltb_ge; lia).
  replace (m_height t <=? y) with false by (symmetry; apply Z.leb_gt; lia).
  cbn [orb]. cbv zeta.
  replace (x + 1 + n) with (x + (1 + n)) by lia.
  set (x1 := Z.min (m_width t) (x + (1 + n))).
  destruct (Z.lt_ge_cases x 0) as [Hneg | Hpos].
  - (* left of the row: the pixel is clipped, the span skips one more alpha *)
    assert (Hpix : put_pixel t x y a = t).
    { unfold put_pixel.
      replace (0 <=? x) with false by (symmetry; apply Z.leb_gt; lia).
      reflexivity. }
    rewrite Hpix.
    replace (Z.max 0 (x + 1)) with 0 by lia.
    replace (Z.max 0 x) with 0 by lia.
    replace (Z.to_nat (0 - x)) with (S (Z.to_nat (0 - (x + 1)))) by lia.
    reflexivity.
  - destruct (Z.lt_ge_cases x (m_width t)) as [Hin | Hout].
    + (* inside the row *)
      replace (Z.max 0 (x + 1)) with (x + 1) by lia.
      replace (Z.max 0 x) with x by lia.
      assert (Hx1 : x < x1) by (subst x1; lia).
      replace (x <? x1) with true by (symmetry; apply Z.ltb_lt; lia).
      set (i := Z.to_nat (y * m_stride t + x)).
      assert (Hi : (i < length (m_buffer t))%nat) by (subst i; nia).
      assert (Hbuf : m_buffer (put_pixel t x y a) = <[i := a]> (m_buffer t)).
      { unfold put_pixel.
        replace ((0 <=? x) && (x <? m_width t) && (0 <=? y) && (y <? m_height t))
          with true; [reflexivity|].
        symmetry. rewrite !andb_true_iff, !Z.leb_le, !Z.ltb_lt. lia. }
      assert (Hrhs : memcpy (m_buffer t) i (a :: rest) (Z.to_nat (x - x))
                            (Z.to_nat (x1 - x))
                     = take i (m_buffer t) ++ a :: take (Z.to_nat (x1 - (x + 1))) rest
                       ++ drop (S i + Z.to_nat (x1 - (x + 1))) (m_buffer t)).
      { unfold memcpy. rewrite Z.sub_diag. change (Z.to_nat 0) with 0%nat.
        replace (Z.to_nat (x1 - x)) with (S (Z.to_nat (x1 - (x + 1)))) by lia.
        cbn [take drop]. rewrite <- app_comm_cons.
        replace (i + S (Z.to_nat (x1 - (x + 1))))%nat
          with (S i + Z.to_nat (x1 - (x + 1)))%nat by lia.
        reflexivity. }
      rewrite Hrhs.
      assert (Hlhs : take (S i) (<[i := a]> (m_buffer t))
                     ++ take (Z.to_nat (x1 - (x + 1))) rest
                     ++ drop (S i + Z.to_nat (x1 - (x + 1))) (<[i := a]> (m_buffer t))
                     = take i (m_buffer t) ++ a :: take (Z.to_nat (x1 - (x + 1))) rest
                       ++ drop (S i + Z.to_nat (x1 - (x + 1))) (m_buffer t)).
      { rewrite drop_insert_lt by lia.
        rewrite (take_S_r _ i a) by (apply list_lookup_insert_eq; exact Hi).
        rewrite take_insert_ge by lia.
        rewrite <- app_assoc. reflexivity. }
      destruct (Z.ltb_spec (x + 1) x1) as [Hmore | Hlast].
      * unfold with_buffer. rewrite Hw, Hh, Hs, Hbuf. f_equal.
        unfold memcpy.
        replace (Z.to_nat (y * m_stride t + (x + 1))) with (S i) by (subst i; nia).
        rewrite Z.sub_diag. change (Z.to_nat 0) with 0%nat. cbn [drop].
        exact Hlhs.
      * replace (Z.to_nat (x1 - (x + 1))) with 0%nat in * by lia.
        rewrite firstn_O, app_nil_l, Nat.add_0_r in Hlhs.
        rewrite take_drop in Hlhs. cbn [app] in Hlhs.
        rewrite firstn_O, app_nil_l, Nat.add_0_r.
        unfold with_buffer. rewrite <- Hlhs, <- Hbuf.
        destruct (put_pixel t x y a) as [b0 w0 h0 s0]. cbn in *. congruence.
    + (* right of the row: nothing is written on either path *)
      assert (Hpix : put_pixel t x y a = t).
      { unfold put_pixel.
        replace (x <? m_width t) with false by (symmetry; apply Z.ltb_ge; lia).
        rewrite andb_false_r. reflexivity. }
      rewrite Hpix.
      replace (Z.max 0 (x + 1) <? x1) with false
        by (symmetry; apply Z.ltb_ge; subst x1; lia).
      replace (Z.max 0 x <? x1) with false
        by (symmetry; apply Z.ltb_ge; subst x1; lia).
      reflexivity.
Qed.

(** C10. On an overwrite grayscale target whose buffer covers its rows, for
    any start [(x, y)], inside the target or not, and any array of [count]
    alphas, [put_span] leaves the target as the loop of [put_pixel] calls over
    the same alphas does. *)
Theorem put_span_as_put_pixel_loop (t : grayscale_target) (x y : Z)
    (alphas : list Z) (count : Z) :
  buffer_covers t ->
  count = Z.of_nat (length alphas) ->
  put_span t x y alphas count = put_pixel_loop t x y alphas count.
Proof.
  intros Hcov ->. revert t x Hcov.
  induction alphas as [|a rest IH]; intros t x Hcov.
  - unfold put_pixel_loop, put_span. cbn [length].
    change (Z.of_nat 0) with 0. change (Z.to_nat 0) with 0%nat.
    cbn [seq foldl]. cbv zeta.
    replace (Z.max 0 x <? Z.min (m_width t) (x + 0)) with false
      by (symmetry; apply Z.ltb_ge; lia).
    destruct ((y <? 0) || (m_height t <=? y)); reflexivity.
  - cbn [length]. rewrite put_pixel_loop_cons.
    rewrite <- IH by (apply put_pixel_covers; exact Hcov).
    destruct (Z.le_gt_cases 0 y) as [Hy0 | Hy0];
      [destruct (Z.lt_ge_cases y (m_height t)) as [Hy1 | Hy1]|].
    + symmetry. apply put_span_cons; [exact Hcov | lia].
    + rewrite (put_pixel_row_out t x y a) by lia.
      rewrite !put_span_row_out by lia. reflexivity.
    + rewrite (put_pixel_row_out t x y a) by lia.
      rewrite !put_span_row_out by lia. reflexivity.
Qed.

(** The statement on a 4x2 target for a span that starts left of the row
    and ends right of it. *)
Lemma put_span_as_put_pixel_loop_witness :
  let t := grayscale_target_new [0; 0; 0; 0; 0; 0; 0; 0] 4 2 0 in
  put_span t (-1) 1 [9; 8; 0; 7; 6; 5] 6
  = put_pixel_loop t (-1) 1 [9; 8; 0; 7; 6; 5] 6.
Proof.
  cbv zeta. apply put_span_as_put_pixel_loop.
  - split; cbn; lia.
  - reflexivity.
Defined.

End RasterTargetFacts.

Module FontSourceFacts.
Import FontSource.

Lemma to_uint8_byte (b : byte) : to_uint8 (byte_val b) = byte_val b.
Proof. unfold to_uint8. apply Z.mod_small. apply byte_val_range. Qed.

Lemma byte_val_le_255 (b : byte) : (255 <? byte_val b) = false.
Proof. apply Z.ltb_ge. pose proof (byte_val_range b). lia. Qed.

Lemma bf_in_font_spec font ch :
  (byte_val (bf_first_char font) <=? ch) && (ch <=? byte_val (bf_last_char font))
  = negb (bf_out_of_font font ch).
Proof.
  unfold bf_out_of_font.
  rewrite negb_orb, (Z.leb_antisym ch), (Z.leb_antisym _ ch). reflexivity.
Qed.

(** Inside the range of a font whose tables cover it, both asset
    accessors return the entry of the character. *)
Lemma bf_in_font_index font ch :
  bf_out_of_font font ch = false ->
  0 <= ch - byte_val (bf_first_char font)
       <= byte_val (bf_last_char font) - byte_val (bf_first_char font).
Proof.
  unfold bf_out_of_font. intros H. apply orb_false_iff in H as [H1 H2].
  apply Z.ltb_ge in H1. apply Z.ltb_ge in H2. lia.
Qed.

Lemma get_spacing_ok font ch :
  tables_cover font -> bf_out_of_font font ch = false ->
  exists spacing, get_spacing font ch = Ok spacing.
Proof.
  intros [Hs _] Hin. pose proof (bf_in_font_index font ch Hin) as Hidx.
  unfold get_spacing. rewrite Hin.
  destruct (lookup_lt_is_Some_2 (bf_spacing font)
              (Z.to_nat (ch - byte_val (bf_first_char font))) ltac:(lia))
    as [spacing ->].
  eexists. reflexivity.
Qed.

Lemma get_glyph_ok font ch :
  tables_cover font -> bf_out_of_font font ch = false ->
  exists glyph, get_glyph font ch = Ok glyph.
Proof.
  intros [_ Hg] Hin. pose proof (bf_in_font_index font ch Hin) as Hidx.
  unfold get_glyph. rewrite Hin.
  destruct (lookup_lt_is_Some_2 (bf_storage font)
              (Z.to_nat (ch - byte_val (bf_first_char font))) ltac:(lia))
    as [glyph ->].
  eexists. reflexivity.
Qed.

Lemma bitmap_glyph_metrics_ok font ch :
  tables_cover font -> bf_out_of_font font ch = false ->
  exists m, bitmap_glyph_metrics font ch = Ok m.
Proof.
  intros Hcover Hin. unfold bitmap_glyph_metrics.
  destruct (get_spacing_ok font ch Hcover Hin) as [spacing ->].
  destruct (get_glyph_ok font ch Hcover Hin) as [glyph ->].
  cbn [bind]. eexists. reflexivity.
Qed.

Lemma vf_get_glyph_ok font ch :
  glyphs_cover font ->
  exists glyph, vf_get_glyph font ch = Ok glyph
                /\ (is_Some glyph <-> vf_has_glyph font ch = true).
Proof.
  intros Hcover. unfold vf_get_glyph.
  destruct (vf_has_glyph font ch) eqn:Hhas; cbn [negb].
  - unfold vf_has_glyph in Hhas. apply andb_true_iff in Hhas as [H1 H2].
    apply Z.leb_le in H1. apply Z.leb_le in H2. unfold glyphs_cover in Hcover.
    destruct (lookup_lt_is_Some_2 (vf_glyphs font)
                (Z.to_nat (ch - byte_val (vf_first_char font))) ltac:(lia))
      as [glyph ->].
    exists (Some glyph). split; [reflexivity|]. split; eauto.
  - exists None. split; [reflexivity|].
    split; [intros [g Hg]; discriminate | discriminate].
Qed.

(** [get_glyph_metrics] guards every call of a throwing accessor: over an
    asset whose tables cover its range it returns. *)
Lemma get_glyph_metrics_ok fs codepoint size :
  source_covers fs ->
  exists m, get_glyph_metrics fs codepoint size = Ok m.
Proof.
  destruct fs as [font | font | font]; cbn [source_covers]; intros Hcover;
    unfold get_glyph_metrics; cbv zeta.
  - destruct (255 <? codepoint); [eexists; reflexivity|].
    destruct (bf_out_of_font font (to_uint8 codepoint)) eqn:Hout.
    + destruct (bf_out_of_font font (byte_val (bf_default_char font))) eqn:Hdef;
        [eexists; reflexivity|].
      apply bitmap_glyph_metrics_ok; assumption.
    + apply bitmap_glyph_metrics_ok; assumption.
  - destruct (255 <? codepoint); [eexists; reflexivity|].
    destruct (vf_get_glyph_ok font (to_uint8 codepoint) Hcover) as (g & -> & _).
    cbn [bind]. destruct g; [eexists; reflexivity|].
    destruct (vf_get_glyph_ok font (byte_val (vf_default_char font)) Hcover)
      as (g & -> & _).
    cbn [bind]. destruct g; eexists; reflexivity.
  - repeat case_match; eexists; reflexivity.
Qed.

(** The range guards of [get_glyph_metrics] keep the exception of the
    accessors from ever being thrown, whatever the asset. *)
Lemma bitmap_glyph_metrics_never_throws font ch :
  bf_out_of_font font ch = false ->
  ~ is_out_of_range (bitmap_glyph_metrics font ch).
Proof.
  intros Hin. unfold bitmap_glyph_metrics, get_spacing, get_glyph.
  rewrite Hin.
  destruct (bf_spacing font !! _); cbn [bind is_out_of_range]; [|tauto].
  destruct (bf_storage font !! _); cbn [bind is_out_of_range]; tauto.
Qed.

Lemma vf_get_glyph_never_throws font ch k :
  (forall glyph, ~ is_out_of_range (k glyph)) ->
  ~ is_out_of_range (bind (vf_get_glyph font ch) k : except glyph_metrics).
Proof.
  intros Hk. unfold vf_get_glyph.
  destruct (negb (vf_has_glyph font ch)); cbn [bind]; [apply Hk|].
  destruct (vf_glyphs font !! _); cbn [bind is_out_of_range]; [apply Hk | tauto].
Qed.

Lemma get_glyph_metrics_never_throws fs codepoint size :
  ~ is_out_of_range (get_glyph_metrics fs codepoint size).
Proof.
  destruct fs as [font | font | font]; unfold get_glyph_metrics; cbv zeta.
  - destruct (255 <? codepoint); [cbn; tauto|].
    destruct (bf_out_of_font font (to_uint8 codepoint)) eqn:Hout.
    + destruct (bf_out_of_font font (byte_val (bf_default_char font))) eqn:Hdef;
        [cbn; tauto|].
      apply bitmap_glyph_metrics_never_throws. exact Hdef.
    + apply bitmap_glyph_metrics_never_throws. exact Hout.
  - destruct (255 <? codepoint); [cbn; tauto|].
    apply vf_get_glyph_never_throws. intros [glyph|]; [cbn; tauto|].
    apply vf_get_glyph_never_throws. intros [glyph|]; cbn; tauto.
  - repeat case_match; cbn; tauto.
Qed.

(** What the hypothesis on the tables excludes. The default constructor
    gives a font whose range is the character 0 and whose tables are
    empty: for the codepoint 0 [get_glyph_metrics] passes the range guard
    and does not return, over the bitmap and over the stroke asset. *)
Example uninitialised_font_aborts :
  is_aborted (get_glyph_metrics (bitmap_ref bitmap_font_new) 0 12)
  /\ is_aborted (get_glyph_metrics (vector_ref vector_font_new) 0 12).
Proof. split; exact I. Qed.

(** C6, counterexample. For the bitmap font 'A'..'B' with default character
    'A', the codepoint U+1234 has no glyph and the default character has one,
    yet the metrics returned for U+1234 are all zero, not those of 'A'. *)
Lemma codepoint_above_255_gets_zero_metrics :
  let fs := bitmap_ref Samples.font_AB in
  has_glyph fs 0x1234 = false
  /\ has_glyph fs (default_char fs) = true
  /\ get_glyph_metrics fs 0x1234 12 = Ok zero_metrics
  /\ get_glyph_metrics fs (default_char fs) 12
     = Ok (mk_glyph_metrics (0 + 7) 0 5 7 6)
  /\ get_glyph_metrics fs 0x1234 12 <> get_glyph_metrics fs (default_char fs) 12.
Proof.
  cbv zeta. repeat split; try reflexivity. vm_compute. discriminate.
Qed.

(** C6, amended. [get_glyph_metrics] never throws, and over an asset whose
    tables hold an entry for every character of its range it returns. For
    a codepoint without a glyph: the bitmap and stroke variants return
    all-zero metrics when the codepoint is above 255; for a codepoint up to
    255 they return what [get_glyph_metrics] returns for the default
    character, its metrics, when the font has a glyph for it and all-zero
    metrics when it has not; the outline variant returns all-zero
    metrics. *)
Theorem missing_glyph_metrics (fs : font_source) (codepoint : Z) (size : Q) :
  ~ is_out_of_range (get_glyph_metrics fs codepoint size)
  /\ (source_covers fs ->
      exists m, get_glyph_metrics fs codepoint size = Ok m)
  /\ (has_glyph fs codepoint = false ->
      get_glyph_metrics fs codepoint size
      = match type fs with
        | outline => Ok zero_metrics
        | _ =>
          if 255 <? codepoint then Ok zero_metrics
          else if has_glyph fs (default_char fs)
               then get_glyph_metrics fs (default_char fs) size
               else Ok zero_metrics
        end).
Proof.
  split; [apply get_glyph_metrics_never_throws|].
  split; [apply get_glyph_metrics_ok|].
  destruct fs as [font | font | font]; cbn [type].
  - (* bitmap *)
    unfold get_glyph_metrics, has_glyph, default_char. cbv zeta.
    rewrite byte_val_le_255, to_uint8_byte.
    rewrite !bf_in_font_spec.
    destruct (255 <? codepoint) eqn:Hhi; [reflexivity|].
    destruct (bf_out_of_font font (to_uint8 codepoint)) eqn:Hout;
      cbn [negb]; [|discriminate].
    destruct (bf_out_of_font font (byte_val (bf_default_char font))) eqn:Hdef;
      cbn [negb]; reflexivity.
  - (* stroke *)
    unfold get_glyph_metrics, has_glyph, default_char. cbv zeta.
    rewrite byte_val_le_255, to_uint8_byte.
    destruct (255 <? codepoint) eqn:Hhi; [reflexivity|].
    intros Hhas. unfold vf_get_glyph at 1. rewrite Hhas. cbn [negb bind].
    unfold vf_get_glyph.
    destruct (vf_has_glyph font (byte_val (vf_default_char font))) eqn:Hdef;
      cbn [negb bind]; [|reflexivity].
    destruct (vf_glyphs font !! _); reflexivity.
  - (* outline *)
    unfold get_glyph_metrics, has_glyph, ttf_has_glyph, ttf_get_glyph_metrics.
    cbv zeta.
    destruct (ttf_is_valid font); cbn [negb]; [|reflexivity].
    destruct (stbtt_FindGlyphIndex font codepoint =? 0) eqn:Hidx,
      (codepoint =? 0) eqn:Hcp; cbn [negb andb orb];
      try reflexivity; discriminate.
Qed.

(** The amended statement on the sample font: 'Z' borrows the metrics of
    the default character 'A'. *)
Lemma missing_glyph_metrics_witness :
  (exists m, get_glyph_metrics (bitmap_ref Samples.font_AB) 90 12 = Ok m)
  /\ get_glyph_metrics (bitmap_ref Samples.font_AB) 90 12
     = get_glyph_metrics (bitmap_ref Samples.font_AB) 65 12.
Proof.
  destruct (missing_glyph_metrics (bitmap_ref Samples.font_AB) 90 12)
    as (_ & Hok & Hmiss).
  split; [apply Hok; split; reflexivity | exact (Hmiss eq_refl)].
Defined.

Lemma rasterize_bitmap_glyph_never_throws font codepoint target x y :
  ~ is_out_of_range
      (TextRasterizer.rasterize_bitmap_glyph font codepoint target x y).
Proof.
  assert (Hblit : forall ch, bf_out_of_font font ch = false ->
            ~ is_out_of_range (TextRasterizer.blit_bitmap_glyph font ch target x y)).
  { intros ch Hin.
    unfold TextRasterizer.blit_bitmap_glyph, get_spacing, get_glyph.
    rewrite Hin.
    destruct (bf_spacing font !! _); cbn [bind is_out_of_range]; [|tauto].
    destruct (bf_storage font !! _); cbn [bind is_out_of_range]; tauto. }
  unfold TextRasterizer.rasterize_bitmap_glyph. cbv zeta.
  destruct (255 <? codepoint); [cbn; tauto|].
  destruct (bf_out_of_font font (to_uint8 codepoint)) eqn:Hout.
  - destruct (bf_out_of_font font (byte_val (bf_default_char font))) eqn:Hdef;
      [cbn; tauto|].
    apply Hblit. exact Hdef.
  - apply Hblit. exact Hout.
Qed.

(** Over a font whose tables cover its range [rasterize_bitmap_glyph]
    returns. *)
Lemma blit_bitmap_glyph_ok font ch target x y :
  tables_cover font -> bf_out_of_font font ch = false ->
  exists target', TextRasterizer.blit_bitmap_glyph font ch target x y = Ok target'.
Proof.
  intros Hcover Hin. unfold TextRasterizer.blit_bitmap_glyph.
  destruct (get_spacing_ok font ch Hcover Hin) as [spacing ->].
  destruct (get_glyph_ok font ch Hcover Hin) as [glyph ->].
  cbn [bind]. eexists. reflexivity.
Qed.

Lemma rasterize_bitmap_glyph_ok font codepoint target x y :
  tables_cover font ->
  exists target',
    TextRasterizer.rasterize_bitmap_glyph font codepoint target x y = Ok target'.
Proof.
  intros Hcover. unfold TextRasterizer.rasterize_bitmap_glyph. cbv zeta.
  destruct (255 <? codepoint); [eexists; reflexivity|].
  destruct (bf_out_of_font font (to_uint8 codepoint)) eqn:Hout.
  - destruct (bf_out_of_font font (byte_val (bf_default_char font))) eqn:Hdef;
      [eexists; reflexivity|].
    apply blit_bitmap_glyph_ok; assumption.
  - apply blit_bitmap_glyph_ok; assumption.
Qed.

(** The fields of [bitmap_rasterizer] are the calls of the font source. *)
Lemma bitmap_rasterizer_calls font size codepoint target x y :
  tables_cover font ->
  get_glyph_metrics (bitmap_ref font) codepoint size
  = Ok (TextRasterizer.measure_glyph
          (TextRasterizer.bitmap_rasterizer font size) codepoint)
  /\ TextRasterizer.rasterize_bitmap_glyph font codepoint target x y
     = Ok (TextRasterizer.rasterize_glyph
             (TextRasterizer.bitmap_rasterizer font size) codepoint target x y).
Proof.
  intros Hcover.
  cbn [TextRasterizer.bitmap_rasterizer TextRasterizer.measure_glyph
       TextRasterizer.rasterize_glyph].
  destruct (get_glyph_metrics_ok (bitmap_ref font) codepoint size Hcover)
    as [m ->].
  destruct (rasterize_bitmap_glyph_ok font codepoint target x y Hcover)
    as [target' ->].
  split; reflexivity.
Qed.

End FontSourceFacts.

Module GlyphCacheFacts.
Import AtlasSurface TextRasterizer GlyphCache.

Lemma emplace_stored c cp g :
  m_cache (snd (emplace c cp g)) !! cp = Some (fst (emplace c cp g)).
Proof.
  unfold emplace. destruct (m_cache c !! cp) eqn:Hc; cbn [fst snd m_cache].
  - exact Hc.
  - apply lookup_insert_eq.
Qed.

(** [cache_glyph] ends in [emplace]: what it returns is what the map holds. *)
Lemma cache_glyph_stored c cp :
  m_cache (snd (cache_glyph c cp)) !! cp = Some (fst (cache_glyph c cp)).
Proof.
  unfold cache_glyph. cbv zeta. case_match; apply emplace_stored.
Qed.

Lemma get_stored c cp :
  m_cache (snd (get c cp)) !! cp = Some (fst (get c cp)).
Proof.
  unfold get. destruct (m_cache c !! cp) eqn:Hc; cbn [fst snd].
  - exact Hc.
  - apply cache_glyph_stored.
Qed.

(** C1. A second [get] of the same codepoint returns the record the first
    call returned, which is the entry the codepoint map stores under that
    codepoint, and leaves the cache as the first call left it: codepoint map,
    atlas pages and packing cursor are the same, so nothing is rasterized. *)
Theorem get_twice (c : glyph_cache) (codepoint : Z) :
  let first := get c codepoint in
  let second := get (snd first) codepoint in
  fst second = fst first
  /\ m_cache (snd first) !! codepoint = Some (fst first)
  /\ snd second = snd first
  /\ m_cache (snd second) = m_cache (snd first)
  /\ m_atlases (snd second) = m_atlases (snd first)
  /\ (m_pack_x (snd second), m_pack_y (snd second), m_row_height (snd second))
     = (m_pack_x (snd first), m_pack_y (snd first), m_row_height (snd first)).
Proof.
  intros first second.
  pose proof (get_stored c codepoint) as Hstored. fold first in Hstored.
  assert (Hsecond : second = first).
  { subst second. unfold get at 1. rewrite Hstored.
    destruct first; reflexivity. }
  rewrite Hsecond. auto 10.
Qed.

(** C2, at the failing input. With 32x32 pages and one pixel of padding a
    glyph 40 pixels wide is clamped to 32 pixels, moved to a fresh row and
    stored at x = 1: its rectangle ends at column 33 of a 32-column page. *)
Theorem wide_glyph_crosses_page :
  let g := fst (get CacheSamples.cache_W 87) in
  let c := snd (get CacheSamples.cache_W 87) in
  rect g = mk_rect 1 2 32 16
  /\ atlas_index g = 0
  /\ (atlas_width <$> m_atlases c !! 0%nat) = Some 32
  /\ ~ rect_inside_page c g.
Proof.
  cbv zeta.
  assert (Hrect : rect (fst (get CacheSamples.cache_W 87)) = mk_rect 1 2 32 16)
    by (vm_compute; reflexivity).
  assert (Hidx : atlas_index (fst (get CacheSamples.cache_W 87)) = 0)
    by (vm_compute; reflexivity).
  assert (Hpage : atlas_width <$> m_atlases (snd (get CacheSamples.cache_W 87)) !! 0%nat
                  = Some 32)
    by (vm_compute; reflexivity).
  repeat split; try assumption.
  unfold rect_inside_page. rewrite Hidx, Hrect.
  change (Z.to_nat 0) with 0%nat.
  destruct (m_atlases _ !! 0%nat) as [page|]; [|tauto].
  injection Hpage as Hw.
  cbn [rect_x rect_w rect_y rect_h]. lia.
Qed.

(** *** Well-formedness of reachable caches *)

Lemma well_formed_mono c c2 :
  well_formed c ->
  m_cache c2 = m_cache c -> m_rasterizer c2 = m_rasterizer c ->
  (length (m_atlases c) <= length (m_atlases c2))%nat ->
  well_formed c2.
Proof.
  intros [Hpages Hglyphs] Hc Hr Hlen. split; [lia|].
  intros cp g Hg. rewrite Hc in Hg. rewrite Hr.
  destruct (Hglyphs cp g Hg) as [Hidx Hadv]. split; [lia | exact Hadv].
Qed.

Lemma emplace_well_formed c cp g :
  well_formed c ->
  0 <= atlas_index g < Z.of_nat (length (m_atlases c)) ->
  cg_advance_x g = advance_x (measure_glyph (m_rasterizer c) cp) ->
  well_formed (snd (emplace c cp g))
  /\ m_rasterizer (snd (emplace c cp g)) = m_rasterizer c.
Proof.
  intros [Hpages Hglyphs] Hidx Hadv. unfold emplace.
  destruct (m_cache c !! cp) eqn:Hc; cbn [snd]; [split; [split|]; auto|].
  split; [|reflexivity]. split; [exact Hpages|].
  cbn [m_cache m_atlases m_rasterizer]. intros cp' g' Hg'.
  destruct (decide (cp = cp')) as [<- | Hne].
  - rewrite lookup_insert_eq in Hg'. injection Hg' as <-. auto.
  - rewrite lookup_insert_ne in Hg' by exact Hne. auto.
Qed.

Lemma cache_glyph_well_formed c cp :
  well_formed c ->
  well_formed (snd (cache_glyph c cp))
  /\ m_rasterizer (snd (cache_glyph c cp)) = m_rasterizer c.
Proof.
  intros Hwf. unfold cache_glyph. cbv zeta.
  destruct ((_ <=? 0) || (_ <=? 0)).
  - apply emplace_well_formed; [exact Hwf | | reflexivity].
    destruct Hwf as [Hpages _]. cbn [atlas_index]. lia.
  - set (w := clamp _ 0 _). set (h := clamp _ 0 _).
    set (c1 := if atlas_size (m_config c) <? m_pack_x c + (w + padding (m_config c))
               then next_row c else c).
    assert (H1 : m_cache c1 = m_cache c /\ m_rasterizer c1 = m_rasterizer c
                 /\ m_atlases c1 = m_atlases c /\ m_config c1 = m_config c).
    { subst c1. destruct (_ <? _); auto. }
    destruct H1 as (H1c & H1r & H1a & H1g). clearbody c1.
    set (c2 := if atlas_size (m_config c1) <? m_pack_y c1 + (h + padding (m_config c))
               then add_atlas c1 else c1).
    assert (H2 : m_cache c2 = m_cache c /\ m_rasterizer c2 = m_rasterizer c
                 /\ (length (m_atlases c) <= length (m_atlases c2))%nat).
    { subst c2. destruct (_ <? _); cbn [add_atlas m_cache m_rasterizer m_atlases];
        rewrite ?length_app, ?H1c, ?H1r, ?H1a; auto with lia. }
    destruct H2 as (H2c & H2r & H2a). clearbody c2.
    match goal with
    | |- context [emplace ?c3' cp ?g'] => set (c3 := c3'); set (g := g')
    end.
    assert (H3 : well_formed c3 /\ m_rasterizer c3 = m_rasterizer c
                 /\ length (m_atlases c3) = length (m_atlases c2)).
    { subst c3. cbn [m_rasterizer m_atlases]. rewrite length_alter.
      split; [|auto].
      apply (well_formed_mono c); auto.
      cbn [m_atlases]. rewrite length_alter. exact H2a. }
    destruct H3 as (H3wf & H3r & H3a).
    assert (Hidx : 0 <= atlas_index g < Z.of_nat (length (m_atlases c3))).
    { subst g. cbn [atlas_index]. rewrite H3a. destruct Hwf as [Hpages _]. lia. }
    assert (Hadv : cg_advance_x g = advance_x (measure_glyph (m_rasterizer c3) cp)).
    { rewrite H3r. reflexivity. }
    destruct (emplace_well_formed c3 cp g H3wf Hidx Hadv) as [Hw Hr].
    split; [exact Hw | rewrite Hr; exact H3r].
Qed.

Lemma get_well_formed c cp :
  well_formed c ->
  well_formed (snd (get c cp)) /\ m_rasterizer (snd (get c cp)) = m_rasterizer c.
Proof.
  intros Hwf. unfold get. destruct (m_cache c !! cp); [auto|].
  apply cache_glyph_well_formed. exact Hwf.
Qed.

Lemma cache_if_missing_well_formed c cp :
  well_formed c -> well_formed (cache_if_missing c cp).
Proof.
  intros Hwf. unfold cache_if_missing. destruct (negb _); [|exact Hwf].
  apply cache_glyph_well_formed. exact Hwf.
Qed.

Lemma foldl_cache_if_missing_well_formed cps c :
  well_formed c -> well_formed (foldl cache_if_missing c cps).
Proof.
  revert c. induction cps as [|cp cps IH]; intros c Hwf; [exact Hwf|].
  cbn [foldl]. apply IH, cache_if_missing_well_formed, Hwf.
Qed.

Lemma reachable_well_formed c : reachable c -> well_formed c.
Proof.
  induction 1 as [r config | c op _ IH].
  - unfold glyph_cache_new. cbv zeta.
    assert (Hnew : well_formed (add_atlas (mk_cache r config [] ∅ 0 0 0))).
    { split; [cbn; lia|]. intros cp g Hg. cbn in Hg.
      rewrite lookup_empty in Hg. discriminate. }
    destruct (pre_cache_ascii config); [|exact Hnew].
    apply foldl_cache_if_missing_well_formed, Hnew.
  - destruct op as [cp | first last | text]; cbn [apply_operation].
    + apply get_well_formed, IH.
    + apply foldl_cache_if_missing_well_formed, IH.
    + apply foldl_cache_if_missing_well_formed, IH.
Qed.

(** *** Atlas bounds when every glyph leaves room for the padding *)

Lemma write_alpha_row_dims a x y w pixels stride row :
  atlas_width (write_alpha_row a x y w pixels stride row) = atlas_width a
  /\ atlas_height (write_alpha_row a x y w pixels stride row) = atlas_height a.
Proof.
  unfold write_alpha_row. cbv zeta. repeat case_match; auto.
Qed.

Lemma write_alpha_dims a x y w h pixels stride :
  atlas_width (write_alpha a x y w h pixels stride) = atlas_width a
  /\ atlas_height (write_alpha a x y w h pixels stride) = atlas_height a.
Proof.
  unfold write_alpha. destruct ((w <=? 0) || (h <=? 0)); [auto|].
  generalize (seq 0 (Z.to_nat h)) as rows. intros rows. revert a.
  induction rows as [|row rows IH]; intros a; cbn [foldl]; [auto|].
  destruct (IH (write_alpha_row a x y w pixels stride (Z.of_nat row))) as [-> ->].
  apply write_alpha_row_dims.
Qed.

Lemma emplace_packed c cp g :
  packed c ->
  (0 < rect_w (rect g) ->
   0 <= atlas_index g < Z.of_nat (length (m_atlases c))
   /\ rect_x (rect g) + rect_w (rect g) <= atlas_size (m_config c)
   /\ rect_y (rect g) + rect_h (rect g) <= atlas_size (m_config c)) ->
  packed (snd (emplace c cp g))
  /\ m_config (snd (emplace c cp g)) = m_config c
  /\ m_rasterizer (snd (emplace c cp g)) = m_rasterizer c.
Proof.
  intros (Hpages & Hlen & Hglyphs) Hg. unfold emplace.
  destruct (m_cache c !! cp) eqn:Hc; cbn [snd];
    [split; [split; [|split]|]; auto|].
  split; [|split; reflexivity]. split; [exact Hpages|]. split; [exact Hlen|].
  cbn [m_cache m_atlases m_config]. intros cp' g' Hg'.
  destruct (decide (cp = cp')) as [<- | Hne].
  - rewrite lookup_insert_eq in Hg'. injection Hg' as <-. exact Hg.
  - rewrite lookup_insert_ne in Hg' by exact Hne. eauto.
Qed.

Lemma cache_glyph_packed c cp :
  glyphs_fit_pages c -> packed c ->
  packed (snd (cache_glyph c cp))
  /\ m_config (snd (cache_glyph c cp)) = m_config c
  /\ m_rasterizer (snd (cache_glyph c cp)) = m_rasterizer c.
Proof.
  intros [Hpad Hfit] Hpacked. destruct (Hfit cp) as [Hw Hh].
  unfold cache_glyph. cbv zeta.
  set (w := clamp (ceil_int (width (measure_glyph (m_rasterizer c) cp))) 0
                  (atlas_size (m_config c))) in *.
  set (h := clamp (ceil_int (height (measure_glyph (m_rasterizer c) cp))) 0
                  (atlas_size (m_config c))) in *.
  destruct ((w <=? 0) || (h <=? 0)) eqn:Hzero.
  { apply emplace_packed; [exact Hpacked|]. cbn [rect rect_w]. lia. }
  apply orb_false_iff in Hzero as [Hw0 Hh0].
  apply Z.leb_gt in Hw0, Hh0.
  set (A := atlas_size (m_config c)) in *. set (P := padding (m_config c)) in *.
  (* the row test *)
  set (c1 := if A <? m_pack_x c + (w + P) then next_row c else c).
  assert (H1 : m_cache c1 = m_cache c /\ m_rasterizer c1 = m_rasterizer c
                /\ m_atlases c1 = m_atlases c /\ m_config c1 = m_config c
                /\ m_pack_x c1 + w <= A).
  { subst c1. destruct (Z.ltb_spec A (m_pack_x c + (w + P))); cbn; repeat split; lia. }
  destruct H1 as (H1c & H1r & H1a & H1g & H1x). clearbody c1.
  (* the page test *)
  set (c2 := if atlas_size (m_config c1) <? m_pack_y c1 + (h + P)
             then add_atlas c1 else c1).
  assert (H2 : m_cache c2 = m_cache c /\ m_rasterizer c2 = m_rasterizer c
                /\ m_config c2 = m_config c
                /\ Forall (fun page => atlas_width page = A /\ atlas_height page = A)
                          (m_atlases c2)
                /\ (length (m_atlases c) <= length (m_atlases c2))%nat
                /\ m_pack_x c2 + w <= A /\ m_pack_y c2 + h <= A).
  { destruct Hpacked as (Hpages & _ & _).
    subst c2. rewrite H1g. fold A.
    destruct (Z.ltb_spec A (m_pack_y c1 + (h + P)));
      cbn [add_atlas m_cache m_rasterizer m_config m_atlases m_pack_x m_pack_y];
      rewrite ?H1g, ?H1a, ?length_app; fold A P.
    - repeat split; try assumption; try lia.
      apply Forall_app. split; [exact Hpages|].
      apply Forall_singleton. split; reflexivity.
    - repeat split; try assumption; try lia. }
  destruct H2 as (H2c & H2r & H2g & H2p & H2l & H2x & H2y). clearbody c2.
  match goal with
  | |- context [emplace ?c3' cp ?g'] => set (c3 := c3'); set (g := g')
  end.
  assert (H3 : packed c3 /\ m_config c3 = m_config c
               /\ m_rasterizer c3 = m_rasterizer c
               /\ length (m_atlases c3) = length (m_atlases c2)).
  { subst c3. cbn [m_config m_rasterizer m_atlases]. rewrite length_alter.
    split; [|auto]. destruct Hpacked as (_ & Hlen & Hglyphs).
    split; [|split].
    - cbn [m_atlases m_config]. rewrite H2g. fold A.
      apply Forall_alter; [exact H2p|].
      intros page _ [Hpw Hph].
      destruct (write_alpha_dims page (m_pack_x c2) (m_pack_y c2) w h
                  (RasterTarget.m_buffer
                     (rasterize_glyph (m_rasterizer c2) cp
                        (RasterTarget.grayscale_target_new
                           (replicate (Z.to_nat w * Z.to_nat h) 0) w h 0) 0
                        (ceil_int (bearing_y (measure_glyph (m_rasterizer c) cp)))))
                  w) as [-> ->].
      auto.
    - cbn [m_atlases]. rewrite length_alter. lia.
    - cbn [m_cache m_atlases m_config]. rewrite length_alter, H2c, H2g.
      intros cp' g' Hg' Hpos. destruct (Hglyphs cp' g' Hg' Hpos) as (Hi & Hx & Hy).
      repeat split; try assumption; lia. }
  destruct H3 as (H3p & H3g & H3r & H3l).
  destruct (emplace_packed c3 cp g H3p) as (Hp & Hg & Hr).
  { intros _. subst g. cbn [atlas_index rect rect_x rect_y rect_w rect_h].
    rewrite H3l, H3g. fold A. destruct Hpacked as (_ & Hlen & _).
    repeat split; lia. }
  split; [exact Hp|]. split; congruence.
Qed.

Lemma cache_if_missing_packed c cp :
  glyphs_fit_pages c -> packed c ->
  packed (cache_if_missing c cp)
  /\ m_config (cache_if_missing c cp) = m_config c
  /\ m_rasterizer (cache_if_missing c cp) = m_rasterizer c.
Proof.
  intros Hfit Hpacked. unfold cache_if_missing.
  destruct (negb _); [apply cache_glyph_packed; assumption | auto].
Qed.

Lemma glyphs_fit_pages_ext c c' :
  m_config c' = m_config c -> m_rasterizer c' = m_rasterizer c ->
  glyphs_fit_pages c -> glyphs_fit_pages c'.
Proof. unfold glyphs_fit_pages. intros -> ->. auto. Qed.

Lemma foldl_cache_if_missing_packed cps c :
  glyphs_fit_pages c -> packed c ->
  packed (foldl cache_if_missing c cps)
  /\ m_config (foldl cache_if_missing c cps) = m_config c
  /\ m_rasterizer (foldl cache_if_missing c cps) = m_rasterizer c.
Proof.
  revert c. induction cps as [|cp cps IH]; intros c Hfit Hpacked; [auto|].
  cbn [foldl].
  destruct (cache_if_missing_packed c cp Hfit Hpacked) as (Hp & Hg & Hr).
  destruct (IH (cache_if_missing c cp)) as (Hp' & Hg' & Hr');
    [apply (glyphs_fit_pages_ext c); assumption | exact Hp |].
  split; [exact Hp'|]. split; congruence.
Qed.

Lemma apply_operation_packed c op :
  glyphs_fit_pages c -> packed c ->
  packed (apply_operation c op)
  /\ m_config (apply_operation c op) = m_config c
  /\ m_rasterizer (apply_operation c op) = m_rasterizer c.
Proof.
  intros Hfit Hpacked. destruct op as [cp | first last | text];
    cbn [apply_operation].
  - unfold get. destruct (m_cache c !! cp); [auto|].
    apply cache_glyph_packed; assumption.
  - apply foldl_cache_if_missing_packed; assumption.
  - apply foldl_cache_if_missing_packed; assumption.
Qed.

Lemma reachable_packed c :
  reachable c ->
  exists r config,
    m_rasterizer c = r /\ m_config c = config
    /\ (glyphs_fit_pages c -> packed c).
Proof.
  induction 1 as [r config | c op _ (r & config & Hr & Hg & IH)].
  - exists r, config. unfold glyph_cache_new. cbv zeta.
    set (c0 := add_atlas (mk_cache r config [] ∅ 0 0 0)).
    assert (H0 : packed c0).
    { split; [|split].
      - cbn. apply Forall_singleton. split; reflexivity.
      - cbn. lia.
      - intros cp g Hg. cbn in Hg. rewrite lookup_empty in Hg. discriminate. }
    destruct (pre_cache_ascii config) eqn:Hpre.
    + assert (Hcfg : forall cps,
                 m_config (foldl cache_if_missing c0 cps) = config
                 /\ m_rasterizer (foldl cache_if_missing c0 cps) = r).
      { intros cps. generalize c0 (eq_refl : m_config c0 = config)
                               (eq_refl : m_rasterizer c0 = r).
        induction cps as [|cp cps IHc]; intros c1 Hc1 Hr1; [auto|].
        cbn [foldl]. apply IHc.
        - unfold cache_if_missing. destruct (negb _); [|exact Hc1].
          unfold cache_glyph, emplace. cbv zeta. repeat case_match; exact Hc1.
        - unfold cache_if_missing. destruct (negb _); [|exact Hr1].
          unfold cache_glyph, emplace. cbv zeta. repeat case_match; exact Hr1. }
      unfold cache_range. destruct (Hcfg (seqZ 32 (126 - 32 + 1))) as [Hc Hr].
      split; [exact Hr|]. split; [exact Hc|]. intros Hfit.
      apply foldl_cache_if_missing_packed; [|exact H0].
      apply (glyphs_fit_pages_ext (foldl cache_if_missing c0 (seqZ 32 (126 - 32 + 1))));
        [rewrite Hc | rewrite Hr |]; auto.
    + split; [reflexivity|]. split; [reflexivity|]. intros _. exact H0.
  - exists r, config.
    assert (Hsame : m_config (apply_operation c op) = m_config c
                    /\ m_rasterizer (apply_operation c op) = m_rasterizer c).
    { destruct op as [cp | first last | text]; cbn [apply_operation].
      - unfold get. destruct (m_cache c !! cp); [auto|].
        unfold cache_glyph, emplace. cbv zeta. repeat case_match; auto.
      - unfold cache_range. generalize (seqZ first (last - first + 1)) as cps.
        intros cps. generalize c.
        induction cps as [|cp cps IHc]; intros c1; [auto|]. cbn [foldl].
        destruct (IHc (cache_if_missing c1 cp)) as [-> ->].
        unfold cache_if_missing. destruct (negb _); [|auto].
        unfold cache_glyph, emplace. cbv zeta. repeat case_match; auto.
      - unfold cache_string. generalize (Utf8.utf8_view text) as cps.
        intros cps. generalize c.
        induction cps as [|cp cps IHc]; intros c1; [auto|]. cbn [foldl].
        destruct (IHc (cache_if_missing c1 cp)) as [-> ->].
        unfold cache_if_missing. destruct (negb _); [|auto].
        unfold cache_glyph, emplace. cbv zeta. repeat case_match; auto. }
    destruct Hsame as [Hg' Hr'].
    split; [congruence|]. split; [congruence|]. intros Hfit.
    assert (Hfitc : glyphs_fit_pages c)
      by (apply (glyphs_fit_pages_ext (apply_operation c op)); auto).
    apply apply_operation_packed; auto.
Qed.

(** Atlas bounds under a fit condition: when the padding is not negative
    and every glyph, clamped, leaves room for the padding on a page, every
    cached glyph with pixels lies inside the page its [atlas_index] names. *)
Theorem rects_inside_pages_when_glyphs_fit (c : glyph_cache) (cp : Z)
    (g : cached_glyph) :
  reachable c -> glyphs_fit_pages c ->
  m_cache c !! cp = Some g -> 0 < rect_w (rect g) ->
  rect_inside_page c g.
Proof.
  intros Hreach Hfit Hg Hpos.
  destruct (reachable_packed c Hreach) as (_ & _ & _ & _ & Hpacked).
  destruct (Hpacked Hfit) as (Hpages & _ & Hglyphs).
  destruct (Hglyphs cp g Hg Hpos) as (Hidx & Hx & Hy).
  unfold rect_inside_page.
  destruct (lookup_lt_is_Some_2 (m_atlases c) (Z.to_nat (atlas_index g)) ltac:(lia))
    as [page Hpage].
  rewrite Hpage.
  rewrite Forall_lookup in Hpages. destruct (Hpages _ _ Hpage) as [-> ->].
  auto.
Qed.

(** The bound on the sample cache: 'A', cached by the constructor, lies
    inside page 0. *)
Lemma rects_inside_pages_when_glyphs_fit_witness :
  exists g,
    m_cache WrapSamples.cache_plain !! 65 = Some g
    /\ rect_inside_page WrapSamples.cache_plain g.
Proof.
  assert (Hlookup : is_Some (m_cache WrapSamples.cache_plain !! 65))
    by (vm_compute; eauto).
  destruct Hlookup as [g Hg]. exists g. split; [exact Hg|].
  apply (rects_inside_pages_when_glyphs_fit WrapSamples.cache_plain 65 g).
  - apply reachable_new.
  - split; [vm_compute; discriminate|].
    intros cp. split; vm_compute; discriminate.
  - exact Hg.
  - assert (Hw : (rect_w ∘ rect) <$> m_cache WrapSamples.cache_plain !! 65 = Some 1)
      by (vm_compute; reflexivity).
    rewrite Hg in Hw. injection Hw as Hw. cbn in Hw. lia.
Defined.

End GlyphCacheFacts.

Module TextRendererFacts.
Import AtlasSurface TextRasterizer GlyphCache TextRenderer.
Import GlyphCacheFacts.

(** *** draw and draw_baseline *)

Lemma draw_step_ok y st cp :
  well_formed (ds_cache st) -> Forall blit_nonzero (ds_blits st) ->
  exists st',
    draw_step y st cp = Ok st'
    /\ well_formed (ds_cache st')
    /\ m_rasterizer (ds_cache st') = m_rasterizer (ds_cache st)
    /\ Forall blit_nonzero (ds_blits st')
    /\ (ds_pen_x st', ds_prev_codepoint st')
       = pen_step (m_rasterizer (ds_cache st))
                  (ds_pen_x st, ds_prev_codepoint st) cp.
Proof.
  intros Hwf Hblits. unfold draw_step. cbv zeta.
  pose proof (get_well_formed (ds_cache st) cp Hwf) as [Hwf' Hr].
  pose proof (get_stored (ds_cache st) cp) as Hstored.
  destruct (get (ds_cache st) cp) as [g c'] eqn:Hget. cbn [fst snd] in *.
  pose proof Hwf' as [Hpages Hglyphs].
  destruct (Hglyphs cp g Hstored) as [Hidx Hadv].
  assert (Hpen : forall pen,
             ((pen + cg_advance_x g)%Q, cp)
             = ((pen + advance_x (measure_glyph (m_rasterizer (ds_cache st)) cp))%Q, cp)).
  { intros pen. rewrite Hadv, Hr. reflexivity. }
  destruct ((0 <? rect_w (rect g)) && (0 <? rect_h (rect g))) eqn:Hnz.
  - unfold atlas.
    replace (atlas_index g <? 0) with false by (symmetry; apply Z.ltb_ge; lia).
    replace (Z.of_nat (length (m_atlases c')) <=? atlas_index g) with false
      by (symmetry; apply Z.leb_gt; lia).
    cbn [orb]. eexists. split; [reflexivity|].
    cbn [ds_cache ds_blits ds_pen_x ds_prev_codepoint].
    split; [exact Hwf'|]. split; [exact Hr|]. split.
    + apply Forall_app. split; [exact Hblits|].
      apply Forall_singleton. unfold blit_nonzero. cbn [blit_rect].
      apply andb_true_iff in Hnz as [Hw Hh].
      apply Z.ltb_lt in Hw, Hh. auto.
    + unfold pen_step. apply Hpen.
  - eexists. split; [reflexivity|].
    cbn [ds_cache ds_blits ds_pen_x ds_prev_codepoint].
    split; [exact Hwf'|]. split; [exact Hr|]. split; [exact Hblits|].
    unfold pen_step. apply Hpen.
Qed.

Lemma draw_loop_ok y cps st :
  well_formed (ds_cache st) -> Forall blit_nonzero (ds_blits st) ->
  exists st',
    draw_loop y st cps = Ok st'
    /\ Forall blit_nonzero (ds_blits st')
    /\ (ds_pen_x st', ds_prev_codepoint st')
       = foldl (pen_step (m_rasterizer (ds_cache st)))
               (ds_pen_x st, ds_prev_codepoint st) cps.
Proof.
  revert st. induction cps as [|cp cps IH]; intros st Hwf Hblits.
  - exists st. cbn. auto.
  - destruct (draw_step_ok y st cp Hwf Hblits)
      as (st1 & Hstep & Hwf1 & Hr1 & Hblits1 & Hpen1).
    destruct (IH st1 Hwf1 Hblits1) as (st' & Hloop & Hblits' & Hpen').
    exists st'. cbn [draw_loop foldl]. rewrite Hstep, <- Hpen1, <- Hr1.
    auto.
Qed.

Lemma draw_baseline_ok c text x y :
  well_formed c ->
  exists blits c',
    draw_baseline c text x y = Ok (drawn_width (m_rasterizer c) text x, blits, c')
    /\ Forall blit_nonzero blits.
Proof.
  intros Hwf. unfold draw_baseline, drawn_width.
  destruct text as [|b text]; [exists [], c; split; [reflexivity | constructor]|].
  destruct (draw_loop_ok y (Utf8.utf8_view (b :: text)) (mk_draw_state c x 0 []))
    as (st' & Hloop & Hblits & Hpen); [exact Hwf | constructor |].
  cbn [ds_cache ds_pen_x ds_prev_codepoint] in Hpen.
  exists (ds_blits st'), (ds_cache st'). rewrite Hloop.
  split; [|exact Hblits].
  unfold pen_travel. rewrite <- Hpen. reflexivity.
Qed.

(** C7. On a cache built by the constructor and the cache operations,
    [draw_baseline] and [draw] complete; every blit call they make has a
    rectangle of positive width and height; and the width they return is the
    pen travel of [measure_text] from [x], which adds the advance of every
    codepoint of the text, whether its glyph was blitted or not. *)
Theorem draw_blits_nonzero_and_advances (c : glyph_cache) (text : list byte)
    (x y : Q) :
  reachable c ->
  (exists blits c',
     draw_baseline c text x y = Ok (drawn_width (m_rasterizer c) text x, blits, c')
     /\ Forall blit_nonzero blits)
  /\ (exists blits c',
        draw c text x y = Ok (drawn_width (m_rasterizer c) text x, blits, c')
        /\ Forall blit_nonzero blits).
Proof.
  intros Hreach. apply reachable_well_formed in Hreach.
  split; [apply draw_baseline_ok; exact Hreach|].
  unfold draw. destruct text as [|b text].
  - exists [], c. split; [reflexivity | constructor].
  - apply draw_baseline_ok. exact Hreach.
Qed.

(** The statement on the sample cache for "! !": the space between the
    exclamation marks has an empty rectangle. *)
Lemma draw_blits_nonzero_and_advances_witness :
  exists blits c',
    draw_baseline CacheSamples.cache_bang (list_byte_of_string "! !") 0 0
    = Ok (drawn_width (m_rasterizer CacheSamples.cache_bang)
                      (list_byte_of_string "! !") 0, blits, c')
    /\ Forall blit_nonzero blits.
Proof.
  exact (proj1 (draw_blits_nonzero_and_advances
                  CacheSamples.cache_bang (list_byte_of_string "! !") 0 0
                  (reachable_new _ _))).
Defined.

(** On that input two glyphs are blitted and the pen travels 2 + 3 + 2. *)
Example draw_sample :
  match draw_baseline CacheSamples.cache_bang (list_byte_of_string "! !") 0 0 with
  | Ok (w, blits, c') =>
    (Qeq_bool w 7, length blits, rect <$> m_cache c' !! 32)
  | Throw _ => (false, 0%nat, None)
  end = (true, 2%nat, Some (mk_rect 0 0 0 0)).
Proof. vm_compute. reflexivity. Qed.

(** *** wrap_lines *)

Lemma Qgtb_true a b : Qgtb a b = true <-> (b < a)%Q.
Proof.
  unfold Qgtb. rewrite negb_true_iff, <- not_true_iff_false, Qle_bool_iff.
  split; [apply Qnot_le_lt | apply Qlt_not_le].
Qed.

Lemma Qgtb_false a b : Qgtb a b = false <-> (a <= b)%Q.
Proof.
  unfold Qgtb. rewrite negb_false_iff, Qle_bool_iff. reflexivity.
Qed.

Lemma is_space_spec b : is_space b = (byte_val b =? 32).
Proof. destruct b; reflexivity. Qed.

Lemma is_newline_spec b : Byte.eqb b Byte.x0a = (byte_val b =? 10).
Proof. destruct b; reflexivity. Qed.

Section WordWrap.

Variable r : text_rasterizer.
Hypothesis kerning_nonpos : forall a b, (get_kerning r a b <= 0)%Q.
Hypothesis advance_nonneg : forall cp, (0 <= advance_x (measure_glyph r cp))%Q.
Hypothesis space_advance : (0 < advance_x (measure_glyph r 32))%Q.

Lemma advance_sum_cons cp cps :
  advance_sum r (cp :: cps)
  = (advance_x (measure_glyph r cp) + advance_sum r cps)%Q.
Proof. reflexivity. Qed.

Lemma advance_sum_app cps1 cps2 :
  (advance_sum r (cps1 ++ cps2) == advance_sum r cps1 + advance_sum r cps2)%Q.
Proof.
  induction cps1 as [|cp cps1 IH].
  - change (advance_sum r []) with 0%Q. cbn [app]. lra.
  - rewrite <- app_comm_cons, !advance_sum_cons, IH. lra.
Qed.

Lemma advance_sum_nonneg cps : (0 <= advance_sum r cps)%Q.
Proof.
  induction cps as [|cp cps IH].
  - change (advance_sum r []) with 0%Q. lra.
  - rewrite advance_sum_cons. pose proof (advance_nonneg cp). lra.
Qed.

Lemma text_width_nonneg bs : (0 <= text_width r bs)%Q.
Proof. apply advance_sum_nonneg. Qed.

(** Kerning that never widens leaves the pen of [measure_text] within the
    sum of the advances. *)
Lemma pen_travel_sum cps s prev :
  (fst (foldl (pen_step r) (s, prev) cps) <= s + advance_sum r cps)%Q.
Proof.
  revert s prev. induction cps as [|cp cps IH]; intros s prev.
  - change (advance_sum r []) with 0%Q. cbn [foldl fst]. lra.
  - cbn [foldl]. rewrite advance_sum_cons.
    unfold pen_step at 2.
    pose proof (kerning_nonpos prev cp) as Hk.
    destruct (negb (prev =? 0));
      (eapply Qle_trans; [apply IH | lra]).
Qed.

Lemma measure_within_text_width line :
  (measure_text_width r line <= text_width r line)%Q.
Proof.
  unfold measure_text_width, text_width, pen_travel.
  destruct line as [|b line]; [apply Qle_refl|].
  eapply Qle_trans; [apply pen_travel_sum | lra].
Qed.

Lemma text_width_split bs k :
  Utf8.boundary bs k ->
  (text_width r bs == text_width r (take k bs) + text_width r (drop k bs))%Q.
Proof.
  intros Hb. unfold text_width.
  rewrite (Utf8Facts.utf8_view_split bs k Hb) at 1. apply advance_sum_app.
Qed.

Variable text : list byte.

(** **** Segments of the text *)

Lemma segment_eq a b : segment text a b = take (b - a) (drop a text).
Proof. reflexivity. Qed.

Lemma segment_empty a : segment text a a = [].
Proof. rewrite segment_eq, Nat.sub_diag. apply take_0. Qed.

Lemma segment_nonempty a b :
  (a < b)%nat -> (b <= length text)%nat -> segment text a b <> [].
Proof.
  intros Hab Hb E. apply (f_equal length) in E.
  rewrite segment_eq, length_take, length_drop in E. cbn in E. lia.
Qed.

Lemma segment_app a b c :
  (a <= b)%nat -> (b <= c)%nat ->
  segment text a c = segment text a b ++ segment text b c.
Proof.
  intros Hab Hbc. rewrite !segment_eq.
  replace (drop b text) with (drop (b - a) (drop a text))
    by (rewrite drop_drop; f_equal; lia).
  rewrite take_take_drop. f_equal. lia.
Qed.

Lemma segment_boundary a b c :
  Utf8.boundary text a -> Utf8.boundary text b ->
  (a <= b)%nat -> (b <= c)%nat ->
  Utf8.boundary (segment text a c) (b - a).
Proof.
  intros Ha Hb Hab Hbc. rewrite segment_eq.
  apply Utf8Facts.boundary_take; [|lia].
  apply Utf8Facts.boundary_between; assumption.
Qed.

Lemma text_width_segment a b c :
  Utf8.boundary text a -> Utf8.boundary text b ->
  (a <= b)%nat -> (b <= c)%nat ->
  (text_width r (segment text a c)
   == text_width r (segment text a b) + text_width r (segment text b c))%Q.
Proof.
  intros Ha Hb Hab Hbc.
  rewrite (text_width_split (segment text a c) (b - a))
    by (apply segment_boundary; assumption).
  rewrite (segment_app a b c Hab Hbc) at 1 2.
  assert (Hlen : (length (segment text a b) <= b - a)%nat)
    by (rewrite segment_eq, length_take; lia).
  destruct (Nat.eq_dec (length (segment text a b)) (b - a)%nat) as [E | E].
  - rewrite <- E at 1 2. rewrite take_app_length, drop_app_length. reflexivity.
  - (* the text ends inside [a, b): both tails are empty *)
    assert (Hshort : (length text < b)%nat).
    { rewrite segment_eq, length_take, length_drop in E. lia. }
    assert (Hbc_nil : segment text b c = []).
    { rewrite segment_eq, drop_ge by lia. apply take_nil. }
    rewrite Hbc_nil, app_nil_r.
    rewrite take_ge, drop_ge by lia. reflexivity.
Qed.

(** **** The bytes of one decoding step *)

Section Chunk.

Variable cur : nat.
Hypothesis cur_inside : (cur < length text)%nat.

Local Abbreviation d := (Utf8.utf8_decode_one (drop cur text)).
Local Abbreviation n := (Z.to_nat (Utf8.bytes_consumed d)).

Lemma rest_nonempty : drop cur text <> [].
Proof.
  intros E. apply (f_equal length) in E. rewrite length_drop in E.
  cbn in E. lia.
Qed.

Lemma chunk_size : (1 <= n)%nat /\ (cur + n <= length text)%nat.
Proof.
  pose proof (Utf8Facts.decode_consumed_range _ rest_nonempty) as H.
  rewrite length_drop in H. lia.
Qed.

Lemma chunk_eq : segment text cur (cur + n) = take n (drop cur text).
Proof. rewrite segment_eq. f_equal. lia. Qed.

Lemma chunk_view :
  Utf8.utf8_view (segment text cur (cur + n)) = [Utf8.codepoint d].
Proof.
  pose proof chunk_size as [Hn Hlen].
  rewrite chunk_eq.
  assert (Hdec : Utf8.utf8_decode_one (take n (drop cur text)) = d).
  { apply Utf8Facts.decode_take.
    pose proof (Utf8Facts.decode_consumed_range _ rest_nonempty). lia. }
  rewrite Utf8Facts.utf8_view_step.
  2:{ intros E. apply (f_equal length) in E.
      rewrite length_take, length_drop in E. cbn in E. lia. }
  rewrite Hdec.
  rewrite (drop_ge (take n (drop cur text))) by (rewrite length_take; lia).
  reflexivity.
Qed.

Lemma chunk_width :
  (text_width r (segment text cur (cur + n))
   == advance_x (measure_glyph r (Utf8.codepoint d)))%Q.
Proof.
  unfold text_width. rewrite chunk_view, advance_sum_cons.
  change (advance_sum r []) with 0%Q. lra.
Qed.

Lemma chunk_no_space :
  Utf8.codepoint d <> 32 -> no_space (segment text cur (cur + n)).
Proof.
  intros Hcp. rewrite chunk_eq. apply Forall_lookup. intros i b Hi.
  rewrite lookup_take in Hi.
  destruct (decide (i < n)%nat) as [Hin|]; [|discriminate].
  rewrite is_space_spec. apply Z.eqb_neq. intros Hb.
  destruct (drop cur text) as [|b0 rest] eqn:Hrest; [discriminate|].
  destruct i as [|i].
  - cbn in Hi. injection Hi as ->.
    rewrite Utf8Facts.decode_ascii_byte in Hcp by lia.
    cbn in Hcp. congruence.
  - assert (Ht : Utf8.is_trail (Utf8.data (b0 :: rest) (S i)) = true).
    { apply Utf8Facts.decode_trailing_bytes; [discriminate | lia |].
      pose proof (Utf8Facts.decode_consumed_range (b0 :: rest) ltac:(discriminate)).
      lia. }
    unfold Utf8.data in Ht. rewrite (nth_lookup_Some _ _ _ _ Hi) in Ht.
    unfold Utf8.is_trail in Ht. rewrite Hb in Ht. discriminate.
Qed.

(** A codepoint below U+0080 is one byte of the text, of that value. *)
Lemma chunk_ascii :
  Utf8.codepoint d < 0x80 ->
  n = 1%nat
  /\ exists b, segment text cur (cur + 1) = [b]
               /\ byte_val b = Utf8.codepoint d
               /\ nth cur text Byte.x00 = b.
Proof.
  intros Hcp. pose proof rest_nonempty as Hne.
  assert (Hnth : nth cur text Byte.x00 = nth 0 (drop cur text) Byte.x00)
    by (rewrite Utf8Facts.nth_drop; f_equal; lia).
  rewrite segment_eq, Hnth.
  replace (cur + 1 - cur)%nat with 1%nat by lia.
  destruct (drop cur text) as [|b0 rest]; [congruence|].
  destruct (Utf8Facts.decode_ascii b0 rest Hcp) as [Hn Hb].
  split; [rewrite Hn; reflexivity|].
  exists b0. auto.
Qed.

End Chunk.

(** **** Single words *)

Lemma word_count_no_space l :
  no_space l -> word_count_from true l = 0%nat.
Proof.
  induction 1 as [|b l Hb _ IH]; cbn [word_count_from]; [reflexivity|].
  rewrite Hb. exact IH.
Qed.

(** Bytes without a space among them are one word. *)
Lemma no_space_one_word l :
  l <> [] -> no_space l -> word_count l = 1%nat.
Proof.
  intros Hne Hns. destruct Hns as [|b l Hb Hl]; [congruence|].
  unfold word_count. cbn [word_count_from].
  rewrite Hb, (word_count_no_space l Hl). reflexivity.
Qed.

Lemma no_space_dec l :
  no_space l
  \/ exists p, (p < length l)%nat /\ is_space (nth p l Byte.x00) = true.
Proof.
  induction l as [|b l [IH | (p & Hp & Hsp)]].
  - left. constructor.
  - destruct (is_space b) eqn:Hb.
    + right. exists 0%nat. cbn [length nth]. split; [lia | exact Hb].
    + left. constructor; assumption.
  - right. exists (S p). cbn [length nth]. split; [lia | exact Hsp].
Qed.

(** Since a space advances the pen, a run of zero width holds no space. *)
Lemma zero_width_no_space l :
  (text_width r l <= 0)%Q -> no_space l.
Proof.
  intros Hw. destruct (no_space_dec l) as [H | (p & Hp & Hsp)]; [exact H|].
  exfalso. rewrite is_space_spec in Hsp. apply Z.eqb_eq in Hsp.
  assert (Hb : Utf8.boundary l p).
  { apply Utf8Facts.nontrail_boundary; [lia|]. intros _.
    unfold Utf8.data, Utf8.is_trail. rewrite Hsp. reflexivity. }
  pose proof (text_width_split l p Hb) as Hsplit.
  pose proof (text_width_nonneg (take p l)) as Hpre.
  destruct (lookup_lt_is_Some_2 l p Hp) as [b Hlook].
  rewrite (nth_lookup_Some _ _ _ _ Hlook) in Hsp.
  rewrite (drop_S _ _ _ Hlook) in Hsplit.
  unfold text_width at 3 in Hsplit.
  rewrite Utf8Facts.utf8_view_step in Hsplit by discriminate.
  rewrite Utf8Facts.decode_ascii_byte in Hsplit by lia.
  cbn [Utf8.codepoint] in Hsplit. rewrite advance_sum_cons, Hsp in Hsplit.
  match type of Hsplit with
  | context [advance_sum r ?cps] => pose proof (advance_sum_nonneg cps)
  end.
  lra.
Qed.

(** **** Flushing a line *)

Variable max_width : Q.
Hypothesis space_fits : (advance_x (measure_glyph r 32) <= max_width)%Q.

(** A run of bytes within the width, or without a space, makes a line that
    fits. *)
Lemma line_fits_intro line :
  line <> [] ->
  (text_width r line <= max_width)%Q \/ no_space line ->
  line_fits r max_width line.
Proof.
  intros Hne Hfit. right.
  pose proof (measure_within_text_width line) as Hm.
  destruct (Qlt_le_dec max_width (measure_text_width r line)) as [Hover | Hin];
    [|left; exact Hin].
  destruct Hfit as [Hw | Hns]; [left; lra | right; auto].
Qed.

Lemma trim_trailing_spec ls e0 :
  Utf8.boundary text e0 -> (e0 <= length text)%nat ->
  (trim_trailing text ls e0 <= e0)%nat
  /\ ((ls <= e0)%nat -> (ls <= trim_trailing text ls e0)%nat)
  /\ Utf8.boundary text (trim_trailing text ls e0).
Proof.
  induction e0 as [|e IH]; intros Hb Hlen; cbn [trim_trailing].
  - split; [lia|]. split; [lia | exact Hb].
  - destruct (Nat.ltb_spec ls (S e)) as [Hlt | Hge]; cbn [andb].
    + destruct (is_space (nth e text Byte.x00)) eqn:Hsp.
      * assert (He : Utf8.boundary text e).
        { apply Utf8Facts.nontrail_boundary; [lia|]. intros _.
          rewrite is_space_spec in Hsp. apply Z.eqb_eq in Hsp.
          unfold Utf8.data, Utf8.is_trail. rewrite Hsp. reflexivity. }
        destruct (IH He ltac:(lia)) as (H1 & H2 & H3).
        split; [lia|]. split; [intros _; apply H2; lia | exact H3].
      * split; [lia|]. split; [lia | exact Hb].
    + split; [lia|]. split; [lia | exact Hb].
Qed.

(** A line within the width, or without a space, stays so when cut at a
    boundary. *)
Lemma fits_prefix ls b cur :
  Utf8.boundary text ls -> Utf8.boundary text b ->
  (ls <= b)%nat -> (b <= cur)%nat ->
  (text_width r (segment text ls cur) <= max_width)%Q
  \/ no_space (segment text ls cur) ->
  (text_width r (segment text ls b) <= max_width)%Q
  \/ no_space (segment text ls b).
Proof.
  intros Hls Hb Hlb Hbc [Hw | Hc].
  - left. pose proof (text_width_segment ls b cur Hls Hb Hlb Hbc) as Hsplit.
    pose proof (text_width_nonneg (segment text b cur)). lra.
  - right. rewrite (segment_app ls b cur Hlb Hbc) in Hc.
    apply Forall_app in Hc. apply Hc.
Qed.

Lemma flush_line_fits st e0 :
  Forall (line_fits r max_width) (lines st) ->
  Utf8.boundary text (line_start st) -> Utf8.boundary text e0 ->
  (e0 <= length text)%nat ->
  ((text_width r (segment text (line_start st) e0) <= max_width)%Q
   \/ no_space (segment text (line_start st) e0)) ->
  Forall (line_fits r max_width) (flush_line text st e0).
Proof.
  intros Hlines Hls He0 Hlen Hfit. unfold flush_line.
  destruct (Nat.ltb_spec (line_start st) e0) as [Hlt | _]; [|exact Hlines].
  destruct (trim_trailing_spec (line_start st) e0 He0 Hlen) as (H1 & H2 & H3).
  destruct (Nat.ltb_spec (line_start st) (trim_trailing text (line_start st) e0))
    as [Hlt' | _]; [|exact Hlines].
  apply Forall_app. split; [exact Hlines|]. apply Forall_singleton.
  fold (segment text (line_start st) (trim_trailing text (line_start st) e0)).
  apply line_fits_intro; [apply segment_nonempty; lia|].
  apply (fits_prefix (line_start st) _ e0); assumption || lia.
Qed.

(** The line flushed at a line feed keeps the line feed as its last byte. *)
Lemma flush_line_newline st cur :
  Forall (line_fits r max_width) (lines st) ->
  (line_start st <= cur)%nat -> (cur < length text)%nat ->
  byte_val (nth cur text Byte.x00) = 10 ->
  Forall (line_fits r max_width) (flush_line text st (cur + 1)).
Proof.
  intros Hlines Hlc Hin Hnl. unfold flush_line.
  replace (cur + 1)%nat with (S cur) by lia.
  replace (line_start st <? S cur)%nat with true
    by (symmetry; apply Nat.ltb_lt; lia).
  cbn [trim_trailing].
  replace (is_space (nth cur text Byte.x00)) with false
    by (rewrite is_space_spec, Hnl; reflexivity).
  rewrite andb_false_r.
  replace (line_start st <? S cur)%nat with true
    by (symmetry; apply Nat.ltb_lt; lia).
  apply Forall_app. split; [exact Hlines|]. apply Forall_singleton.
  left. fold (segment text (line_start st) (S cur)).
  rewrite (segment_app (line_start st) cur (S cur)) by lia.
  assert (Hlast : segment text cur (S cur) = [nth cur text Byte.x00]).
  { rewrite segment_eq. replace (S cur - cur)%nat with 1%nat by lia.
    destruct (lookup_lt_is_Some_2 text cur Hin) as [b Hb].
    rewrite (drop_S _ _ _ Hb), (nth_lookup_Some _ _ _ _ Hb). reflexivity. }
  rewrite Hlast. unfold ends_with_newline. rewrite last_snoc.
  rewrite is_newline_spec, Hnl. reflexivity.
Qed.

(** **** The loop *)

Lemma text_width_nil : text_width r [] = 0%Q.
Proof. reflexivity. Qed.

Lemma wrap_step_invariant st :
  wrap_invariant r text max_width st -> (current st < length text)%nat ->
  exists st',
    wrap_step r text max_width st = Some st'
    /\ wrap_invariant r text max_width st'
    /\ (current st < current st')%nat.
Proof.
  intros (Hls & Hws & Hcur & Hlc & Hwc & Hcl & Hlw & Hfit & Hns & Hww & Hlines) Hin.
  destruct st as [lines0 ls ws cur lw ww].
  cbn [lines line_start word_start current line_width word_width] in *.
  pose proof (chunk_size cur Hin) as [Hn Hlen].
  pose proof (Utf8Facts.boundary_step text cur Hcur Hin) as Hnext.
  pose proof (chunk_width cur Hin) as Hcw.
  pose proof (chunk_no_space cur Hin) as Hcns.
  pose proof (chunk_ascii cur Hin) as Hascii.
  pose proof (Utf8Facts.decode_consumed_range _ (rest_nonempty cur Hin)) as Hrange.
  unfold wrap_step.
  cbn [lines line_start word_start current line_width word_width].
  set (d := Utf8.utf8_decode_one (drop cur text)) in *.
  set (n := Z.to_nat (Utf8.bytes_consumed d)) in *.
  set (cp := Utf8.codepoint d) in *.
  set (adv := advance_x (measure_glyph r cp)) in *.
  pose proof (advance_nonneg cp) as Hadv. fold adv in Hadv.
  cbv zeta.
  replace (Utf8.bytes_consumed d =? 0) with false
    by (symmetry; apply Z.eqb_neq; lia).
  assert (Hline : (text_width r (segment text ls (cur + n))
                   == text_width r (segment text ls cur) + adv)%Q).
  { rewrite (text_width_segment ls cur (cur + n)) by (assumption || lia).
    rewrite Hcw. reflexivity. }
  assert (Hword : (text_width r (segment text ws (cur + n))
                   == text_width r (segment text ws cur) + adv)%Q).
  { rewrite (text_width_segment ws cur (cur + n)) by (assumption || lia).
    rewrite Hcw. reflexivity. }
  destruct (Z.eqb_spec cp 10) as [Hnl | Hnonl].
  { (* a line feed: flush with it, then start afresh *)
    destruct (Hascii ltac:(lia)) as (Hn1 & b & Hb & Hbv & Hnth).
    fold n in Hn1. rewrite Hn1 in *.
    eexists. split; [reflexivity|]. split; [|cbn [current]; lia].
    unfold wrap_invariant.
    cbn [lines line_start word_start current line_width word_width].
    rewrite segment_empty, text_width_nil.
    repeat split; try assumption; try lia; try apply Qle_refl.
    - right. constructor.
    - constructor.
    - apply flush_line_newline; cbn [lines line_start]; try assumption.
      rewrite Hnth. lia. }
  (* the word-start bookkeeping *)
  set (ws' := if cp =? 32 then (cur + n)%nat else ws).
  set (ww' := if cp =? 32 then 0%Q else ww).
  replace (if cp =? 32 then ((cur + n)%nat, 0%Q) else (ws, ww)) with (ws', ww')
    by (subst ws' ww'; destruct (cp =? 32); reflexivity).
  assert (Hkind : no_space (segment text cur (cur + n))
                  \/ (adv <= max_width)%Q).
  { destruct (Z.eqb_spec cp 32) as [Hsp | Hnsp]; [right | left; auto].
    subst adv. rewrite Hsp. exact space_fits. }
  assert (Hws' : Utf8.boundary text ws' /\ (ws' <= cur + n)%nat
                 /\ no_space (segment text ws' (cur + n))
                 /\ (text_width r (segment text ws' (cur + n)) <= ww' + adv)%Q
                 /\ ((ws' <= cur)%nat -> ws' = ws /\ ww' = ww /\ cp <> 32)).
  { subst ws' ww'. destruct (Z.eqb_spec cp 32) as [Hsp | Hnsp].
    - rewrite segment_empty, text_width_nil.
      repeat split; try assumption; try lia; try constructor. lra.
    - repeat split; try assumption; try lia.
      + rewrite (segment_app ws cur (cur + n)) by lia.
        apply Forall_app. split; [exact Hns | exact (Hcns Hnsp)].
      + lra. }
  destruct Hws' as (Hws'b & Hws'le & Hws'ns & Hws'w & Hws'old).
  clearbody ws' ww'.
  destruct (Qgtb (lw + adv) max_width && Qgtb lw 0) eqn:Hwrap.
  - apply andb_true_iff in Hwrap as [Hover Hpos].
    apply Qgtb_true in Hover, Hpos.
    destruct ((ls <? ws')%nat && (ws' <=? cur)%nat) eqn:Hbreak.
    + (* break at the last word boundary *)
      apply andb_true_iff in Hbreak as [Hb1 Hb2].
      apply Nat.ltb_lt in Hb1. apply Nat.leb_le in Hb2.
      destruct (Hws'old Hb2) as (-> & -> & Hnsp).
      eexists. split; [reflexivity|]. split; [|cbn [current]; lia].
      unfold wrap_invariant.
      cbn [lines line_start word_start current line_width word_width].
      repeat split; try assumption; try lia.
      * right. exact Hws'ns.
      * apply flush_line_fits; cbn [lines line_start]; try assumption; [lia|].
        apply (fits_prefix ls ws cur); assumption || lia.
    + (* no word boundary on the line: break before this codepoint *)
      eexists. split; [reflexivity|]. split; [|cbn [current]; lia].
      unfold wrap_invariant.
      cbn [lines line_start word_start current line_width word_width].
      repeat split; try assumption; try lia.
      * rewrite Hcw. lra.
      * destruct Hkind as [Hc | Hw]; [right; exact Hc | left; rewrite Hcw; exact Hw].
      * apply flush_line_fits; cbn [lines line_start]; try assumption; lia.
  - (* the codepoint stays on the line *)
    eexists. split; [reflexivity|]. split; [|cbn [current]; lia].
    unfold wrap_invariant.
    cbn [lines line_start word_start current line_width word_width].
    repeat split; try assumption; try lia.
    + lra.
    + apply andb_false_iff in Hwrap as [Hfits | Hzero].
      * left. apply Qgtb_false in Hfits. lra.
      * apply Qgtb_false in Hzero.
        destruct Hkind as [Hc | Hw]; [right | left; lra].
        rewrite (segment_app ls cur (cur + n)) by lia.
        apply Forall_app. split; [|exact Hc].
        apply zero_width_no_space. lra.
Qed.

Lemma wrap_loop_invariant fuel st :
  wrap_invariant r text max_width st ->
  (length text - current st < fuel)%nat ->
  exists st',
    wrap_loop fuel r text max_width st = Some st'
    /\ wrap_invariant r text max_width st'.
Proof.
  revert st. induction fuel as [|fuel IH]; intros st Hinv Hfuel; [lia|].
  cbn [wrap_loop].
  destruct (Nat.ltb_spec (current st) (length text)) as [Hin | _].
  - destruct (wrap_step_invariant st Hinv Hin) as (st1 & Hstep & Hinv1 & Hlt).
    rewrite Hstep. apply IH; [exact Hinv1 | lia].
  - exists st. auto.
Qed.

Lemma wrap_invariant_initial :
  wrap_invariant r text max_width (mk_wrap_state [] 0 0 0 0 0).
Proof.
  unfold wrap_invariant.
  cbn [lines line_start word_start current line_width word_width].
  rewrite segment_empty, text_width_nil.
  split; [constructor|]. split; [constructor|]. split; [constructor|].
  split; [lia|]. split; [lia|]. split; [lia|].
  split; [apply Qle_refl|]. split; [right; constructor|].
  split; [constructor|]. split; [apply Qle_refl | constructor].
Qed.

(** C5, amended. For a rasterizer whose kerning never widens a pair, whose
    advances are not negative and whose space advances the pen by no more
    than the wrap width, [wrap_lines] returns, and every line it returns
    that does not end in a line feed has a measured width of at most the
    wrap width, unless the line is a single word, bytes without a space
    among them, whose own measured width exceeds the wrap width. *)
Theorem wrap_lines_fit :
  exists wrapped,
    wrap_lines r text max_width = Some wrapped
    /\ Forall (line_fits r max_width) wrapped.
Proof.
  unfold wrap_lines.
  destruct text as [|b0 text0] eqn:Htext; [exists []; split; [reflexivity | constructor]|].
  rewrite <- Htext.
  destruct (Qle_bool max_width 0); [exists []; split; [reflexivity | constructor]|].
  destruct (wrap_loop_invariant (S (length text)) _ wrap_invariant_initial)
    as (st & Hloop & Hinv); [cbn [current]; lia|].
  rewrite Hloop. eexists. split; [reflexivity|].
  destruct Hinv as (Hls & _ & Hcur & Hlc & _ & Hcl & _ & Hfit & _ & _ & Hlines).
  unfold wrap_finish.
  destruct (Nat.ltb_spec (line_start st) (current st)) as [Hlt | _];
    [|exact Hlines].
  apply Forall_app. split; [exact Hlines|]. apply Forall_singleton.
  fold (segment text (line_start st) (current st)).
  apply line_fits_intro; [apply segment_nonempty; lia | exact Hfit].
Qed.

End WordWrap.

(** C5, counterexample. With one pixel of kerning between 'a' and 'b',
    "ab c" wrapped at width 4 stays one line of two words, and that line
    measures 5. *)
Lemma kerned_line_exceeds_width :
  let text := list_byte_of_string "ab c" in
  wrap_lines WrapSamples.kerned_rasterizer text 4 = Some [text]
  /\ word_count text = 2%nat
  /\ ~ no_space text
  /\ ends_with_newline text = false
  /\ (4 < measure_text_width WrapSamples.kerned_rasterizer text)%Q.
Proof.
  cbv zeta. repeat split; try (vm_compute; reflexivity).
  intros H. apply (Forall_lookup_1 _ _ 2%nat " "%byte) in H;
    [discriminate | reflexivity].
Qed.

(** Why the space must advance the pen: when the glyphs before a wide one
    have no advance, [line_width > 0] fails and the wide glyph joins a line
    of two words. *)
Example zero_advance_line_exceeds_width :
  let text := list_byte_of_string "a bX" in
  wrap_lines WrapSamples.only_X_advances text 1 = Some [text]
  /\ word_count text = 2%nat
  /\ (1 < measure_text_width WrapSamples.only_X_advances text)%Q.
Proof.
  cbv zeta. repeat split; vm_compute; reflexivity.
Qed.

(** Why no advance may be negative: a glyph that moves the pen back to the
    start of the line makes [line_width > 0] fail in the same way. *)
Example negative_advance_line_exceeds_width :
  let text := list_byte_of_string "a yX" in
  wrap_lines WrapSamples.backward_y text 2 = Some [text]
  /\ word_count text = 2%nat
  /\ (2 < measure_text_width WrapSamples.backward_y text)%Q.
Proof.
  cbv zeta. repeat split; vm_compute; reflexivity.
Qed.

(** Why the space must fit the width: the last line is not trimmed, and a
    text of one space wider than the wrap width is returned as a line that
    holds no word. *)
Example wide_space_line_exceeds_width :
  let text := list_byte_of_string " " in
  wrap_lines WrapSamples.wide_space text 1 = Some [text]
  /\ word_count text = 0%nat
  /\ (1 < measure_text_width WrapSamples.wide_space text)%Q.
Proof.
  cbv zeta. repeat split; vm_compute; reflexivity.
Qed.

(** The line flushed at a line feed carries the line feed, which
    [measure_text] measures like any other codepoint. *)
Example line_feed_is_measured :
  let text := list_byte_of_string "a b" ++ [Byte.x0a] in
  wrap_lines WrapSamples.plain_rasterizer text 3 = Some [text]
  /\ (3 < measure_text_width WrapSamples.plain_rasterizer text)%Q.
Proof.
  cbv zeta. split; vm_compute; reflexivity.
Qed.

(** The amended statement for the monospaced sample at width 3. *)
Lemma wrap_lines_fit_witness :
  exists wrapped,
    wrap_lines WrapSamples.plain_rasterizer
               (list_byte_of_string "aa bb cccc d") 3 = Some wrapped
    /\ Forall (line_fits WrapSamples.plain_rasterizer 3) wrapped.
Proof.
  apply (wrap_lines_fit WrapSamples.plain_rasterizer).
  - intros a b. vm_compute. discriminate.
  - intros cp. vm_compute. discriminate.
  - vm_compute. reflexivity.
  - vm_compute. discriminate.
Defined.

Example wrap_lines_sample :
  wrap_lines WrapSamples.plain_rasterizer
             (list_byte_of_string "aa bb cccc d") 3
  = Some [list_byte_of_string "aa"; list_byte_of_string "bb";
          list_byte_of_string "ccc"; list_byte_of_string "c d"].
Proof. vm_compute. reflexivity. Qed.

End TextRendererFacts.

Module CoreFailureFacts.
Import GlyphCache TextRenderer.

(** C8. [atlas(index)] throws [std::out_of_range] exactly when the index
    is negative or not below [atlas_count()], and the cache after the call
    is the cache before it. No other operation of the core reports a
    failure. The calls of a throwing function in the core are those of the
    accessors [get_spacing] and [get_glyph] in [get_glyph_metrics] and in
    [rasterize_bitmap_glyph], and that of [atlas] in [draw_baseline], which
    [draw] calls: [get_glyph_metrics] and [rasterize_bitmap_glyph] throw
    for no font and no codepoint, and return over every font whose tables
    hold an entry for each character of its range; [draw_baseline] and
    [draw] return on every cache built by the constructor and the cache
    operations. *)
Theorem atlas_is_the_only_failure :
  (forall (c : glyph_cache) (index : Z),
     (is_out_of_range (fst (atlas c index))
      <-> index < 0 \/ atlas_count c <= index)
     /\ snd (atlas c index) = c)
  /\ (forall fs codepoint size,
        ~ is_out_of_range (FontSource.get_glyph_metrics fs codepoint size)
        /\ (FontSource.source_covers fs ->
            exists m, FontSource.get_glyph_metrics fs codepoint size = Ok m))
  /\ (forall font codepoint target x y,
        ~ is_out_of_range
            (TextRasterizer.rasterize_bitmap_glyph font codepoint target x y)
        /\ (FontSource.tables_cover font ->
            exists target',
              TextRasterizer.rasterize_bitmap_glyph font codepoint target x y
              = Ok target'))
  /\ (forall c text x y,
        reachable c ->
        (exists result, draw_baseline c text x y = Ok result)
        /\ (exists result, draw c text x y = Ok result)).
Proof.
  split; [|split; [|split]].
  - intros c index. unfold atlas, atlas_count.
    destruct (Z.ltb_spec index 0) as [Hneg | Hpos];
      [|destruct (Z.leb_spec (Z.of_nat (length (m_atlases c))) index) as [Hhi | Hlo]];
      cbn [orb fst snd is_out_of_range]; (split; [|reflexivity]).
    + split; [intros _; lia | intros _; exact I].
    + split; [intros _; lia | intros _; exact I].
    + split; [intros [] | lia].
  - intros fs codepoint size.
    split; [apply FontSourceFacts.get_glyph_metrics_never_throws|].
    apply FontSourceFacts.get_glyph_metrics_ok.
  - intros font codepoint target x y.
    split; [apply FontSourceFacts.rasterize_bitmap_glyph_never_throws|].
    apply FontSourceFacts.rasterize_bitmap_glyph_ok.
  - intros c text x y Hreach.
    apply GlyphCacheFacts.reachable_well_formed in Hreach.
    assert (Hbase : forall y', exists result, draw_baseline c text x y' = Ok result).
    { intros y'.
      destruct (TextRendererFacts.draw_baseline_ok c text x y' Hreach)
        as (blits & c' & Hdraw & _).
      eexists. exact Hdraw. }
    split; [apply Hbase|].
    unfold draw. destruct text as [|b text]; [eexists; reflexivity | apply Hbase].
Qed.

(** The statement on the sample cache of one page and the sample font
    'A'..'B'. *)
Lemma atlas_is_the_only_failure_witness :
  is_out_of_range (fst (atlas CacheSamples.cache_bang 1))
  /\ (exists m,
        FontSource.get_glyph_metrics (FontSource.bitmap_ref Samples.font_AB) 90 12
        = Ok m)
  /\ (exists target',
        TextRasterizer.rasterize_bitmap_glyph Samples.font_AB 90
          (RasterTarget.grayscale_target_new (replicate 42 0) 7 6 0) 0 5
        = Ok target')
  /\ (exists result,
        draw CacheSamples.cache_bang (list_byte_of_string "! !") 0%Q 0%Q = Ok result).
Proof.
  destruct atlas_is_the_only_failure as (Hatlas & Hmetrics & Hraster & Hdraw).
  split; [|split; [|split]].
  - apply (proj1 (Hatlas CacheSamples.cache_bang 1)). right. vm_compute. discriminate.
  - apply (proj2 (Hmetrics (FontSource.bitmap_ref Samples.font_AB) 90 12%Q)).
    split; reflexivity.
  - apply (proj2 (Hraster Samples.font_AB 90 _ 0 5)). split; reflexivity.
  - apply (Hdraw CacheSamples.cache_bang (list_byte_of_string "! !") 0%Q 0%Q).
    apply reachable_new.
Defined.

(** What the hypothesis on the tables excludes. The default constructor
    gives a bitmap font whose range is the character 0 and whose tables are
    empty: for the codepoint 0 [rasterize_bitmap_glyph] passes the range
    guard and reads the spacing past the end of its table. The call does
    not return, and nothing is thrown. *)
Example uninitialised_font_aborts_the_blit :
  TextRasterizer.rasterize_bitmap_glyph FontSource.bitmap_font_new 0
    (RasterTarget.grayscale_target_new [0] 1 1 0) 0 0
  = Throw (aborted "m_spacing read past its end").
Proof. reflexivity. Qed.

End CoreFailureFacts.

Module Utf8LengthFacts.
Import Utf8 Utf8Length Utf8Facts.

Lemma utf8_length_loop_step fuel str count :
  str <> [] ->
  utf8_length_loop (S fuel) str count
  = if bytes_consumed (utf8_decode_one str) =? 0 then Some count
    else utf8_length_loop fuel
           (drop (Z.to_nat (bytes_consumed (utf8_decode_one str))) str)
           (count + 1).
Proof. destruct str; [congruence | reflexivity]. Qed.

Lemma utf8_length_loop_counts fuel str count :
  (length str < fuel)%nat ->
  utf8_length_loop fuel str count
  = Some (count + Z.of_nat (length (utf8_view str))).
Proof.
  revert str count. induction fuel as [|fuel IH]; intros str count Hfuel; [lia|].
  destruct (decide (str = [])) as [-> | Hne].
  - rewrite utf8_view_nil. cbn. f_equal. lia.
  - pose proof (decode_consumed_range str Hne) as Hrange.
    rewrite (utf8_view_step str Hne), utf8_length_loop_step by assumption.
    destruct (Z.eqb_spec (bytes_consumed (utf8_decode_one str)) 0) as [H0 | _]; [lia|].
    rewrite IH by (rewrite length_drop; lia).
    cbn [length]. f_equal. lia.
Qed.

Lemma decode_consumed_le_4 str : bytes_consumed (utf8_decode_one str) <= 4.
Proof.
  destruct str as [|b rest]; [cbn; lia|].
  pose proof (decode_cases b rest) as H. cbv zeta in H.
  destruct H as [(H1 & _) | (Hn & Hc & _)]; lia.
Qed.

Lemma view_length_bounds str :
  (length (utf8_view str) <= length str)%nat
  /\ (length str <= 4 * length (utf8_view str))%nat.
Proof.
  remember (length str) as n eqn:Hn. revert str Hn.
  induction n as [n IH] using lt_wf_ind. intros str Hn.
  destruct str as [|b rest] eqn:Hstr.
  - rewrite utf8_view_nil. cbn in *. lia.
  - rewrite <- Hstr in *. assert (Hne : str <> []) by (subst; discriminate).
    pose proof (decode_consumed_range str Hne) as Hrange.
    pose proof (decode_consumed_le_4 str) as H4.
    rewrite (utf8_view_step str Hne). cbn [length].
    set (k := Z.to_nat (bytes_consumed (utf8_decode_one str))) in *.
    assert (Hk : (1 <= k <= 4)%nat) by (unfold k; lia).
    assert (Hkn : (k <= length str)%nat) by (unfold k; lia).
    destruct (IH (length (drop k str))) with (str := drop k str) as [Hlo Hhi];
      [rewrite length_drop; lia | reflexivity |].
    rewrite length_drop in Hlo, Hhi. lia.
Qed.

(** [utf8_length] ends on every string and counts exactly the codepoints
    a range-for loop over [utf8_view] sees; the count lies between a
    quarter of the bytes and the number of bytes. *)
Theorem utf8_length_counts_the_view (str : list byte) :
  utf8_length str = Some (Z.of_nat (length (utf8_view str)))
  /\ Z.of_nat (length (utf8_view str)) <= len str
  /\ len str <= 4 * Z.of_nat (length (utf8_view str)).
Proof.
  split.
  - unfold utf8_length. rewrite utf8_length_loop_counts by lia. f_equal.
  - pose proof (view_length_bounds str). unfold len. lia.
Qed.

(** *** The range of a decoded codepoint *)

Lemma payload_range b rest :
  let f := byte_val b in
  let p := payload (b :: rest) in
  (announced_length f = 2 -> 0 <= p < 0x800)
  /\ (announced_length f = 3 -> 0 <= p < 0x10000)
  /\ (announced_length f = 4 -> 0 <= p < 0x200000).
Proof.
  cbv zeta. unfold payload. rewrite data_0.
  pose proof (Z.mod_pos_bound (byte_val b) 32 ltac:(lia)).
  pose proof (Z.mod_pos_bound (byte_val b) 16 ltac:(lia)).
  pose proof (Z.mod_pos_bound (byte_val b) 8 ltac:(lia)).
  pose proof (Z.mod_pos_bound (data (b :: rest) 1) 64 ltac:(lia)).
  pose proof (Z.mod_pos_bound (data (b :: rest) 2) 64 ltac:(lia)).
  pose proof (Z.mod_pos_bound (data (b :: rest) 3) 64 ltac:(lia)).
  split; [|split]; intros E; rewrite E; lia.
Qed.

Lemma sequence_length_spec p :
  (p < 0x80 -> sequence_length p = 1)
  /\ (0x80 <= p < 0x800 -> sequence_length p = 2)
  /\ (0x800 <= p < 0x10000 -> sequence_length p = 3)
  /\ (0x10000 <= p -> sequence_length p = 4).
Proof.
  unfold sequence_length.
  destruct (Z.ltb_spec p 0x80); [repeat split; intros; lia|].
  destruct (Z.ltb_spec p 0x800); [repeat split; intros; lia|].
  destruct (Z.ltb_spec p 0x10000); repeat split; intros; lia.
Qed.

Lemma decode_one_scalar str :
  let d := utf8_decode_one str in
  unicode_scalar (codepoint d)
  /\ (codepoint d <> REPLACEMENT_CHAR ->
      bytes_consumed d = sequence_length (codepoint d)).
Proof.
  cbv zeta. unfold unicode_scalar.
  destruct str as [|b rest]; [cbn; unfold REPLACEMENT_CHAR; lia|].
  rewrite decode_by_class.
  pose proof (byte_val_range b) as Hb.
  pose proof (payload_range b rest) as (P2 & P3 & P4). cbv zeta in P2, P3, P4.
  pose proof (announced_length_range (byte_val b)) as (A1 & A0 & A2).
  set (p := payload (b :: rest)) in *.
  pose proof (sequence_length_spec p) as (S1 & S2 & S3 & S4).
  pose proof (sequence_length_spec (byte_val b)) as (B1 & _).
  destruct (announced_cases (byte_val b)) as [E | [E | [E | [E | E]]]];
    rewrite E in *; cbv zeta.
  - cbn. unfold REPLACEMENT_CHAR. lia.
  - specialize (A1 eq_refl). cbn [codepoint bytes_consumed].
    rewrite B1 by lia. lia.
  - specialize (P2 eq_refl). destruct (trails_ok 1 rest);
      [|cbn; unfold REPLACEMENT_CHAR; lia].
    destruct (Z.ltb_spec p 0x80); cbn [codepoint bytes_consumed];
      [cbn; unfold REPLACEMENT_CHAR; lia|].
    rewrite S2 by lia. lia.
  - specialize (P3 eq_refl). destruct (trails_ok 2 rest);
      [|cbn; unfold REPLACEMENT_CHAR; lia].
    destruct (Z.ltb_spec p 0x800); cbn [codepoint bytes_consumed];
      [cbn; unfold REPLACEMENT_CHAR; lia|].
    destruct (Z.leb_spec 0xD800 p); destruct (Z.leb_spec p 0xDFFF);
      cbn [andb codepoint bytes_consumed];
      try (cbn; unfold REPLACEMENT_CHAR; lia).
    all: rewrite S3 by lia; lia.
  - specialize (P4 eq_refl). destruct (trails_ok 3 rest);
      [|cbn; unfold REPLACEMENT_CHAR; lia].
    destruct (Z.ltb_spec p 0x10000); cbn [codepoint bytes_consumed];
      [cbn; unfold REPLACEMENT_CHAR; lia|].
    destruct (Z.ltb_spec 0x10FFFF p); cbn [codepoint bytes_consumed];
      [cbn; unfold REPLACEMENT_CHAR; lia|].
    rewrite S4 by lia. lia.
Qed.

Lemma view_scalar str : Forall unicode_scalar (utf8_view str).
Proof.
  remember (length str) as n eqn:Hn. revert str Hn.
  induction n as [n IH] using lt_wf_ind. intros str Hn.
  destruct str as [|b rest] eqn:Hstr.
  - rewrite utf8_view_nil. constructor.
  - rewrite <- Hstr in *. assert (Hne : str <> []) by (subst; discriminate).
    pose proof (decode_consumed_range str Hne) as Hrange.
    rewrite (utf8_view_step str Hne). constructor.
    + apply decode_one_scalar.
    + eapply IH; [|reflexivity]. rewrite length_drop. lia.
Qed.

(** Every codepoint [utf8_decode_one] returns, and so every codepoint the
    iterator yields, is a Unicode scalar value: at most U+10FFFF and no
    surrogate. A codepoint other than U+FFFD took the number of bytes the
    table of [utf8.hh] gives for its range: no overlong form is accepted. *)
Theorem decoded_codepoints_are_scalar_values :
  (forall str,
     unicode_scalar (codepoint (utf8_decode_one str))
     /\ (codepoint (utf8_decode_one str) <> REPLACEMENT_CHAR ->
         bytes_consumed (utf8_decode_one str)
         = sequence_length (codepoint (utf8_decode_one str))))
  /\ (forall str, Forall unicode_scalar (utf8_view str)).
Proof.
  split; [intros str; apply decode_one_scalar | apply view_scalar].
Qed.


(** *** A codepoint has one encoding *)

Lemma byte_val_inj a b : byte_val a = byte_val b -> a = b.
Proof.
  unfold byte_val. intros H. apply N2Z.inj in H.
  pose proof (Byte.of_to_N a) as Ha. pose proof (Byte.of_to_N b) as Hb.
  rewrite H in Ha. congruence.
Qed.

Lemma announced_lead_range f :
  (announced_length f = 2 -> 0xC0 <= f < 0xE0)
  /\ (announced_length f = 3 -> 0xE0 <= f < 0xF0)
  /\ (announced_length f = 4 -> 0xF0 <= f < 0xF8).
Proof.
  unfold announced_length.
  destruct (Z.ltb_spec f 0x80); [repeat split; intros; lia|].
  destruct (Z.ltb_spec f 0xC0); [repeat split; intros; lia|].
  destruct (Z.ltb_spec f 0xE0); [repeat split; intros; lia|].
  destruct (Z.ltb_spec f 0xF0); [repeat split; intros; lia|].
  destruct (Z.ltb_spec f 0xF8); repeat split; intros; lia.
Qed.

Lemma is_trail_range t : is_trail t = true -> 0x80 <= t <= 0xBF.
Proof. unfold is_trail. intros H. apply andb_prop in H as [H1 H2]. lia. Qed.

Lemma trails_ok_cons k rest :
  trails_ok (S k) rest = true ->
  exists t rest', rest = t :: rest'
    /\ 0x80 <= byte_val t <= 0xBF /\ trails_ok k rest' = true.
Proof.
  destruct rest as [|t rest']; cbn [trails_ok]; [discriminate|].
  intros H. apply andb_prop in H as [H1 H2].
  exists t, rest'. split; [reflexivity|]. split; [apply is_trail_range, H1 | exact H2].
Qed.

(** The codepoint decoded from a sequence that is not replaced is its
    payload, and the sequence has the shape its lead byte announces. *)
Lemma decode_valid_shape str :
  codepoint (utf8_decode_one str) <> REPLACEMENT_CHAR ->
  exists b rest,
    str = b :: rest
    /\ announced_length (byte_val b) = bytes_consumed (utf8_decode_one str)
    /\ 1 <= bytes_consumed (utf8_decode_one str) <= 4
    /\ trails_ok (Z.to_nat (bytes_consumed (utf8_decode_one str) - 1)) rest = true
    /\ codepoint (utf8_decode_one str) = payload (b :: rest).
Proof.
  destruct str as [|b rest]; [cbn; congruence|].
  intros Hcp. exists b, rest. split; [reflexivity|].
  revert Hcp. rewrite decode_by_class.
  destruct (announced_cases (byte_val b)) as [E | [E | [E | [E | E]]]];
    rewrite E; cbv zeta.
  - cbn. congruence.
  - intros _. cbn. unfold payload. rewrite data_0, E. repeat split; lia.
  - destruct (trails_ok 1 rest) eqn:Ht; [|cbn; congruence].
    destruct (payload (b :: rest) <? 0x80); cbn; [congruence|].
    intros _. repeat split; try lia. exact Ht.
  - destruct (trails_ok 2 rest) eqn:Ht; [|cbn; congruence].
    destruct (payload (b :: rest) <? 0x800); cbn; [congruence|].
    destruct ((0xD800 <=? payload (b :: rest)) && (payload (b :: rest) <=? 0xDFFF));
      cbn; [congruence|].
    intros _. repeat split; try lia. exact Ht.
  - destruct (trails_ok 3 rest) eqn:Ht; [|cbn; congruence].
    destruct (payload (b :: rest) <? 0x10000); cbn; [congruence|].
    destruct (0x10FFFF <? payload (b :: rest)); cbn; [congruence|].
    intros _. repeat split; try lia. exact Ht.
Qed.

Lemma payload_determines_bytes b1 r1 b2 r2 n :
  announced_length (byte_val b1) = n -> announced_length (byte_val b2) = n ->
  1 <= n <= 4 ->
  trails_ok (Z.to_nat (n - 1)) r1 = true ->
  trails_ok (Z.to_nat (n - 1)) r2 = true ->
  payload (b1 :: r1) = payload (b2 :: r2) ->
  take (Z.to_nat n) (b1 :: r1) = take (Z.to_nat n) (b2 :: r2).
Proof.
  intros E1 E2 Hn T1 T2 Hp.
  pose proof (announced_lead_range (byte_val b1)) as (L12 & L13 & L14).
  pose proof (announced_lead_range (byte_val b2)) as (L22 & L23 & L24).
  unfold payload in Hp. rewrite !data_0, E1, E2 in Hp.
  assert (Hcases : n = 1 \/ n = 2 \/ n = 3 \/ n = 4) by lia.
  destruct Hcases as [-> | [-> | [-> | ->]]].
  - change (Z.to_nat 1) with 1%nat. cbn. f_equal. apply byte_val_inj. exact Hp.
  - change (Z.to_nat (2 - 1)) with 1%nat in T1, T2.
    apply trails_ok_cons in T1 as (t1 & q1 & -> & Ht1 & _).
    apply trails_ok_cons in T2 as (t2 & q2 & -> & Ht2 & _).
    rewrite !data_S, !data_0 in Hp.
    specialize (L12 E1). specialize (L22 E2).
    assert (byte_val b1 = byte_val b2 /\ byte_val t1 = byte_val t2) as [Hb Ht]
      by (Z.to_euclidean_division_equations; lia).
    apply byte_val_inj in Hb, Ht. subst. reflexivity.
  - change (Z.to_nat (3 - 1)) with 2%nat in T1, T2.
    apply trails_ok_cons in T1 as (t1 & q1 & -> & Ht1 & T1).
    apply trails_ok_cons in T1 as (u1 & p1 & -> & Hu1 & _).
    apply trails_ok_cons in T2 as (t2 & q2 & -> & Ht2 & T2).
    apply trails_ok_cons in T2 as (u2 & p2 & -> & Hu2 & _).
    rewrite !data_S, !data_0 in Hp.
    specialize (L13 E1). specialize (L23 E2).
    assert (byte_val b1 = byte_val b2 /\ byte_val t1 = byte_val t2
            /\ byte_val u1 = byte_val u2) as (Hb & Ht & Hu)
      by (Z.to_euclidean_division_equations; lia).
    apply byte_val_inj in Hb, Ht, Hu. subst. reflexivity.
  - change (Z.to_nat (4 - 1)) with 3%nat in T1, T2.
    apply trails_ok_cons in T1 as (t1 & q1 & -> & Ht1 & T1).
    apply trails_ok_cons in T1 as (u1 & p1 & -> & Hu1 & T1).
    apply trails_ok_cons in T1 as (v1 & o1 & -> & Hv1 & _).
    apply trails_ok_cons in T2 as (t2 & q2 & -> & Ht2 & T2).
    apply trails_ok_cons in T2 as (u2 & p2 & -> & Hu2 & T2).
    apply trails_ok_cons in T2 as (v2 & o2 & -> & Hv2 & _).
    rewrite !data_S, !data_0 in Hp.
    specialize (L14 E1). specialize (L24 E2).
    assert (byte_val b1 = byte_val b2 /\ byte_val t1 = byte_val t2
            /\ byte_val u1 = byte_val u2 /\ byte_val v1 = byte_val v2)
      as (Hb & Ht & Hu & Hv)
      by (Z.to_euclidean_division_equations; lia).
    apply byte_val_inj in Hb, Ht, Hu, Hv. subst. reflexivity.
Qed.

(** Two strings that decode to the same codepoint, other than U+FFFD, start
    with the same bytes: the decoder consumes as many bytes of both, and
    those bytes are equal. A codepoint has one accepted encoding. *)
Theorem decoded_codepoint_has_one_encoding (s1 s2 : list byte) :
  codepoint (utf8_decode_one s1) = codepoint (utf8_decode_one s2) ->
  codepoint (utf8_decode_one s1) <> REPLACEMENT_CHAR ->
  bytes_consumed (utf8_decode_one s2) = bytes_consumed (utf8_decode_one s1)
  /\ take (Z.to_nat (bytes_consumed (utf8_decode_one s1))) s1
     = take (Z.to_nat (bytes_consumed (utf8_decode_one s1))) s2.
Proof.
  intros Hcp Hne.
  assert (Hne2 : codepoint (utf8_decode_one s2) <> REPLACEMENT_CHAR) by congruence.
  pose proof (decode_one_scalar s1) as [_ Hn1]. pose proof (decode_one_scalar s2) as [_ Hn2].
  cbv zeta in Hn1, Hn2. specialize (Hn1 Hne). specialize (Hn2 Hne2).
  assert (Hn : bytes_consumed (utf8_decode_one s2) = bytes_consumed (utf8_decode_one s1))
    by congruence.
  split; [exact Hn|].
  destruct (decode_valid_shape s1 Hne) as (b1 & r1 & E1 & A1 & R1 & T1 & P1).
  destruct (decode_valid_shape s2 Hne2) as (b2 & r2 & E2 & A2 & R2 & T2 & P2).
  rewrite Hn in A2, T2.
  rewrite E1 in *. rewrite E2 in *.
  eapply payload_determines_bytes; eauto. congruence.
Qed.

(** The statement on two strings that start with the encoding of U+00E9. *)
Lemma decoded_codepoint_has_one_encoding_witness :
  take 2 [Byte.xc3; Byte.xa9; Byte.x41] = take 2 [Byte.xc3; Byte.xa9; Byte.x42].
Proof.
  apply (decoded_codepoint_has_one_encoding
           [Byte.xc3; Byte.xa9; Byte.x41] [Byte.xc3; Byte.xa9; Byte.x42]).
  - reflexivity.
  - vm_compute. discriminate.
Defined.

(** *** ASCII text, concatenation, and the bytes the decoder reads *)

Lemma ascii_view str :
  Forall (fun b => byte_val b < 0x80) str -> utf8_view str = map byte_val str.
Proof.
  induction 1 as [|b rest Hb _ IH]; [apply utf8_view_nil|].
  rewrite utf8_view_step by discriminate.
  rewrite decode_ascii_byte by exact Hb. cbn [codepoint bytes_consumed].
  change (Z.to_nat 1) with 1%nat. cbn [drop map]. rewrite drop_0. f_equal. exact IH.
Qed.

(** ASCII text decodes to itself: the codepoints of a string of bytes below
    0x80 are the bytes, and [utf8_length] is the number of bytes. *)
Theorem ascii_text_decodes_to_its_bytes (str : list byte) :
  Forall (fun b => byte_val b < 0x80) str ->
  utf8_view str = map byte_val str
  /\ utf8_length str = Some (len str).
Proof.
  intros H. split; [apply ascii_view, H|].
  unfold utf8_length. rewrite utf8_length_loop_counts by lia.
  rewrite ascii_view by exact H. rewrite length_map. reflexivity.
Qed.

Lemma ascii_text_decodes_to_its_bytes_witness :
  utf8_view (list_byte_of_string "font") = map byte_val (list_byte_of_string "font")
  /\ utf8_length (list_byte_of_string "font") = Some (len (list_byte_of_string "font")).
Proof.
  apply (ascii_text_decodes_to_its_bytes (list_byte_of_string "font")).
  repeat constructor.
Defined.

(** The codepoints of a concatenation are the codepoints of its parts,
    when the second part is empty or does not begin with a continuation
    byte: a sequence cut short at the end of the first part does not
    swallow the start of the second. *)
Theorem view_of_concatenation (a b : list byte) :
  starts_sequence b ->
  utf8_view (a ++ b) = utf8_view a ++ utf8_view b.
Proof.
  intros Hb.
  assert (Hbound : boundary (a ++ b) (length a)).
  { apply nontrail_boundary.
    - rewrite length_app. lia.
    - intros Hlt. unfold data. rewrite app_nth2 by lia.
      rewrite Nat.sub_diag. destruct b as [|c b']; [|exact Hb].
      rewrite length_app in Hlt. cbn in Hlt. lia. }
  rewrite (utf8_view_split _ _ Hbound).
  rewrite take_app_length, drop_app_length. reflexivity.
Qed.

Lemma view_of_concatenation_witness :
  utf8_view ([Byte.xe4; Byte.xb8] ++ [Byte.x41])
  = utf8_view [Byte.xe4; Byte.xb8] ++ utf8_view [Byte.x41].
Proof.
  apply (view_of_concatenation [Byte.xe4; Byte.xb8] [Byte.x41]).
  reflexivity.
Defined.

(** [utf8_decode_one] reads at most the first four bytes of its input:
    strings that agree on them decode alike. *)
Theorem decode_reads_four_bytes (s1 s2 : list byte) :
  take 4 s1 = take 4 s2 -> utf8_decode_one s1 = utf8_decode_one s2.
Proof.
  intros H.
  rewrite <- (decode_take s1 4), <- (decode_take s2 4), H;
    [reflexivity | |]; change (Z.of_nat 4) with 4; apply decode_consumed_le_4.
Qed.

Lemma decode_reads_four_bytes_witness :
  utf8_decode_one (list_byte_of_string "abcdX")
  = utf8_decode_one (list_byte_of_string "abcdY").
Proof.
  apply (decode_reads_four_bytes (list_byte_of_string "abcdX")
                                 (list_byte_of_string "abcdY")).
  reflexivity.
Defined.

End Utf8LengthFacts.

(** * raster_target.hh: the other targets *)

(** [memcpy] on lists: the length of the result and the element at each
    index, when the two blocks lie inside their buffers. *)
Lemma memcpy_length dst d src s n :
  (d + n <= length dst)%nat -> (s + n <= length src)%nat ->
  length (RasterTarget.memcpy dst d src s n) = length dst.
Proof.
  intros Hd Hs. unfold RasterTarget.memcpy.
  rewrite !length_app, !length_take, !length_drop. lia.
Qed.

Lemma memcpy_nth dst d src s n j :
  (d + n <= length dst)%nat -> (s + n <= length src)%nat ->
  nth j (RasterTarget.memcpy dst d src s n) 0
  = if ((d <=? j) && (j <? d + n))%nat then nth (s + (j - d)) src 0
    else nth j dst 0.
Proof.
  intros Hd Hs. unfold RasterTarget.memcpy. rewrite !nth_lookup.
  destruct (Nat.leb_spec d j) as [Hdj | Hdj]; cbn [andb].
  - rewrite lookup_app_r by (rewrite length_take; lia).
    rewrite length_take, Nat.min_l by lia.
    destruct (Nat.ltb_spec j (d + n)) as [Hjn | Hjn].
    + rewrite lookup_app_l by (rewrite length_take, length_drop; lia).
      rewrite lookup_take_lt by lia. rewrite lookup_drop. reflexivity.
    + rewrite lookup_app_r by (rewrite length_take, length_drop; lia).
      rewrite length_take, length_drop, Nat.min_l by lia.
      rewrite lookup_drop. f_equal. f_equal. lia.
  - rewrite lookup_app_l by (rewrite length_take; lia).
    rewrite lookup_take_lt by lia. reflexivity.
Qed.

Module GrayscaleMaxTargetFacts.
Import GrayscaleMaxTarget.

Lemma max_put_pixel_dims t x y a :
  m_width (put_pixel t x y a) = m_width t
  /\ m_height (put_pixel t x y a) = m_height t
  /\ m_stride (put_pixel t x y a) = m_stride t
  /\ length (m_buffer (put_pixel t x y a)) = length (m_buffer t).
Proof.
  unfold put_pixel. case_match; cbn; rewrite ?length_insert; auto.
Qed.

Lemma nth_insert_eq (l : list Z) i v :
  (i < length l)%nat -> nth i (<[i := v]> l) 0 = v.
Proof. intros H. rewrite nth_lookup, list_lookup_insert_eq by exact H. reflexivity. Qed.

Lemma nth_insert_ne (l : list Z) i j v :
  i <> j -> nth j (<[i := v]> l) 0 = nth j l 0.
Proof. intros H. rewrite !nth_lookup, list_lookup_insert_ne by exact H. reflexivity. Qed.

Lemma max_put_pixel_commute t x1 y1 a1 x2 y2 a2 :
  put_pixel (put_pixel t x1 y1 a1) x2 y2 a2
  = put_pixel (put_pixel t x2 y2 a2) x1 y1 a1.
Proof.
  unfold put_pixel.
  destruct ((0 <=? x1) && (x1 <? m_width t) && (0 <=? y1) && (y1 <? m_height t))
    eqn:E1;
    destruct ((0 <=? x2) && (x2 <? m_width t) && (0 <=? y2) && (y2 <? m_height t))
      eqn:E2;
    cbn [m_width m_height m_stride m_buffer]; rewrite ?E1, ?E2;
    cbn [m_width m_height m_stride m_buffer]; try reflexivity.
  set (i1 := Z.to_nat (y1 * m_stride t + x1)).
  set (i2 := Z.to_nat (y2 * m_stride t + x2)).
  f_equal.
  destruct (decide (i1 = i2)) as [<- | Hne].
  - destruct (Nat.lt_ge_cases i1 (length (m_buffer t))) as [Hlt | Hge].
    + rewrite !nth_insert_eq by exact Hlt.
      rewrite !list_insert_insert_eq. f_equal. lia.
    + rewrite !(list_insert_ge (m_buffer t)) by exact Hge.
      reflexivity.
  - rewrite (nth_insert_ne _ i1 i2) by exact Hne.
    rewrite (nth_insert_ne _ i2 i1) by (intros E; apply Hne; symmetry; exact E).
    apply list_insert_insert_ne. intros E; apply Hne; symmetry; exact E.
Qed.

Lemma max_put_pixel_grows t x y a j :
  nth j (m_buffer t) 0 <= nth j (m_buffer (put_pixel t x y a)) 0.
Proof.
  unfold put_pixel. case_match; [|lia]. cbn [m_buffer].
  set (i := Z.to_nat (y * m_stride t + x)).
  destruct (decide (i = j)) as [<- | Hne].
  - destruct (Nat.lt_ge_cases i (length (m_buffer t))) as [Hlt | Hge].
    + rewrite nth_insert_eq by exact Hlt. lia.
    + rewrite list_insert_ge by exact Hge. lia.
  - rewrite nth_insert_ne by exact Hne. lia.
Qed.

Lemma put_pixels_grow ws t j :
  nth j (m_buffer t) 0 <= nth j (m_buffer (put_pixels t ws)) 0.
Proof.
  revert t. induction ws as [|[[x y] a] ws IH]; intros t; [cbn; lia|].
  cbn [put_pixels foldl]. etransitivity; [apply (max_put_pixel_grows t x y a)|].
  apply IH.
Qed.

(** A [grayscale_max_target] does not depend on the order of the writes:
    two sequences of [put_pixel] calls that are permutations of each other
    leave the same buffer, and no write lowers a pixel. *)
Theorem max_target_order_independent (t : grayscale_max_target)
    (writes1 writes2 : list (Z * Z * Z)) :
  buffer_covers t ->
  writes1 ≡ₚ writes2 ->
  put_pixels t writes1 = put_pixels t writes2
  /\ forall j, nth j (m_buffer t) 0 <= nth j (m_buffer (put_pixels t writes1)) 0.
Proof.
  intros _ Hperm. split; [|intros j; apply put_pixels_grow].
  revert t. induction Hperm as [|w l1 l2 _ IH|w1 w2 l|l1 l2 l3 _ IH1 _ IH2];
    intros t.
  - reflexivity.
  - cbn [put_pixels foldl]. apply IH.
  - cbn [put_pixels foldl]. destruct w1 as [[x1 y1] a1], w2 as [[x2 y2] a2].
    f_equal. apply max_put_pixel_commute.
  - rewrite IH1. apply IH2.
Qed.

Lemma max_target_order_independent_witness :
  let t := grayscale_max_target_new [0; 0; 0; 0] 2 2 0 in
  put_pixels t [(0, 0, 9); (0, 0, 200); (1, 1, 7)]
  = put_pixels t [(1, 1, 7); (0, 0, 200); (0, 0, 9)].
Proof.
  intros t.
  apply (max_target_order_independent t
           [(0, 0, 9); (0, 0, 200); (1, 1, 7)] [(1, 1, 7); (0, 0, 200); (0, 0, 9)]).
  - unfold buffer_covers. cbn. repeat split; try lia. repeat constructor; lia.
  - exact (Permutation_rev [(0, 0, 9); (0, 0, 200); (1, 1, 7)]).
Defined.

(** *** emit_span on a target without put_span *)

Section EmitSpanMax.

Variable t : grayscale_max_target.
Variables x y : Z.
Variable alphas : list Z.
Hypothesis covers : buffer_covers t.
Hypothesis alphas_bytes : Forall (fun v => 0 <= v < 256) alphas.

(** One iteration of the fallback loop of [emit_span]. *)
Local Abbreviation span_step :=
  (fun t i => if 0 <? nth i alphas 0
              then put_pixel t (x + Z.of_nat i) y (nth i alphas 0)
              else t).

Lemma nth_byte (l : list Z) i :
  Forall (fun v => 0 <= v < 256) l -> 0 <= nth i l 0 < 256.
Proof.
  intros H. destruct (nth_lookup_or_length l i 0) as [Hi | Hi].
  - eapply (proj1 (Forall_lookup _ _) H). exact Hi.
  - rewrite nth_overflow by exact Hi. lia.
Qed.

Lemma emit_span_max_prefix (n : nat) :
  let t' := foldl span_step t (seq 0 n) in
  m_width t' = m_width t /\ m_height t' = m_height t
  /\ m_stride t' = m_stride t
  /\ length (m_buffer t') = length (m_buffer t)
  /\ forall j,
       nth j (m_buffer t') 0
       = if span_hits t x y (Z.of_nat n) j
         then Z.max (nth j (m_buffer t) 0)
                    (nth (Z.to_nat (Z.of_nat j - (y * m_stride t + x))) alphas 0)
         else nth j (m_buffer t) 0.
Proof.
  destruct covers as (Hstride & Hlen & Hbytes).
  induction n as [|n IH]; cbv zeta.
  - cbn [seq foldl]. repeat split; try reflexivity.
    intros j. unfold span_hits. cbv zeta.
    destruct (Z.leb_spec 0 (Z.of_nat j - (y * m_stride t + x))),
      (Z.ltb_spec (Z.of_nat j - (y * m_stride t + x)) (Z.of_nat 0));
      try lia; rewrite ?andb_false_r; reflexivity.
  - cbv zeta in IH. destruct IH as (Hw & Hh & Hs & Hl & Hnth).
    rewrite seq_S, foldl_snoc. cbn [Nat.add].
    set (tn := foldl span_step t (seq 0 n)) in *.
    pose proof (nth_byte alphas n alphas_bytes) as Ha.
    assert (Hhits : forall j,
              span_hits t x y (Z.of_nat (S n)) j
              = span_hits t x y (Z.of_nat n) j
                || ((0 <=? y) && (y <? m_height t)
                    && (Z.of_nat j - (y * m_stride t + x) =? Z.of_nat n)
                    && (0 <=? x + Z.of_nat n) && (x + Z.of_nat n <? m_width t))).
    { intros j. unfold span_hits. cbv zeta. apply eq_true_iff_eq.
      rewrite !orb_true_iff, !andb_true_iff, !Z.leb_le, !Z.ltb_lt, !Z.eqb_eq.
      lia. }
    destruct (Z.ltb_spec 0 (nth n alphas 0)) as [Hpos | Hzero].
    + pose proof (max_put_pixel_dims tn (x + Z.of_nat n) y (nth n alphas 0))
        as (Dw & Dh & Ds & Dl).
      repeat split; try congruence.
      intros j. rewrite Hhits. unfold put_pixel. rewrite Hw, Hh, Hs.
      destruct ((0 <=? x + Z.of_nat n) && (x + Z.of_nat n <? m_width t)
                && (0 <=? y) && (y <? m_height t)) eqn:Ein.
      * apply andb_prop in Ein as [Ein Ey2]. apply andb_prop in Ein as [Ein Ey1].
        apply andb_prop in Ein as [Ex1 Ex2].
        rewrite Ey1, Ey2, Ex1, Ex2. cbn [andb m_buffer].
        apply Z.leb_le in Ex1, Ey1. apply Z.ltb_lt in Ex2, Ey2.
        set (i := Z.to_nat (y * m_stride t + (x + Z.of_nat n))).
        assert (Hi : (i < length (m_buffer tn))%nat) by (unfold i; nia).
        assert (Hik : Z.of_nat i - (y * m_stride t + x) = Z.of_nat n)
          by (unfold i; nia).
        destruct (decide (i = j)) as [<- | Hne].
        -- rewrite nth_insert_eq by exact Hi. rewrite Hnth.
           rewrite Hik, Z.eqb_refl, orb_true_r.
           unfold span_hits. cbv zeta. rewrite Hik, Z.ltb_irrefl, !andb_false_r,
             andb_false_l. rewrite Nat2Z.id. reflexivity.
        -- rewrite nth_insert_ne by exact Hne. rewrite Hnth.
           destruct (Z.eqb_spec (Z.of_nat j - (y * m_stride t + x)) (Z.of_nat n))
             as [Ejk | _]; [exfalso; apply Hne; unfold i; nia|].
           rewrite orb_false_r. reflexivity.
      * rewrite Hnth.
        replace ((0 <=? y) && (y <? m_height t)
                 && (Z.of_nat j - (y * m_stride t + x) =? Z.of_nat n)
                 && (0 <=? x + Z.of_nat n) && (x + Z.of_nat n <? m_width t))
          with false; [rewrite orb_false_r; reflexivity|].
        symmetry. apply not_true_is_false. intros Hall.
        apply not_true_iff_false in Ein. apply Ein.
        repeat rewrite andb_true_iff in Hall. repeat rewrite andb_true_iff. tauto.
    + repeat split; try assumption.
      intros j. rewrite Hnth, Hhits.
      destruct (span_hits t x y (Z.of_nat n) j) eqn:Eh; cbn [orb]; [reflexivity|].
      destruct ((0 <=? y) && (y <? m_height t)
                && (Z.of_nat j - (y * m_stride t + x) =? Z.of_nat n)
                && (0 <=? x + Z.of_nat n) && (x + Z.of_nat n <? m_width t)) eqn:Ek;
        [|reflexivity].
      repeat (apply andb_prop in Ek as [Ek ?]).
      match goal with H : (_ =? _) = true |- _ => apply Z.eqb_eq in H; rewrite H end.
      rewrite Nat2Z.id.
      pose proof (nth_byte (m_buffer t) j Hbytes). lia.
Qed.

End EmitSpanMax.

(** [emit_span] on a [grayscale_max_target], which has no [put_span]: the
    pixel of every span element that falls inside the target becomes the
    maximum of what it held and the element's alpha, and every other byte
    of the buffer is left as it was. Skipping the elements with alpha zero
    loses nothing. *)
Theorem emit_span_on_max_target (t : grayscale_max_target) (x y : Z)
    (alphas : list Z) (count : Z) :
  buffer_covers t ->
  Forall (fun v => 0 <= v < 256) alphas ->
  0 <= count ->
  let t' := EmitSpan.emit_span put_pixel None t x y alphas count in
  length (m_buffer t') = length (m_buffer t)
  /\ forall j,
       nth j (m_buffer t') 0
       = if span_hits t x y count j
         then Z.max (nth j (m_buffer t) 0)
                    (nth (Z.to_nat (Z.of_nat j - (y * m_stride t + x))) alphas 0)
         else nth j (m_buffer t) 0.
Proof.
  intros Hc Ha Hn. cbv zeta. unfold EmitSpan.emit_span.
  pose proof (emit_span_max_prefix t x y alphas Hc Ha (Z.to_nat count)) as H.
  cbv zeta in H. rewrite Z2Nat.id in H by exact Hn.
  destruct H as (_ & _ & _ & Hl & Hnth). split; assumption.
Qed.

(** The statement on a 3x2 target and a span that starts left of it. *)
Lemma emit_span_on_max_target_witness :
  let t := grayscale_max_target_new [5; 5; 5; 5; 5; 5] 3 2 0 in
  let t' := EmitSpan.emit_span put_pixel None t (-1) 1 [9; 0; 7; 200] 4 in
  length (m_buffer t') = length (m_buffer t)
  /\ forall j,
       nth j (m_buffer t') 0
       = if span_hits t (-1) 1 4 j
         then Z.max (nth j (m_buffer t) 0)
                    (nth (Z.to_nat (Z.of_nat j - (1 * m_stride t + -1)))
                         [9; 0; 7; 200] 0)
         else nth j (m_buffer t) 0.
Proof.
  apply (emit_span_on_max_target
           (grayscale_max_target_new [5; 5; 5; 5; 5; 5] 3 2 0)
           (-1) 1 [9; 0; 7; 200] 4).
  - unfold buffer_covers. cbn. repeat split; try lia. repeat constructor; lia.
  - repeat constructor; lia.
  - lia.
Defined.

End GrayscaleMaxTargetFacts.

Module OwnedGrayscaleTargetFacts.
Import OwnedGrayscaleTarget.

Lemma in_bounds_spec t x y :
  in_bounds t x y = true <-> 0 <= x < m_width t /\ 0 <= y < m_height t.
Proof.
  unfold in_bounds. rewrite !andb_true_iff, !Z.leb_le, !Z.ltb_lt. lia.
Qed.

Lemma offset_inside t x y :
  sized t -> in_bounds t x y = true ->
  (offset t x y < length (m_buffer t))%nat.
Proof.
  intros (Hw & Hh & Hl) Hin. apply in_bounds_spec in Hin. unfold offset.
  rewrite Hl. nia.
Qed.

Lemma offset_inj t x y x' y' :
  in_bounds t x y = true -> in_bounds t x' y' = true ->
  offset t x y = offset t x' y' -> x = x' /\ y = y'.
Proof.
  intros H H'. apply in_bounds_spec in H, H'. unfold offset. intros E.
  assert (Z.to_nat y = Z.to_nat y') by nia. nia.
Qed.

Lemma owned_new_sized width height :
  0 <= width -> 0 <= height -> sized (owned_grayscale_target_new width height).
Proof.
  intros Hw Hh. unfold sized, owned_grayscale_target_new. cbn.
  rewrite length_replicate. auto.
Qed.

Lemma owned_put_pixel_sized t x y a : sized t -> sized (put_pixel t x y a).
Proof.
  unfold sized, put_pixel. case_match; cbn; rewrite ?length_insert; auto.
Qed.

(** [pixel] reads what [put_pixel] wrote: after [put_pixel(x, y, alpha)]
    inside the target, [pixel(x, y)] is [alpha] and every other pixel is as
    before; a write outside the target changes nothing, and a read outside
    it gives 0. A new target and a cleared one read 0 everywhere. *)
Theorem owned_target_reads_back (t : owned_grayscale_target)
    (x y alpha x' y' : Z) :
  sized t ->
  pixel (put_pixel t x y alpha) x' y'
  = (if in_bounds t x y && (x' =? x) && (y' =? y) then alpha else pixel t x' y')
  /\ pixel (clear t) x' y' = 0
  /\ pixel (owned_grayscale_target_new (m_width t) (m_height t)) x' y' = 0
  /\ (in_bounds t x' y' = false -> pixel t x' y' = 0).
Proof.
  intros Hsized. split; [|split; [|split]].
  - unfold put_pixel, pixel.
    destruct (in_bounds t x y) eqn:Hin; cbn [andb]; [|reflexivity].
    change (in_bounds (mk_owned (<[offset t x y := alpha]> (m_buffer t))
                                (m_width t) (m_height t)) x' y')
      with (in_bounds t x' y').
    change (offset (mk_owned (<[offset t x y := alpha]> (m_buffer t))
                             (m_width t) (m_height t)) x' y')
      with (offset t x' y').
    cbn [m_buffer].
    destruct (in_bounds t x' y') eqn:Hin'.
    + destruct (Z.eqb_spec x' x) as [-> | Hx]; cbn [andb].
      * destruct (Z.eqb_spec y' y) as [-> | Hy].
        -- rewrite nth_lookup, list_lookup_insert_eq; [reflexivity|].
           apply offset_inside; assumption.
        -- rewrite !nth_lookup, list_lookup_insert_ne; [reflexivity|].
           intros E. apply offset_inj in E; [lia | assumption..].
      * rewrite !nth_lookup, list_lookup_insert_ne; [reflexivity|].
        intros E. apply offset_inj in E; [lia | assumption..].
    + destruct (Z.eqb_spec x' x) as [-> | Hx]; cbn [andb]; [|reflexivity].
      destruct (Z.eqb_spec y' y) as [-> | Hy]; [congruence | reflexivity].
  - unfold pixel, clear. cbn [m_buffer].
    case_match; [|reflexivity].
    rewrite nth_lookup.
    destruct (replicate (length (m_buffer t)) 0 !! _) eqn:E; [|reflexivity].
    apply lookup_replicate in E as [-> _]. reflexivity.
  - unfold pixel, owned_grayscale_target_new. cbn [m_buffer].
    case_match; [|reflexivity].
    rewrite nth_lookup.
    destruct (replicate _ 0 !! _) eqn:E; [|reflexivity].
    apply lookup_replicate in E as [-> _]. reflexivity.
  - unfold pixel. intros ->. reflexivity.
Qed.

Lemma owned_target_reads_back_witness :
  pixel (put_pixel (owned_grayscale_target_new 4 3) 2 1 77) 2 1 = 77.
Proof.
  apply (owned_target_reads_back (owned_grayscale_target_new 4 3) 2 1 77 2 1).
  apply owned_new_sized; lia.
Defined.

(** [pixel] after [put_span]: inside the target, the pixels of row [y] from
    [x] to [x + count] hold the span's alphas and every other pixel is as
    before; the part of the span outside the target is dropped. *)
Theorem owned_put_span_reads_back (t : owned_grayscale_target)
    (x y : Z) (alphas : list Z) (count x' y' : Z) :
  sized t ->
  0 <= count <= Z.of_nat (length alphas) ->
  pixel (put_span t x y alphas count) x' y'
  = if in_bounds t x' y' && (y' =? y) && (x <=? x') && (x' <? x + count)
    then nth (Z.to_nat (x' - x)) alphas 0
    else pixel t x' y'.
Proof.
  intros Hsized Hcount. pose proof Hsized as (Hw & Hh & Hl).
  unfold put_span.
  destruct (Z.ltb_spec y 0) as [Hy0 | Hy0]; cbn [orb].
  { unfold pixel. destruct (in_bounds t x' y') eqn:Hin; [|reflexivity].
    apply in_bounds_spec in Hin.
    destruct (Z.eqb_spec y' y); [lia | reflexivity]. }
  destruct (Z.leb_spec (m_height t) y) as [Hyh | Hyh].
  { unfold pixel. destruct (in_bounds t x' y') eqn:Hin; [|reflexivity].
    apply in_bounds_spec in Hin.
    destruct (Z.eqb_spec y' y); [lia | reflexivity]. }
  cbv zeta.
  destruct (Z.ltb_spec (Z.max 0 x) (Z.min (m_width t) (x + count))) as [Hlt | Hge].
  - unfold pixel.
    change (in_bounds (mk_owned _ (m_width t) (m_height t)) x' y')
      with (in_bounds t x' y').
    change (offset (mk_owned _ (m_width t) (m_height t)) x' y')
      with (offset t x' y').
    cbn [m_buffer].
    destruct (in_bounds t x' y') eqn:Hin; cbn [andb]; [|reflexivity].
    apply in_bounds_spec in Hin.
    assert (Hd : (offset t (Z.max 0 x) y
                  + Z.to_nat (Z.min (m_width t) (x + count) - Z.max 0 x)
                  <= length (m_buffer t))%nat)
      by (unfold offset; rewrite Hl; nia).
    assert (Hs : (Z.to_nat (Z.max 0 x - x)
                  + Z.to_nat (Z.min (m_width t) (x + count) - Z.max 0 x)
                  <= length alphas)%nat) by lia.
    rewrite memcpy_nth by assumption.
    unfold offset in *.
    destruct (Z.eqb_spec y' y) as [-> | Hy]; cbn [andb].
    + destruct (Z.leb_spec x x') as [Hxl | Hxl]; cbn [andb].
      * destruct (Z.ltb_spec x' (x + count)) as [Hxr | Hxr].
        -- replace ((_ <=? _)%nat && (_ <? _)%nat) with true
             by (symmetry; apply andb_true_intro; split;
                 [apply Nat.leb_le | apply Nat.ltb_lt]; nia).
           f_equal. nia.
        -- replace ((_ <=? _)%nat && (_ <? _)%nat) with false; [reflexivity|].
           symmetry. apply andb_false_iff. right. apply Nat.ltb_ge. nia.
      * replace ((_ <=? _)%nat && (_ <? _)%nat) with false; [reflexivity|].
        symmetry. apply andb_false_iff. left. apply Nat.leb_gt. nia.
    + replace ((_ <=? _)%nat && (_ <? _)%nat) with false; [reflexivity|].
      symmetry. apply andb_false_iff.
      destruct (Z.lt_ge_cases y' y).
      * left. apply Nat.leb_gt. nia.
      * right. apply Nat.ltb_ge. nia.
  - unfold pixel. destruct (in_bounds t x' y') eqn:Hin; [|reflexivity].
    apply in_bounds_spec in Hin. cbn [andb].
    destruct (Z.eqb_spec y' y); cbn [andb]; [|reflexivity].
    destruct (Z.leb_spec x x'); cbn [andb]; [|reflexivity].
    destruct (Z.ltb_spec x' (x + count)); [lia | reflexivity].
Qed.

Lemma owned_put_span_reads_back_witness :
  pixel (put_span (owned_grayscale_target_new 4 3) (-1) 2 [9; 8; 7] 3) 1 2
  = if in_bounds (owned_grayscale_target_new 4 3) 1 2 && (2 =? 2)
       && (-1 <=? 1) && (1 <? -1 + 3)
    then nth (Z.to_nat (1 - -1)) [9; 8; 7] 0
    else pixel (owned_grayscale_target_new 4 3) 1 2.
Proof.
  apply (owned_put_span_reads_back (owned_grayscale_target_new 4 3)
                                   (-1) 2 [9; 8; 7] 3 1 2).
  - apply owned_new_sized; lia.
  - cbn. lia.
Defined.

End OwnedGrayscaleTargetFacts.

Module RgbaColorFacts.
Import RasterTarget RgbaColor RasterTargetFacts.

Lemma set_color_covers t color :
  rgba_width t * rgba_height t <= Z.of_nat (length (rgba_buffer t)) ->
  rgba_covers (set_color t color).
Proof.
  intros H. unfold rgba_covers, set_color. cbn.
  repeat split; try apply u8_chan_range. exact H.
Qed.

Lemma rgba_new_covers buffer width height color :
  width * height <= Z.of_nat (length buffer) ->
  rgba_covers (rgba_blend_target_new buffer width height color).
Proof.
  intros H. unfold rgba_covers, rgba_blend_target_new. cbn.
  repeat split; try apply u8_chan_range. exact H.
Qed.

(** The alpha channel [blend] stores. *)
Lemma blend_alpha_channel t dst alpha :
  rgba_covers t -> 0 < alpha <= 255 ->
  chan_a (blend t dst alpha)
  = if alpha =? 255 then 255
    else alpha + (chan_a dst * (255 - alpha) + 127) / 255.
Proof.
  intros (Hr & Hg & Hb & _) Ha. unfold blend.
  destruct (Z.eqb_spec alpha 255) as [-> | Hne].
  - pose proof (channels_of_pack 255 (m_color_r t) (m_color_g t) (m_color_b t)
                  ltac:(lia) Hr Hg Hb) as (E & _). exact E.
  - cbv zeta.
    pose proof (u8_chan_range (Z.land (Z.shiftr dst 24) 255)) as Hda.
    pose proof (u8_chan_range (Z.land (Z.shiftr dst 16) 255)) as Hdr.
    pose proof (u8_chan_range (Z.land (Z.shiftr dst 8) 255)) as Hdg.
    pose proof (u8_chan_range (Z.land dst 255)) as Hdb.
    fold (chan_a dst) in Hda. fold (chan_r dst) in Hdr.
    fold (chan_g dst) in Hdg. fold (chan_b dst) in Hdb.
    assert (Hinv : u32 (255 - alpha) = 255 - alpha)
      by (unfold u32; apply Z.mod_small; lia).
    rewrite Hinv.
    assert (Hsmall : forall src d, 0 <= src < 256 -> 0 <= d < 256 ->
              u32 (src * alpha + d * (255 - alpha) + 127)
              = src * alpha + d * (255 - alpha) + 127).
    { intros src d Hsrc Hd. unfold u32. apply Z.mod_small. nia. }
    assert (Hsmall0 : u32 (chan_a dst * (255 - alpha) + 127)
                      = chan_a dst * (255 - alpha) + 127)
      by (unfold u32; apply Z.mod_small; nia).
    rewrite Hsmall0, !Hsmall by assumption.
    pose proof (over_range 255 (chan_a dst) alpha ltac:(lia) Hda ltac:(lia)) as Oa.
    replace ((255 * alpha + chan_a dst * (255 - alpha) + 127) / 255)
      with (alpha + (chan_a dst * (255 - alpha) + 127) / 255) in Oa
      by (rewrite <- Z.div_add_l by lia; f_equal; lia).
    assert (Hout : u32 (alpha + (chan_a dst * (255 - alpha) + 127) / 255)
                   = alpha + (chan_a dst * (255 - alpha) + 127) / 255)
      by (unfold u32; apply Z.mod_small; lia).
    rewrite Hout.
    pose proof (channels_of_pack
                  (alpha + (chan_a dst * (255 - alpha) + 127) / 255)
                  ((m_color_r t * alpha + chan_r dst * (255 - alpha) + 127) / 255)
                  ((m_color_g t * alpha + chan_g dst * (255 - alpha) + 127) / 255)
                  ((m_color_b t * alpha + chan_b dst * (255 - alpha) + 127) / 255)
                  Oa
                  (over_range _ _ alpha Hr Hdr ltac:(lia))
                  (over_range _ _ alpha Hg Hdg ltac:(lia))
                  (over_range _ _ alpha Hb Hdb ltac:(lia))) as (E & _).
    exact E.
Qed.

Lemma rgba_pixel_at_other buffer w h r g b x y x' y' v :
  0 <= x < w -> 0 <= y < h -> 0 <= x' < w -> 0 <= y' < h ->
  (x', y') <> (x, y) ->
  pixel_at (mk_rgba (<[Z.to_nat (y * w + x) := v]> buffer) w h r g b) x' y'
  = pixel_at (mk_rgba buffer w h r g b) x' y'.
Proof.
  intros Hx Hy Hx' Hy' Hne. unfold pixel_at. cbn [rgba_buffer rgba_width].
  rewrite !nth_lookup, list_lookup_insert_ne; [reflexivity|].
  intros E. apply Hne.
  assert (0 <= y * w /\ 0 <= y' * w) as [? ?] by nia.
  assert (y * w + x = y' * w + x') by lia.
  assert (y = y') by nia. f_equal; lia.
Qed.

(** Blending never lowers the coverage of a pixel: after
    [rgba_blend_target::put_pixel] inside the target, the alpha channel of
    the pixel is at least what it was and at most 255, so an opaque pixel
    stays opaque; every other pixel of the target is left as it was. *)
Theorem rgba_coverage_never_decreases (t : rgba_blend_target)
    (x y alpha : Z) :
  rgba_covers t ->
  0 <= x < rgba_width t -> 0 <= y < rgba_height t ->
  0 <= alpha <= 255 ->
  let t' := rgba_put_pixel t x y alpha in
  chan_a (pixel_at t x y) <= chan_a (pixel_at t' x y) <= 255
  /\ (forall x' y',
        0 <= x' < rgba_width t -> 0 <= y' < rgba_height t ->
        (x', y') <> (x, y) ->
        pixel_at t' x' y' = pixel_at t x' y')
  /\ rgba_covers t'.
Proof.
  intros Hc Hx Hy Ha. cbv zeta.
  pose proof Hc as (Hr & Hg & Hb & Hlen).
  pose proof (u8_chan_range (Z.land (Z.shiftr (pixel_at t x y) 24) 255)) as Hda.
  fold (chan_a (pixel_at t x y)) in Hda.
  unfold rgba_put_pixel.
  replace ((0 <=? x) && (x <? rgba_width t) && (0 <=? y) && (y <? rgba_height t))
    with true
    by (symmetry; rewrite !andb_true_iff, !Z.leb_le, !Z.ltb_lt; lia).
  cbn [andb].
  destruct (Z.ltb_spec 0 alpha) as [Hpos | Hzero].
  - cbv zeta. destruct t as [buffer w h r g b]. cbn [rgba_buffer rgba_width
      rgba_height m_color_r m_color_g m_color_b] in *.
    split; [|split].
    + rewrite pixel_at_written by assumption.
      rewrite blend_alpha_channel by (try split; cbn; auto; lia).
      destruct (Z.eqb_spec alpha 255); [lia|].
      set (d := chan_a (pixel_at (mk_rgba buffer w h r g b) x y)) in *.
      assert (d - alpha <= (d * (255 - alpha) + 127) / 255)
        by (apply Z.div_le_lower_bound; nia).
      assert ((d * (255 - alpha) + 127) / 255 < 255 - alpha + 1)
        by (apply Z.div_lt_upper_bound; [lia | nia]).
      lia.
    + intros x' y' Hx' Hy' Hne. apply rgba_pixel_at_other; assumption.
    + unfold rgba_covers. cbn. rewrite length_insert. auto.
  - split; [lia|]. split; [reflexivity | exact Hc].
Qed.

Lemma rgba_coverage_never_decreases_witness :
  let t := rgba_blend_target_new [0x80112233; 0] 2 1 0xFFFFFF in
  chan_a (pixel_at t 0 0) <= chan_a (pixel_at (rgba_put_pixel t 0 0 100) 0 0) <= 255.
Proof.
  intros t.
  apply (rgba_coverage_never_decreases t 0 0 100).
  - apply rgba_new_covers. cbn. lia.
  - cbn. lia.
  - cbn. lia.
  - lia.
Defined.

(** An opaque write stores the text colour: after [set_color(color)],
    [put_pixel(x, y, 255)] inside the target stores
    [0xFF000000 | (color & 0xFFFFFF)], whatever the pixel held and whatever
    the colour's own top byte is. *)
Theorem opaque_write_stores_the_colour (t : rgba_blend_target)
    (color x y : Z) :
  0 <= color < 2 ^ 32 ->
  0 <= x < rgba_width t -> 0 <= y < rgba_height t ->
  rgba_width t * rgba_height t <= Z.of_nat (length (rgba_buffer t)) ->
  pixel_at (rgba_put_pixel (set_color t color) x y 255) x y
  = Z.lor 0xFF000000 (Z.land color 0xFFFFFF).
Proof.
  intros Hcolor Hx Hy Hlen. unfold rgba_put_pixel, set_color.
  cbn [rgba_width rgba_height rgba_buffer m_color_r m_color_g m_color_b].
  replace ((0 <=? x) && (x <? rgba_width t) && (0 <=? y) && (y <? rgba_height t))
    with true
    by (symmetry; rewrite !andb_true_iff, !Z.leb_le, !Z.ltb_lt; lia).
  cbn [andb Z.ltb Z.compare]. cbv zeta.
  rewrite pixel_at_written by assumption.
  unfold blend. cbn [Z.eqb Pos.eqb m_color_r m_color_g m_color_b].
  rewrite pack_place_value by (try apply u8_chan_range; lia).
  change 0xFF000000 with (Z.shiftl 255 24).
  change 0xFFFFFF with (Z.ones 24). change 0xFF with (Z.ones 8).
  rewrite !Z.land_ones by lia.
  rewrite lor_shiftl_add by (try apply Z.mod_pos_bound; lia).
  unfold u8. rewrite !Z.shiftr_div_pow2 by lia. rewrite !Z.mod_mod by lia.
  change (2 ^ 8) with 256. change (2 ^ 16) with 65536. change (2 ^ 24) with 16777216.
  Z.to_euclidean_division_equations. lia.
Qed.

Lemma opaque_write_stores_the_colour_witness :
  pixel_at (rgba_put_pixel
              (set_color (rgba_blend_target_new [0x12345678] 1 1 0) 0x80AABBCC)
              0 0 255) 0 0
  = Z.lor 0xFF000000 (Z.land 0x80AABBCC 0xFFFFFF).
Proof.
  apply (opaque_write_stores_the_colour
           (rgba_blend_target_new [0x12345678] 1 1 0) 0x80AABBCC 0 0);
    cbn; lia.
Defined.

End RgbaColorFacts.

Module MemoryAtlasFacts.
Import AtlasSurface MemoryAtlas.

Lemma in_atlas_spec a x y :
  in_atlas a x y = true <-> 0 <= x < atlas_width a /\ 0 <= y < atlas_height a.
Proof.
  unfold in_atlas. rewrite !andb_true_iff, !Z.leb_le, !Z.ltb_lt. lia.
Qed.

Lemma in_rect_spec x y w h px py :
  in_rect x y w h px py = true <-> x <= px < x + w /\ y <= py < y + h.
Proof.
  unfold in_rect. rewrite !andb_true_iff, !Z.leb_le, !Z.ltb_lt. lia.
Qed.

Lemma memory_atlas_new_sized width height :
  0 <= width -> 0 <= height -> atlas_sized (memory_atlas_new width height).
Proof.
  intros Hw Hh. unfold atlas_sized, memory_atlas_new. cbn.
  rewrite length_replicate. repeat split; try assumption. nia.
Qed.

Lemma write_alpha_row_sized a x y w pixels stride row :
  atlas_sized a -> 0 <= row -> 0 <= stride -> 0 < w ->
  row * stride + w <= Z.of_nat (length pixels) ->
  atlas_sized (write_alpha_row a x y w pixels stride row).
Proof.
  intros (Hw & Hh & Hl) Hrow Hstride Hpos Hsrc. unfold write_alpha_row. cbv zeta.
  destruct (Z.ltb_spec (y + row) 0); cbn [orb]; [repeat split; assumption|].
  destruct (Z.leb_spec (atlas_height a) (y + row)); [repeat split; assumption|].
  destruct (Z.ltb_spec (if x <? 0 then - x else 0)
                       (if atlas_width a <? x + w then atlas_width a - x else w));
    [|repeat split; assumption].
  unfold atlas_sized. cbn [atlas_width atlas_height atlas_data].
  repeat split; try assumption.
  rewrite memcpy_length; [exact Hl | |];
    destruct (Z.ltb_spec x 0), (Z.ltb_spec (atlas_width a) (x + w)); nia.
Qed.

(** One row of [write_alpha], read back. *)
Lemma write_alpha_row_pixel a x y w pixels stride row px py :
  atlas_sized a -> 0 <= row -> 0 <= stride -> 0 < w ->
  row * stride + w <= Z.of_nat (length pixels) ->
  pixel (write_alpha_row a x y w pixels stride row) px py
  = if in_atlas a px py && (x <=? px) && (px <? x + w) && (py =? y + row)
    then nth (Z.to_nat (row * stride + (px - x))) pixels 0
    else pixel a px py.
Proof.
  intros (Hw & Hh & Hl) Hrow Hstride Hpos Hsrc.
  unfold write_alpha_row. cbv zeta.
  destruct (Z.ltb_spec (y + row) 0) as [Hy0 | Hy0]; cbn [orb].
  { destruct (in_atlas a px py) eqn:Hin; cbn [andb]; [|reflexivity].
    apply in_atlas_spec in Hin.
    destruct (Z.eqb_spec py (y + row)); [lia|].
    rewrite andb_false_r. unfold pixel.
    replace (in_atlas a px py) with true
      by (symmetry; apply in_atlas_spec; lia). reflexivity. }
  destruct (Z.leb_spec (atlas_height a) (y + row)) as [Hyh | Hyh].
  { destruct (in_atlas a px py) eqn:Hin; cbn [andb]; [|reflexivity].
    apply in_atlas_spec in Hin.
    destruct (Z.eqb_spec py (y + row)); [lia|].
    rewrite andb_false_r. unfold pixel.
    replace (in_atlas a px py) with true
      by (symmetry; apply in_atlas_spec; lia). reflexivity. }
  set (cs := if x <? 0 then - x else 0).
  set (ce := if atlas_width a <? x + w then atlas_width a - x else w).
  assert (Hcs : cs = Z.max 0 (- x)) by (unfold cs; destruct (Z.ltb_spec x 0); lia).
  assert (Hce : ce = Z.min w (atlas_width a - x))
    by (unfold ce; destruct (Z.ltb_spec (atlas_width a) (x + w)); lia).
  clearbody cs ce.
  destruct (Z.ltb_spec cs ce) as [Hlt | Hge].
  - unfold pixel.
    change (in_atlas (mk_atlas (atlas_width a) (atlas_height a) _) px py)
      with (in_atlas a px py).
    cbn [atlas_width atlas_data].
    destruct (in_atlas a px py) eqn:Hin; cbn [andb]; [|reflexivity].
    apply in_atlas_spec in Hin.
    rewrite memcpy_nth by nia.
    destruct (Z.eqb_spec py (y + row)) as [-> | Hpy].
    + destruct (Z.leb_spec x px) as [Hxl | Hxl]; cbn [andb].
      * destruct (Z.ltb_spec px (x + w)) as [Hxr | Hxr]; cbn [andb].
        -- replace ((_ <=? _)%nat && (_ <? _)%nat) with true
             by (symmetry; apply andb_true_intro; split;
                 [apply Nat.leb_le | apply Nat.ltb_lt]; nia).
           f_equal. nia.
        -- replace ((_ <=? _)%nat && (_ <? _)%nat) with false; [reflexivity|].
           symmetry. apply andb_false_iff. right. apply Nat.ltb_ge. nia.
      * replace ((_ <=? _)%nat && (_ <? _)%nat) with false; [reflexivity|].
        symmetry. apply andb_false_iff. left. apply Nat.leb_gt. nia.
    + rewrite andb_false_r.
      replace ((_ <=? _)%nat && (_ <? _)%nat) with false; [reflexivity|].
      symmetry. apply andb_false_iff.
      destruct (Z.lt_ge_cases py (y + row)).
      * left. apply Nat.leb_gt. nia.
      * right. apply Nat.ltb_ge. nia.
  - destruct (in_atlas a px py) eqn:Hin; cbn [andb]; [|reflexivity].
    apply in_atlas_spec in Hin.
    destruct (Z.leb_spec x px); cbn [andb]; [|unfold pixel; reflexivity].
    destruct (Z.ltb_spec px (x + w)); cbn [andb]; [lia | reflexivity].
Qed.

Lemma write_alpha_row_in_atlas a x y w pixels stride row px py :
  in_atlas (write_alpha_row a x y w pixels stride row) px py = in_atlas a px py.
Proof.
  unfold in_atlas.
  destruct (GlyphCacheFacts.write_alpha_row_dims a x y w pixels stride row) as [-> ->].
  reflexivity.
Qed.

Lemma write_alpha_rows_pixel a x y w pixels stride (n : nat) px py :
  atlas_sized a -> 0 <= stride -> 0 < w ->
  (Z.of_nat n - 1) * stride + w <= Z.of_nat (length pixels) ->
  let a' := foldl (fun a row => write_alpha_row a x y w pixels stride (Z.of_nat row))
                  a (seq 0 n) in
  atlas_sized a'
  /\ in_atlas a' px py = in_atlas a px py
  /\ pixel a' px py
     = if in_atlas a px py && in_rect x y w (Z.of_nat n) px py
       then nth (Z.to_nat ((py - y) * stride + (px - x))) pixels 0
       else pixel a px py.
Proof.
  intros Hsized Hstride Hpos. induction n as [|n IH]; intros Hsrc; cbv zeta.
  - cbn [seq foldl]. split; [exact Hsized|]. split; [reflexivity|].
    unfold in_rect.
    destruct (Z.leb_spec y py), (Z.ltb_spec py (y + Z.of_nat 0)); try lia;
      rewrite ?andb_false_r; reflexivity.
  - rewrite seq_S, foldl_snoc. cbn [Nat.add].
    destruct IH as (IHs & IHi & IHp); [nia|].
    set (an := foldl _ a (seq 0 n)) in *.
    assert (Hrow : Z.of_nat n * stride + w <= Z.of_nat (length pixels)) by nia.
    split; [apply write_alpha_row_sized; auto; lia|].
    split; [rewrite write_alpha_row_in_atlas; exact IHi|].
    rewrite write_alpha_row_pixel by (auto; lia).
    rewrite IHi, IHp.
    destruct (in_atlas a px py) eqn:Hin; cbn [andb]; [|reflexivity].
    unfold in_rect.
    destruct (Z.leb_spec x px); cbn [andb]; [|reflexivity].
    destruct (Z.ltb_spec px (x + w)); cbn [andb]; [|reflexivity].
    destruct (Z.eqb_spec py (y + Z.of_nat n)) as [-> | Hne].
    + replace (y + Z.of_nat n - y) with (Z.of_nat n) by lia.
      destruct (Z.leb_spec y (y + Z.of_nat n)); [|lia].
      destruct (Z.ltb_spec (y + Z.of_nat n) (y + Z.of_nat (S n))); [|lia].
      reflexivity.
    + destruct (Z.leb_spec y py); cbn [andb]; [|reflexivity].
      destruct (Z.ltb_spec py (y + Z.of_nat n)),
        (Z.ltb_spec py (y + Z.of_nat (S n))); try lia; reflexivity.
Qed.

(** [write_alpha], read back. *)
Lemma write_alpha_pixel (a : memory_atlas) (x y w h : Z)
    (pixels : list Z) (stride px py : Z) :
  atlas_sized a ->
  source_covers pixels w h stride ->
  let a' := write_alpha a x y w h pixels stride in
  atlas_sized a'
  /\ pixel a' px py
     = if in_atlas a px py && in_rect x y w h px py
       then nth (Z.to_nat ((py - y) * stride + (px - x))) pixels 0
       else pixel a px py.
Proof.
  intros Hsized (Hstride & Hsrc). cbv zeta. unfold write_alpha.
  destruct (Z.leb_spec w 0) as [Hw | Hw]; cbn [orb].
  { split; [exact Hsized|].
    destruct (in_atlas a px py); cbn [andb]; [|reflexivity].
    unfold in_rect.
    destruct (Z.leb_spec x px), (Z.ltb_spec px (x + w)); try lia; reflexivity. }
  destruct (Z.leb_spec h 0) as [Hh | Hh].
  { split; [exact Hsized|].
    destruct (in_atlas a px py); cbn [andb]; [|reflexivity].
    unfold in_rect.
    destruct (Z.leb_spec y py), (Z.ltb_spec py (y + h)); try lia;
      rewrite ?andb_false_r; reflexivity. }
  pose proof (write_alpha_rows_pixel a x y w pixels stride (Z.to_nat h) px py
                Hsized Hstride Hw) as H.
  cbv zeta in H. rewrite Z2Nat.id in H by lia.
  destruct (H Hsrc) as (Hs' & _ & Hp). split; assumption.
Qed.

(** [pixel] reads what [write_alpha] wrote: after
    [write_alpha(x, y, w, h, pixels, stride)], the atlas pixel [(px, py)]
    inside the rectangle holds [pixels[(py - y) * stride + (px - x)]], and
    every pixel outside the rectangle holds what it held. The part of the
    rectangle outside the atlas is clipped, on every side. *)
Theorem write_alpha_reads_back (a : memory_atlas) (x y w h : Z)
    (pixels : list Z) (stride px py : Z) :
  atlas_sized a ->
  source_covers pixels w h stride ->
  let a' := write_alpha a x y w h pixels stride in
  atlas_sized a'
  /\ pixel a' px py
     = if in_atlas a px py && in_rect x y w h px py
       then nth (Z.to_nat ((py - y) * stride + (px - x))) pixels 0
       else pixel a px py.
Proof.
  intros Hsized Hsource. cbv zeta.
  destruct (write_alpha_pixel a x y w h pixels stride px py Hsized Hsource)
    as [Hsized' Hpixel].
  split; [exact Hsized' | exact Hpixel].
Qed.

(** The statement on a 4x4 atlas and a 3x2 block that hangs over its right
    edge. *)
Lemma write_alpha_reads_back_witness :
  let a := memory_atlas_new 4 4 in
  let a' := write_alpha a 2 1 3 2 [1; 2; 3; 4; 5; 6] 3 in
  atlas_sized a'
  /\ pixel a' 3 2
     = if in_atlas a 3 2 && in_rect 2 1 3 2 3 2
       then nth (Z.to_nat ((2 - 1) * 3 + (3 - 2))) [1; 2; 3; 4; 5; 6] 0
       else pixel a 3 2.
Proof.
  apply (write_alpha_reads_back (memory_atlas_new 4 4) 2 1 3 2 [1; 2; 3; 4; 5; 6] 3 3 2).
  - apply memory_atlas_new_sized; lia.
  - unfold source_covers. cbn. lia.
Defined.

End MemoryAtlasFacts.

Module GlyphPackingFacts.
Import AtlasSurface TextRasterizer GlyphCache GlyphPacking GlyphCacheFacts.

(** [cache_glyph] through its steps. *)
Lemma cache_glyph_steps c cp :
  cache_glyph c cp
  = if (glyph_w c cp <=? 0) || (glyph_h c cp <=? 0)
    then emplace c cp (empty_glyph c cp)
    else
      let c2 := place c (glyph_w c cp) (glyph_h c cp) in
      emplace (written c2 cp) cp (placed_glyph c2 cp).
Proof.
  unfold cache_glyph, glyph_w, glyph_h, empty_glyph, place, written, placed_glyph,
    glyph_image, glyph_w, glyph_h.
  cbv zeta.
  destruct ((clamp _ 0 _ <=? 0) || (clamp _ 0 _ <=? 0)); [reflexivity|].
  destruct (atlas_size (m_config c) <? _); cbn [next_row m_config m_pack_y m_pack_x
    m_rasterizer m_atlases m_cache m_row_height];
    destruct (atlas_size (m_config c) <? _); reflexivity.
Qed.

Lemma emplace_absent c cp g :
  m_cache c !! cp = None ->
  emplace c cp g
  = (g, mk_cache (m_rasterizer c) (m_config c) (m_atlases c)
                 (<[cp := g]> (m_cache c))
                 (m_pack_x c) (m_pack_y c) (m_row_height c)).
Proof. intros H. unfold emplace. rewrite H. reflexivity. Qed.

Lemma place_fields c w h :
  m_config (place c w h) = m_config c
  /\ m_rasterizer (place c w h) = m_rasterizer c
  /\ m_cache (place c w h) = m_cache c
  /\ (m_atlases (place c w h) = m_atlases c
      \/ m_atlases (place c w h)
         = m_atlases c ++ [memory_atlas_new (atlas_size (m_config c))
                                            (atlas_size (m_config c))]
         /\ m_pack_x (place c w h) = padding (m_config c)
         /\ m_pack_y (place c w h) = padding (m_config c)
         /\ m_row_height (place c w h) = 0).
Proof.
  unfold place. cbv zeta.
  destruct (atlas_size (m_config c) <? m_pack_x c + (w + padding (m_config c)));
    cbn [next_row m_config m_pack_y m_pack_x m_rasterizer m_atlases m_cache
         m_row_height];
    destruct (atlas_size (m_config c) <? _);
    cbn [add_atlas m_config m_pack_y m_pack_x m_rasterizer m_atlases m_cache
         m_row_height]; auto 10.
Qed.

Lemma glyph_size_place c w h cp :
  glyph_w (place c w h) cp = glyph_w c cp /\ glyph_h (place c w h) cp = glyph_h c cp.
Proof.
  destruct (place_fields c w h) as (Hc & Hr & _).
  unfold glyph_w, glyph_h. rewrite Hc, Hr. auto.
Qed.

(** The invariants of a cache are proved over the constructor's first page
    and [cache_glyph] on a codepoint that is not cached: every operation is
    a sequence of such calls. *)
Lemma reachable_invariant (I : glyph_cache -> Prop) :
  (forall r config, I (add_atlas (mk_cache r config [] ∅ 0 0 0))) ->
  (forall c cp, I c -> m_cache c !! cp = None -> I (snd (cache_glyph c cp))) ->
  forall c, reachable c -> I c.
Proof.
  intros Hnew Hstep.
  assert (Hmiss : forall c cp, I c -> I (cache_if_missing c cp)).
  { intros c cp Hc. unfold cache_if_missing, is_cached.
    destruct (m_cache c !! cp) eqn:E.
    - rewrite bool_decide_eq_true_2 by eauto. exact Hc.
    - rewrite bool_decide_eq_false_2 by (intros [? ?]; discriminate).
      apply Hstep; assumption. }
  assert (Hfold : forall cps c, I c -> I (foldl cache_if_missing c cps)).
  { induction cps as [|cp cps IH]; intros c Hc; [exact Hc|].
    cbn [foldl]. apply IH, Hmiss, Hc. }
  induction 1 as [r config | c op _ IH].
  - unfold glyph_cache_new. cbv zeta.
    destruct (pre_cache_ascii config); [apply Hfold|]; apply Hnew.
  - destruct op as [cp | first last | text]; cbn [apply_operation].
    + unfold get. destruct (m_cache c !! cp) eqn:E; [exact IH|].
      apply Hstep; assumption.
    + apply Hfold, IH.
    + apply Hfold, IH.
Qed.

(** *** Entries and pages are kept *)

Lemma extends_refl c : extends c c.
Proof. unfold extends. auto 10. Qed.

Lemma extends_trans c1 c2 c3 : extends c1 c2 -> extends c2 c3 -> extends c1 c3.
Proof.
  intros (A1 & L1 & P1 & C1 & R1) (A2 & L2 & P2 & C2 & R2).
  unfold extends. repeat split; try congruence; auto; try lia.
  intros i Hi. rewrite P2 by lia. apply P1, Hi.
Qed.

Lemma emplace_extends c cp g : extends c (snd (emplace c cp g)).
Proof.
  unfold emplace. destruct (m_cache c !! cp) eqn:E; [apply extends_refl|].
  unfold extends. cbn. repeat split; auto.
  intros cp' g' H. rewrite lookup_insert_ne; [exact H | congruence].
Qed.

Lemma place_extends c w h : extends c (place c w h).
Proof.
  destruct (place_fields c w h) as (Hc & Hr & Hm & [Ha | (Ha & _)]);
    unfold extends; rewrite Hc, Hr, Hm, Ha; repeat split; auto.
  - rewrite length_app. lia.
  - intros i Hi. apply lookup_app_l. lia.
Qed.

Lemma written_extends c cp : extends c (written c cp).
Proof.
  unfold extends, written. cbn. repeat split; auto.
  - rewrite length_alter. lia.
  - intros i Hi. apply list_lookup_alter_ne. lia.
Qed.

Lemma cache_glyph_extends c cp : extends c (snd (cache_glyph c cp)).
Proof.
  rewrite cache_glyph_steps.
  destruct ((glyph_w c cp <=? 0) || (glyph_h c cp <=? 0)); [apply emplace_extends|].
  cbv zeta. eapply extends_trans; [apply place_extends|].
  eapply extends_trans; [apply written_extends | apply emplace_extends].
Qed.

Lemma cache_if_missing_extends c cp : extends c (cache_if_missing c cp).
Proof.
  unfold cache_if_missing. destruct (negb (is_cached c cp));
    [apply cache_glyph_extends | apply extends_refl].
Qed.

Lemma foldl_cache_if_missing_extends cps c :
  extends c (foldl cache_if_missing c cps).
Proof.
  revert c. induction cps as [|cp cps IH]; intros c; [apply extends_refl|].
  cbn [foldl]. eapply extends_trans; [apply cache_if_missing_extends | apply IH].
Qed.

Lemma apply_operation_extends c op : extends c (apply_operation c op).
Proof.
  destruct op as [cp | first last | text]; cbn [apply_operation].
  - unfold get. destruct (m_cache c !! cp); [apply extends_refl|].
    apply cache_glyph_extends.
  - apply foldl_cache_if_missing_extends.
  - apply foldl_cache_if_missing_extends.
Qed.

(** The cache only grows. Whatever cache operations follow, an entry of
    the codepoint map is kept with the same record, [atlas_count()] does
    not go down, every page but the one being filled keeps its bytes, and
    the configuration and the rasterizer stay the same: nothing is evicted,
    moved or repacked. *)
Theorem cache_only_grows (c : glyph_cache) (ops : list operation) :
  let c' := foldl apply_operation c ops in
  (forall cp g, m_cache c !! cp = Some g -> m_cache c' !! cp = Some g)
  /\ atlas_count c <= atlas_count c'
  /\ (forall i page,
        (i + 1 < length (m_atlases c))%nat ->
        m_atlases c !! i = Some page -> m_atlases c' !! i = Some page)
  /\ m_config c' = m_config c
  /\ m_rasterizer c' = m_rasterizer c.
Proof.
  cbv zeta.
  assert (H : extends c (foldl apply_operation c ops)).
  { revert c. induction ops as [|op ops IH]; intros c; [apply extends_refl|].
    cbn [foldl]. eapply extends_trans; [apply apply_operation_extends | apply IH]. }
  destruct H as (A & L & P & C & R). unfold atlas_count.
  repeat split; auto; try lia.
  intros i page Hi Hp. rewrite P by exact Hi. exact Hp.
Qed.

(** *** What is cached after caching *)

Lemma is_cached_spec c cp : is_cached c cp = true <-> is_Some (m_cache c !! cp).
Proof. unfold is_cached. apply bool_decide_eq_true. Qed.

Lemma is_cached_extends c c' cp :
  extends c c' -> is_cached c cp = true -> is_cached c' cp = true.
Proof.
  intros (A & _) H. apply is_cached_spec in H as [g Hg].
  apply is_cached_spec. exists g. apply A, Hg.
Qed.

Lemma cache_if_missing_caches c cp : is_cached (cache_if_missing c cp) cp = true.
Proof.
  unfold cache_if_missing. destruct (is_cached c cp) eqn:E; cbn [negb]; [exact E|].
  apply is_cached_spec. rewrite cache_glyph_stored. eauto.
Qed.

Lemma foldl_cache_if_missing_caches cps c cp :
  cp ∈ cps -> is_cached (foldl cache_if_missing c cps) cp = true.
Proof.
  revert c. induction cps as [|cp' cps IH]; intros c Hin.
  - apply elem_of_nil in Hin. destruct Hin.
  - cbn [foldl]. apply elem_of_cons in Hin as [-> | Hin]; [|apply IH, Hin].
    eapply is_cached_extends; [apply foldl_cache_if_missing_extends|].
    apply cache_if_missing_caches.
Qed.

(** Caching caches: after [get(cp)] the codepoint is cached; after
    [cache_range(first, last)], with [last] below the largest [char32_t],
    every codepoint from [first] to [last] is; after [cache_string(text)]
    every codepoint the text decodes to is; and a cache constructed with
    [pre_cache_ascii] holds the codepoints 32 to 126. *)
Theorem cached_after_caching :
  (forall c cp, is_cached (snd (get c cp)) cp = true)
  /\ (forall c first last cp,
        last < 0xFFFFFFFF -> first <= cp <= last ->
        is_cached (cache_range c first last) cp = true)
  /\ (forall c text cp,
        cp ∈ Utf8.utf8_view text -> is_cached (cache_string c text) cp = true)
  /\ (forall r config cp,
        pre_cache_ascii config = true -> 32 <= cp <= 126 ->
        is_cached (glyph_cache_new r config) cp = true).
Proof.
  split; [|split; [|split]].
  - intros c cp. apply is_cached_spec. rewrite get_stored. eauto.
  - intros c first last cp _ Hcp. unfold cache_range.
    apply foldl_cache_if_missing_caches. apply elem_of_seqZ. lia.
  - intros c text cp Hcp. apply foldl_cache_if_missing_caches, Hcp.
  - intros r config cp Hpre Hcp. unfold glyph_cache_new. cbv zeta. rewrite Hpre.
    unfold cache_range. apply foldl_cache_if_missing_caches.
    apply elem_of_seqZ. lia.
Qed.

Lemma cached_after_caching_witness :
  is_cached (cache_range CacheSamples.cache_bang 32 33) 33 = true
  /\ is_cached (cache_string CacheSamples.cache_bang (list_byte_of_string "!")) 33 = true
  /\ is_cached WrapSamples.cache_plain 65 = true.
Proof.
  destruct cached_after_caching as (_ & Hrange & Hstring & Hnew).
  split; [|split].
  - apply (Hrange CacheSamples.cache_bang 32 33 33); lia.
  - apply (Hstring CacheSamples.cache_bang (list_byte_of_string "!") 33).
    vm_compute. apply elem_of_cons. left. reflexivity.
  - apply (Hnew WrapSamples.plain_rasterizer (mk_config 64 1 true) 65);
      [reflexivity | lia].
Defined.


(** *** Glyphs of a page do not overlap *)

Lemma shelved_place c w h :
  0 <= padding (m_config c) -> shelved c -> shelved (place c w h).
Proof.
  intros Hpad (Hrow & Hlen & Hent & Hsep). unfold place. cbv zeta.
  set (c1 := if atlas_size (m_config c) <? m_pack_x c + (w + padding (m_config c))
             then next_row c else c).
  assert (H1 : shelved c1 /\ m_config c1 = m_config c).
  { unfold c1. destruct (atlas_size (m_config c) <? _); [|unfold shelved; auto].
    split; [|reflexivity]. unfold shelved.
    cbn [next_row m_config m_pack_y m_pack_x m_atlases m_cache m_row_height].
    split; [lia|]. split; [exact Hlen|]. split; [|exact Hsep].
    intros cp g Hg Hpx. destruct (Hent cp g Hg Hpx) as [Hidx Hlast].
    split; [exact Hidx|]. intros Hon. left.
    destruct (Hlast Hon) as [HA | (HB1 & HB2 & HB3)]; lia. }
  destruct H1 as [(Hrow1 & Hlen1 & Hent1 & Hsep1) Hc1]. clearbody c1.
  destruct (atlas_size (m_config c1) <? _); [|unfold shelved; auto].
  unfold shelved.
  cbn [add_atlas m_config m_pack_y m_pack_x m_atlases m_cache m_row_height].
  split; [lia|]. rewrite length_app. cbn [length].
  split; [lia|]. split; [|exact Hsep1].
  intros cp g Hg Hpx. destruct (Hent1 cp g Hg Hpx) as [Hidx _].
  split; lia.
Qed.

Lemma shelved_written c cp :
  0 <= padding (m_config c) -> shelved c ->
  m_cache c !! cp = None ->
  0 < glyph_w c cp -> 0 < glyph_h c cp ->
  shelved (snd (emplace (written c cp) cp (placed_glyph c cp))).
Proof.
  intros Hpad (Hrow & Hlen & Hent & Hsep) Hnone Hw Hh.
  rewrite emplace_absent by exact Hnone.
  unfold shelved, written, placed_glyph.
  cbn [snd m_config m_pack_y m_pack_x m_atlases m_cache m_row_height m_rasterizer].
  rewrite length_alter.
  assert (Hnew : forall cp' g',
            <[cp := placed_glyph c cp]> (m_cache c) !! cp' = Some g' ->
            (cp' = cp /\ g' = placed_glyph c cp)
            \/ (cp' <> cp /\ m_cache c !! cp' = Some g')).
  { intros cp' g' H. destruct (decide (cp' = cp)) as [-> | Hne].
    - rewrite lookup_insert_eq in H. left. split; congruence.
    - rewrite lookup_insert_ne in H by congruence. right. auto. }
  fold (placed_glyph c cp).
  split; [lia|]. split; [exact Hlen|]. split.
  - intros cp' g' Hg' Hpx.
    destruct (Hnew cp' g' Hg') as [[-> ->] | [Hne Hold]].
    + unfold placed_glyph. cbn [atlas_index rect rect_x rect_y rect_w rect_h].
      split; [lia|]. intros _. right. lia.
    + destruct (Hent cp' g' Hold Hpx) as [Hidx Hlast]. split; [exact Hidx|].
      intros Hon. destruct (Hlast Hon) as [HA | (HB1 & HB2 & HB3)]; [left; lia|].
      right. lia.
  - intros cp1 g1 cp2 g2 Hne H1 H2 Hp1 Hp2 Hsame.
    destruct (Hnew cp1 g1 H1) as [[-> ->] | [Hne1 Hold1]];
      destruct (Hnew cp2 g2 H2) as [[-> ->] | [Hne2 Hold2]].
    + congruence.
    + destruct (Hent cp2 g2 Hold2 Hp2) as [_ Hlast].
      unfold placed_glyph in Hsame |- *.
      cbn [atlas_index rect rect_x rect_y rect_w rect_h] in Hsame.
      unfold separated. cbn [atlas_index rect rect_x rect_y rect_w rect_h].
      destruct (Hlast (eq_sym Hsame)) as [HA | (HB1 & HB2 & HB3)]; lia.
    + destruct (Hent cp1 g1 Hold1 Hp1) as [_ Hlast].
      unfold placed_glyph in Hsame |- *.
      cbn [atlas_index rect rect_x rect_y rect_w rect_h] in Hsame.
      unfold separated. cbn [atlas_index rect rect_x rect_y rect_w rect_h].
      destruct (Hlast Hsame) as [HA | (HB1 & HB2 & HB3)]; lia.
    + exact (Hsep cp1 g1 cp2 g2 Hne Hold1 Hold2 Hp1 Hp2 Hsame).
Qed.

Lemma shelved_empty_glyph c cp :
  shelved c -> m_cache c !! cp = None ->
  shelved (snd (emplace c cp (empty_glyph c cp))).
Proof.
  intros (Hrow & Hlen & Hent & Hsep) Hnone.
  rewrite emplace_absent by exact Hnone. unfold shelved.
  cbn [snd m_config m_pack_y m_pack_x m_atlases m_cache m_row_height].
  assert (Hnew : forall cp' g',
            <[cp := empty_glyph c cp]> (m_cache c) !! cp' = Some g' ->
            has_pixels g' -> cp' <> cp /\ m_cache c !! cp' = Some g').
  { intros cp' g' H Hpx. destruct (decide (cp' = cp)) as [-> | Hne].
    - rewrite lookup_insert_eq in H. injection H as <-.
      destruct Hpx as [Hpx _]. cbn in Hpx. lia.
    - rewrite lookup_insert_ne in H by congruence. auto. }
  split; [exact Hrow|]. split; [exact Hlen|]. split.
  - intros cp' g' Hg' Hpx. destruct (Hnew cp' g' Hg' Hpx) as [_ Hold]. eauto.
  - intros cp1 g1 cp2 g2 Hne H1 H2 Hp1 Hp2 Hsame.
    destruct (Hnew cp1 g1 H1 Hp1) as [_ Hold1].
    destruct (Hnew cp2 g2 H2 Hp2) as [_ Hold2].
    exact (Hsep cp1 g1 cp2 g2 Hne Hold1 Hold2 Hp1 Hp2 Hsame).
Qed.

Lemma cache_glyph_config c cp :
  m_config (snd (cache_glyph c cp)) = m_config c
  /\ m_rasterizer (snd (cache_glyph c cp)) = m_rasterizer c.
Proof. destruct (cache_glyph_extends c cp) as (_ & _ & _ & Hc & Hr). auto. Qed.

Lemma reachable_shelved c :
  reachable c -> 0 <= padding (m_config c) -> shelved c.
Proof.
  intros Hreach. pattern c. revert c Hreach. apply reachable_invariant.
  - intros r config Hpad. unfold shelved. cbn.
    split; [lia|]. split; [lia|]. split.
    + intros cp g Hg. rewrite lookup_empty in Hg. discriminate.
    + intros cp1 g1 cp2 g2 _ Hg. rewrite lookup_empty in Hg. discriminate.
  - intros c cp IH Hnone Hpad.
    destruct (cache_glyph_config c cp) as [Hc _]. rewrite Hc in Hpad.
    specialize (IH Hpad). rewrite cache_glyph_steps.
    destruct (Z.leb_spec (glyph_w c cp) 0) as [Hw | Hw]; cbn [orb];
      [apply shelved_empty_glyph; assumption|].
    destruct (Z.leb_spec (glyph_h c cp) 0) as [Hh | Hh];
      [apply shelved_empty_glyph; assumption|].
    cbv zeta.
    destruct (place_fields c (glyph_w c cp) (glyph_h c cp)) as (Pc & _ & Pm & _).
    destruct (glyph_size_place c (glyph_w c cp) (glyph_h c cp) cp) as [Gw Gh].
    apply shelved_written.
    + rewrite Pc. exact Hpad.
    + apply shelved_place; assumption.
    + rewrite Pm. exact Hnone.
    + rewrite Gw. exact Hw.
    + rewrite Gh. exact Hh.
Qed.

(** Two glyphs with pixels that the cache placed on the same page do not
    overlap: their rectangles lie side by side or one above the other, at
    least [padding] pixels apart. This holds for every configuration with a
    padding that is not negative, also for glyphs cut to the page size. *)
Theorem cached_glyphs_do_not_overlap (c : glyph_cache) (cp1 cp2 : Z)
    (g1 g2 : cached_glyph) :
  reachable c ->
  0 <= padding (m_config c) ->
  cp1 <> cp2 ->
  m_cache c !! cp1 = Some g1 -> m_cache c !! cp2 = Some g2 ->
  has_pixels g1 -> has_pixels g2 ->
  atlas_index g1 = atlas_index g2 ->
  separated (padding (m_config c)) g1 g2.
Proof.
  intros Hreach Hpad Hne H1 H2 Hp1 Hp2 Hsame.
  destruct (reachable_shelved c Hreach Hpad) as (_ & _ & _ & Hsep).
  exact (Hsep cp1 g1 cp2 g2 Hne H1 H2 Hp1 Hp2 Hsame).
Qed.

Lemma cached_glyphs_do_not_overlap_witness :
  exists g1 g2,
    m_cache PackingSamples.cache_AB !! 65 = Some g1
    /\ m_cache PackingSamples.cache_AB !! 66 = Some g2
    /\ separated 1 g1 g2.
Proof.
  assert (H1 : is_Some (m_cache PackingSamples.cache_AB !! 65)) by (vm_compute; eauto).
  assert (H2 : is_Some (m_cache PackingSamples.cache_AB !! 66)) by (vm_compute; eauto).
  destruct H1 as [g1 H1], H2 as [g2 H2]. exists g1, g2.
  split; [exact H1|]. split; [exact H2|].
  assert (E1 : rect <$> m_cache PackingSamples.cache_AB !! 65 = Some (mk_rect 1 1 7 6))
    by (vm_compute; reflexivity).
  assert (E2 : rect <$> m_cache PackingSamples.cache_AB !! 66 = Some (mk_rect 9 1 7 6))
    by (vm_compute; reflexivity).
  assert (I1 : atlas_index <$> m_cache PackingSamples.cache_AB !! 65 = Some 0)
    by (vm_compute; reflexivity).
  assert (I2 : atlas_index <$> m_cache PackingSamples.cache_AB !! 66 = Some 0)
    by (vm_compute; reflexivity).
  rewrite H1 in E1, I1. rewrite H2 in E2, I2.
  injection E1 as E1. injection E2 as E2. injection I1 as I1. injection I2 as I2.
  apply (cached_glyphs_do_not_overlap PackingSamples.cache_AB 65 66 g1 g2).
  - apply reachable_operation, reachable_new.
  - vm_compute. discriminate.
  - discriminate.
  - exact H1.
  - exact H2.
  - unfold has_pixels. rewrite E1. cbn. lia.
  - unfold has_pixels. rewrite E2. cbn. lia.
  - congruence.
Defined.

(** *** The record of a glyph *)

Lemma describes_ext c c' cp g :
  m_config c' = m_config c -> m_rasterizer c' = m_rasterizer c ->
  describes c cp g -> describes c' cp g.
Proof.
  intros Hc Hr. unfold describes, glyph_w, glyph_h. rewrite Hc, Hr. auto.
Qed.

Lemma reachable_describes c :
  reachable c -> forall cp g, m_cache c !! cp = Some g -> describes c cp g.
Proof.
  intros Hreach. pattern c. revert c Hreach. apply reachable_invariant.
  - intros r config cp g Hg. cbn in Hg. rewrite lookup_empty in Hg. discriminate.
  - intros c cp IH Hnone cp' g' Hg'.
    destruct (cache_glyph_config c cp) as [Hc Hr].
    apply (describes_ext c); [exact Hc | exact Hr|].
    revert Hg'. rewrite cache_glyph_steps.
    destruct ((glyph_w c cp <=? 0) || (glyph_h c cp <=? 0)) eqn:Hzero.
    + rewrite emplace_absent by exact Hnone. cbn [snd m_cache].
      destruct (decide (cp' = cp)) as [-> | Hne].
      * rewrite lookup_insert_eq. intros [= <-].
        unfold describes, empty_glyph. cbv zeta. rewrite Hzero.
        cbn. auto.
      * rewrite lookup_insert_ne by congruence. apply IH.
    + cbv zeta.
      destruct (place_fields c (glyph_w c cp) (glyph_h c cp)) as (Pc & Pr & Pm & _).
      destruct (glyph_size_place c (glyph_w c cp) (glyph_h c cp) cp) as [Gw Gh].
      rewrite emplace_absent by (cbn [written m_cache]; rewrite Pm; exact Hnone).
      cbn [snd m_cache written]. rewrite Pm.
      destruct (decide (cp' = cp)) as [-> | Hne].
      * rewrite lookup_insert_eq. intros [= <-].
        unfold describes, placed_glyph. cbv zeta. rewrite Hzero, Pr, Gw, Gh.
        cbn. auto.
      * rewrite lookup_insert_ne by congruence. apply IH.
Qed.

(** The record the cache holds for a codepoint carries the bearings and
    the advance the rasterizer measures for it; its rectangle has the
    ceiling of the measured width and height, cut to the page size, and is
    the empty rectangle at the origin of page 0 when either is zero. *)
Theorem cached_glyph_describes_measurement (c : glyph_cache) (cp : Z)
    (g : cached_glyph) :
  reachable c -> m_cache c !! cp = Some g -> describes c cp g.
Proof. intros Hreach Hg. eapply reachable_describes; eauto. Qed.

Lemma cached_glyph_describes_measurement_witness :
  exists g,
    m_cache PackingSamples.cache_AB !! 65 = Some g
    /\ describes PackingSamples.cache_AB 65 g.
Proof.
  assert (H1 : is_Some (m_cache PackingSamples.cache_AB !! 65)) by (vm_compute; eauto).
  destruct H1 as [g H1]. exists g. split; [exact H1|].
  apply (cached_glyph_describes_measurement PackingSamples.cache_AB 65 g).
  - apply reachable_operation, reachable_new.
  - exact H1.
Defined.

End GlyphPackingFacts.

Module GlyphImagesFacts.
Import AtlasSurface TextRasterizer GlyphCache GlyphPacking MemoryAtlas GlyphImages.
Import GlyphCacheFacts GlyphPackingFacts MemoryAtlasFacts.

Lemma cache_glyph_shelved c cp :
  0 <= padding (m_config c) -> shelved c -> m_cache c !! cp = None ->
  shelved (snd (cache_glyph c cp)).
Proof.
  intros Hpad Hsh Hnone. rewrite cache_glyph_steps.
  destruct (Z.leb_spec (glyph_w c cp) 0) as [Hw | Hw]; cbn [orb];
    [apply shelved_empty_glyph; assumption|].
  destruct (Z.leb_spec (glyph_h c cp) 0) as [Hh | Hh];
    [apply shelved_empty_glyph; assumption|].
  cbv zeta.
  destruct (place_fields c (glyph_w c cp) (glyph_h c cp)) as (Pc & _ & Pm & _).
  destruct (glyph_size_place c (glyph_w c cp) (glyph_h c cp) cp) as [Gw Gh].
  apply shelved_written.
  - rewrite Pc. exact Hpad.
  - apply shelved_place; assumption.
  - rewrite Pm. exact Hnone.
  - rewrite Gw. exact Hw.
  - rewrite Gh. exact Hh.
Qed.

Lemma glyph_image_ext c c' cp :
  m_config c' = m_config c -> m_rasterizer c' = m_rasterizer c ->
  glyph_image c' cp = glyph_image c cp.
Proof.
  intros Hc Hr. unfold glyph_image, glyph_w, glyph_h. rewrite Hc, Hr. reflexivity.
Qed.

Lemma holds_image_ext c c' cp g :
  m_config c' = m_config c -> m_rasterizer c' = m_rasterizer c ->
  (forall page, m_atlases c !! Z.to_nat (atlas_index g) = Some page ->
                m_atlases c' !! Z.to_nat (atlas_index g) = Some page) ->
  holds_image c cp g -> holds_image c' cp g.
Proof.
  intros Hc Hr Hpages (Hx & Hy & Hw & Hh & page & Hpage & Hpix).
  unfold holds_image. rewrite Hc, (glyph_image_ext c c') by assumption.
  repeat split; try assumption. exists page. split; [apply Hpages, Hpage | exact Hpix].
Qed.

Lemma page_sized_ext c c' page :
  m_config c' = m_config c -> page_sized c page -> page_sized c' page.
Proof. intros Hc. unfold page_sized. rewrite Hc. auto. Qed.

Lemma imaged_empty_glyph c cp :
  imaged c -> m_cache c !! cp = None ->
  imaged (snd (emplace c cp (empty_glyph c cp))).
Proof.
  intros (Hx & Hy & Hpages & Hent) Hnone.
  rewrite emplace_absent by exact Hnone. unfold imaged.
  cbn [snd m_pack_x m_pack_y m_atlases m_cache].
  split; [exact Hx|]. split; [exact Hy|]. split; [exact Hpages|].
  intros cp' g' Hg' Hpx. destruct (decide (cp' = cp)) as [-> | Hne].
  - rewrite lookup_insert_eq in Hg'. injection Hg' as <-.
    destruct Hpx as [Hpx _]. cbn in Hpx. lia.
  - rewrite lookup_insert_ne in Hg' by congruence.
    apply (holds_image_ext c); [reflexivity | reflexivity | auto | apply Hent; assumption].
Qed.

Lemma imaged_place c w h :
  0 <= padding (m_config c) -> 0 <= atlas_size (m_config c) ->
  shelved c -> imaged c -> imaged (place c w h).
Proof.
  intros Hpad Hsize (Hrow & _) (Hx & Hy & Hpages & Hent). unfold place. cbv zeta.
  set (c1 := if atlas_size (m_config c) <? m_pack_x c + (w + padding (m_config c))
             then next_row c else c).
  assert (H1 : imaged c1 /\ m_config c1 = m_config c).
  { unfold c1. destruct (atlas_size (m_config c) <? _); [|unfold imaged; auto].
    split; [|reflexivity]. unfold imaged.
    cbn [next_row m_config m_pack_y m_pack_x m_atlases m_cache m_row_height].
    split; [lia|]. split; [lia|]. split; [exact Hpages|].
    intros cp g Hg Hpx.
    apply (holds_image_ext c); [reflexivity | reflexivity | auto | apply Hent; assumption]. }
  destruct H1 as [(Hx1 & Hy1 & Hpages1 & Hent1) Hc1]. clearbody c1.
  destruct (atlas_size (m_config c1) <? _); [|unfold imaged; auto].
  unfold imaged.
  cbn [add_atlas m_config m_pack_y m_pack_x m_atlases m_cache m_row_height].
  rewrite Hc1. split; [lia|]. split; [lia|]. split.
  - apply Forall_app. split; [exact Hpages1|]. constructor; [|constructor].
    unfold page_sized. cbn [m_config add_atlas]. rewrite ?Hc1.
    split; [reflexivity|]. split; [reflexivity|].
    apply memory_atlas_new_sized; assumption.
  - intros cp g Hg Hpx.
    apply (holds_image_ext c1); [reflexivity | reflexivity | | apply Hent1; assumption].
    intros page Hpage. apply lookup_app_l_Some. exact Hpage.
Qed.

Lemma place_fits c w h :
  0 <= padding (m_config c) ->
  w + padding (m_config c) <= atlas_size (m_config c) ->
  h + padding (m_config c) <= atlas_size (m_config c) ->
  m_pack_x (place c w h) + w <= atlas_size (m_config c)
  /\ m_pack_y (place c w h) + h <= atlas_size (m_config c).
Proof.
  intros Hpad Hw Hh. unfold place. cbv zeta.
  destruct (Z.ltb_spec (atlas_size (m_config c))
                       (m_pack_x c + (w + padding (m_config c))));
    cbn [next_row m_config m_pack_y m_pack_x m_atlases m_cache m_row_height];
    match goal with
    | |- context [atlas_size (m_config c) <? ?e] =>
      destruct (Z.ltb_spec (atlas_size (m_config c)) e)
    end;
    cbn [add_atlas next_row m_config m_pack_y m_pack_x m_atlases m_cache
         m_row_height]; lia.
Qed.

Lemma glyph_image_length c cp :
  keeps_size (m_rasterizer c) ->
  length (glyph_image c cp)
  = (Z.to_nat (glyph_w c cp) * Z.to_nat (glyph_h c cp))%nat.
Proof.
  intros Hkeep. unfold glyph_image. cbv zeta. rewrite Hkeep.
  cbn [RasterTarget.grayscale_target_new RasterTarget.m_buffer].
  apply length_replicate.
Qed.

Lemma imaged_written c cp :
  0 <= padding (m_config c) -> keeps_size (m_rasterizer c) ->
  shelved c -> imaged c ->
  m_cache c !! cp = None ->
  0 < glyph_w c cp -> 0 < glyph_h c cp ->
  m_pack_x c + glyph_w c cp <= atlas_size (m_config c) ->
  m_pack_y c + glyph_h c cp <= atlas_size (m_config c) ->
  imaged (snd (emplace (written c cp) cp (placed_glyph c cp))).
Proof.
  intros Hpad Hkeep (Hrow & Hlen & Hshelf & _) (Hx & Hy & Hpages & Hent)
    Hnone Hw Hh Hfx Hfy.
  rewrite emplace_absent by exact Hnone.
  set (w := glyph_w c cp) in *. set (h := glyph_h c cp) in *.
  set (last := Z.to_nat (Z.of_nat (length (m_atlases c)) - 1)).
  assert (Hlast : (last < length (m_atlases c))%nat) by (unfold last; lia).
  destruct (lookup_lt_is_Some_2 _ _ Hlast) as [page0 Hpage0].
  pose proof (proj1 (Forall_lookup _ _) Hpages _ _ Hpage0) as (Pw & Ph & Ps).
  assert (Hsrc : source_covers (glyph_image c cp) w h w).
  { unfold source_covers. rewrite glyph_image_length by exact Hkeep.
    fold w h. split; [lia | nia]. }
  set (page1 := write_alpha page0 (m_pack_x c) (m_pack_y c) w h (glyph_image c cp) w).
  assert (Hwritten : forall px py,
            atlas_sized page1
            /\ pixel page1 px py
               = if in_atlas page0 px py
                    && in_rect (m_pack_x c) (m_pack_y c) w h px py
                 then nth (Z.to_nat ((py - m_pack_y c) * w + (px - m_pack_x c)))
                          (glyph_image c cp) 0
                 else pixel page0 px py).
  { intros px py. apply write_alpha_pixel; assumption. }
  assert (Hpage1 : m_atlases (written c cp) !! last = Some page1).
  { unfold written. cbn [m_atlases]. fold w h last.
    rewrite list_lookup_alter_eq, Hpage0. reflexivity. }
  unfold imaged.
  cbn [snd m_pack_x m_pack_y m_atlases m_cache m_config written]. fold w h last.
  split; [lia|]. split; [lia|]. split.
  - apply Forall_alter; [exact Hpages|].
    intros page Hpage Hsized. rewrite Hpage0 in Hpage. injection Hpage as <-.
    unfold page_sized. cbn [m_config].
    destruct (write_alpha_dims page0 (m_pack_x c) (m_pack_y c) w h
                               (glyph_image c cp) w) as [-> ->].
    split; [assumption|]. split; [assumption|]. apply (Hwritten 0 0).
  - intros cp' g' Hg' Hpx. destruct (decide (cp' = cp)) as [-> | Hne].
    + rewrite lookup_insert_eq in Hg'. injection Hg' as <-.
      unfold holds_image, placed_glyph.
      cbn [rect atlas_index rect_x rect_y rect_w rect_h m_config m_atlases].
      fold w h last.
      repeat split; try assumption.
      exists page1. split.
      * rewrite list_lookup_alter_eq, Hpage0. reflexivity.
      * intros gx gy Hgx Hgy. destruct (Hwritten (m_pack_x c + gx) (m_pack_y c + gy))
          as [_ ->].
        replace (in_atlas page0 (m_pack_x c + gx) (m_pack_y c + gy)) with true
          by (symmetry; apply in_atlas_spec; lia).
        replace (in_rect (m_pack_x c) (m_pack_y c) w h (m_pack_x c + gx)
                         (m_pack_y c + gy)) with true
          by (symmetry; apply in_rect_spec; lia).
        cbn [andb]. f_equal. lia.
    + rewrite lookup_insert_ne in Hg' by congruence.
      destruct (Hent cp' g' Hg' Hpx) as (Gx & Gy & Gw & Gh & page & Hpage & Hpix).
      destruct (Hshelf cp' g' Hg' Hpx) as [Hidx Hon].
      unfold holds_image. cbn [m_config m_atlases]. fold w h last.
      repeat split; try assumption.
      destruct (decide (Z.to_nat (atlas_index g') = last)) as [Elast | Nlast].
      * exists page1. rewrite Elast. split.
        -- rewrite list_lookup_alter_eq, Hpage0. reflexivity.
        -- rewrite Elast, Hpage0 in Hpage. injection Hpage as <-.
           intros gx gy Hgx Hgy.
           destruct (Hwritten (rect_x (rect g') + gx) (rect_y (rect g') + gy))
             as [_ ->].
           replace (in_rect (m_pack_x c) (m_pack_y c) w h
                            (rect_x (rect g') + gx) (rect_y (rect g') + gy))
             with false.
           ++ rewrite andb_false_r. apply Hpix; assumption.
           ++ symmetry. apply not_true_is_false. intros Hin.
              apply in_rect_spec in Hin.
              assert (Heq : atlas_index g' = Z.of_nat (length (m_atlases c)) - 1)
                by (unfold last in Elast; lia).
              destruct (Hon Heq) as [HA | (HB1 & HB2 & HB3)]; lia.
      * exists page. split; [|exact Hpix].
        rewrite list_lookup_alter_ne by (intros E; apply Nlast; symmetry; exact E).
        exact Hpage.
Qed.

Lemma cache_glyph_imaged c cp :
  glyphs_fit_pages c -> 0 <= atlas_size (m_config c) ->
  keeps_size (m_rasterizer c) ->
  shelved c -> imaged c -> m_cache c !! cp = None ->
  imaged (snd (cache_glyph c cp)).
Proof.
  intros (Hpad & Hfit) Hsize Hkeep Hsh Him Hnone. rewrite cache_glyph_steps.
  destruct (Z.leb_spec (glyph_w c cp) 0) as [Hw | Hw]; cbn [orb];
    [apply imaged_empty_glyph; assumption|].
  destruct (Z.leb_spec (glyph_h c cp) 0) as [Hh | Hh];
    [apply imaged_empty_glyph; assumption|].
  cbv zeta.
  destruct (place_fields c (glyph_w c cp) (glyph_h c cp)) as (Pc & Pr & Pm & _).
  destruct (glyph_size_place c (glyph_w c cp) (glyph_h c cp) cp) as [Gw Gh].
  destruct (Hfit cp) as [Fw Fh]. fold (glyph_w c cp) in Fw. fold (glyph_h c cp) in Fh.
  destruct (place_fits c (glyph_w c cp) (glyph_h c cp) Hpad Fw Fh) as [Px Py].
  apply imaged_written.
  - rewrite Pc. exact Hpad.
  - rewrite Pr. exact Hkeep.
  - apply shelved_place; assumption.
  - apply imaged_place; assumption.
  - rewrite Pm. exact Hnone.
  - rewrite Gw. exact Hw.
  - rewrite Gh. exact Hh.
  - rewrite Gw, Pc. exact Px.
  - rewrite Gh, Pc. exact Py.
Qed.

Lemma reachable_imaged c :
  reachable c ->
  glyphs_fit_pages c -> 0 <= atlas_size (m_config c) ->
  keeps_size (m_rasterizer c) ->
  shelved c /\ imaged c.
Proof.
  intros Hreach. pattern c. revert c Hreach. apply reachable_invariant.
  - intros r config (Hpad & _) Hsize _. cbn [m_config] in Hpad, Hsize. split.
    + unfold shelved. cbn. split; [lia|]. split; [lia|]. split.
      * intros cp g Hg. rewrite lookup_empty in Hg. discriminate.
      * intros cp1 g1 cp2 g2 _ Hg. rewrite lookup_empty in Hg. discriminate.
    + unfold imaged. cbn [add_atlas m_pack_x m_pack_y m_config m_atlases m_cache].
      split; [exact Hpad|]. split; [exact Hpad|]. split.
      * constructor; [|constructor]. unfold page_sized. cbn [m_config].
        split; [reflexivity|]. split; [reflexivity|].
    apply memory_atlas_new_sized; assumption.
      * intros cp g Hg. rewrite lookup_empty in Hg. discriminate.
  - intros c cp IH Hnone Hfit Hsize Hkeep.
    destruct (cache_glyph_config c cp) as [Hc Hr].
    rewrite Hc in Hsize. rewrite Hr in Hkeep.
    assert (Hfit0 : glyphs_fit_pages c)
      by (apply (glyphs_fit_pages_ext (snd (cache_glyph c cp)) c); auto).
    destruct (IH Hfit0 Hsize Hkeep) as [Hsh Him]. split.
    + apply cache_glyph_shelved; [apply Hfit0 | assumption..].
    + apply cache_glyph_imaged; assumption.
Qed.

Lemma bitmap_blit_keeps_size font ch t x y t' :
  blit_bitmap_glyph font ch t x y = Ok t' ->
  length (RasterTarget.m_buffer t') = length (RasterTarget.m_buffer t).
Proof.
  unfold blit_bitmap_glyph.
  destruct (FontSource.get_spacing font ch) as [spacing|];
    cbn [FontSource.bind]; [|discriminate].
  destruct (FontSource.get_glyph font ch) as [glyph|];
    cbn [FontSource.bind]; [|discriminate].
  cbv zeta. intros E. injection E as <-.
  generalize (seq 0 (Z.to_nat (FontSource.view_height glyph))) as rows.
  intros rows. revert t. induction rows as [|gy rows IH]; intros t; [reflexivity|].
  cbn [foldl]. rewrite IH. clear IH.
  generalize (seq 0 (Z.to_nat (FontSource.view_width glyph))) as cols.
  intros cols. revert t. induction cols as [|gx cols IH]; intros t; [reflexivity|].
  cbn [foldl]. rewrite IH.
  destruct (FontSource.view_pixel glyph (Z.of_nat gx) (Z.of_nat gy)); [|reflexivity].
  apply RasterTargetFacts.put_pixel_dims.
Qed.

Lemma rasterize_bitmap_glyph_keeps_size font cp t x y t' :
  rasterize_bitmap_glyph font cp t x y = Ok t' ->
  length (RasterTarget.m_buffer t') = length (RasterTarget.m_buffer t).
Proof.
  unfold rasterize_bitmap_glyph. cbv zeta.
  repeat case_match; intros E;
    try (injection E as <-; reflexivity);
    exact (bitmap_blit_keeps_size _ _ _ _ _ _ E).
Qed.

Lemma bitmap_rasterizer_keeps_size font size :
  keeps_size (bitmap_rasterizer font size).
Proof.
  intros cp t x y. cbn [bitmap_rasterizer rasterize_glyph].
  destruct (rasterize_bitmap_glyph font cp t x y) as [t'|e] eqn:E; [|reflexivity].
  exact (rasterize_bitmap_glyph_keeps_size font cp t x y t' E).
Qed.

(** The atlas holds the image of every cached glyph. In a cache built by
    the constructor and the cache operations, whose glyphs leave room for
    the padding on a page, every pixel of the rectangle of a cached glyph
    is, on the page the record names, the byte rasterized for the codepoint
    at that place of the glyph: a glyph is written whole and no later
    glyph writes over it. *)
Theorem atlas_holds_the_glyph_image (c : glyph_cache) (cp : Z)
    (g : cached_glyph) (gx gy : Z) :
  reachable c ->
  glyphs_fit_pages c -> 0 <= atlas_size (m_config c) ->
  keeps_size (m_rasterizer c) ->
  m_cache c !! cp = Some g ->
  0 <= gx < rect_w (rect g) -> 0 <= gy < rect_h (rect g) ->
  exists page,
    m_atlases c !! Z.to_nat (atlas_index g) = Some page
    /\ pixel page (rect_x (rect g) + gx) (rect_y (rect g) + gy)
       = nth (Z.to_nat (gy * rect_w (rect g) + gx)) (glyph_image c cp) 0.
Proof.
  intros Hreach Hfit Hsize Hkeep Hg Hgx Hgy.
  destruct (reachable_imaged c Hreach Hfit Hsize Hkeep) as [_ (_ & _ & _ & Hent)].
  assert (Hpx : has_pixels g) by (unfold has_pixels; lia).
  destruct (Hent cp g Hg Hpx) as (_ & _ & _ & _ & page & Hpage & Hpix).
  exists page. split; [exact Hpage | apply Hpix; assumption].
Qed.

(** The sample font has glyphs of 7 by 6 pixels, which fit a page of 32. *)
Lemma font_AB_glyph_sizes cp size :
  let m := measure_glyph (bitmap_rasterizer Samples.font_AB size) cp in
  (width m = 0%Q /\ height m = 0%Q) \/ (width m = 7%Q /\ height m = 6%Q).
Proof.
  cbv zeta. cbn [bitmap_rasterizer measure_glyph].
  unfold FontSource.get_glyph_metrics. cbv zeta.
  destruct (255 <? cp); [left; split; reflexivity|].
  assert (Hch : forall ch,
            FontSource.bf_out_of_font Samples.font_AB ch = false ->
            FontSource.bitmap_glyph_metrics Samples.font_AB ch
            = Ok (mk_glyph_metrics (0 + 7) 0 5 7 6)).
  { intros ch Hout. unfold FontSource.bf_out_of_font in Hout.
    apply orb_false_elim in Hout as [H1 H2].
    apply Z.ltb_ge in H1, H2. cbn in H1, H2.
    assert (ch = 65 \/ ch = 66) as [-> | ->] by lia; reflexivity. }
  destruct (FontSource.bf_out_of_font Samples.font_AB (FontSource.to_uint8 cp)) eqn:E.
  - rewrite Hch by reflexivity. right. split; reflexivity.
  - rewrite Hch by exact E. right. split; reflexivity.
Qed.

Lemma cache_AB_fields :
  m_config PackingSamples.cache_AB = mk_config 32 1 false
  /\ m_rasterizer PackingSamples.cache_AB = bitmap_rasterizer Samples.font_AB 6.
Proof.
  destruct (apply_operation_extends
              (glyph_cache_new (bitmap_rasterizer Samples.font_AB 6)
                               (mk_config 32 1 false))
              (op_cache_string (list_byte_of_string "AB"))) as (_ & _ & _ & Hc & Hr).
  split; [exact Hc | exact Hr].
Qed.

Lemma cache_AB_fits : glyphs_fit_pages PackingSamples.cache_AB.
Proof.
  destruct cache_AB_fields as [Hc Hr].
  unfold glyphs_fit_pages. rewrite Hc, Hr. cbn [padding atlas_size].
  split; [lia|]. intros cp.
  destruct (font_AB_glyph_sizes cp 6) as [[-> ->] | [-> ->]]; split; vm_compute;
    discriminate.
Qed.

Lemma atlas_holds_the_glyph_image_witness :
  exists g page,
    m_cache PackingSamples.cache_AB !! 65 = Some g
    /\ m_atlases PackingSamples.cache_AB !! Z.to_nat (atlas_index g) = Some page
    /\ pixel page (rect_x (rect g) + 2) (rect_y (rect g) + 3)
       = nth (Z.to_nat (3 * rect_w (rect g) + 2))
             (glyph_image PackingSamples.cache_AB 65) 0.
Proof.
  assert (H1 : is_Some (m_cache PackingSamples.cache_AB !! 65)) by (vm_compute; eauto).
  destruct H1 as [g H1].
  assert (E1 : rect <$> m_cache PackingSamples.cache_AB !! 65 = Some (mk_rect 1 1 7 6))
    by (vm_compute; reflexivity).
  rewrite H1 in E1. injection E1 as E1.
  destruct (atlas_holds_the_glyph_image PackingSamples.cache_AB 65 g 2 3)
    as (page & Hpage & Hpix).
  - apply reachable_operation, reachable_new.
  - apply cache_AB_fits.
  - rewrite (proj1 cache_AB_fields). cbn. lia.
  - rewrite (proj2 cache_AB_fields). apply bitmap_rasterizer_keeps_size.
  - exact H1.
  - rewrite E1. cbn. lia.
  - rewrite E1. cbn. lia.
  - exists g, page. auto.
Defined.

End GlyphImagesFacts.

Module BitmapRasterFacts.
Import FontSource RasterTarget TextRasterizer BitmapRaster.
Import RasterTargetFacts.

Lemma paint_app t ws1 ws2 : paint t (ws1 ++ ws2) = paint (paint t ws1) ws2.
Proof. unfold paint. apply foldl_app. Qed.

Lemma paint_covers ws t : buffer_covers t -> buffer_covers (paint t ws).
Proof.
  revert t. induction ws as [|w ws IH]; intros t Ht; [exact Ht|].
  cbn [paint foldl]. apply IH, put_pixel_covers, Ht.
Qed.

Lemma paint_dims ws t :
  m_width (paint t ws) = m_width t /\ m_height (paint t ws) = m_height t
  /\ m_stride (paint t ws) = m_stride t
  /\ length (m_buffer (paint t ws)) = length (m_buffer t).
Proof.
  revert t. induction ws as [|w ws IH]; intros t; [auto|].
  cbn [paint foldl]. destruct (IH (put_pixel t (fst w) (snd w) 255)) as (A & B & C & D).
  destruct (put_pixel_dims t (fst w) (snd w) 255) as (A' & B' & C' & D').
  unfold paint in *. repeat split; congruence.
Qed.

(** One [put_pixel], read at a pixel of the target. *)
Lemma put_pixel_nth t qx qy a px py :
  buffer_covers t ->
  0 <= px < m_width t -> 0 <= py < m_height t ->
  nth (Z.to_nat (py * m_stride t + px)) (m_buffer (put_pixel t qx qy a)) 0
  = if (qx =? px) && (qy =? py) then a
    else nth (Z.to_nat (py * m_stride t + px)) (m_buffer t) 0.
Proof.
  intros (Hstride & Hlen) Hpx Hpy. unfold put_pixel.
  destruct (Z.leb_spec 0 qx), (Z.ltb_spec qx (m_width t)),
    (Z.leb_spec 0 qy), (Z.ltb_spec qy (m_height t)); cbn [andb with_buffer m_buffer];
    try (destruct (Z.eqb_spec qx px), (Z.eqb_spec qy py); cbn [andb];
         try reflexivity; lia).
  rewrite nth_lookup.
  destruct (Z.eqb_spec qx px) as [-> | Hx]; cbn [andb].
  - destruct (Z.eqb_spec qy py) as [-> | Hy].
    + rewrite list_lookup_insert_eq by nia. reflexivity.
    + rewrite list_lookup_insert_ne by nia. rewrite <- nth_lookup. reflexivity.
  - rewrite list_lookup_insert_ne; [rewrite <- nth_lookup; reflexivity|].
    intros E.
    assert (0 <= qy * m_stride t /\ 0 <= py * m_stride t) as [? ?] by nia.
    assert (qy * m_stride t + qx = py * m_stride t + px) by lia.
    assert (qy = py) by nia. nia.
Qed.

Lemma paint_nth ws t px py :
  buffer_covers t ->
  0 <= px < m_width t -> 0 <= py < m_height t ->
  nth (Z.to_nat (py * m_stride t + px)) (m_buffer (paint t ws)) 0
  = if bool_decide ((px, py) ∈ ws) then 255
    else nth (Z.to_nat (py * m_stride t + px)) (m_buffer t) 0.
Proof.
  revert t. induction ws as [|[qx qy] ws IH]; intros t Ht Hpx Hpy.
  - cbn [paint foldl]. rewrite bool_decide_eq_false_2; [reflexivity|].
    apply not_elem_of_nil.
  - cbn [paint foldl fst snd].
    destruct (put_pixel_dims t qx qy 255) as (Dw & Dh & Ds & _).
    pose proof (IH (put_pixel t qx qy 255) (put_pixel_covers t qx qy 255 Ht)) as IH'.
    rewrite Dw, Dh, Ds in IH'. unfold paint in IH'. rewrite IH' by assumption.
    rewrite put_pixel_nth by assumption.
    destruct (bool_decide ((px, py) ∈ ws)) eqn:Ein.
    + apply bool_decide_eq_true in Ein.
      rewrite bool_decide_eq_true_2; [reflexivity|]. apply elem_of_cons. auto.
    + apply bool_decide_eq_false in Ein.
      destruct (Z.eqb_spec qx px) as [-> | Hx]; cbn [andb].
      * destruct (Z.eqb_spec qy py) as [-> | Hy].
        -- rewrite bool_decide_eq_true_2; [reflexivity|]. apply elem_of_cons. auto.
        -- rewrite bool_decide_eq_false_2; [reflexivity|].
           intros H. apply elem_of_cons in H as [H | H]; [congruence | auto].
      * rewrite bool_decide_eq_false_2; [reflexivity|].
        intros H. apply elem_of_cons in H as [H | H]; [congruence | auto].
Qed.

(** The pixels the two loops of [rasterize_bitmap_glyph] write, in order. *)
Lemma blit_row_as_paint (P : nat -> bool) (X Y : Z) cols t :
  foldl (fun t gx => if P gx then put_pixel t (X + Z.of_nat gx) Y 255 else t) t cols
  = paint t (map (fun gx => (X + Z.of_nat gx, Y)) (filter (fun gx => P gx = true) cols)).
Proof.
  revert t. induction cols as [|gx cols IH]; intros t; [reflexivity|].
  cbn [foldl]. rewrite IH. rewrite filter_cons.
  destruct (P gx) eqn:E.
  - rewrite decide_True by reflexivity. reflexivity.
  - rewrite decide_False by discriminate. reflexivity.
Qed.

Lemma blit_bitmap_glyph_pixels font ch t x y t' px py :
  blit_bitmap_glyph font ch t x y = Ok t' ->
  buffer_covers t ->
  0 <= px < m_width t -> 0 <= py < m_height t ->
  nth (Z.to_nat (py * m_stride t + px)) (m_buffer t') 0
  = if glyph_bit font ch (px - (x + left_bearing font ch))
                 (py - (y - fm_ascent (bf_metrics font)))
    then 255
    else nth (Z.to_nat (py * m_stride t + px)) (m_buffer t) 0.
Proof.
  intros Hblit Ht Hpx Hpy. revert Hblit.
  unfold blit_bitmap_glyph, glyph_bit, left_bearing.
  destruct (get_spacing font ch) as [spacing|e]; cbn [bind]; [|discriminate].
  destruct (get_glyph font ch) as [glyph|e]; cbn [bind]; [|discriminate].
  cbv zeta. intros Hblit. injection Hblit as <-.
  set (X := match a_space spacing with Some a => x + a | None => x end).
  set (Y := y - fm_ascent (bf_metrics font)).
  replace (x + match a_space spacing with Some a => a | None => 0 end) with X
    by (unfold X; destruct (a_space spacing); lia).
  set (rows := seq 0 (Z.to_nat (view_height glyph))).
  set (cols := seq 0 (Z.to_nat (view_width glyph))).
  set (row_pixels := fun gy : nat =>
         map (fun gx => (X + Z.of_nat gx, Y + Z.of_nat gy))
             (filter (fun gx => view_pixel glyph (Z.of_nat gx) (Z.of_nat gy) = true)
                     cols)).
  assert (Hpaint : forall rs t0,
            foldl (fun t gy =>
                     foldl (fun t gx =>
                              if view_pixel glyph (Z.of_nat gx) (Z.of_nat gy)
                              then put_pixel t (X + Z.of_nat gx) (Y + Z.of_nat gy) 255
                              else t) t cols) t0 rs
            = paint t0 (concat (map row_pixels rs))).
  { induction rs as [|gy rs IH]; intros t0; [reflexivity|].
    cbn [foldl map concat]. rewrite IH, paint_app. f_equal.
    apply (blit_row_as_paint
             (fun gx => view_pixel glyph (Z.of_nat gx) (Z.of_nat gy))). }
  rewrite Hpaint, paint_nth by assumption.
  assert (Hcond : bool_decide ((px, py) ∈ concat (map row_pixels rows))
                  = (0 <=? px - X) && (px - X <? view_width glyph)
                    && (0 <=? py - Y) && (py - Y <? view_height glyph)
                    && view_pixel glyph (px - X) (py - Y)).
  { apply eq_true_iff_eq. rewrite bool_decide_eq_true.
    rewrite !andb_true_iff, !Z.leb_le, !Z.ltb_lt.
    rewrite list_elem_of_In, in_concat.
    split.
    - intros (row & Hrow & Hp).
      apply in_map_iff in Hrow as (gy & <- & Hgy).
      apply in_map_iff in Hp as (gx & Heq & Hgx).
      apply list_elem_of_In, list_elem_of_filter in Hgx as [Hbit Hgx].
      apply list_elem_of_In, elem_of_seq in Hgy. apply elem_of_seq in Hgx.
      injection Heq as <- <-.
      replace (X + Z.of_nat gx - X) with (Z.of_nat gx) by lia.
      replace (Y + Z.of_nat gy - Y) with (Z.of_nat gy) by lia.
      repeat split; try lia. exact Hbit.
    - intros ((((Hx0 & Hx1) & Hy0) & Hy1) & Hbit).
      exists (row_pixels (Z.to_nat (py - Y))). split.
      + apply in_map_iff. exists (Z.to_nat (py - Y)). split; [reflexivity|].
        apply list_elem_of_In, elem_of_seq. lia.
      + apply in_map_iff. exists (Z.to_nat (px - X)). split.
        * f_equal; lia.
        * apply list_elem_of_In, list_elem_of_filter. split.
          -- rewrite !Z2Nat.id by lia. exact Hbit.
          -- apply elem_of_seq. lia. }
  rewrite Hcond. reflexivity.
Qed.

Lemma settled_char_in_font font cp ch :
  settled_char font cp = Some ch -> bf_out_of_font font ch = false.
Proof.
  unfold settled_char. cbv zeta. repeat case_match; intros [= <-]; assumption.
Qed.

Lemma rasterize_bitmap_glyph_settled font cp t x y :
  rasterize_bitmap_glyph font cp t x y
  = match settled_char font cp with
    | Some ch => blit_bitmap_glyph font ch t x y
    | None => Ok t
    end.
Proof.
  unfold rasterize_bitmap_glyph, settled_char. cbv zeta.
  repeat case_match; reflexivity.
Qed.

Lemma rasterize_bitmap_glyph_nth font cp t x y t' px py :
  rasterize_bitmap_glyph font cp t x y = Ok t' ->
  buffer_covers t ->
  0 <= px < m_width t -> 0 <= py < m_height t ->
  nth (Z.to_nat (py * m_stride t + px)) (m_buffer t') 0
  = if lit font cp x y px py then 255
    else nth (Z.to_nat (py * m_stride t + px)) (m_buffer t) 0.
Proof.
  intros Hr Ht Hpx Hpy. rewrite rasterize_bitmap_glyph_settled in Hr. unfold lit.
  destruct (settled_char font cp) as [ch|] eqn:E.
  - exact (blit_bitmap_glyph_pixels font ch t x y t' px py Hr Ht Hpx Hpy).
  - injection Hr as <-. reflexivity.
Qed.

(** [rasterize_bitmap_glyph] turns the bits of a glyph into pixels. Over a
    font whose tables hold an entry for every character of its range it
    returns; with the pen at [(x, y)] on the baseline, the pixel
    [(px, py)] of the target becomes 255 when the glyph of the codepoint
    (or of the default character, for a codepoint the font lacks) has its
    bit set at [(px - x - a_space, py - y + ascent)], and keeps its value
    otherwise; the glyph is clipped to the target and the buffer keeps its
    length. *)
Theorem rasterize_bitmap_glyph_pixels (font : bitmap_font) (codepoint : Z)
    (t : grayscale_target) (x y px py : Z) :
  tables_cover font ->
  buffer_covers t ->
  0 <= px < m_width t -> 0 <= py < m_height t ->
  exists t',
    rasterize_bitmap_glyph font codepoint t x y = Ok t'
    /\ nth (Z.to_nat (py * m_stride t + px)) (m_buffer t') 0
       = (if lit font codepoint x y px py then 255
          else nth (Z.to_nat (py * m_stride t + px)) (m_buffer t) 0)
    /\ length (m_buffer t') = length (m_buffer t).
Proof.
  intros Hcover Ht Hpx Hpy.
  destruct (FontSourceFacts.rasterize_bitmap_glyph_ok font codepoint t x y Hcover)
    as [t' Hr].
  exists t'. split; [exact Hr|]. split.
  - exact (rasterize_bitmap_glyph_nth font codepoint t x y t' px py Hr Ht Hpx Hpy).
  - exact (GlyphImagesFacts.rasterize_bitmap_glyph_keeps_size font codepoint t x y t' Hr).
Qed.

Lemma rasterize_bitmap_glyph_pixels_witness :
  exists t',
    rasterize_bitmap_glyph Samples.font_AB 66
      (grayscale_target_new (replicate 42 0) 7 6 0) 0 5 = Ok t'
    /\ nth (Z.to_nat (2 * m_stride (grayscale_target_new (replicate 42 0) 7 6 0) + 3))
           (m_buffer t') 0
       = (if lit Samples.font_AB 66 0 5 3 2 then 255
          else nth (Z.to_nat
                      (2 * m_stride (grayscale_target_new (replicate 42 0) 7 6 0) + 3))
                   (m_buffer (grayscale_target_new (replicate 42 0) 7 6 0)) 0)
    /\ length (m_buffer t')
       = length (m_buffer (grayscale_target_new (replicate 42 0) 7 6 0)).
Proof.
  apply (rasterize_bitmap_glyph_pixels Samples.font_AB 66
           (grayscale_target_new (replicate 42 0) 7 6 0) 0 5 3 2).
  - split; reflexivity.
  - unfold buffer_covers. cbn. lia.
  - cbn. lia.
  - cbn. lia.
Defined.

End BitmapRasterFacts.

Module AtlasBitmapFacts.
Import FontSource AtlasSurface TextRasterizer GlyphCache GlyphPacking MemoryAtlas.
Import GlyphImages BitmapRaster.
Import GlyphCacheFacts GlyphPackingFacts GlyphImagesFacts BitmapRasterFacts.

Lemma get_glyph_metrics_settled font cp size :
  get_glyph_metrics (bitmap_ref font) cp size
  = match settled_char font cp with
    | Some ch => bitmap_glyph_metrics font ch
    | None => Ok zero_metrics
    end.
Proof.
  unfold get_glyph_metrics, settled_char. cbv zeta. repeat case_match; reflexivity.
Qed.

Lemma bitmap_bearing_y font cp size ch :
  tables_cover font ->
  settled_char font cp = Some ch ->
  bearing_y (measure_glyph (bitmap_rasterizer font size) cp)
  = inject_Z (fm_ascent (bf_metrics font)).
Proof.
  intros Hcover Hch. cbn [bitmap_rasterizer measure_glyph].
  rewrite get_glyph_metrics_settled, Hch.
  pose proof (settled_char_in_font font cp ch Hch) as Hin.
  unfold bitmap_glyph_metrics.
  destruct (FontSourceFacts.get_spacing_ok font ch Hcover Hin) as [spacing ->].
  destruct (FontSourceFacts.get_glyph_ok font ch Hcover Hin) as [glyph ->].
  reflexivity.
Qed.

Lemma bitmap_unsettled_has_no_pixels font cp size :
  settled_char font cp = None ->
  measure_glyph (bitmap_rasterizer font size) cp = zero_metrics.
Proof.
  intros Hch. cbn [bitmap_rasterizer measure_glyph].
  rewrite get_glyph_metrics_settled, Hch. reflexivity.
Qed.

Lemma nth_replicate_zero n i : nth i (replicate n 0) 0 = 0.
Proof.
  rewrite nth_lookup. destruct (replicate n 0 !! i) eqn:E; [|reflexivity].
  apply lookup_replicate in E as [-> _]. reflexivity.
Qed.

(** The image [cache_glyph] rasterizes from a bitmap font. *)
Lemma bitmap_glyph_image c font size cp gx gy :
  tables_cover font ->
  m_rasterizer c = bitmap_rasterizer font size ->
  0 <= gx < glyph_w c cp -> 0 <= gy < glyph_h c cp ->
  nth (Z.to_nat (gy * glyph_w c cp + gx)) (glyph_image c cp) 0
  = match settled_char font cp with
    | Some ch => if glyph_bit font ch (gx - left_bearing font ch) gy then 255 else 0
    | None => 0
    end.
Proof.
  intros Hcover Hr Hgx Hgy. unfold glyph_image. cbv zeta.
  set (w := glyph_w c cp) in *. set (h := glyph_h c cp) in *.
  rewrite Hr. cbn [bitmap_rasterizer rasterize_glyph].
  set (t := RasterTarget.grayscale_target_new (replicate (Z.to_nat w * Z.to_nat h) 0)
                                              w h 0).
  assert (Hstride : RasterTarget.m_stride t = w) by reflexivity.
  assert (Hcov : RasterTarget.buffer_covers t).
  { unfold RasterTarget.buffer_covers. rewrite Hstride.
    cbn [t RasterTarget.grayscale_target_new RasterTarget.m_width
         RasterTarget.m_height RasterTarget.m_buffer].
    rewrite length_replicate. split; [lia | nia]. }
  rewrite <- Hstride at 1.
  match goal with
  | |- context [rasterize_bitmap_glyph font cp t 0 ?y0] =>
    destruct (FontSourceFacts.rasterize_bitmap_glyph_ok font cp t 0 y0 Hcover)
      as [t' Hok];
    rewrite Hok;
    rewrite (rasterize_bitmap_glyph_nth font cp t 0 y0 t' gx gy Hok Hcov)
      by (cbn; lia)
  end.
  cbn [t RasterTarget.grayscale_target_new RasterTarget.m_buffer].
  rewrite nth_replicate_zero. unfold lit.
  destruct (settled_char font cp) as [ch|] eqn:Hch; [|reflexivity].
  rewrite (bitmap_bearing_y font cp size ch Hcover Hch).
  unfold ceil_int. rewrite Qceiling_Z.
  replace (gx - (0 + left_bearing font ch)) with (gx - left_bearing font ch) by lia.
  replace (gy - (fm_ascent (bf_metrics font) - fm_ascent (bf_metrics font)))
    with gy by lia.
  reflexivity.
Qed.

(** From the font to the atlas: in a cache over a bitmap font whose tables
    hold an entry for every character of its range and whose glyphs
    leave room for the padding on a page, the atlas pixel [(gx, gy)] of the
    rectangle of a cached codepoint is 255 when the bit
    [(gx - a_space, gy)] of its glyph is set and 0 otherwise; the glyph is
    that of the default character for a codepoint the font lacks. A glyph
    with a left side bearing is stored shifted by it inside its
    rectangle. *)
Theorem atlas_holds_the_bitmap_glyph (c : glyph_cache) (font : bitmap_font)
    (size : Q) (cp : Z) (g : cached_glyph) (gx gy : Z) :
  tables_cover font ->
  reachable c ->
  m_rasterizer c = bitmap_rasterizer font size ->
  glyphs_fit_pages c -> 0 <= atlas_size (m_config c) ->
  m_cache c !! cp = Some g ->
  0 <= gx < rect_w (rect g) -> 0 <= gy < rect_h (rect g) ->
  exists page,
    m_atlases c !! Z.to_nat (atlas_index g) = Some page
    /\ pixel page (rect_x (rect g) + gx) (rect_y (rect g) + gy)
       = match settled_char font cp with
         | Some ch =>
           if glyph_bit font ch (gx - left_bearing font ch) gy then 255 else 0
         | None => 0
         end.
Proof.
  intros Hcover Hreach Hr Hfit Hsize Hg Hgx Hgy.
  assert (Hkeep : keeps_size (m_rasterizer c))
    by (rewrite Hr; apply bitmap_rasterizer_keeps_size).
  destruct (reachable_imaged c Hreach Hfit Hsize Hkeep) as [_ (_ & _ & _ & Hent)].
  assert (Hpx : has_pixels g) by (unfold has_pixels; lia).
  destruct (Hent cp g Hg Hpx) as (_ & _ & _ & _ & page & Hpage & Hpix).
  exists page. split; [exact Hpage|].
  rewrite Hpix by assumption.
  destruct (reachable_describes c Hreach cp g Hg) as (_ & _ & _ & Hrect).
  destruct ((glyph_w c cp <=? 0) || (glyph_h c cp <=? 0)).
  - destruct Hrect as [Hzero _]. rewrite Hzero in Hgx. cbn in Hgx. lia.
  - destruct Hrect as [Hw Hh]. rewrite Hw in *. rewrite Hh in *.
    apply (bitmap_glyph_image c font size); assumption.
Qed.

Lemma atlas_holds_the_bitmap_glyph_witness :
  exists g page,
    m_cache PackingSamples.cache_AB !! 66 = Some g
    /\ m_atlases PackingSamples.cache_AB !! Z.to_nat (atlas_index g) = Some page
    /\ pixel page (rect_x (rect g) + 6) (rect_y (rect g) + 5)
       = match settled_char Samples.font_AB 66 with
         | Some ch =>
           if glyph_bit Samples.font_AB ch (6 - left_bearing Samples.font_AB ch) 5
           then 255 else 0
         | None => 0
         end.
Proof.
  assert (H1 : is_Some (m_cache PackingSamples.cache_AB !! 66)) by (vm_compute; eauto).
  destruct H1 as [g H1].
  assert (E1 : rect <$> m_cache PackingSamples.cache_AB !! 66 = Some (mk_rect 9 1 7 6))
    by (vm_compute; reflexivity).
  rewrite H1 in E1. injection E1 as E1.
  destruct (atlas_holds_the_bitmap_glyph PackingSamples.cache_AB Samples.font_AB 6
                                         66 g 6 5)
    as (page & Hpage & Hpix).
  - split; reflexivity.
  - apply reachable_operation, reachable_new.
  - apply cache_AB_fields.
  - apply cache_AB_fits.
  - rewrite (proj1 cache_AB_fields). cbn. lia.
  - exact H1.
  - rewrite E1. cbn. lia.
  - rewrite E1. cbn. lia.
  - exists g, page. auto.
Defined.

End AtlasBitmapFacts.

Module BitmapStorageFacts.
Import BitmapStorage.

(** *** Bits *)

Lemma pixel_test_testbit b k :
  0 <= k -> negb (Z.land (Z.shiftr b k) 1 =? 0) = Z.testbit b k.
Proof.
  intros Hk.
  change 1 with (Z.ones 1) at 1. rewrite Z.land_ones by lia.
  change (2 ^ 1) with 2. rewrite <- Z.bit0_mod.
  rewrite Z.shiftr_spec by lia. rewrite Z.add_0_l.
  destruct (Z.testbit b k); reflexivity.
Qed.

Lemma u8_testbit a k : 0 <= k < 8 -> Z.testbit (RasterTarget.u8 a) k = Z.testbit a k.
Proof.
  intros Hk. unfold RasterTarget.u8. apply Z.mod_pow2_bits_low. lia.
Qed.

Lemma mask_testbit k j :
  0 <= k < 8 -> 0 <= j < 8 ->
  Z.testbit (RasterTarget.u8 (Z.shiftl 1 k)) j = (k =? j).
Proof.
  intros Hk Hj. rewrite u8_testbit by lia.
  rewrite Z.shiftl_1_l. rewrite Z.pow2_bits_eqb by lia. reflexivity.
Qed.

Lemma set_testbit old k j :
  0 <= k < 8 -> 0 <= j < 8 ->
  Z.testbit (RasterTarget.u8 (Z.lor old (RasterTarget.u8 (Z.shiftl 1 k)))) j
  = if k =? j then true else Z.testbit old j.
Proof.
  intros Hk Hj. rewrite u8_testbit by lia.
  rewrite Z.lor_spec, mask_testbit by lia.
  destruct (k =? j); [apply orb_true_r | apply orb_false_r].
Qed.

Lemma clear_testbit old k j :
  0 <= k < 8 -> 0 <= j < 8 ->
  Z.testbit (RasterTarget.u8 (Z.land old (Z.lnot (RasterTarget.u8 (Z.shiftl 1 k))))) j
  = if k =? j then false else Z.testbit old j.
Proof.
  intros Hk Hj. rewrite u8_testbit by lia.
  rewrite Z.land_spec, Z.lnot_spec, mask_testbit by lia.
  destruct (k =? j); cbn; [apply andb_false_r | apply andb_true_r].
Qed.

Lemma u8_is_byte a : is_byte (RasterTarget.u8 a).
Proof. unfold is_byte, RasterTarget.u8. apply Z.mod_pos_bound. lia. Qed.

Lemma land_7 x : Z.land x 7 = x mod 8.
Proof. change 7 with (Z.ones 3). rewrite Z.land_ones by lia. reflexivity. Qed.

Lemma shiftr_3 x : Z.shiftr x 3 = x / 8.
Proof. rewrite Z.shiftr_div_pow2 by lia. reflexivity. Qed.

Lemma bit_of_spec order x :
  bit_of order x = match order with
                   | msb_first => 7 - x mod 8
                   | lsb_first => x mod 8
                   end.
Proof.
  pose proof (Z.mod_pos_bound x 8 ltac:(lia)) as H.
  unfold bit_of, RasterTarget.u8. rewrite land_7.
  destruct order; apply Z.mod_small; lia.
Qed.

Lemma bit_of_range order x : 0 <= bit_of order x < 8.
Proof.
  pose proof (Z.mod_pos_bound x 8 ltac:(lia)) as H.
  rewrite bit_of_spec. destruct order; lia.
Qed.

Lemma bit_of_inj order x x' :
  bit_of order x = bit_of order x' -> x / 8 = x' / 8 -> x = x'.
Proof.
  rewrite !bit_of_spec. intros Hb Hd.
  assert (x mod 8 = x' mod 8) as Hm by (destruct order; lia).
  rewrite (Z.div_mod x 8), (Z.div_mod x' 8) by lia. lia.
Qed.

(** *** Strides *)

Lemma packed_stride_spec width :
  is_u16 width -> packed_stride width = (width + 7) / 8.
Proof.
  unfold is_u16, packed_stride, u16. intros H.
  apply Z.mod_small. split.
  - apply Z.div_pos; lia.
  - apply Z.div_lt_upper_bound; lia.
Qed.

Lemma packed_stride_holds_row width x :
  is_u16 width -> 0 <= x < width -> 0 <= x / 8 < packed_stride width.
Proof.
  intros Hw Hx. rewrite packed_stride_spec by exact Hw.
  split.
  - apply Z.div_pos; lia.
  - apply Z.div_lt_upper_bound; [lia|].
    pose proof (Z.div_mod (width + 7) 8 ltac:(lia)) as E.
    pose proof (Z.mod_pos_bound (width + 7) 8 ltac:(lia)) as B.
    lia.
Qed.


(** *** The tiling invariant *)

Lemma stride_nonneg width : is_u16 width -> 0 <= packed_stride width.
Proof.
  intros H. rewrite packed_stride_spec by exact H.
  apply Z.div_pos; unfold is_u16 in H; lia.
Qed.

Lemma tiled_new order : tiled (bitmap_builder_new order).
Proof.
  unfold tiled, bitmap_builder_new. cbn.
  split; [|split].
  - intros i g H. rewrite lookup_nil in H. discriminate.
  - intros i j g1 g2 _ H. rewrite lookup_nil in H. discriminate.
  - constructor.
Qed.

Lemma tiled_reserve b width height :
  tiled b -> is_u16 width -> is_u16 height ->
  tiled (fst (reserve_glyph b width height)).
Proof.
  intros (Hs & Ha & Hb) Hw Hh.
  pose proof (stride_nonneg width Hw) as Hst.
  assert (0 <= height * packed_stride width) as Hsz
      by (unfold is_u16 in Hh; nia).
  unfold tiled, reserve_glyph. cbn.
  split; [|split].
  - intros i g Hi. rewrite length_app, length_replicate.
    apply lookup_app_Some in Hi as [Hi | [Hlen Hi]].
    + destruct (Hs i g Hi) as (H1 & H2 & H3 & H4 & H5).
      repeat split; try assumption; try apply H1; try apply H2. lia.
    + destruct (i - length (b_glyphs b))%nat; cbn in Hi; [|discriminate].
      injection Hi as <-. cbn.
      repeat split; try apply Hw; try apply Hh; lia.
  - intros i j g1 g2 Hij H1 H2.
    apply lookup_app_Some in H2 as [H2 | [Hlen H2]].
    + assert (i < length (b_glyphs b))%nat as Hi
          by (apply lookup_lt_Some in H2; lia).
      rewrite lookup_app_l in H1 by exact Hi.
      exact (Ha i j g1 g2 Hij H1 H2).
    + destruct (j - length (b_glyphs b))%nat eqn:Ej; cbn in H2; [|discriminate].
      injection H2 as <-. cbn.
      assert (i < length (b_glyphs b))%nat as Hi by lia.
      rewrite lookup_app_l in H1 by exact Hi.
      destruct (Hs i g1 H1) as (_ & _ & _ & _ & H5). exact H5.
  - apply Forall_app. split; [exact Hb|].
    apply Forall_forall. intros v Hv.
    apply elem_of_replicate in Hv as [-> _]. unfold is_byte. lia.
Qed.

Lemma tiled_store b idx new :
  tiled b -> is_byte new ->
  tiled (mk_builder (b_order b) (<[idx := new]> (b_blob b)) (b_glyphs b)).
Proof.
  intros (Hs & Ha & Hb) Hn. unfold tiled. cbn.
  split; [|split].
  - intros i g Hi. rewrite length_insert. exact (Hs i g Hi).
  - exact Ha.
  - apply Forall_insert; assumption.
Qed.

Lemma tiled_copy b d packed :
  tiled b -> Forall is_byte packed ->
  (d + length packed <= length (b_blob b))%nat ->
  tiled (mk_builder (b_order b)
           (RasterTarget.memcpy (b_blob b) d packed 0 (length packed))
           (b_glyphs b)).
Proof.
  intros (Hs & Ha & Hb) Hp Hd. unfold tiled. cbn.
  split; [|split].
  - intros i g Hi. rewrite memcpy_length by lia. exact (Hs i g Hi).
  - exact Ha.
  - unfold RasterTarget.memcpy. rewrite !Forall_app.
    split; [|split].
    + apply Forall_take. exact Hb.
    + apply Forall_take. apply Forall_drop. exact Hp.
    + apply Forall_drop. exact Hb.
Qed.


Lemma writer_slot b w :
  tiled b -> writer_of b w ->
  is_u16 (w_width w) /\ is_u16 (w_height w)
  /\ w_stride w = packed_stride (w_width w)
  /\ 0 <= w_offset w
  /\ w_offset w + w_stride w * w_height w <= Z.of_nat (length (b_blob b)).
Proof.
  intros (Hs & _ & _) (_ & Hw & _). exact (Hs _ _ Hw).
Qed.

Lemma made_tiled b : made b -> tiled b.
Proof.
  induction 1 as [order | b width height _ IH Hw Hh
                 | b w x y on b' _ IH Hwr Hx Hy Hset
                 | b w y packed b' _ IH Hwr Hy Hp Hset].
  - apply tiled_new.
  - apply tiled_reserve; assumption.
  - unfold set_pixel in Hset.
    destruct ((x <? w_width w) && (y <? w_height w)); [|discriminate].
    injection Hset as <-. unfold set_bit.
    apply tiled_store; [exact IH | apply u8_is_byte].
  - unfold set_row_packed in Hset.
    destruct (y <? w_height w) eqn:Ey; [|discriminate].
    destruct (Z.of_nat (length packed) =? w_stride w) eqn:El; [|discriminate].
    injection Hset as <-.
    apply Z.ltb_lt in Ey. apply Z.eqb_eq in El.
    destruct (writer_slot b w IH Hwr) as (_ & _ & _ & Ho & Hin).
    apply tiled_copy; [exact IH | exact Hp |].
    assert (0 <= y * w_stride w) by nia.
    assert (y * w_stride w + w_stride w <= w_stride w * w_height w) by nia.
    lia.
Qed.

(** *** Reading a pixel of a glyph is reading a bit of the blob *)

Lemma nth_window (l : list Z) o n k :
  (k < n)%nat -> (o + n <= length l)%nat ->
  nth k (take n (drop o l)) 0 = nth (o + k) l 0.
Proof.
  intros Hk Hn. rewrite !nth_lookup.
  rewrite lookup_take_lt by exact Hk. rewrite lookup_drop. reflexivity.
Qed.

Lemma view_pixel_spec b j g x y :
  tiled b -> 0 <= j -> 0 <= x -> 0 <= y ->
  b_glyphs b !! Z.to_nat j = Some g ->
  view_pixel (build b) j x y
  = if (x <? gi_width g) && (y <? gi_height g)
    then Some (Z.testbit
                 (nth (Z.to_nat (gi_offset g + y * gi_stride g + x / 8)) (b_blob b) 0)
                 (bit_of (b_order b) x))
    else None.
Proof.
  intros Ht Hj Hx Hy Hg.
  destruct Ht as (Hs & _ & _).
  destruct (Hs _ _ Hg) as (Hw & Hh & Hst & Ho & Hin).
  unfold view_pixel, view, build, glyph_count. cbn.
  assert ((j <? Z.of_nat (length (b_glyphs b))) = true) as ->.
  { apply Z.ltb_lt. apply lookup_lt_Some in Hg. lia. }
  rewrite Hg.
  assert ((gi_offset g + gi_stride g * gi_height g <=? Z.of_nat (length (b_blob b)))
          = true) as -> by (apply Z.leb_le; exact Hin).
  unfold pixel. cbn.
  destruct ((x <? gi_width g) && (y <? gi_height g)) eqn:E; [|reflexivity].
  apply andb_true_iff in E as [Ex Ey].
  apply Z.ltb_lt in Ex. apply Z.ltb_lt in Ey.
  pose proof (packed_stride_holds_row (gi_width g) x Hw ltac:(lia)) as Hc.
  rewrite <- Hst in Hc.
  rewrite pixel_test_testbit by apply bit_of_range.
  rewrite shiftr_3.
  assert (0 <= y * gi_stride g) by nia.
  assert (y * gi_stride g + x / 8 < gi_stride g * gi_height g) by nia.
  rewrite nth_window by lia.
  f_equal. f_equal. f_equal. lia.
Qed.

Lemma view_pixel_no_glyph b j x y :
  b_glyphs b !! Z.to_nat j = None -> view_pixel (build b) j x y = None.
Proof.
  intros Hg. unfold view_pixel, view, build. cbn. rewrite Hg.
  destruct (j <? _); reflexivity.
Qed.

(** *** Writing one bit *)

Lemma nth_insert (l : list Z) i j v :
  (i < length l)%nat ->
  nth j (<[i := v]> l) 0 = if decide (j = i) then v else nth j l 0.
Proof.
  intros Hi. rewrite !nth_lookup.
  destruct (decide (j = i)) as [->|Hne].
  - rewrite list_lookup_insert_eq by exact Hi. reflexivity.
  - rewrite list_lookup_insert_ne by congruence. reflexivity.
Qed.

Lemma cell_inj s y y' c c' :
  0 <= c < s -> 0 <= c' < s -> 0 <= y -> 0 <= y' ->
  y * s + c = y' * s + c' -> y = y' /\ c = c'.
Proof.
  intros Hc Hc' Hy Hy' E.
  assert (y = y') as -> by nia.
  split; [reflexivity | lia].
Qed.

Lemma set_bit_pixels b w x y on j x' y' :
  tiled b -> writer_of b w ->
  0 <= x < w_width w -> 0 <= y < w_height w ->
  0 <= j -> 0 <= x' -> 0 <= y' ->
  view_pixel (build (set_bit b w x y on)) j x' y'
  = if decide (j = w_glyph_index w /\ x' = x /\ y' = y)
    then Some on
    else view_pixel (build b) j x' y'.
Proof.
  intros Ht Hwr Hx Hy Hj Hx' Hy'.
  pose proof (writer_slot b w Ht Hwr) as (Hw & Hh & Hst & Ho & Hin).
  pose proof Hwr as (Hi & Hgi & Hord).
  pose proof (packed_stride_holds_row (w_width w) x Hw Hx) as Hc.
  rewrite <- Hst in Hc.
  assert (0 <= y * w_stride w) as Hyw by nia.
  assert (y * w_stride w + x / 8 < w_stride w * w_height w) as Hlt by nia.
  assert (tiled (set_bit b w x y on)) as Ht'.
  { unfold set_bit. apply tiled_store; [exact Ht | apply u8_is_byte]. }
  destruct (b_glyphs b !! Z.to_nat j) as [g|] eqn:Hg.
  2:{ rewrite !view_pixel_no_glyph by exact Hg.
      destruct (decide _) as [(-> & _ & _)|]; [|reflexivity].
      rewrite Hgi in Hg. discriminate. }
  rewrite (view_pixel_spec _ j g) by (try assumption; exact Hg).
  rewrite (view_pixel_spec b j g) by assumption.
  destruct Ht as (Hs & Ha & _).
  destruct (Hs _ _ Hg) as (Hgw & Hgh & Hgst & Hgo & Hgin).
  destruct ((x' <? gi_width g) && (y' <? gi_height g)) eqn:E.
  2:{ destruct (decide _) as [(-> & -> & ->)|]; [|reflexivity].
      rewrite Hgi in Hg. injection Hg as <-. cbn in E.
      apply andb_false_iff in E as [E|E]; apply Z.ltb_ge in E; lia. }
  apply andb_true_iff in E as [Ex Ey].
  apply Z.ltb_lt in Ex. apply Z.ltb_lt in Ey.
  pose proof (packed_stride_holds_row (gi_width g) x' Hgw ltac:(lia)) as Hc'.
  rewrite <- Hgst in Hc'.
  assert (0 <= y' * gi_stride g) as Hyw' by nia.
  assert (y' * gi_stride g + x' / 8 < gi_stride g * gi_height g) as Hlt' by nia.
  unfold set_bit at 1 2. cbn [b_blob b_order].
  rewrite shiftr_3.
  rewrite nth_insert by lia.
  rewrite Hord.
  pose proof (bit_of_range (b_order b) x) as Hb.
  pose proof (bit_of_range (b_order b) x') as Hb'.
  destruct (decide (Z.to_nat (gi_offset g + y' * gi_stride g + x' / 8)
                    = Z.to_nat (w_offset w + y * w_stride w + x / 8))) as [Eidx|Nidx].
  - (* the same byte: the same glyph, the same row *)
    assert (j = w_glyph_index w) as ->.
    { destruct (Z.lt_trichotomy j (w_glyph_index w)) as [L|[L|L]]; [|exact L|].
      - pose proof (Ha (Z.to_nat j) (Z.to_nat (w_glyph_index w)) _ _
                      ltac:(lia) Hg Hgi) as Hap. cbn in Hap. lia.
      - pose proof (Ha (Z.to_nat (w_glyph_index w)) (Z.to_nat j) _ _
                      ltac:(lia) Hgi Hg) as Hap. cbn in Hap. lia. }
    rewrite Hgi in Hg. injection Hg as <-.
    cbn [gi_offset gi_stride gi_width gi_height] in *.
    destruct (cell_inj (w_stride w) y' y (x' / 8) (x / 8)) as [-> Ediv];
      [lia..|].
    destruct on.
    + rewrite set_testbit by assumption.
      destruct (bit_of (b_order b) x =? bit_of (b_order b) x') eqn:Eb.
      * apply Z.eqb_eq in Eb. apply bit_of_inj in Eb; [|lia]. subst x'.
        rewrite decide_True by auto. reflexivity.
      * rewrite decide_False; [rewrite Ediv; reflexivity|].
        intros (_ & -> & _). rewrite Z.eqb_refl in Eb. discriminate.
    + rewrite clear_testbit by assumption.
      destruct (bit_of (b_order b) x =? bit_of (b_order b) x') eqn:Eb.
      * apply Z.eqb_eq in Eb. apply bit_of_inj in Eb; [|lia]. subst x'.
        rewrite decide_True by auto. reflexivity.
      * rewrite decide_False; [rewrite Ediv; reflexivity|].
        intros (_ & -> & _). rewrite Z.eqb_refl in Eb. discriminate.
  - rewrite decide_False; [reflexivity|].
    intros (-> & -> & ->). apply Nidx.
    rewrite Hgi in Hg. injection Hg as <-. reflexivity.
Qed.


Lemma set_pixel_pixels b w x y on :
  made b -> writer_of b w ->
  0 <= x < w_width w -> 0 <= y < w_height w ->
  exists b',
    set_pixel b w x y on = Some b' /\ made b' /\ writer_of b' w
    /\ b_glyphs b' = b_glyphs b
    /\ forall j x' y', 0 <= j -> 0 <= x' -> 0 <= y' ->
         view_pixel (build b') j x' y'
         = if decide (j = w_glyph_index w /\ x' = x /\ y' = y)
           then Some on
           else view_pixel (build b) j x' y'.
Proof.
  intros Hm Hw Hx Hy.
  assert (set_pixel b w x y on = Some (set_bit b w x y on)) as E.
  { unfold set_pixel.
    destruct (Z.ltb_spec x (w_width w)); [|lia].
    destruct (Z.ltb_spec y (w_height w)); [|lia]. reflexivity. }
  exists (set_bit b w x y on).
  split; [exact E|]. split; [|split; [|split]].
  - apply (made_set_pixel b w x y on); [assumption..|lia|lia|exact E].
  - exact Hw.
  - reflexivity.
  - intros j x' y' Hj Hx' Hy'.
    apply set_bit_pixels; try assumption. apply made_tiled. exact Hm.
Qed.

(** *** A reserved glyph *)

Lemma reserve_writer b width height :
  writer_of (fst (reserve_glyph b width height))
            (snd (reserve_glyph b width height)).
Proof.
  unfold writer_of, reserve_glyph. cbn.
  rewrite length_app. cbn.
  split; [lia|]. split; [|reflexivity].
  replace (Z.to_nat (Z.of_nat (length (b_glyphs b) + 1) - 1))
    with (length (b_glyphs b) + 0)%nat by lia.
  rewrite lookup_app_r by lia.
  replace (length (b_glyphs b) + 0 - length (b_glyphs b))%nat with 0%nat by lia.
  reflexivity.
Qed.

Lemma reserve_index b width height :
  w_glyph_index (snd (reserve_glyph b width height)) = glyph_count (build b).
Proof.
  unfold reserve_glyph, glyph_count, build. cbn. rewrite length_app. cbn. lia.
Qed.

Lemma reserve_pixels b width height j x y :
  made b -> is_u16 width -> is_u16 height ->
  0 <= j -> 0 <= x -> 0 <= y ->
  view_pixel (build (fst (reserve_glyph b width height))) j x y
  = if decide (j = glyph_count (build b))
    then if (x <? width) && (y <? height) then Some false else None
    else view_pixel (build b) j x y.
Proof.
  intros Hm Hw Hh Hj Hx Hy.
  pose proof (made_tiled b Hm) as Ht.
  pose proof (tiled_reserve b width height Ht Hw Hh) as Ht1.
  pose proof (stride_nonneg width Hw) as Hst.
  unfold glyph_count, build at 2. cbn [s_glyphs].
  destruct (decide (j = Z.of_nat (length (b_glyphs b)))) as [->|Hne].
  - rewrite (view_pixel_spec _ _
               (mk_glyph_internal (Z.of_nat (length (b_blob b))) width height
                                  (packed_stride width))); try assumption.
    2:{ unfold reserve_glyph. cbn. rewrite Nat2Z.id.
        rewrite lookup_app_r by lia. rewrite Nat.sub_diag. reflexivity. }
    cbn [gi_width gi_height gi_offset gi_stride].
    destruct ((x <? width) && (y <? height)) eqn:E; [|reflexivity].
    apply andb_true_iff in E as [Ex Ey].
    apply Z.ltb_lt in Ex. apply Z.ltb_lt in Ey.
    pose proof (packed_stride_holds_row width x Hw ltac:(lia)) as Hc.
    assert (0 <= y * packed_stride width) by nia.
    assert (y * packed_stride width + x / 8 < height * packed_stride width) by nia.
    unfold reserve_glyph. cbn [fst b_blob b_order].
    rewrite nth_lookup, lookup_app_r by lia.
    rewrite lookup_replicate_2 by lia. cbn. rewrite Z.testbit_0_l. reflexivity.
  - destruct (b_glyphs b !! Z.to_nat j) as [g|] eqn:Hg.
    + rewrite (view_pixel_spec b j g) by assumption.
      rewrite (view_pixel_spec _ j g); try assumption.
      2:{ unfold reserve_glyph. cbn. apply lookup_app_l_Some. exact Hg. }
      destruct Ht as (Hs & _ & _).
      destruct (Hs _ _ Hg) as (Hgw & Hgh & Hgst & Hgo & Hgin).
      destruct ((x <? gi_width g) && (y <? gi_height g)) eqn:E; [|reflexivity].
      apply andb_true_iff in E as [Ex Ey].
      apply Z.ltb_lt in Ex. apply Z.ltb_lt in Ey.
      pose proof (packed_stride_holds_row (gi_width g) x Hgw ltac:(lia)) as Hc.
      rewrite <- Hgst in Hc.
      assert (0 <= y * gi_stride g) by nia.
      assert (y * gi_stride g + x / 8 < gi_stride g * gi_height g) by nia.
      unfold reserve_glyph. cbn [fst b_blob b_order].
      rewrite !nth_lookup, lookup_app_l by lia. reflexivity.
    + rewrite (view_pixel_no_glyph b) by exact Hg.
      apply view_pixel_no_glyph.
      unfold reserve_glyph. cbn.
      apply lookup_ge_None in Hg.
      apply lookup_ge_None. rewrite length_app. cbn. lia.
Qed.


(** *** The loops of add_glyph_from_fn *)

Lemma filled_step f n m x y :
  filled f n (m + 1) x y = true
  <-> filled f n m x y = true \/ (x = m /\ y = n /\ f m n = true).
Proof.
  unfold filled.
  rewrite !andb_true_iff, !orb_true_iff, !andb_true_iff, !Z.ltb_lt, !Z.eqb_eq.
  split.
  - intros [[H|[H1 H2]] Hf].
    + left. tauto.
    + destruct (decide (x = m)) as [->|Hne].
      * subst y. right. tauto.
      * left. split; [right; split; [exact H1 | lia] | exact Hf].
  - intros [[[H|[H1 H2]] Hf] | (-> & -> & Hf)].
    + tauto.
    + split; [right; split; [exact H1 | lia] | exact Hf].
    + split; [right; split; [reflexivity | lia] | exact Hf].
Qed.

Lemma filled_row f n width x y :
  0 <= x < width -> filled f n width x y = filled f (n + 1) 0 x y.
Proof.
  intros Hx. unfold filled. f_equal.
  apply eq_true_iff_eq.
  rewrite !orb_true_iff, !andb_true_iff, !Z.ltb_lt, !Z.eqb_eq. lia.
Qed.

Lemma filled_none f x y : 0 <= x -> 0 <= y -> filled f 0 0 x y = false.
Proof.
  intros Hx Hy. unfold filled.
  destruct (Z.ltb_spec y 0); [lia|].
  destruct (Z.ltb_spec x 0); [lia|].
  rewrite andb_false_r. reflexivity.
Qed.

Lemma filled_all f height x y : y < height -> filled f height 0 x y = f x y.
Proof.
  intros Hy. unfold filled.
  destruct (Z.ltb_spec y height); [|lia]. reflexivity.
Qed.

Lemma from_fn_row b1 w f (n m : nat) ob :
  Z.of_nat n < w_height w -> Z.of_nat m <= w_width w ->
  from_fn_state b1 w f (Z.of_nat n) 0 ob ->
  from_fn_state b1 w f (Z.of_nat n) (Z.of_nat m)
    (foldl (fun ob x =>
              match ob with
              | Some b =>
                if f (Z.of_nat x) (Z.of_nat n)
                then set_pixel b w (Z.of_nat x) (Z.of_nat n) true
                else Some b
              | None => None
              end) ob (seq 0 m)).
Proof.
  intros Hn Hm H0. induction m as [|m IH]; [exact H0|].
  rewrite seq_S, foldl_snoc. cbn [Nat.add].
  destruct IH as (b2 & -> & Hmade & Hwr & Hgl & Hpix); [lia|].
  destruct (f (Z.of_nat m) (Z.of_nat n)) eqn:Ef.
  - destruct (set_pixel_pixels b2 w (Z.of_nat m) (Z.of_nat n) true Hmade Hwr
                ltac:(lia) ltac:(lia)) as (b3 & E3 & Hmade3 & Hwr3 & Hgl3 & Hpix3).
    exists b3. split; [exact E3|]. split; [exact Hmade3|]. split; [exact Hwr3|].
    split; [congruence|].
    intros j x y Hj Hx Hy. rewrite Hpix3, Hpix by assumption.
    replace (Z.of_nat (S m)) with (Z.of_nat m + 1) by lia.
    pose proof (filled_step f (Z.of_nat n) (Z.of_nat m) x y) as Hs.
    destruct (decide (j = w_glyph_index w /\ x = Z.of_nat m /\ y = Z.of_nat n))
      as [(-> & -> & ->)|Hno].
    + rewrite decide_True; [reflexivity|].
      split; [reflexivity|]. split; [lia|]. split; [lia|].
      apply Hs. right. auto.
    + apply decide_ext. split.
      * intros (H1 & H2 & H3 & H4). repeat split; try assumption.
        apply Hs. left. exact H4.
      * intros (H1 & H2 & H3 & H4).
        apply Hs in H4 as [H4 | (-> & -> & H4)]; [auto|].
        exfalso. apply Hno. auto.
  - exists b2. split; [reflexivity|]. split; [exact Hmade|]. split; [exact Hwr|].
    split; [exact Hgl|].
    intros j x y Hj Hx Hy. rewrite Hpix by assumption.
    replace (Z.of_nat (S m)) with (Z.of_nat m + 1) by lia.
    pose proof (filled_step f (Z.of_nat n) (Z.of_nat m) x y) as Hs.
    apply decide_ext. split.
    + intros (H1 & H2 & H3 & H4). repeat split; try assumption.
      apply Hs. left. exact H4.
    + intros (H1 & H2 & H3 & H4). repeat split; try assumption.
      apply Hs in H4 as [H4 | (-> & -> & H4)]; [exact H4|].
      rewrite Ef in H4. discriminate.
Qed.

Lemma from_fn_rows b1 w f (n : nat) ob :
  Z.of_nat n <= w_height w -> 0 <= w_width w ->
  from_fn_state b1 w f 0 0 ob ->
  from_fn_state b1 w f (Z.of_nat n) 0
    (foldl (fun ob y =>
              foldl (fun ob x =>
                       match ob with
                       | Some b =>
                         if f (Z.of_nat x) (Z.of_nat y)
                         then set_pixel b w (Z.of_nat x) (Z.of_nat y) true
                         else Some b
                       | None => None
                       end) ob (seq 0 (Z.to_nat (w_width w))))
           ob (seq 0 n)).
Proof.
  intros Hn Hw H0. induction n as [|n IH]; [exact H0|].
  rewrite seq_S, foldl_snoc. cbn [Nat.add].
  specialize (IH ltac:(lia)).
  pose proof (from_fn_row b1 w f n (Z.to_nat (w_width w)) _
                ltac:(lia) ltac:(lia) IH) as (b2 & E & Hmade & Hwr & Hgl & Hpix).
  exists b2. split; [exact E|]. split; [exact Hmade|]. split; [exact Hwr|].
  split; [exact Hgl|].
  intros j x y Hj Hx Hy. rewrite Hpix by assumption.
  apply decide_ext.
  replace (Z.of_nat (S n)) with (Z.of_nat n + 1) by lia.
  rewrite Z2Nat.id by lia.
  split; intros (H1 & H2 & H3 & H4); repeat split; try assumption.
  - rewrite <- (filled_row _ _ (w_width w)) by lia. exact H4.
  - rewrite (filled_row _ _ (w_width w)) by lia. exact H4.
Qed.

Lemma add_glyph_from_fn_pixels b width height f :
  made b -> is_u16 width -> is_u16 height ->
  exists b',
    add_glyph_from_fn b width height f = Some (b', glyph_count (build b))
    /\ made b'
    /\ b_glyphs b' = b_glyphs (fst (reserve_glyph b width height))
    /\ (forall x y, 0 <= x < width -> 0 <= y < height ->
          view_pixel (build b') (glyph_count (build b)) x y = Some (f x y))
    /\ (forall j x y, 0 <= j < glyph_count (build b) -> 0 <= x -> 0 <= y ->
          view_pixel (build b') j x y = view_pixel (build b) j x y).
Proof.
  intros Hm Hw Hh.
  pose proof (reserve_writer b width height) as Hwr.
  pose proof (reserve_index b width height) as Hidx.
  pose proof (made_reserve b width height Hm Hw Hh) as Hm1.
  unfold add_glyph_from_fn.
  destruct (reserve_glyph b width height) as [b1 w] eqn:Er.
  cbn [fst snd] in *.
  assert (w_width w = width /\ w_height w = height) as [Eww Ewh].
  { unfold reserve_glyph in Er. injection Er as _ <-. split; reflexivity. }
  assert (from_fn_state b1 w f 0 0 (Some b1)) as H0.
  { exists b1. split; [reflexivity|]. split; [exact Hm1|]. split; [exact Hwr|].
    split; [reflexivity|].
    intros j x y Hj Hx Hy.
    rewrite decide_False; [reflexivity|].
    intros (_ & _ & _ & H). rewrite filled_none in H by assumption. discriminate. }
  pose proof (from_fn_rows b1 w f (Z.to_nat height) (Some b1)) as Hloop.
  rewrite Eww, Ewh in Hloop.
  destruct Hloop as (b2 & E & Hm2 & Hwr2 & Hgl2 & Hpix);
    [unfold is_u16 in Hh; lia | unfold is_u16 in Hw; lia | exact H0 |].
  rewrite E. exists b2.
  split; [rewrite Hidx; reflexivity|]. split; [exact Hm2|].
  assert (forall j x y, 0 <= j -> 0 <= x -> 0 <= y ->
            view_pixel (build b1) j x y
            = if decide (j = glyph_count (build b))
              then if (x <? width) && (y <? height) then Some false else None
              else view_pixel (build b) j x y) as Hb1.
  { intros j x y Hj Hx Hy.
    pose proof (reserve_pixels b width height j x y Hm Hw Hh Hj Hx Hy) as R.
    rewrite Er in R. exact R. }
  split; [|split].
  - exact Hgl2.
  - intros x y Hx Hy.
    rewrite Hpix by (unfold glyph_count; lia).
    rewrite Z2Nat.id by lia. rewrite Hidx, Eww, Ewh.
    rewrite filled_all by lia.
    destruct (f x y) eqn:Ef.
    + rewrite decide_True; [reflexivity|]. repeat split; lia.
    + rewrite decide_False by (intros (_ & _ & _ & H); discriminate).
      rewrite Hb1 by (unfold glyph_count; lia).
      rewrite decide_True by reflexivity.
      destruct (Z.ltb_spec x width); [|lia].
      destruct (Z.ltb_spec y height); [|lia]. reflexivity.
  - intros j x y Hj Hx Hy.
    rewrite Hpix by lia.
    rewrite decide_False by (rewrite Hidx; lia).
    rewrite Hb1 by lia.
    rewrite decide_False by lia. reflexivity.
Qed.


(** *** The loop of add_glyph_packed *)

Lemma subspan_length rows offset count :
  0 <= offset -> 0 <= count -> offset + count <= Z.of_nat (length rows) ->
  Z.of_nat (length (subspan rows offset count)) = count.
Proof.
  intros Ho Hc Hl. unfold subspan. rewrite length_take, length_drop. lia.
Qed.

Lemma subspan_nth rows offset count k :
  0 <= offset -> 0 <= count -> offset + count <= Z.of_nat (length rows) ->
  (k < Z.to_nat count)%nat ->
  nth k (subspan rows offset count) 0 = nth (Z.to_nat offset + k) rows 0.
Proof.
  intros Ho Hc Hl Hk. unfold subspan. apply nth_window; lia.
Qed.

Lemma packed_rows_loop b1 w rows (n : nat) :
  made b1 -> writer_of b1 w -> Forall is_byte rows ->
  Z.of_nat (length rows) = w_height w * w_stride w ->
  Z.of_nat n <= w_height w ->
  exists b2,
    foldl (fun ob y =>
             match ob with
             | Some b => set_row_packed b w (Z.of_nat y)
                           (subspan rows (Z.of_nat y * w_stride w) (w_stride w))
             | None => None
             end) (Some b1) (seq 0 n) = Some b2
    /\ made b2 /\ writer_of b2 w
    /\ b_glyphs b2 = b_glyphs b1 /\ b_order b2 = b_order b1
    /\ length (b_blob b2) = length (b_blob b1)
    /\ forall k,
         nth k (b_blob b2) 0
         = if ((Z.to_nat (w_offset w) <=? k)
               && (k <? Z.to_nat (w_offset w + Z.of_nat n * w_stride w)))%nat
           then nth (k - Z.to_nat (w_offset w)) rows 0
           else nth k (b_blob b1) 0.
Proof.
  intros Hm Hwr Hrows Hlen Hn.
  pose proof (writer_slot b1 w (made_tiled b1 Hm) Hwr)
    as (Hw & Hh & Hst & Ho & Hin).
  pose proof (stride_nonneg (w_width w) Hw) as Hs0. rewrite <- Hst in Hs0.
  induction n as [|n IH].
  - exists b1. cbn [seq foldl].
    split; [reflexivity|]. split; [exact Hm|]. split; [exact Hwr|].
    split; [reflexivity|]. split; [reflexivity|]. split; [reflexivity|].
    intros k.
    destruct (Nat.leb_spec (Z.to_nat (w_offset w)) k);
      destruct (Nat.ltb_spec k (Z.to_nat (w_offset w + Z.of_nat 0 * w_stride w)));
      try reflexivity; lia.
  - destruct IH as (b2 & E & Hm2 & Hwr2 & Hgl & Hord & Hl2 & Hnth); [lia|].
    rewrite seq_S, foldl_snoc, E. cbn [Nat.add].
    assert (0 <= Z.of_nat n * w_stride w) as Hn0 by nia.
    assert (Z.of_nat n * w_stride w + w_stride w <= w_height w * w_stride w)
      as Hn1 by nia.
    pose proof (subspan_length rows (Z.of_nat n * w_stride w) (w_stride w)
                  Hn0 Hs0 ltac:(lia)) as Hsl.
    assert (Forall is_byte (subspan rows (Z.of_nat n * w_stride w) (w_stride w)))
      as Hsb.
    { unfold subspan. apply Forall_take. apply Forall_drop. exact Hrows. }
    assert (set_row_packed b2 w (Z.of_nat n)
              (subspan rows (Z.of_nat n * w_stride w) (w_stride w))
            = Some (mk_builder (b_order b2)
                      (RasterTarget.memcpy (b_blob b2)
                         (Z.to_nat (w_offset w + Z.of_nat n * w_stride w))
                         (subspan rows (Z.of_nat n * w_stride w) (w_stride w)) 0
                         (length (subspan rows (Z.of_nat n * w_stride w) (w_stride w))))
                      (b_glyphs b2))) as Eset.
    { unfold set_row_packed.
      destruct (Z.ltb_spec (Z.of_nat n) (w_height w)); [|lia].
      rewrite Hsl, Z.eqb_refl. reflexivity. }
    eexists. split; [exact Eset|].
    split.
    { apply (made_set_row_packed b2 w (Z.of_nat n) _ _ Hm2 Hwr2 ltac:(lia) Hsb Eset). }
    split; [exact Hwr2|]. split; [exact Hgl|]. split; [exact Hord|].
    cbn [b_blob].
    split.
    { rewrite memcpy_length by lia. exact Hl2. }
    intros k. rewrite memcpy_nth by lia. rewrite Hnth.
    set (d := Z.to_nat (w_offset w + Z.of_nat n * w_stride w)).
    set (len := length (subspan rows (Z.of_nat n * w_stride w) (w_stride w))).
    assert (Z.of_nat len = w_stride w) as Elen by exact Hsl.
    assert (Z.to_nat (w_offset w + Z.of_nat (S n) * w_stride w) = (d + len)%nat)
      as -> by (unfold d; lia).
    destruct (Nat.leb_spec d k) as [L1|L1];
      destruct (Nat.ltb_spec k (d + len)) as [L2|L2]; cbn [andb].
    + rewrite subspan_nth by lia.
      destruct (Nat.leb_spec (Z.to_nat (w_offset w)) k); [|unfold d in L1; lia].
      cbn [andb]. f_equal. unfold d in *. lia.
    + destruct (Nat.leb_spec (Z.to_nat (w_offset w)) k);
        destruct (Nat.ltb_spec k d); try reflexivity; lia.
    + destruct (Nat.leb_spec (Z.to_nat (w_offset w)) k);
        destruct (Nat.ltb_spec k d); try reflexivity; lia.
    + lia.
Qed.


Lemma window_ext (l1 l2 : list Z) o n :
  (o + n <= length l1)%nat -> (o + n <= length l2)%nat ->
  (forall k, (o <= k < o + n)%nat -> nth k l1 0 = nth k l2 0) ->
  take n (drop o l1) = take n (drop o l2).
Proof.
  intros H1 H2 H.
  apply (nth_ext _ _ 0 0).
  - rewrite !length_take, !length_drop. lia.
  - intros k Hk. rewrite length_take, length_drop in Hk.
    rewrite !nth_window by lia. apply H. lia.
Qed.

Lemma window_all (l rows : list Z) o :
  (o + length rows <= length l)%nat ->
  (forall k, (o <= k < o + length rows)%nat -> nth k l 0 = nth (k - o) rows 0) ->
  take (length rows) (drop o l) = rows.
Proof.
  intros H1 H.
  apply (nth_ext _ _ 0 0).
  - rewrite length_take, length_drop. lia.
  - intros k Hk. rewrite length_take, length_drop in Hk.
    rewrite nth_window by lia. rewrite H by lia. f_equal. lia.
Qed.

Lemma view_spec b j g :
  tiled b -> 0 <= j -> b_glyphs b !! Z.to_nat j = Some g ->
  view (build b) j
  = Some (mk_bitmap_view
            (take (Z.to_nat (gi_stride g * gi_height g))
                  (drop (Z.to_nat (gi_offset g)) (b_blob b)))
            (gi_width g) (gi_height g) (gi_stride g) (b_order b)).
Proof.
  intros (Hs & _ & _) Hj Hg.
  destruct (Hs _ _ Hg) as (_ & _ & _ & _ & Hin).
  unfold view, build, glyph_count. cbn.
  assert ((j <? Z.of_nat (length (b_glyphs b))) = true) as ->.
  { apply Z.ltb_lt. apply lookup_lt_Some in Hg. lia. }
  rewrite Hg.
  assert ((gi_offset g + gi_stride g * gi_height g <=? Z.of_nat (length (b_blob b)))
          = true) as -> by (apply Z.leb_le; exact Hin).
  reflexivity.
Qed.

Lemma add_glyph_packed_view b width height rows :
  made b -> is_u16 width -> is_u16 height -> Forall is_byte rows ->
  Z.of_nat (length rows) = height * packed_stride width ->
  exists b',
    add_glyph_packed b width height rows = Some (b', glyph_count (build b))
    /\ made b'
    /\ view (build b') (glyph_count (build b))
       = Some (mk_bitmap_view rows width height (packed_stride width) (b_order b))
    /\ forall j, 0 <= j < glyph_count (build b) ->
         view (build b') j = view (build b) j.
Proof.
  intros Hm Hw Hh Hrows Hlen.
  pose proof (reserve_writer b width height) as Hwr.
  pose proof (reserve_index b width height) as Hidx.
  pose proof (made_reserve b width height Hm Hw Hh) as Hm1.
  pose proof (stride_nonneg width Hw) as Hs0.
  unfold add_glyph_packed. rewrite Hlen, Z.eqb_refl.
  destruct (reserve_glyph b width height) as [b1 w] eqn:Er.
  cbn [fst snd] in *.
  assert (w_width w = width /\ w_height w = height
          /\ w_stride w = packed_stride width
          /\ w_offset w = Z.of_nat (length (b_blob b))
          /\ b_order b1 = b_order b
          /\ b_glyphs b1 = b_glyphs b ++ [mk_glyph_internal (Z.of_nat (length (b_blob b)))
                                          width height (packed_stride width)]
          /\ b_blob b1 = b_blob b ++ replicate (Z.to_nat (height * packed_stride width)) 0)
    as (Eww & Ewh & Ews & Ewo & Eord & Egl & Ebl).
  { unfold reserve_glyph in Er. injection Er as <- <-. cbn. repeat split. }
  destruct (packed_rows_loop b1 w rows (Z.to_nat height) Hm1 Hwr Hrows)
    as (b2 & E & Hm2 & Hwr2 & Hgl2 & Hord2 & Hl2 & Hnth).
  { rewrite Ewh, Ews. exact Hlen. }
  { rewrite Ewh. unfold is_u16 in Hh. lia. }
  rewrite Ews in E. rewrite E. exists b2.
  split; [rewrite Hidx; reflexivity|]. split; [exact Hm2|].
  pose proof (made_tiled b2 Hm2) as Ht2.
  pose proof (made_tiled b Hm) as Ht.
  assert (0 <= height) as Hh0 by (unfold is_u16 in Hh; lia).
  assert (length (b_blob b2)
          = (length (b_blob b) + Z.to_nat (height * packed_stride width))%nat) as Hl2'.
  { rewrite Hl2, Ebl, length_app, length_replicate. reflexivity. }
  split.
  - destruct Hwr2 as (Hi & Hg2 & Ho2).
    rewrite <- Hidx.
    rewrite (view_spec b2 _ _ Ht2 Hi Hg2).
    cbn [gi_stride gi_height gi_offset gi_width].
    rewrite Eww, Ewh, Ews, Ewo, Hord2, Eord. f_equal. f_equal.
    replace (Z.to_nat (packed_stride width * height)) with (length rows) by lia.
    rewrite Nat2Z.id.
    apply window_all; [lia|].
    intros k Hk. rewrite Hnth.
    rewrite Ewo, Ews, Nat2Z.id.
    destruct (Nat.leb_spec (length (b_blob b)) k); [|lia].
    destruct (Nat.ltb_spec k
                (Z.to_nat (Z.of_nat (length (b_blob b))
                           + Z.of_nat (Z.to_nat height) * packed_stride width)));
      [reflexivity | nia].
  - intros j Hj. unfold glyph_count, build in Hj. cbn in Hj.
    destruct (lookup_lt_is_Some_2 (b_glyphs b) (Z.to_nat j) ltac:(lia)) as [g Hg].
    assert (b_glyphs b2 !! Z.to_nat j = Some g) as Hg2.
    { rewrite Hgl2, Egl. apply lookup_app_l_Some. exact Hg. }
    rewrite (view_spec b2 j g Ht2 ltac:(lia) Hg2).
    rewrite (view_spec b j g Ht ltac:(lia) Hg).
    rewrite Hord2, Eord. f_equal. f_equal.
    destruct Ht as (Hs & _ & _).
    destruct (Hs _ _ Hg) as (Hgw & Hgh & Hgst & Hgo & Hgin).
    assert (0 <= gi_stride g * gi_height g) as Hsz.
    { pose proof (stride_nonneg _ Hgw). rewrite <- Hgst in *.
      unfold is_u16 in Hgh. nia. }
    apply window_ext; [lia | lia |].
    intros k Hk. rewrite Hnth, Ewo, Nat2Z.id.
    destruct (Nat.leb_spec (length (b_blob b)) k); [lia|].
    cbn [andb]. rewrite Ebl.
    rewrite !nth_lookup, lookup_app_l by lia. reflexivity.
Qed.


Lemma reserve_dimensions b b' width height :
  b_glyphs b' = b_glyphs (fst (reserve_glyph b width height)) ->
  glyph_count (build b') = glyph_count (build b) + 1
  /\ dimensions (build b') (glyph_count (build b)) = Some (width, height).
Proof.
  intros E. unfold dimensions, glyph_count, build. cbn [s_glyphs].
  rewrite E. unfold reserve_glyph. cbn [fst b_glyphs].
  rewrite length_app. cbn [length].
  split; [lia|].
  destruct (Z.ltb_spec (Z.of_nat (length (b_glyphs b)))
                       (Z.of_nat (length (b_glyphs b) + 1))); [|lia].
  rewrite Nat2Z.id, lookup_app_r by lia. rewrite Nat.sub_diag. reflexivity.
Qed.

(** A pixel written through a writer of a builder reads back from
    the built storage, in either bit order: inside its glyph
    [set_pixel(x, y, on)] does not fail, afterwards pixel [(x, y)] of that
    glyph is [on], and every other pixel of every glyph of the builder
    reads as it did before the write. *)
Theorem set_pixel_reads_back b w x y on :
  made b -> writer_of b w ->
  0 <= x < w_width w -> 0 <= y < w_height w ->
  exists b',
    set_pixel b w x y on = Some b'
    /\ made b'
    /\ forall j x' y', 0 <= j -> 0 <= x' -> 0 <= y' ->
         view_pixel (build b') j x' y'
         = if decide (j = w_glyph_index w /\ x' = x /\ y' = y)
           then Some on
           else view_pixel (build b) j x' y'.
Proof.
  intros Hm Hw Hx Hy.
  destruct (set_pixel_pixels b w x y on Hm Hw Hx Hy)
    as (b' & E & Hm' & _ & _ & Hpix).
  exists b'. split; [exact E|]. split; [exact Hm'|]. exact Hpix.
Qed.

Lemma set_pixel_reads_back_witness :
  exists b',
    set_pixel StorageSamples.two_glyphs StorageSamples.second_writer 9 1 true
    = Some b'
    /\ made b'
    /\ forall j x' y', 0 <= j -> 0 <= x' -> 0 <= y' ->
         view_pixel (build b') j x' y'
         = if decide (j = w_glyph_index StorageSamples.second_writer
                      /\ x' = 9 /\ y' = 1)
           then Some true
           else view_pixel (build StorageSamples.two_glyphs) j x' y'.
Proof.
  apply (set_pixel_reads_back StorageSamples.two_glyphs
           StorageSamples.second_writer 9 1 true).
  - apply made_reserve; [apply made_reserve; [apply made_new|..]|..];
      unfold is_u16; lia.
  - exact (reserve_writer _ 10 2).
  - change (w_width StorageSamples.second_writer) with 10. lia.
  - change (w_height StorageSamples.second_writer) with 2. lia.
Defined.

(** [add_glyph_from_fn] on a builder stores the glyph the callback
    describes: it does not fail, it returns the next glyph index, the
    built storage has one glyph more, of the given size, whose pixel
    [(x, y)] is [pixel_on(x, y)], and the pixels of the glyphs added before
    are unchanged. *)
Theorem add_glyph_from_fn_reads_back b width height pixel_on :
  made b -> is_u16 width -> is_u16 height ->
  exists b',
    add_glyph_from_fn b width height pixel_on = Some (b', glyph_count (build b))
    /\ made b'
    /\ glyph_count (build b') = glyph_count (build b) + 1
    /\ dimensions (build b') (glyph_count (build b)) = Some (width, height)
    /\ (forall x y, 0 <= x < width -> 0 <= y < height ->
          view_pixel (build b') (glyph_count (build b)) x y = Some (pixel_on x y))
    /\ (forall j x y, 0 <= j < glyph_count (build b) -> 0 <= x -> 0 <= y ->
          view_pixel (build b') j x y = view_pixel (build b) j x y).
Proof.
  intros Hm Hw Hh.
  destruct (add_glyph_from_fn_pixels b width height pixel_on Hm Hw Hh)
    as (b' & E & Hm' & Hgl & Hnew & Hold).
  destruct (reserve_dimensions b b' width height Hgl) as [Hcount Hdim].
  exists b'. repeat (split; [assumption|]). exact Hold.
Qed.

Lemma add_glyph_from_fn_reads_back_witness :
  exists b',
    add_glyph_from_fn (bitmap_builder_new msb_first) 10 2 StorageSamples.chequer
    = Some (b', glyph_count (build (bitmap_builder_new msb_first)))
    /\ made b'
    /\ glyph_count (build b')
       = glyph_count (build (bitmap_builder_new msb_first)) + 1
    /\ dimensions (build b') (glyph_count (build (bitmap_builder_new msb_first)))
       = Some (10, 2)
    /\ (forall x y, 0 <= x < 10 -> 0 <= y < 2 ->
          view_pixel (build b') (glyph_count (build (bitmap_builder_new msb_first))) x y
          = Some (StorageSamples.chequer x y))
    /\ (forall j x y,
          0 <= j < glyph_count (build (bitmap_builder_new msb_first)) ->
          0 <= x -> 0 <= y ->
          view_pixel (build b') j x y
          = view_pixel (build (bitmap_builder_new msb_first)) j x y).
Proof.
  apply (add_glyph_from_fn_reads_back (bitmap_builder_new msb_first) 10 2
           StorageSamples.chequer).
  - apply made_new.
  - unfold is_u16. lia.
  - unfold is_u16. lia.
Defined.

(** [add_glyph_packed] on a builder, given [height] rows of
    [packed_stride(width)] bytes, does not fail and returns the next glyph
    index; the view of that glyph in the built storage is a view of exactly
    the given bytes, so each of its rows is the matching slice of [rows],
    and the views of the glyphs added before are unchanged. *)
Theorem add_glyph_packed_reads_back b width height rows :
  made b -> is_u16 width -> is_u16 height -> Forall is_byte rows ->
  Z.of_nat (length rows) = height * packed_stride width ->
  exists b',
    add_glyph_packed b width height rows = Some (b', glyph_count (build b))
    /\ made b'
    /\ view (build b') (glyph_count (build b))
       = Some (mk_bitmap_view rows width height (packed_stride width) (b_order b))
    /\ (forall y, 0 <= y < height ->
          view_row (build b') (glyph_count (build b)) y
          = Some (subspan rows (y * packed_stride width) (packed_stride width)))
    /\ (forall j, 0 <= j < glyph_count (build b) ->
          view (build b') j = view (build b) j).
Proof.
  intros Hm Hw Hh Hrows Hlen.
  destruct (add_glyph_packed_view b width height rows Hm Hw Hh Hrows Hlen)
    as (b' & E & Hm' & Hview & Hold).
  exists b'. split; [exact E|]. split; [exact Hm'|]. split; [exact Hview|].
  split; [|exact Hold].
  intros y Hy. unfold view_row. rewrite Hview. unfold row. cbn.
  destruct (Z.ltb_spec y height); [|lia]. reflexivity.
Qed.

Lemma add_glyph_packed_reads_back_witness :
  exists b',
    add_glyph_packed (bitmap_builder_new msb_first) 10 2 [195; 64; 255; 128]
    = Some (b', glyph_count (build (bitmap_builder_new msb_first)))
    /\ made b'
    /\ view (build b') (glyph_count (build (bitmap_builder_new msb_first)))
       = Some (mk_bitmap_view [195; 64; 255; 128] 10 2 (packed_stride 10)
                 (b_order (bitmap_builder_new msb_first)))
    /\ (forall y, 0 <= y < 2 ->
          view_row (build b') (glyph_count (build (bitmap_builder_new msb_first))) y
          = Some (subspan [195; 64; 255; 128] (y * packed_stride 10)
                    (packed_stride 10)))
    /\ (forall j,
          0 <= j < glyph_count (build (bitmap_builder_new msb_first)) ->
          view (build b') j = view (build (bitmap_builder_new msb_first)) j).
Proof.
  apply (add_glyph_packed_reads_back (bitmap_builder_new msb_first) 10 2
           [195; 64; 255; 128]).
  - apply made_new.
  - unfold is_u16. lia.
  - unfold is_u16. lia.
  - repeat constructor; unfold is_byte; lia.
  - reflexivity.
Defined.

End BitmapStorageFacts.

Module WrapContentFacts.
Import TextRasterizer TextRenderer WrapContent.

Lemma cut_app_spaces text lines spaces :
  cut text lines -> all_spaces spaces -> cut (text ++ spaces) lines.
Proof.
  intros Hcut Hsp. induction Hcut as [sp0 H0 | sp0 line rest lines H0 Hne _ IH].
  - apply cut_end. apply Forall_app. split; assumption.
  - rewrite <- !app_assoc. apply cut_line; assumption.
Qed.

Lemma cut_snoc text lines line :
  cut text lines -> line <> [] -> cut (text ++ line) (lines ++ [line]).
Proof.
  intros Hcut Hline.
  induction Hcut as [sp0 H0 | sp0 line0 rest lines H0 Hne _ IH].
  - cbn [app]. rewrite <- (app_nil_r line) at 1.
    apply cut_line; [exact H0 | exact Hline | apply cut_end; constructor].
  - rewrite <- !app_assoc, <- app_comm_cons. apply cut_line; assumption.
Qed.

Lemma take_segment (text : list byte) a b :
  (a <= b)%nat -> take b text = take a text ++ take (b - a) (drop a text).
Proof.
  intros Hab. rewrite take_drop_commute.
  replace (a + (b - a))%nat with b by lia.
  rewrite <- (take_drop a (take b text)) at 1.
  rewrite take_take, Nat.min_l by lia. reflexivity.
Qed.

Lemma trim_trailing_bounds text ls e :
  (trim_trailing text ls e <= e)%nat
  /\ ((ls <= e)%nat -> (ls <= trim_trailing text ls e)%nat).
Proof.
  induction e as [|e IH]; cbn [trim_trailing]; [lia|].
  destruct (Nat.ltb_spec ls (S e)); cbn [andb]; [|lia].
  destruct (is_space (nth e text Byte.x00)); lia.
Qed.

(** What the trimming loop of [flush_line] steps over is spaces. *)
Lemma trim_trailing_drops_spaces text ls e :
  (e <= length text)%nat ->
  all_spaces (drop (trim_trailing text ls e) (take e text)).
Proof.
  induction e as [|e IH]; intros He; cbn [trim_trailing].
  - rewrite take_0. constructor.
  - destruct ((ls <? S e)%nat && is_space (nth e text Byte.x00)) eqn:E.
    + apply andb_true_iff in E as [_ Hsp].
      destruct (lookup_lt_is_Some_2 text e ltac:(lia)) as [b Hb].
      rewrite (nth_lookup_Some _ _ _ _ Hb) in Hsp.
      pose proof (trim_trailing_bounds text ls e) as [Hle _].
      rewrite (take_S_r _ _ _ Hb), drop_app_le by (rewrite length_take; lia).
      apply Forall_app. split; [apply IH; lia|].
      constructor; [exact Hsp | constructor].
    + rewrite drop_ge by (rewrite length_take; lia). constructor.
Qed.

Lemma flush_line_keeps text st c :
  (line_start st <= c)%nat -> (c <= length text)%nat ->
  cut (take (line_start st) text) (lines st) ->
  cut (take c text) (flush_line text st c).
Proof.
  intros Hls Hc Hkeep. unfold flush_line.
  destruct (Nat.ltb_spec (line_start st) c) as [Hlt|Hge].
  2:{ replace c with (line_start st) by lia. exact Hkeep. }
  pose proof (trim_trailing_bounds text (line_start st) c) as [Hle Hge].
  specialize (Hge Hls).
  pose proof (trim_trailing_drops_spaces text (line_start st) c Hc) as Hsp.
  set (e := trim_trailing text (line_start st) c) in *.
  assert (Hsplit : take c text = take e text ++ drop e (take c text)).
  { rewrite <- (take_drop e (take c text)) at 1.
    rewrite take_take, Nat.min_l by lia. reflexivity. }
  rewrite Hsplit.
  destruct (Nat.ltb_spec (line_start st) e) as [Hlt'|Hge'].
  - apply cut_app_spaces; [|exact Hsp].
    rewrite (take_segment text (line_start st) e) by lia.
    apply cut_snoc; [exact Hkeep|].
    unfold substring. intros E. apply (f_equal length) in E.
    rewrite length_take, length_drop in E. cbn in E. lia.
  - apply cut_app_spaces; [|exact Hsp].
    replace e with (line_start st) by lia. exact Hkeep.
Qed.

Lemma wrap_step_keeps r text max_width st :
  wrap_keeps text st -> (current st < length text)%nat ->
  exists st',
    wrap_step r text max_width st = Some st'
    /\ wrap_keeps text st'
    /\ (current st < current st')%nat.
Proof.
  intros (Hlc & Hcl & Hkeep) Hin.
  assert (drop (current st) text <> []) as Hrest.
  { intros E. apply (f_equal length) in E. rewrite length_drop in E.
    cbn in E. lia. }
  pose proof (Utf8Facts.decode_consumed_range _ Hrest) as Hrange.
  rewrite length_drop in Hrange.
  unfold wrap_step.
  set (d := Utf8.utf8_decode_one (drop (current st) text)) in *.
  set (n := Z.to_nat (Utf8.bytes_consumed d)) in *.
  assert (1 <= n)%nat as Hn by (unfold n; lia).
  assert (current st + n <= length text)%nat as Hnl by (unfold n; lia).
  destruct (Z.eqb_spec (Utf8.bytes_consumed d) 0) as [E0|_]; [lia|].
  destruct (Utf8.codepoint d =? 10).
  - eexists. split; [reflexivity|].
    pose proof (flush_line_keeps text st (current st + n)
                  ltac:(lia) ltac:(lia) Hkeep) as Hk.
    split; [|cbn; lia].
    unfold wrap_keeps. cbn [lines line_start current].
    split; [lia|]. split; [lia | exact Hk].
  - set (ws := if Utf8.codepoint d =? 32
               then ((current st + n)%nat, 0%Q)
               else (word_start st, word_width st)).
    destruct ws as [word_start' word_width'] eqn:Ews.
    pose proof (flush_line_keeps text st (current st)
                  ltac:(lia) ltac:(lia) Hkeep) as Hcur.
    destruct (Qgtb (line_width st + advance_x (measure_glyph r (Utf8.codepoint d)))
                   max_width && Qgtb (line_width st) 0).
    + destruct (Nat.ltb_spec (line_start st) word_start') as [H1|H1];
        destruct (Nat.leb_spec word_start' (current st)) as [H2|H2]; cbn [andb];
        (eexists; split; [reflexivity|]; split; [|cbn; lia]);
        unfold wrap_keeps; cbn [lines line_start current];
        (split; [lia|]); (split; [lia|]); try exact Hcur.
      apply flush_line_keeps; [lia | lia | exact Hkeep].
    + eexists. split; [reflexivity|]. split; [|cbn; lia].
      unfold wrap_keeps. cbn [lines line_start current].
      split; [lia|]. split; [lia | exact Hkeep].
Qed.

Lemma wrap_loop_keeps r text max_width fuel st :
  wrap_keeps text st ->
  (length text - current st < fuel)%nat ->
  exists st',
    wrap_loop fuel r text max_width st = Some st'
    /\ wrap_keeps text st'
    /\ current st' = length text.
Proof.
  revert st. induction fuel as [|fuel IH]; intros st Hk Hfuel; [lia|].
  cbn [wrap_loop].
  destruct (Nat.ltb_spec (current st) (length text)) as [Hin|Hout].
  - destruct (wrap_step_keeps r text max_width st Hk Hin)
      as (st1 & Hstep & Hk1 & Hlt).
    rewrite Hstep. apply IH; [exact Hk1 | lia].
  - exists st. split; [reflexivity|]. split; [exact Hk|].
    destruct Hk as (_ & Hcl & _). lia.
Qed.

Lemma wrap_lines_content r text max_width :
  (0 < max_width)%Q ->
  exists wrapped,
    wrap_lines r text max_width = Some wrapped /\ cut text wrapped.
Proof.
  intros Hpos. unfold wrap_lines.
  destruct text as [|b0 text0] eqn:Htext.
  { exists []. split; [reflexivity | apply cut_end; constructor]. }
  rewrite <- Htext.
  assert (Qle_bool max_width 0 = false) as ->.
  { destruct (Qle_bool max_width 0) eqn:E; [|reflexivity].
    apply Qle_bool_iff in E. lra. }
  destruct (wrap_loop_keeps r text max_width (S (length text))
              (mk_wrap_state [] 0 0 0 0 0))
    as (st & Hloop & (Hlc & Hcl & Hkeep) & Hend).
  { unfold wrap_keeps. cbn [lines line_start current]. split; [lia|].
    split; [lia|]. rewrite take_0. apply cut_end. constructor. }
  { cbn [current]. lia. }
  rewrite Hloop. eexists. split; [reflexivity|].
  unfold wrap_finish.
  destruct (Nat.ltb_spec (line_start st) (current st)) as [Hlt|Hge].
  - rewrite <- (firstn_all text) at 1. rewrite <- Hend.
    rewrite (take_segment text (line_start st) (current st)) by lia.
    apply cut_snoc; [exact Hkeep|].
    unfold substring. intros E. apply (f_equal length) in E.
    rewrite length_take, length_drop in E. cbn in E. lia.
  - rewrite <- (firstn_all text) at 1.
    replace (length text) with (line_start st) by lia. exact Hkeep.
Qed.

(** The word wrap cuts its lines out of the text and loses nothing but
    spaces. For every rasterizer, text and width [wrap_lines] ends. When
    the width is zero or negative it returns no line at all. When the
    width is positive the lines it returns are pieces of the text, none of
    them empty, in the order of the text and byte for byte as the text has
    them, and every byte of the text that is in no line, before the first
    line, between two lines or after the last one, is a space: line feeds
    and the bytes of malformed UTF-8 are all kept. *)
Theorem wrap_lines_keeps_the_text (r : text_rasterizer) (text : list byte)
    (max_width : Q) :
  exists wrapped,
    wrap_lines r text max_width = Some wrapped
    /\ if Qle_bool max_width 0 then wrapped = [] else cut text wrapped.
Proof.
  destruct (Qle_bool max_width 0) eqn:E.
  - exists []. unfold wrap_lines. rewrite E.
    destruct text; split; reflexivity.
  - assert (0 < max_width)%Q as Hpos.
    { destruct (Qlt_le_dec 0 max_width) as [H|H]; [exact H|].
      apply Qle_bool_iff in H. congruence. }
    exact (wrap_lines_content r text max_width Hpos).
Qed.

End WrapContentFacts.

Module RedrawFacts.
Import AtlasSurface TextRasterizer GlyphCache TextRenderer GlyphPacking Redraw.
Import GlyphCacheFacts GlyphPackingFacts.

Lemma get_extends c cp : extends c (snd (get c cp)).
Proof. exact (apply_operation_extends c (op_get cp)). Qed.

(** One turn of the loop of [draw_baseline], told by the glyph [get]
    returns. *)
Lemma draw_step_first y st cp st' :
  draw_step y st cp = Ok st' ->
  let g := fst (get (ds_cache st) cp) in
  ds_cache st' = snd (get (ds_cache st) cp)
  /\ ds_pen_x st' = (kerned_pen st cp + cg_advance_x g)%Q
  /\ ds_prev_codepoint st' = cp
  /\ map blit_place (ds_blits st')
     = map blit_place (ds_blits st) ++ glyph_places y (kerned_pen st cp) g.
Proof.
  unfold draw_step, kerned_pen, glyph_places. cbv zeta.
  destruct (get (ds_cache st) cp) as [g c1]. cbn [fst snd].
  destruct ((0 <? rect_w (rect g)) && (0 <? rect_h (rect g))).
  - unfold atlas.
    destruct ((atlas_index g <? 0)
              || (Z.of_nat (length (m_atlases c1)) <=? atlas_index g));
      [discriminate|].
    intros E. injection E as <-. cbn.
    rewrite map_app. cbn. auto.
  - intros E. injection E as <-. cbn. rewrite app_nil_r. auto.
Qed.

(** The same turn on a cache that holds the glyph: the cache is left as it
    is. *)
Lemma draw_step_cached y st cp g :
  well_formed (ds_cache st) -> m_cache (ds_cache st) !! cp = Some g ->
  exists st',
    draw_step y st cp = Ok st'
    /\ ds_cache st' = ds_cache st
    /\ ds_pen_x st' = (kerned_pen st cp + cg_advance_x g)%Q
    /\ ds_prev_codepoint st' = cp
    /\ map blit_place (ds_blits st')
       = map blit_place (ds_blits st) ++ glyph_places y (kerned_pen st cp) g.
Proof.
  intros [Hpages Hglyphs] Hg.
  destruct (Hglyphs cp g Hg) as [Hidx _].
  unfold draw_step, kerned_pen, glyph_places, get. cbv zeta. rewrite Hg.
  destruct ((0 <? rect_w (rect g)) && (0 <? rect_h (rect g))).
  - unfold atlas.
    destruct (Z.ltb_spec (atlas_index g) 0); [lia|].
    destruct (Z.leb_spec (Z.of_nat (length (m_atlases (ds_cache st))))
                         (atlas_index g)); [lia|].
    cbn [orb]. eexists. split; [reflexivity|]. cbn.
    rewrite map_app. cbn. auto.
  - eexists. split; [reflexivity|]. cbn. rewrite app_nil_r. auto.
Qed.

Lemma draw_step_grows y st cp st' :
  well_formed (ds_cache st) -> draw_step y st cp = Ok st' ->
  well_formed (ds_cache st')
  /\ extends (ds_cache st) (ds_cache st')
  /\ m_cache (ds_cache st') !! cp = Some (fst (get (ds_cache st) cp)).
Proof.
  intros Hwf Hstep.
  destruct (draw_step_first y st cp st' Hstep) as (-> & _).
  split; [apply get_well_formed; exact Hwf|].
  split; [apply get_extends | apply get_stored].
Qed.

Lemma draw_loop_grows y cps st st' :
  well_formed (ds_cache st) -> draw_loop y st cps = Ok st' ->
  well_formed (ds_cache st')
  /\ extends (ds_cache st) (ds_cache st')
  /\ forall cp, cp ∈ cps -> is_Some (m_cache (ds_cache st') !! cp).
Proof.
  revert st. induction cps as [|cp cps IH]; intros st Hwf Hloop.
  - cbn in Hloop. injection Hloop as <-.
    split; [exact Hwf|]. split; [apply extends_refl|].
    intros cp Hin. apply elem_of_nil in Hin. destruct Hin.
  - cbn [draw_loop] in Hloop.
    destruct (draw_step y st cp) as [st1|e] eqn:Hstep; [|discriminate].
    destruct (draw_step_grows y st cp st1 Hwf Hstep) as (Hwf1 & Hext1 & Hcp).
    destruct (IH st1 Hwf1 Hloop) as (Hwf' & Hext' & Hall).
    split; [exact Hwf'|].
    split; [exact (extends_trans _ _ _ Hext1 Hext')|].
    intros cp' Hin. apply elem_of_cons in Hin as [->|Hin]; [|exact (Hall cp' Hin)].
    destruct Hext' as (Hkeep & _). rewrite (Hkeep _ _ Hcp). eauto.
Qed.

(** A run of the loop on the cache a first run ends with: the same pen
    and the same places, and the cache is left as it is. *)
Lemma draw_loop_again y cps st1 st1' st2 :
  well_formed (ds_cache st1) -> draw_loop y st1 cps = Ok st1' ->
  ds_cache st2 = ds_cache st1' ->
  ds_pen_x st2 = ds_pen_x st1 ->
  ds_prev_codepoint st2 = ds_prev_codepoint st1 ->
  map blit_place (ds_blits st2) = map blit_place (ds_blits st1) ->
  exists st2',
    draw_loop y st2 cps = Ok st2'
    /\ ds_cache st2' = ds_cache st1'
    /\ ds_pen_x st2' = ds_pen_x st1'
    /\ map blit_place (ds_blits st2') = map blit_place (ds_blits st1').
Proof.
  revert st1 st2. induction cps as [|cp cps IH];
    intros st1 st2 Hwf Hloop Hc Hpen Hprev Hblits.
  - cbn in Hloop. injection Hloop as <-. exists st2. cbn. auto.
  - cbn [draw_loop] in Hloop.
    destruct (draw_step y st1 cp) as [st1n|e] eqn:Hstep; [|discriminate].
    destruct (draw_step_grows y st1 cp st1n Hwf Hstep) as (Hwf1 & Hext1 & Hcp).
    destruct (draw_loop_grows y cps st1n st1' Hwf1 Hloop) as (Hwf' & Hext' & _).
    destruct (draw_step_first y st1 cp st1n Hstep) as (_ & Hp1 & Hv1 & Hb1).
    set (g := fst (get (ds_cache st1) cp)) in *.
    assert (m_cache (ds_cache st2) !! cp = Some g) as Hg2.
    { rewrite Hc. destruct Hext' as (Hkeep & _). apply Hkeep. exact Hcp. }
    assert (m_rasterizer (ds_cache st2) = m_rasterizer (ds_cache st1)) as Hr.
    { rewrite Hc.
      destruct (extends_trans _ _ _ Hext1 Hext') as (_ & _ & _ & _ & Hr).
      exact Hr. }
    assert (kerned_pen st2 cp = kerned_pen st1 cp) as Hk.
    { unfold kerned_pen. rewrite Hpen, Hprev, Hr. reflexivity. }
    destruct (draw_step_cached y st2 cp g) as (st2n & Hstep2 & Hc2 & Hp2 & Hv2 & Hb2);
      [rewrite Hc; exact Hwf' | exact Hg2 |].
    destruct (IH st1n st2n Hwf1 Hloop) as (st2' & Hloop2 & Hres);
      [congruence | congruence | congruence | congruence |].
    exists st2'. cbn [draw_loop]. rewrite Hstep2. auto.
Qed.

(** The loop on a cache that holds every codepoint of the text. *)
Lemma draw_loop_cached y cps st :
  well_formed (ds_cache st) ->
  (forall cp, cp ∈ cps -> is_Some (m_cache (ds_cache st) !! cp)) ->
  exists st', draw_loop y st cps = Ok st' /\ ds_cache st' = ds_cache st.
Proof.
  revert st. induction cps as [|cp cps IH]; intros st Hwf Hall.
  - exists st. auto.
  - destruct (Hall cp) as [g Hg]; [apply elem_of_cons; left; reflexivity|].
    destruct (draw_step_cached y st cp g Hwf Hg) as (st1 & Hstep & Hc1 & _).
    destruct (IH st1) as (st' & Hloop & Hc').
    + rewrite Hc1. exact Hwf.
    + intros cp' Hin. rewrite Hc1. apply Hall. apply elem_of_cons. auto.
    + exists st'. cbn [draw_loop]. rewrite Hstep. split; [exact Hloop | congruence].
Qed.

Lemma draw_baseline_again c text x y :
  well_formed c ->
  exists w blits c',
    draw_baseline c text x y = Ok (w, blits, c')
    /\ well_formed c' /\ extends c c'
    /\ (forall cp, cp ∈ Utf8.utf8_view text -> is_cached c' cp = true)
    /\ exists blits',
         draw_baseline c' text x y = Ok (w, blits', c')
         /\ map blit_place blits' = map blit_place blits.
Proof.
  intros Hwf. unfold draw_baseline.
  destruct text as [|b text].
  { exists 0%Q, [], c. split; [reflexivity|]. split; [exact Hwf|].
    split; [apply extends_refl|]. split.
    - intros cp Hin. rewrite Utf8Facts.utf8_view_nil in Hin.
      apply elem_of_nil in Hin. destruct Hin.
    - exists []. auto. }
  set (cps := Utf8.utf8_view (b :: text)).
  destruct (TextRendererFacts.draw_loop_ok y cps (mk_draw_state c x 0 []))
    as (st1 & Hloop & _); [exact Hwf | constructor |].
  rewrite Hloop.
  destruct (draw_loop_grows y cps (mk_draw_state c x 0 []) st1 Hwf Hloop)
    as (Hwf' & Hext & Hall).
  cbn [ds_cache] in Hext.
  exists (ds_pen_x st1 - x)%Q, (ds_blits st1), (ds_cache st1).
  split; [reflexivity|]. split; [exact Hwf'|]. split; [exact Hext|].
  split; [intros cp Hin; apply is_cached_spec; exact (Hall cp Hin)|].
  destruct (draw_loop_again y cps (mk_draw_state c x 0 []) st1
              (mk_draw_state (ds_cache st1) x 0 []) Hwf Hloop)
    as (st2 & Hloop2 & Hc2 & Hp2 & Hb2); [reflexivity..|].
  rewrite Hloop2. exists (ds_blits st2).
  split; [|exact Hb2]. rewrite Hc2, Hp2. reflexivity.
Qed.

(** Drawing a text caches its glyphs, and drawing it again rasterizes
    nothing. On a cache built by the constructor and the cache operations,
    [draw] completes; afterwards every codepoint of the text is cached;
    and a second [draw] of the same text at the same position returns the
    same width, blits the same rectangles to the same places and leaves
    the cache as the first call left it. The same holds of a first [draw]
    after [cache_string] of the text: it leaves the cache as it is. *)
Theorem redraw_leaves_the_cache (c : glyph_cache) (text : list byte) (x y : Q) :
  reachable c ->
  (exists w blits c',
     draw c text x y = Ok (w, blits, c')
     /\ (forall cp, cp ∈ Utf8.utf8_view text -> is_cached c' cp = true)
     /\ exists blits',
          draw c' text x y = Ok (w, blits', c')
          /\ map blit_place blits' = map blit_place blits)
  /\ (exists w blits,
        draw (cache_string c text) text x y = Ok (w, blits, cache_string c text)).
Proof.
  intros Hreach. pose proof (reachable_well_formed c Hreach) as Hwf.
  split.
  - unfold draw at 1. destruct text as [|b text].
    + exists 0%Q, [], c. split; [reflexivity|]. split.
      * intros cp Hin. rewrite Utf8Facts.utf8_view_nil in Hin.
        apply elem_of_nil in Hin. destruct Hin.
      * exists []. auto.
    + destruct (draw_baseline_again c (b :: text) x
                  (y + ascent (get_metrics (m_rasterizer c))) Hwf)
        as (w & blits & c' & Hd & _ & Hext & Hall & blits' & Hd' & Hb).
      exists w, blits, c'. split; [exact Hd|]. split; [exact Hall|].
      exists blits'. split; [|exact Hb].
      unfold draw. destruct Hext as (_ & _ & _ & _ & ->). exact Hd'.
  - unfold draw. destruct text as [|b text]; [eauto|].
    set (c1 := cache_string c (b :: text)).
    assert (well_formed c1) as Hwf1
        by (apply foldl_cache_if_missing_well_formed; exact Hwf).
    unfold draw_baseline.
    destruct (draw_loop_cached (y + ascent (get_metrics (m_rasterizer c1)))
                (Utf8.utf8_view (b :: text)) (mk_draw_state c1 x 0 []))
      as (st & Hloop & Hc); [exact Hwf1 | |].
    + intros cp Hin. cbn [ds_cache]. apply is_cached_spec.
      apply foldl_cache_if_missing_caches. exact Hin.
    + rewrite Hloop. cbn [ds_cache] in Hc. rewrite Hc. eauto.
Qed.

Lemma redraw_leaves_the_cache_witness :
  (exists w blits c',
     draw CacheSamples.cache_bang (list_byte_of_string "! !") 0 0
     = Ok (w, blits, c')
     /\ (forall cp, cp ∈ Utf8.utf8_view (list_byte_of_string "! !") ->
                    is_cached c' cp = true)
     /\ exists blits',
          draw c' (list_byte_of_string "! !") 0 0 = Ok (w, blits', c')
          /\ map blit_place blits' = map blit_place blits)
  /\ (exists w blits,
        draw (cache_string CacheSamples.cache_bang (list_byte_of_string "! !"))
             (list_byte_of_string "! !") 0 0
        = Ok (w, blits,
              cache_string CacheSamples.cache_bang (list_byte_of_string "! !"))).
Proof.
  apply (redraw_leaves_the_cache CacheSamples.cache_bang
           (list_byte_of_string "! !") 0 0).
  apply reachable_new.
Defined.

End RedrawFacts.

Module MeasureWrappedFacts.
Import TextRasterizer TextRenderer MeasureWrapped.

Lemma std_max_spec a b :
  (a <= std_max a b)%Q /\ (b <= std_max a b)%Q
  /\ (std_max a b = a \/ std_max a b = b).
Proof.
  unfold std_max. destruct (Qgtb b a) eqn:E.
  - apply TextRendererFacts.Qgtb_true in E.
    split; [lra|]. split; [lra | auto].
  - apply TextRendererFacts.Qgtb_false in E.
    split; [lra|]. split; [lra | auto].
Qed.

Lemma std_max_le a b m : (a <= m)%Q -> (b <= m)%Q -> (std_max a b <= m)%Q.
Proof.
  intros Ha Hb. destruct (std_max_spec a b) as (_ & _ & [-> | ->]); assumption.
Qed.

(** The count grows by at most one for a codepoint, and the widest line so
    far is not negative. *)
Lemma measure_wrapped_step_count r max_width st cp :
  (0 <= wm_max_line_width st)%Q ->
  let st' := measure_wrapped_step r max_width st cp in
  wm_line_count st <= wm_line_count st' <= wm_line_count st + 1
  /\ (0 <= wm_max_line_width st')%Q.
Proof.
  intros H0. unfold measure_wrapped_step. cbv zeta.
  pose proof (std_max_spec (wm_max_line_width st) (wm_line_width st)) as (Hm & _).
  destruct (cp =? 10); cbn; [split; [lia | lra]|].
  destruct (_ && _); cbn; [split; [lia | lra] | split; [lia | exact H0]].
Qed.

Lemma measure_wrapped_loop_count r max_width cps st :
  (0 <= wm_max_line_width st)%Q ->
  let st' := foldl (measure_wrapped_step r max_width) st cps in
  wm_line_count st <= wm_line_count st'
                   <= wm_line_count st + Z.of_nat (length cps)
  /\ (0 <= wm_max_line_width st')%Q.
Proof.
  revert st. induction cps as [|cp cps IH]; intros st H0; cbv zeta.
  - cbn. split; [lia | exact H0].
  - cbn [foldl length].
    destruct (measure_wrapped_step_count r max_width st cp H0) as [Hc Hm].
    destruct (IH _ Hm) as [Hc' Hm']. split; [lia | exact Hm'].
Qed.

Section Narrow.

Variable r : text_rasterizer.
Variable max_width : Q.
Hypothesis width_positive : (0 < max_width)%Q.
Hypothesis glyphs_fit : forall cp, (advance_x (measure_glyph r cp) <= max_width)%Q.
Hypothesis kerning_tightens : forall a b, (get_kerning r a b <= 0)%Q.

Lemma measure_wrapped_step_narrow st cp :
  (wm_line_width st <= max_width)%Q -> (wm_max_line_width st <= max_width)%Q ->
  let st' := measure_wrapped_step r max_width st cp in
  (wm_line_width st' <= max_width)%Q /\ (wm_max_line_width st' <= max_width)%Q.
Proof.
  intros Hl Hm. unfold measure_wrapped_step. cbv zeta.
  pose proof (std_max_le _ _ _ Hm Hl) as Hmax.
  destruct (cp =? 10); cbn; [split; [lra | exact Hmax]|].
  set (kern := if negb (wm_prev_codepoint st =? 0)
               then get_kerning r (wm_prev_codepoint st) cp else 0%Q).
  assert (kern <= 0)%Q as Hk.
  { unfold kern. destruct (negb _); [apply kerning_tightens | lra]. }
  pose proof (glyphs_fit cp) as Ha.
  destruct (Qgtb max_width 0) eqn:E0.
  2:{ apply TextRendererFacts.Qgtb_false in E0. lra. }
  cbn [andb].
  destruct (Qgtb (wm_line_width st + (kern + advance_x (measure_glyph r cp)))
                 max_width) eqn:E1; cbn [andb].
  - destruct (Qgtb (wm_line_width st) 0) eqn:E2; cbn.
    + split; [exact Ha | exact Hmax].
    + apply TextRendererFacts.Qgtb_false in E2. split; [lra | exact Hm].
  - apply TextRendererFacts.Qgtb_false in E1. cbn. split; [exact E1 | exact Hm].
Qed.

Lemma measure_wrapped_loop_narrow cps st :
  (wm_line_width st <= max_width)%Q -> (wm_max_line_width st <= max_width)%Q ->
  let st' := foldl (measure_wrapped_step r max_width) st cps in
  (wm_line_width st' <= max_width)%Q /\ (wm_max_line_width st' <= max_width)%Q.
Proof.
  revert st. induction cps as [|cp cps IH]; intros st Hl Hm; cbv zeta.
  - cbn. auto.
  - cbn [foldl].
    destruct (measure_wrapped_step_narrow st cp Hl Hm) as [Hl' Hm'].
    exact (IH _ Hl' Hm').
Qed.

End Narrow.

(** [measure_wrapped] stays within the wrap width. When the width is
    positive, no glyph advances the pen by more than it and kerning never
    widens a pair, the width measured is at most [max_width], and it is
    never negative. For a text that is not empty the height is the line
    height times the number of lines counted, which is at least one and at
    most one more than the number of codepoints. *)
Theorem measure_wrapped_within_width (r : text_rasterizer) (text : list byte)
    (max_width : Q) :
  (0 < max_width)%Q ->
  (forall cp, (advance_x (measure_glyph r cp) <= max_width)%Q) ->
  (forall a b, (get_kerning r a b <= 0)%Q) ->
  (0 <= te_width (measure_wrapped r text max_width) <= max_width)%Q
  /\ (text <> [] ->
      te_height (measure_wrapped r text max_width)
      = (line_height (get_metrics r)
         * inject_Z (wrapped_line_count r text max_width))%Q
      /\ 1 <= wrapped_line_count r text max_width
           <= 1 + Z.of_nat (length (Utf8.utf8_view text))).
Proof.
  intros Hpos Hfit Hkern.
  pose proof (measure_wrapped_loop_count r max_width (Utf8.utf8_view text)
                (mk_wrapped_measure 0 0 1 0)) as Hcount.
  cbv zeta in Hcount. cbn [wm_max_line_width wm_line_count] in Hcount.
  destruct Hcount as [Hc H0]; [lra|].
  pose proof (measure_wrapped_loop_narrow r max_width Hpos Hfit Hkern
                (Utf8.utf8_view text) (mk_wrapped_measure 0 0 1 0)) as Hnarrow.
  cbv zeta in Hnarrow. cbn [wm_max_line_width wm_line_width] in Hnarrow.
  destruct Hnarrow as [Hl Hm]; [lra | lra |].
  split.
  - unfold measure_wrapped. destruct text as [|b text]; [cbn; lra|].
    cbv zeta. cbn [te_width]. fold (measure_wrapped_loop r (b :: text) max_width).
    unfold measure_wrapped_loop.
    split.
    + pose proof (std_max_spec
                    (wm_max_line_width
                       (foldl (measure_wrapped_step r max_width)
                              (mk_wrapped_measure 0 0 1 0)
                              (Utf8.utf8_view (b :: text))))
                    (wm_line_width
                       (foldl (measure_wrapped_step r max_width)
                              (mk_wrapped_measure 0 0 1 0)
                              (Utf8.utf8_view (b :: text))))) as (H1 & _).
      lra.
    + apply std_max_le; assumption.
  - intros Hne. unfold wrapped_line_count, measure_wrapped_loop.
    split; [|lia].
    unfold measure_wrapped. destruct text as [|b text]; [congruence|].
    reflexivity.
Qed.

Lemma measure_wrapped_within_width_witness :
  (0 <= te_width (measure_wrapped WrapSamples.plain_rasterizer
                    (list_byte_of_string "aa bb cccc d") 3) <= 3)%Q
  /\ (list_byte_of_string "aa bb cccc d" <> [] ->
      te_height (measure_wrapped WrapSamples.plain_rasterizer
                   (list_byte_of_string "aa bb cccc d") 3)
      = (line_height (get_metrics WrapSamples.plain_rasterizer)
         * inject_Z (wrapped_line_count WrapSamples.plain_rasterizer
                       (list_byte_of_string "aa bb cccc d") 3))%Q
      /\ 1 <= wrapped_line_count WrapSamples.plain_rasterizer
                (list_byte_of_string "aa bb cccc d") 3
           <= 1 + Z.of_nat (length (Utf8.utf8_view
                                      (list_byte_of_string "aa bb cccc d")))).
Proof.
  apply (measure_wrapped_within_width WrapSamples.plain_rasterizer
           (list_byte_of_string "aa bb cccc d") 3).
  - reflexivity.
  - intros cp. vm_compute. discriminate.
  - intros a b. vm_compute. discriminate.
Defined.

End MeasureWrappedFacts.

Module DrawWrappedFacts.
Import AtlasSurface TextRasterizer GlyphCache TextRenderer GlyphPacking.
Import Redraw DrawWrapped GlyphCacheFacts GlyphPackingFacts.

Lemma draw_completes c text x y :
  well_formed c ->
  exists w blits c',
    draw c text x y = Ok (w, blits, c')
    /\ well_formed c' /\ extends c c' /\ Forall blit_nonzero blits.
Proof.
  intros Hwf. unfold draw. destruct text as [|b text].
  { exists 0%Q, [], c. split; [reflexivity|]. split; [exact Hwf|].
    split; [apply extends_refl | constructor]. }
  set (y0 := (y + ascent (get_metrics (m_rasterizer c)))%Q).
  destruct (TextRendererFacts.draw_baseline_ok c (b :: text) x y0 Hwf)
    as (blits & c' & Hd & Hnz).
  destruct (RedrawFacts.draw_baseline_again c (b :: text) x y0 Hwf)
    as (w2 & blits2 & c2 & Hd2 & Hwf2 & Hext2 & _).
  rewrite Hd in Hd2. injection Hd2 as _ <- <-.
  eexists _, blits, c'. split; [exact Hd|]. auto.
Qed.

Lemma draw_aligned_completes c text x y width align :
  well_formed c ->
  exists blits c',
    draw_aligned c text x y width align = Ok (blits, c')
    /\ well_formed c' /\ extends c c' /\ Forall blit_nonzero blits.
Proof.
  intros Hwf. unfold draw_aligned. destruct text as [|b text].
  { exists [], c. split; [reflexivity|]. split; [exact Hwf|].
    split; [apply extends_refl | constructor]. }
  cbv zeta.
  match goal with
  | |- context [draw c (b :: text) ?x0 y] =>
    destruct (draw_completes c (b :: text) x0 y Hwf)
      as (w & blits & c' & Hd & Hres)
  end.
  rewrite Hd. exists blits, c'. auto.
Qed.

(** The loop of [draw_baseline] run again on a later cache: the same pen
    and the same places, and that cache is left as it is. *)
Lemma draw_loop_later y cps st1 st1' st2 :
  well_formed (ds_cache st1) -> draw_loop y st1 cps = Ok st1' ->
  well_formed (ds_cache st2) -> extends (ds_cache st1') (ds_cache st2) ->
  ds_pen_x st2 = ds_pen_x st1 ->
  ds_prev_codepoint st2 = ds_prev_codepoint st1 ->
  map blit_place (ds_blits st2) = map blit_place (ds_blits st1) ->
  exists st2',
    draw_loop y st2 cps = Ok st2'
    /\ ds_cache st2' = ds_cache st2
    /\ ds_pen_x st2' = ds_pen_x st1'
    /\ map blit_place (ds_blits st2') = map blit_place (ds_blits st1').
Proof.
  revert st1 st2. induction cps as [|cp cps IH];
    intros st1 st2 Hwf Hloop Hwf2 Hext2 Hpen Hprev Hblits.
  - cbn in Hloop. injection Hloop as <-. exists st2. cbn. auto.
  - cbn [draw_loop] in Hloop.
    destruct (draw_step y st1 cp) as [st1n|e] eqn:Hstep; [|discriminate].
    destruct (RedrawFacts.draw_step_grows y st1 cp st1n Hwf Hstep)
      as (Hwf1 & Hext1 & Hcp).
    destruct (RedrawFacts.draw_loop_grows y cps st1n st1' Hwf1 Hloop)
      as (Hwf' & Hext' & _).
    destruct (RedrawFacts.draw_step_first y st1 cp st1n Hstep)
      as (_ & Hp1 & Hv1 & Hb1).
    set (g := fst (get (ds_cache st1) cp)) in *.
    pose proof (extends_trans _ _ _ Hext' Hext2) as Hext12.
    assert (m_cache (ds_cache st2) !! cp = Some g) as Hg2.
    { destruct Hext12 as (Hkeep & _). apply Hkeep. exact Hcp. }
    assert (m_rasterizer (ds_cache st2) = m_rasterizer (ds_cache st1)) as Hr.
    { destruct (extends_trans _ _ _ Hext1 Hext12) as (_ & _ & _ & _ & Hr).
      exact Hr. }
    assert (kerned_pen st2 cp = kerned_pen st1 cp) as Hk.
    { unfold kerned_pen. rewrite Hpen, Hprev, Hr. reflexivity. }
    destruct (RedrawFacts.draw_step_cached y st2 cp g Hwf2 Hg2)
      as (st2n & Hstep2 & Hc2 & Hp2 & Hv2 & Hb2).
    destruct (IH st1n st2n Hwf1 Hloop) as (st2' & Hloop2 & Hc' & Hres);
      [rewrite Hc2; exact Hwf2 | rewrite Hc2; exact Hext2
       | congruence | congruence | congruence |].
    exists st2'. cbn [draw_loop]. rewrite Hstep2.
    split; [exact Hloop2|]. split; [congruence | exact Hres].
Qed.

(** A text drawn once is drawn the same on every later cache. *)
Lemma draw_later c text x y w blits c1 c2 :
  well_formed c -> draw c text x y = Ok (w, blits, c1) ->
  well_formed c2 -> extends c1 c2 ->
  extends c c1
  /\ exists blits',
       draw c2 text x y = Ok (w, blits', c2)
       /\ map blit_place blits' = map blit_place blits.
Proof.
  intros Hwf Hd Hwf2 Hext. unfold draw, draw_baseline in *.
  destruct text as [|b text].
  { injection Hd as <- <- <-. split; [apply extends_refl|]. exists []. auto. }
  set (cps := Utf8.utf8_view (b :: text)) in *.
  set (y0 := (y + ascent (get_metrics (m_rasterizer c)))%Q) in *.
  destruct (draw_loop y0 (mk_draw_state c x 0 []) cps) as [st1|e] eqn:Hloop;
    [|discriminate].
  injection Hd as <- <- <-.
  destruct (RedrawFacts.draw_loop_grows y0 cps (mk_draw_state c x 0 []) st1
              Hwf Hloop) as (_ & Hext1 & _).
  cbn [ds_cache] in Hext1. split; [exact Hext1|].
  destruct (draw_loop_later y0 cps (mk_draw_state c x 0 []) st1
              (mk_draw_state c2 x 0 []) Hwf Hloop Hwf2 Hext)
    as (st2 & Hloop2 & Hc2 & Hp2 & Hb2); [reflexivity..|].
  assert (m_rasterizer c2 = m_rasterizer c) as Hr.
  { destruct (extends_trans _ _ _ Hext1 Hext) as (_ & _ & _ & _ & Hr).
    exact Hr. }
  rewrite Hr. fold y0. rewrite Hloop2. exists (ds_blits st2).
  split; [|exact Hb2]. cbn [ds_cache] in Hc2. rewrite Hc2, Hp2. reflexivity.
Qed.

(** A line drawn once is drawn on every later cache. *)
Lemma draw_aligned_later c line box align y blits c1 c2 :
  well_formed c ->
  draw_aligned c line (box_x box) y (box_w box) align = Ok (blits, c1) ->
  well_formed c2 -> extends c1 c2 ->
  drawn_on c2 box align y line blits.
Proof.
  intros Hwf Hd Hwf2 Hext. unfold drawn_on.
  unfold draw_aligned in *. destruct line as [|b line].
  { injection Hd as <- <-. exists []. auto. }
  cbv zeta in *.
  match type of Hd with
  | context [draw c (b :: line) ?x0 y] =>
    destruct (draw c (b :: line) x0 y) as [[[w bl] c1']|e] eqn:Hdraw;
      [|discriminate];
    injection Hd as <- <-;
    destruct (draw_later c (b :: line) x0 y w bl c1' c2 Hwf Hdraw Hwf2 Hext)
      as (Hext1 & bl' & Hd2 & Hb2)
  end.
  assert (m_rasterizer c2 = m_rasterizer c) as Hr.
  { destruct (extends_trans _ _ _ Hext1 Hext) as (_ & _ & _ & _ & Hr).
    exact Hr. }
  rewrite Hr, Hd2. exists bl'. auto.
Qed.

Lemma line_top_next float_add line_h top i :
  line_top float_add line_h top (S i)
  = line_top float_add line_h (float_add top line_h) i.
Proof.
  unfold line_top. induction i as [|i IH]; [reflexivity|].
  change (float_add (Nat.iter (S i) (fun y => float_add y line_h) top) line_h
          = float_add (Nat.iter i (fun y => float_add y line_h)
                                (float_add top line_h)) line_h).
  rewrite IH. reflexivity.
Qed.

Lemma draw_wrapped_loop_ok float_add box align line_h wrapped :
  forall c current_y k blits,
    well_formed c ->
    exists (per_line : list (list blit_call)) c',
      draw_wrapped_loop float_add c wrapped box align line_h current_y k blits
      = Ok (k + Z.of_nat (length per_line), blits ++ concat per_line, c')
      /\ (length per_line <= length wrapped)%nat
      /\ Forall blit_nonzero (concat per_line)
      /\ well_formed c' /\ extends c c'
      /\ (forall i, (i < length per_line)%nat ->
            below_box float_add box line_h
                      (line_top float_add line_h current_y i) = false)
      /\ ((length per_line < length wrapped)%nat ->
          below_box float_add box line_h
                    (line_top float_add line_h current_y (length per_line)) = true)
      /\ (forall i line line_blits,
            wrapped !! i = Some line -> per_line !! i = Some line_blits ->
            forall c2, well_formed c2 -> extends c' c2 ->
              drawn_on c2 box align (line_top float_add line_h current_y i)
                       line line_blits).
Proof.
  induction wrapped as [|line rest IH];
    intros c current_y k blits Hwf; cbn [draw_wrapped_loop].
  - exists [], c. cbn [length concat]. rewrite Z.add_0_r, app_nil_r.
    split; [reflexivity|]. split; [lia|]. split; [constructor|].
    split; [exact Hwf|]. split; [apply extends_refl|].
    split; [intros i Hi; lia|]. split; [lia|].
    intros i l bl Hl. rewrite lookup_nil in Hl. discriminate.
  - destruct (below_box float_add box line_h current_y) eqn:E.
    + exists [], c. cbn [length concat]. rewrite Z.add_0_r, app_nil_r.
      split; [reflexivity|]. split; [lia|]. split; [constructor|].
      split; [exact Hwf|]. split; [apply extends_refl|].
      split; [intros i Hi; lia|]. split; [intros _; exact E|].
      intros i l bl _ Hbl. rewrite lookup_nil in Hbl. discriminate.
    + destruct (draw_aligned_completes c line (box_x box) current_y (box_w box)
                  align Hwf) as (bl & c1 & Hd & Hwf1 & Hext1 & Hnz1).
      rewrite Hd.
      destruct (IH c1 (float_add current_y line_h) (k + 1) (blits ++ bl) Hwf1)
        as (per & c' & Hloop & Hlen & Hnz & Hwf' & Hext' & Hin & Hout & Hlines).
      exists (bl :: per), c'. cbn [length concat].
      split.
      { rewrite Hloop.
        replace (k + 1 + Z.of_nat (length per))
          with (k + Z.of_nat (S (length per))) by lia.
        rewrite <- app_assoc. reflexivity. }
      split; [lia|]. split; [apply Forall_app; auto|].
      split; [exact Hwf'|]. split; [exact (extends_trans _ _ _ Hext1 Hext')|].
      split.
      { intros [|i] Hi; [exact E|]. rewrite line_top_next. apply Hin. lia. }
      split.
      { intros Hlt. rewrite line_top_next. apply Hout. lia. }
      intros [|i] l lb Hl Hlb c2 Hwf2 Hext2.
      * cbn in Hl, Hlb. injection Hl as <-. injection Hlb as <-.
        apply (draw_aligned_later c line box align current_y bl c1 c2 Hwf Hd Hwf2).
        exact (extends_trans _ _ _ Hext' Hext2).
      * cbn in Hl, Hlb. rewrite line_top_next.
        exact (Hlines i l lb Hl Hlb c2 Hwf2 Hext2).
Qed.

Lemma wrap_lines_ends r text max_width :
  exists wrapped, wrap_lines r text max_width = Some wrapped.
Proof.
  destruct (Qle_bool max_width 0) eqn:E.
  - exists []. unfold wrap_lines. rewrite E. destruct text; reflexivity.
  - assert (0 < max_width)%Q as Hpos.
    { destruct (Qlt_le_dec 0 max_width) as [H|H]; [exact H|].
      apply Qle_bool_iff in H. congruence. }
    destruct (WrapContentFacts.wrap_lines_content r text max_width Hpos)
      as (wrapped & Hw & _).
    exists wrapped. exact Hw.
Qed.

(** [draw_wrapped] draws the first lines of the wrapped text, each one
    aligned at its height, and stops at the first line the test finds
    below the box. Whatever the rounding of the float sums, on a cache
    built by the constructor and the cache operations it completes and
    returns a number [n] of lines that is at most the number of lines
    [wrap_lines] gives for the width of the box; the test
    [current_y + line_h > box.y + box.h] fails for each of the [n] lines
    drawn and holds for the line of index [n] when a line is left out,
    [current_y] starting at [box.y] and growing by [line_h] with a line;
    the blit calls are, line after line, those of the [n] first lines:
    the calls of a line are the ones [draw_aligned] makes for that line on
    the final cache, at [box.x] and the height of the line, with the width
    of the box and the alignment asked for; every call has a rectangle of
    positive width and height; and the cache only grows. *)
Theorem draw_wrapped_draws_the_lines (float_add : Q -> Q -> Q)
    (c : glyph_cache) (text : list byte) (box : text_box) (align : text_align) :
  reachable c ->
  let line_h := line_height (get_metrics (m_rasterizer c)) in
  exists wrapped (per_line : list (list blit_call)) c',
    wrap_lines (m_rasterizer c) text (box_w box) = Some wrapped
    /\ draw_wrapped float_add c text box align
       = Some (Ok (Z.of_nat (length per_line), concat per_line, c'))
    /\ (length per_line <= length wrapped)%nat
    /\ (forall i, (i < length per_line)%nat ->
          below_box float_add box line_h
                    (line_top float_add line_h (box_y box) i) = false)
    /\ (text <> [] -> (length per_line < length wrapped)%nat ->
        below_box float_add box line_h
                  (line_top float_add line_h (box_y box) (length per_line)) = true)
    /\ (forall i line line_blits,
          wrapped !! i = Some line -> per_line !! i = Some line_blits ->
          drawn_on c' box align (line_top float_add line_h (box_y box) i)
                   line line_blits)
    /\ Forall blit_nonzero (concat per_line)
    /\ extends c c'.
Proof.
  intros Hreach line_h. pose proof (reachable_well_formed c Hreach) as Hwf.
  destruct (wrap_lines_ends (m_rasterizer c) text (box_w box)) as (wrapped & Hw).
  exists wrapped. unfold draw_wrapped.
  destruct text as [|b text].
  { exists [], c. cbn [length concat]. split; [exact Hw|].
    split; [reflexivity|]. split; [lia|]. split; [intros i Hi; lia|].
    split; [congruence|]. split.
    - intros i l bl _ Hbl. rewrite lookup_nil in Hbl. discriminate.
    - split; [constructor | apply extends_refl]. }
  rewrite Hw.
  destruct (draw_wrapped_loop_ok float_add box align line_h wrapped
              c (box_y box) 0 [] Hwf)
    as (per & c' & Hloop & Hlen & Hnz & Hwf' & Hext & Hin & Hout & Hlines).
  exists per, c'. split; [reflexivity|].
  split; [fold line_h; rewrite Hloop; reflexivity|].
  split; [exact Hlen|]. split; [exact Hin|]. split; [intros _; exact Hout|].
  split.
  - intros i l bl Hl Hbl.
    exact (Hlines i l bl Hl Hbl c' Hwf' (extends_refl c')).
  - split; [exact Hnz | exact Hext].
Qed.

Lemma draw_wrapped_draws_the_lines_witness :
  let c := WrapSamples.cache_plain in
  let text := list_byte_of_string "aa bb cccc d" in
  let box := mk_text_box 0 0 3 (5 # 2) in
  let line_h := line_height (get_metrics (m_rasterizer c)) in
  exists wrapped (per_line : list (list blit_call)) c',
    wrap_lines (m_rasterizer c) text (box_w box) = Some wrapped
    /\ draw_wrapped Qplus c text box align_center
       = Some (Ok (Z.of_nat (length per_line), concat per_line, c'))
    /\ (length per_line <= length wrapped)%nat
    /\ (forall i, (i < length per_line)%nat ->
          below_box Qplus box line_h (line_top Qplus line_h (box_y box) i) = false)
    /\ (text <> [] -> (length per_line < length wrapped)%nat ->
        below_box Qplus box line_h
                  (line_top Qplus line_h (box_y box) (length per_line)) = true)
    /\ (forall i line line_blits,
          wrapped !! i = Some line -> per_line !! i = Some line_blits ->
          drawn_on c' box align_center (line_top Qplus line_h (box_y box) i)
                   line line_blits)
    /\ Forall blit_nonzero (concat per_line)
    /\ extends c c'.
Proof.
  apply (draw_wrapped_draws_the_lines Qplus WrapSamples.cache_plain
           (list_byte_of_string "aa bb cccc d") (mk_text_box 0 0 3 (5 # 2))
           align_center).
  apply reachable_new.
Defined.

(** The sample box of height 5/2 takes two of the four lines. *)
Example draw_wrapped_sample :
  exists blits c',
    draw_wrapped Qplus WrapSamples.cache_plain
                 (list_byte_of_string "aa bb cccc d")
                 (mk_text_box 0 0 3 (5 # 2)) align_center
    = Some (Ok (2, blits, c')).
Proof. eexists _, _. vm_compute. reflexivity. Qed.

End DrawWrappedFacts.

Module StrokeBoxFacts.
Import FontSource StrokeBox.

(** The box the loop accumulates holds what it held before and every pen
    position the strokes visit, and each of its sides is the side it had
    or goes through a pen position. *)
Lemma stroke_box_covers strokes :
  forall pen_x pen_y min_x min_y max_x max_y,
    min_x <= pen_x <= max_x -> min_y <= pen_y <= max_y ->
    let '(_, _, min_x', min_y', max_x', max_y') :=
      foldl stroke_box_step (pen_x, pen_y, min_x, min_y, max_x, max_y) strokes in
    (min_x' <= min_x /\ max_x <= max_x' /\ min_y' <= min_y /\ max_y <= max_y')
    /\ (forall p, p ∈ pen_path (pen_x, pen_y) strokes ->
          min_x' <= fst p <= max_x' /\ min_y' <= snd p <= max_y')
    /\ (min_x' = min_x \/ exists p, p ∈ pen_path (pen_x, pen_y) strokes /\ fst p = min_x')
    /\ (max_x' = max_x \/ exists p, p ∈ pen_path (pen_x, pen_y) strokes /\ fst p = max_x')
    /\ (min_y' = min_y \/ exists p, p ∈ pen_path (pen_x, pen_y) strokes /\ snd p = min_y')
    /\ (max_y' = max_y \/ exists p, p ∈ pen_path (pen_x, pen_y) strokes /\ snd p = max_y').
Proof.
  induction strokes as [|cmd rest IH];
    intros pen_x pen_y min_x min_y max_x max_y Hx Hy.
  - cbn. split; [lia|]. split; [|tauto].
    intros p Hp. apply elem_of_cons in Hp as [-> | Hp]; [cbn; lia|].
    apply elem_of_nil in Hp. destruct Hp.
  - cbn [foldl pen_path]. unfold stroke_box_step at 2.
    assert (Hmove :
      let qx := pen_x + cmd_dx cmd in
      let qy := pen_y + cmd_dy cmd in
      let '(_, _, min_x', min_y', max_x', max_y') :=
        foldl stroke_box_step
              (qx, qy, Z.min min_x qx, Z.min min_y qy, Z.max max_x qx, Z.max max_y qy)
              rest in
      (min_x' <= min_x /\ max_x <= max_x' /\ min_y' <= min_y /\ max_y <= max_y')
      /\ (forall p, p ∈ (pen_x, pen_y) :: pen_path (qx, qy) rest ->
            min_x' <= fst p <= max_x' /\ min_y' <= snd p <= max_y')
      /\ (min_x' = min_x
          \/ exists p, p ∈ (pen_x, pen_y) :: pen_path (qx, qy) rest /\ fst p = min_x')
      /\ (max_x' = max_x
          \/ exists p, p ∈ (pen_x, pen_y) :: pen_path (qx, qy) rest /\ fst p = max_x')
      /\ (min_y' = min_y
          \/ exists p, p ∈ (pen_x, pen_y) :: pen_path (qx, qy) rest /\ snd p = min_y')
      /\ (max_y' = max_y
          \/ exists p, p ∈ (pen_x, pen_y) :: pen_path (qx, qy) rest /\ snd p = max_y')).
    { cbv zeta.
      set (qx := pen_x + cmd_dx cmd). set (qy := pen_y + cmd_dy cmd).
      specialize (IH qx qy (Z.min min_x qx) (Z.min min_y qy)
                     (Z.max max_x qx) (Z.max max_y qy) ltac:(lia) ltac:(lia)).
      assert (Hq : (qx, qy) ∈ pen_path (qx, qy) rest)
        by (destruct rest; apply elem_of_cons; left; reflexivity).
      destruct (foldl stroke_box_step _ rest) as [[[[[px py] mx] my] Mx] My].
      destruct IH as (Hmono & Hall & Hmx & HMx & Hmy & HMy).
      split; [lia|]. split.
      { intros p Hp. apply elem_of_cons in Hp as [-> | Hp]; [cbn; lia|].
        exact (Hall p Hp). }
      split; [|split; [|split]].
      - destruct Hmx as [E | (p & Hp & E)].
        + destruct (Z.min_spec min_x qx) as [[_ E'] | [_ E']].
          * left. lia.
          * right. exists (qx, qy). split; [apply elem_of_cons; right; exact Hq|].
            cbn. lia.
        + right. exists p. split; [apply elem_of_cons; right; exact Hp | exact E].
      - destruct HMx as [E | (p & Hp & E)].
        + destruct (Z.max_spec max_x qx) as [[_ E'] | [_ E']].
          * right. exists (qx, qy). split; [apply elem_of_cons; right; exact Hq|].
            cbn. lia.
          * left. lia.
        + right. exists p. split; [apply elem_of_cons; right; exact Hp | exact E].
      - destruct Hmy as [E | (p & Hp & E)].
        + destruct (Z.min_spec min_y qy) as [[_ E'] | [_ E']].
          * left. lia.
          * right. exists (qx, qy). split; [apply elem_of_cons; right; exact Hq|].
            cbn. lia.
        + right. exists p. split; [apply elem_of_cons; right; exact Hp | exact E].
      - destruct HMy as [E | (p & Hp & E)].
        + destruct (Z.max_spec max_y qy) as [[_ E'] | [_ E']].
          * right. exists (qx, qy). split; [apply elem_of_cons; right; exact Hq|].
            cbn. lia.
          * left. lia.
        + right. exists p. split; [apply elem_of_cons; right; exact Hp | exact E]. }
    destruct (cmd_type cmd) eqn:Et; cbn [fst snd].
    + exact Hmove.
    + exact Hmove.
    + specialize (IH pen_x pen_y min_x min_y max_x max_y Hx Hy).
      destruct (foldl stroke_box_step _ rest) as [[[[[px py] mx] my] Mx] My].
      destruct IH as (Hmono & Hall & Hmx & HMx & Hmy & HMy).
      split; [exact Hmono|]. split.
      { intros p Hp. apply elem_of_cons in Hp as [-> | Hp]; [cbn; lia|].
        exact (Hall p Hp). }
      split; [|split; [|split]].
      * destruct Hmx as [E | (p & Hp & E)]; [left; exact E|].
        right. exists p. split; [apply elem_of_cons; right; exact Hp | exact E].
      * destruct HMx as [E | (p & Hp & E)]; [left; exact E|].
        right. exists p. split; [apply elem_of_cons; right; exact Hp | exact E].
      * destruct Hmy as [E | (p & Hp & E)]; [left; exact E|].
        right. exists p. split; [apply elem_of_cons; right; exact Hp | exact E].
      * destruct HMy as [E | (p & Hp & E)]; [left; exact E|].
        right. exists p. split; [apply elem_of_cons; right; exact Hp | exact E].
Qed.

(** The box a vector glyph is measured from is the bounding box of its pen
    path. The loop of [get_glyph_metrics] over the strokes of a glyph,
    started at the origin with an empty box, ends with a box that holds
    the origin and every position the pen visits, and each side of the
    box goes through one of them; an [END] command neither moves the pen
    nor ends the loop. *)
Theorem stroke_box_is_the_bounding_box (strokes : list stroke_command) :
  let '(_, _, min_x, min_y, max_x, max_y) :=
    foldl stroke_box_step (0, 0, 0, 0, 0, 0) strokes in
  (0, 0) ∈ pen_path (0, 0) strokes
  /\ (forall p, p ∈ pen_path (0, 0) strokes ->
        min_x <= fst p <= max_x /\ min_y <= snd p <= max_y)
  /\ (exists p, p ∈ pen_path (0, 0) strokes /\ fst p = min_x)
  /\ (exists p, p ∈ pen_path (0, 0) strokes /\ fst p = max_x)
  /\ (exists p, p ∈ pen_path (0, 0) strokes /\ snd p = min_y)
  /\ (exists p, p ∈ pen_path (0, 0) strokes /\ snd p = max_y).
Proof.
  pose proof (stroke_box_covers strokes 0 0 0 0 0 0 ltac:(lia) ltac:(lia)) as H.
  assert (Horigin : (0, 0) ∈ pen_path (0, 0) strokes)
    by (destruct strokes; apply elem_of_cons; left; reflexivity).
  destruct (foldl stroke_box_step (0, 0, 0, 0, 0, 0) strokes)
    as [[[[[px py] mx] my] Mx] My].
  destruct H as (_ & Hall & Hmx & HMx & Hmy & HMy).
  split; [exact Horigin|]. split; [exact Hall|].
  split; [|split; [|split]].
  - destruct Hmx as [-> | H]; [exists (0, 0); auto | exact H].
  - destruct HMx as [-> | H]; [exists (0, 0); auto | exact H].
  - destruct Hmy as [-> | H]; [exists (0, 0); auto | exact H].
  - destruct HMy as [-> | H]; [exists (0, 0); auto | exact H].
Qed.

End StrokeBoxFacts.

Module RasterizeTextFacts.
Import FontSource TextRasterizer RasterTarget BitmapRaster RasterizeText.
Import RasterTargetFacts BitmapRasterFacts.

(** *** Rounding a whole number *)



(** *** A glyph leaves the shape of the target as it is *)



(** *** The advance of a bitmap glyph is a whole number *)


(** *** The loop *)





End RasterizeTextFacts.
